(** * Metacells: divide-and-conquer result aggregation and candidate refinement

    A shallow embedding of

    - [metacells/pipeline/divide_and_conquer.py]: the per-pile fan-out and the
      functions that splice per-pile and outlier results into the complete
      data ([_collect_piles_results], [_collect_pile_results],
      [_collect_outliers_results]);
    - [metacells/tools/candidates.py]: [compute_candidate_metacells] and the
      [Improver] class ([add], [remove], [improve], [merge_few_or_small],
      [split_large], [pack], [fill]).

    Python integers are unbounded, so they are [Z]; Python floats are IEEE
    754 doubles, taken from [SpecFloat] with 53 bits of precision.  Numpy
    vectors are lists; a vector that is stored as an annotation carries its
    [dtype], and a value written to it is cast to that type.  A boolean mask
    is a [list bool] of the same length as the vector it selects from.
    Community sizes are sums that numpy accumulates in 64 bits; they are
    taken here without wrap-around. *)

From Stdlib Require Import String Ascii.
From Stdlib Require Import ZArith List Lia Bool Arith SpecFloat.
From Stdlib Require Import Wellfounded Relation_Operators Lexicographic_Product.
From Stdlib Require Import Permutation Sorting.
Import ListNotations.

Open Scope Z_scope.

(** ** Outcomes of Python code *)

(** The exceptions the modelled code raises. *)
Inductive exn : Type :=
| AssertionError
| ValueError
| IndexError
| KeyError
| TypeError
| OverflowError.

(** A Python call either returns, raises, or (in the model only) runs out of
    the fuel that bounds its [while] loops. *)
Inductive outcome (A : Type) : Type :=
| Ok (a : A)
| Raised (e : exn)
| OutOfFuel.

Arguments Ok {A} a.
Arguments Raised {A} e.
Arguments OutOfFuel {A}.

Definition bind {A B : Type} (m : outcome A) (f : A -> outcome B) : outcome B :=
  match m with
  | Ok a => f a
  | Raised e => Raised e
  | OutOfFuel => OutOfFuel
  end.

Notation "'do' x <- m ; k" := (bind m (fun x => k))
  (at level 10, x pattern, m at level 99, k at level 200).

(** [assert cond] *)
Definition assert (cond : bool) : outcome unit :=
  if cond then Ok tt else Raised AssertionError.

(** ** Numpy helpers *)

(** [np.max(v)]; numpy raises [ValueError] on an empty vector. *)
Definition np_max (v : list Z) : outcome Z :=
  match v with
  | [] => Raised ValueError
  | x :: rest => Ok (fold_left Z.max rest x)
  end.

(** [np.sum(v)] *)
Fixpoint np_sum (v : list Z) : Z :=
  match v with
  | [] => 0
  | x :: v' => x + np_sum v'
  end.

(** [np.sum(mask)]: the number of [True] entries. *)
Fixpoint count_true (mask : list bool) : Z :=
  match mask with
  | [] => 0
  | b :: mask' => if b then Z.succ (count_true mask') else count_true mask'
  end.

(** [v[mask]] for a boolean [mask] (numpy requires equal lengths). *)
Fixpoint select {A : Type} (v : list A) (mask : list bool) : list A :=
  match v, mask with
  | x :: v', b :: mask' => if b then x :: select v' mask' else select v' mask'
  | _, _ => []
  end.

(** [v[mask] = value] for a boolean [mask] and a scalar [value]. *)
Fixpoint assign_mask (v : list Z) (mask : list bool) (value : Z) : list Z :=
  match v, mask with
  | x :: v', b :: mask' => (if b then value else x) :: assign_mask v' mask' value
  | _, _ => v
  end.

(** [v[mask] = values] for a boolean [mask] and a vector [values] with one
    entry per [True] of the mask. *)
Fixpoint assign_vector (v : list Z) (mask : list bool) (values : list Z) : list Z :=
  match v, mask with
  | x :: v', true :: mask' =>
      match values with
      | y :: values' => y :: assign_vector v' mask' values'
      | [] => v
      end
  | x :: v', false :: mask' => x :: assign_vector v' mask' values
  | _, _ => v
  end.

(** *** Typed vectors *)

(** The two types of the vectors that [_initial_divide_and_conquer_results]
    creates. *)
Inductive Dtype : Type :=
| DInt32
| DBool.

(** [x.astype('int32')] on an integer: the value modulo [2^32], between
    [-2^31] and [2^31 - 1]. *)
Definition astype_int32 (x : Z) : Z := (x + 2 ^ 31) mod 2 ^ 32 - 2 ^ 31.

(** The value that an entry of type [dtype] holds when [x] is written to it:
    an int32 wraps around, a bool is [True] (one) for every [x] but zero. *)
Definition cast (dtype : Dtype) (x : Z) : Z :=
  match dtype with
  | DInt32 => astype_int32 x
  | DBool => if x =? 0 then 0 else 1
  end.

(** A numpy vector with its type. *)
Record Vector : Type := {
  dtype : Dtype;
  data : list Z
}.

(** The types that numpy knows among the [dtype] names the source passes;
    [np.full] raises [TypeError] for a name that is no type. *)
Definition np_dtype (name : string) : outcome Dtype :=
  if String.eqb name "int32" then Ok DInt32
  else if String.eqb name "bool" then Ok DBool
  else Raised TypeError.

(** [np.full(n, value, dtype=name)] *)
Definition np_full (n : nat) (value : Z) (name : string) : outcome Vector :=
  do dtype <- np_dtype name;
  Ok {| dtype := dtype; data := repeat (cast dtype value) n |}.

(** The position of the index [i] in a vector of [n] entries: a negative
    index counts from the end, and an index outside [-n .. n - 1] raises
    [IndexError]. *)
Definition np_index (n : nat) (i : Z) : outcome nat :=
  if (0 <=? i) && (i <? Z.of_nat n) then Ok (Z.to_nat i)
  else if (- Z.of_nat n <=? i) && (i <? 0) then Ok (Z.to_nat (i + Z.of_nat n))
  else Raised IndexError.

Fixpoint np_indices (n : nat) (indices : list Z) : outcome (list nat) :=
  match indices with
  | [] => Ok []
  | i :: indices' =>
      do position <- np_index n i;
      do positions <- np_indices n indices';
      Ok (position :: positions)
  end.

(** Broadcasting [values] to [count] entries: a vector of that many entries
    is taken as it is, a vector of one entry is repeated, and any other
    raises [ValueError]. *)
Definition broadcast (count : nat) (values : list Z) : outcome (list Z) :=
  if (length values =? count)%nat then Ok values
  else
    match values with
    | [x] => Ok (repeat x count)
    | _ => Raised ValueError
    end.

(** [v[position] = x] for a position of the vector. *)
Fixpoint set_at (v : list Z) (position : nat) (x : Z) : list Z :=
  match v, position with
  | [], _ => []
  | _ :: v', O => x :: v'
  | y :: v', S position' => y :: set_at v' position' x
  end.

(** The entries are written in order, so a repeated position keeps the last
    value written. *)
Fixpoint write_all (v : list Z) (positions : list nat) (values : list Z) : list Z :=
  match positions, values with
  | position :: positions', x :: values' => write_all (set_at v position x) positions' values'
  | _, _ => v
  end.

(** [v[indices] = values] *)
Definition scatter (v : Vector) (indices : list Z) (values : list Z) : outcome Vector :=
  do values <- broadcast (length indices) values;
  do positions <- np_indices (length (data v)) indices;
  Ok {| dtype := dtype v;
        data := write_all (data v) positions (map (cast (dtype v)) values) |}.

(** [v[indices]] *)
Definition gather (v : Vector) (indices : list Z) : outcome (list Z) :=
  do positions <- np_indices (length (data v)) indices;
  Ok (map (fun position => nth position (data v) 0) positions).

(** The type of [a + b]: two masks give a mask, any other pair an int32. *)
Definition promote (a b : Dtype) : Dtype :=
  match a, b with
  | DBool, DBool => DBool
  | _, _ => DInt32
  end.

(** [a + b] for two vectors of one length, or with one of them of a single
    entry; other lengths raise [ValueError]. *)
Definition np_add (a b : Vector) : outcome Vector :=
  let dtype := promote (dtype a) (dtype b) in
  let count :=
    if (length (data a) =? 1)%nat then length (data b) else length (data a) in
  do x <- broadcast count (data a);
  do y <- broadcast count (data b);
  Ok {| dtype := dtype;
        data := map (fun xy : Z * Z => cast dtype (fst xy + snd xy)) (combine x y) |}.

(** [v[v >= 0] += offset] on the entries of an int32 vector: the entries
    that are not negative are shifted (and wrap around as int32 sums do),
    the negative ones are kept.  Numpy refuses the sum for a mask. *)
Definition offset_assigned (v : Vector) (offset : Z) : outcome Vector :=
  match dtype v with
  | DInt32 =>
      Ok {| dtype := DInt32;
            data := map (fun x => if 0 <=? x then astype_int32 (x + offset) else x) (data v) |}
  | DBool => Raised TypeError
  end.

(** ** Divide and conquer: collecting the results
    ([metacells/pipeline/divide_and_conquer.py]) *)

Module DivideAndConquer.

(** *** Annotated data *)

(** A dictionary with names as keys: the pairs, in the order of insertion. *)
Definition annotations (V : Type) : Type := list (string * V).

(** [annotations.get(name)] *)
Fixpoint lookup {V : Type} (name : string) (a : annotations V) : option V :=
  match a with
  | [] => None
  | (key, value) :: rest => if String.eqb key name then Some value else lookup name rest
  end.

(** [annotations[name] = value] *)
Fixpoint store {V : Type} (name : string) (value : V) (a : annotations V)
    : annotations V :=
  match a with
  | [] => [(name, value)]
  | (key, old) :: rest =>
      if String.eqb key name then (key, value) :: rest
      else (key, old) :: store name value rest
  end.

(** The annotated data: the numbers of cells and of genes, the unstructured
    metadata [uns], the per-cell vectors [obs] and the per-gene vectors
    [var]. *)
Record AnnData : Type := {
  n_obs : nat;
  n_vars : nat;
  uns : annotations Z;
  obs : annotations Vector;
  var : annotations Vector
}.

(** [ut.get_m_data(adata, name)] without [compute]: [KeyError] when the name
    is not among the metadata. *)
Definition get_m_data (adata : AnnData) (name : string) : outcome Z :=
  match lookup name (uns adata) with
  | Some data => Ok data
  | None => Raised KeyError
  end.

(** ['__' in name] *)
Fixpoint has_double_underscore (name : string) : bool :=
  match name with
  | String a tail =>
      match tail with
      | String b _ =>
          (Ascii.eqb a "_" && Ascii.eqb b "_") || has_double_underscore tail
      | EmptyString => false
      end
  | EmptyString => false
  end.

(** [_get_shaped_data] for per-cell or per-gene [annotations], without
    [compute]. *)
Definition _get_shaped_data (annotations : annotations Vector) (name : string)
    : outcome Vector :=
  do _ <- assert (negb (has_double_underscore name));
  match lookup name annotations with
  | Some data => Ok data
  | None => Raised KeyError
  end.

(** [ut.get_o_data(adata, name)] *)
Definition get_o_data (adata : AnnData) (name : string) : outcome Vector :=
  _get_shaped_data (obs adata) name.

(** [ut.get_v_data(adata, name)] *)
Definition get_v_data (adata : AnnData) (name : string) : outcome Vector :=
  _get_shaped_data (var adata) name.

(** Modelled from the spec: [ut.set_m_data], [ut.set_o_data] and
    [ut.set_v_data] are not among the sources.  The accumulator of the spec
    is written slot by slot; here a setter puts the value under the name,
    in place of the value that was there. *)
Definition set_m_data (adata : AnnData) (name : string) (value : Z) : AnnData :=
  {| n_obs := n_obs adata; n_vars := n_vars adata;
     uns := store name value (uns adata); obs := obs adata; var := var adata |}.

Definition set_o_data (adata : AnnData) (name : string) (value : Vector) : AnnData :=
  {| n_obs := n_obs adata; n_vars := n_vars adata;
     uns := uns adata; obs := store name value (obs adata); var := var adata |}.

Definition set_v_data (adata : AnnData) (name : string) (value : Vector) : AnnData :=
  {| n_obs := n_obs adata; n_vars := n_vars adata;
     uns := uns adata; obs := obs adata; var := store name value (var adata) |}.

(** [_modify]: the value under [name] is replaced by what [modifier] makes
    of it (a modifier that changes a vector in place returns [None] in the
    source; the vector it has changed is then the new value). *)
Definition _modify {V : Type} (adata : AnnData)
    (getter : AnnData -> string -> outcome V)
    (setter : AnnData -> string -> V -> AnnData)
    (name : string) (modifier : V -> outcome V) : outcome AnnData :=
  do old_value <- getter adata name;
  do new_value <- modifier old_value;
  Ok (setter adata name new_value).

(** [for name, always in names: if always or flag: body(name)], on the data
    that the bodies modify. *)
Fixpoint for_each (names : list (string * bool)) (flag : bool)
    (body : string -> AnnData -> outcome AnnData) (adata : AnnData) : outcome AnnData :=
  match names with
  | [] => Ok adata
  | (name, always) :: rest =>
      do adata <- (if always || flag then body name adata else Ok adata);
      for_each rest flag body adata
  end.

(** [_initial_divide_and_conquer_results] *)
Fixpoint set_all (setter : AnnData -> string -> Vector -> AnnData) (count : nat)
    (entries : list (string * bool * Z * string)) (intermediate : bool)
    (adata : AnnData) : outcome AnnData :=
  match entries with
  | [] => Ok adata
  | (name, always, value, dtype) :: rest =>
      do adata <-
        (if always || intermediate
         then do vector <- np_full count value dtype; Ok (setter adata name vector)
         else Ok adata);
      set_all setter count rest intermediate adata
  end.

Definition _initial_divide_and_conquer_results (adata : AnnData) (intermediate : bool)
    (pre_metacell : bool) : outcome AnnData :=
  let adata := set_m_data adata "pre_directs" 0 in
  let adata := set_m_data adata "final_directs" 0 in
  do adata <-
    set_all set_v_data (n_vars adata)
      [ ("pre_high_fraction_gene", false, 0, "int32");
        ("high_fraction_gene", false, 0, "int32");
        ("pre_high_relative_variance_gene", false, 0, "int32");
        ("high_relative_variance_gene", false, 0, "int32");
        ("forbidden", false, 0, "bool");
        ("pre_feature", false, 0, "bool");
        ("feature", true, 0, "bool");
        ("pre_gene_deviant_votes", false, 0, "pre_gene_deviant_votes");
        ("gene_deviant_votes", false, 0, "gene_deviant_votes") ]%string
      intermediate adata;
  set_all set_o_data (n_obs adata)
    [ ("pre_cell_directs", false, 0, "int32");
      ("final_cell_directs", false, 0, "int32");
      ("pre_pile", false, -1, "int32");
      ("pile", false, -1, "int32");
      ("pre_candidate", false, -1, "int32");
      ("candidate", false, -1, "int32");
      ("pre_cell_deviant_votes", false, 0, "int32");
      ("cell_deviant_votes", false, 0, "int32");
      ("pre_dissolved", false, 0, "bool");
      ("dissolved", false, 0, "bool");
      ("pre_metacell", pre_metacell, -1, "int32");
      ("metacell", true, -1, "int32");
      ("outlier", false, 0, "bool") ]%string
    intermediate adata.

(** *** The results of a pile *)

(** A pandas data frame: its index and its named columns, each with one
    entry per entry of the index. *)
Record DataFrame : Type := {
  frame_index : list Z;
  columns : annotations Vector
}.

(** [frame[name]] *)
Definition column (frame : DataFrame) (name : string) : outcome Vector :=
  match lookup name (columns frame) with
  | Some data => Ok data
  | None => Raised KeyError
  end.

(** The local function [_prefix] of the two collection functions. *)
Definition _prefix (is_final : bool) (name : string) (final_prefix : string) : string :=
  if is_final then (final_prefix ++ name)%string else ("pre_" ++ name)%string.

(** [v[indices] += values]: the entries at the indices are read, the values
    are added, and the sums are written back. *)
Definition scatter_add (v : Vector) (indices : list Z) (values : list Z)
    : outcome Vector :=
  do old <- gather v indices;
  do values <- broadcast (length old) values;
  scatter v indices (map (fun xy : Z * Z => fst xy + snd xy) (combine old values)).

(** [_collect_pile_results]: the updated data and the returned
    [metacells_count] (the sum of the largest entry and one is an integer
    of 64 bits, and is taken without wrap-around). *)
Definition _collect_pile_results (cdata : AnnData) (is_final : bool)
    (cells_frame genes_frame : DataFrame) (metacells_count : Z) (pile_index : Z)
    (intermediate : bool) : outcome (AnnData * Z) :=
  do cdata <-
    _modify cdata get_m_data set_m_data (_prefix is_final "directs" "final")
      (fun directs => Ok (directs + 1));
  do cdata <-
    for_each [ ("high_fraction_gene", false);
               ("high_relative_variance_gene", false);
               ("feature", is_final);
               ("gene_deviant_votes", false) ]%string
      intermediate
      (fun name cdata =>
         _modify cdata get_v_data set_v_data (_prefix is_final name "")
           (fun value_of_genes =>
              do values <- column genes_frame name;
              np_add value_of_genes values))
      cdata;
  let cell_indices := frame_index cells_frame in
  do pile_metacells <- column cells_frame "metacell";
  do pile_metacells <- offset_assigned pile_metacells metacells_count;
  do top <- np_max (data pile_metacells);
  let metacells_count := top + 1 in
  do cdata <-
    _modify cdata get_o_data set_o_data (_prefix is_final "metacell" "")
      (fun metacell_of_cells => scatter metacell_of_cells cell_indices (data pile_metacells));
  if negb intermediate then Ok (cdata, metacells_count)
  else
    do cdata <-
      _modify cdata get_o_data set_o_data (_prefix is_final "cell_directs" "final")
        (fun directs_of_cells => scatter_add directs_of_cells cell_indices [1]);
    do cdata <-
      _modify cdata get_o_data set_o_data (_prefix is_final "pile" "")
        (fun pile_of_cells => scatter pile_of_cells cell_indices [pile_index]);
    do cdata <-
      for_each [ ("candidate", true);
                 ("cell_deviant_votes", true);
                 ("dissolved", true);
                 ("outlier", false) ]%string
        is_final
        (fun name cdata =>
           _modify cdata get_o_data set_o_data (_prefix is_final name "")
             (fun value_of_cells =>
                do values <- column cells_frame name;
                scatter value_of_cells cell_indices (data values)))
        cdata;
    Ok (cdata, metacells_count).

(** [phase in ('preliminary', 'final')] *)
Definition is_phase (phase : string) : bool :=
  String.eqb phase "preliminary" || String.eqb phase "final".

(** The loop of [_collect_piles_results] over [enumerate(results_of_piles)].
    The call's return value is not bound to anything in the source, so the
    [metacells_count] given to the next pile is the one given to this pile. *)
Fixpoint collect_piles_loop (cdata : AnnData) (is_final : bool)
    (results_of_piles : list (DataFrame * DataFrame)) (metacells_count : Z)
    (pile_index : Z) (intermediate : bool) : outcome AnnData :=
  match results_of_piles with
  | [] => Ok cdata
  | (cells_frame, genes_frame) :: rest =>
      do r <- _collect_pile_results cdata is_final cells_frame genes_frame
                metacells_count pile_index intermediate;
      collect_piles_loop (fst r) is_final rest metacells_count (pile_index + 1)
        intermediate
  end.

(** [_collect_piles_results] *)
Definition _collect_piles_results (cdata : AnnData)
    (results_of_piles : list (DataFrame * DataFrame)) (phase : string)
    (intermediate : bool) : outcome (AnnData * Z) :=
  do _ <- assert (is_phase phase);
  let is_final := String.eqb phase "final" in
  let metacells_count := 0 in
  do cdata <- collect_piles_loop cdata is_final results_of_piles metacells_count 0
                intermediate;
  Ok (cdata, metacells_count).

(** [_collect_outliers_results] *)
Definition _collect_outliers_results (cdata : AnnData) (odata : AnnData)
    (phase : string) (metacells_count : Z) (piles_count : Z) (intermediate : bool)
    : outcome AnnData :=
  do _ <- assert (is_phase phase);
  let is_final := String.eqb phase "final" in
  do cdata <-
    _modify cdata get_m_data set_m_data (_prefix is_final "directs" "final")
      (fun directs =>
         do pre_directs <- get_m_data odata "pre_directs";
         do final_directs <- get_m_data odata "final_directs";
         Ok (directs + pre_directs + final_directs));
  do cdata <-
    for_each [ ("high_fraction_gene", false);
               ("high_relative_variance_gene", false);
               ("feature", is_final);
               ("gene_deviant_votes", false) ]%string
      intermediate
      (fun name cdata =>
         _modify cdata get_v_data set_v_data (_prefix is_final name "")
           (fun value_of_genes =>
              do pre_values <- get_v_data odata ("pre_" ++ name)%string;
              do sum <- np_add value_of_genes pre_values;
              do values <- get_v_data odata name;
              np_add sum values))
      cdata;
  do cell_indices <- get_o_data odata "complete_cell_index";
  let cell_indices := data cell_indices in
  do outlier_metacells <- get_o_data odata "metacell";
  do outlier_metacells <- offset_assigned outlier_metacells metacells_count;
  do cdata <-
    _modify cdata get_o_data set_o_data (_prefix is_final "metacell" "")
      (fun metacell_of_cells =>
         scatter metacell_of_cells cell_indices (data outlier_metacells));
  if negb intermediate then Ok cdata
  else
    do cdata <-
      _modify cdata get_o_data set_o_data (_prefix is_final "cell_directs" "final")
        (fun directs_of_cells =>
           do old <- gather directs_of_cells cell_indices;
           do pre_cell_directs <- get_v_data odata "pre_cell_directs";
           do cell_directs <- get_v_data odata "cell_directs";
           do sum <- np_add pre_cell_directs cell_directs;
           do values <- broadcast (length old) (data sum);
           scatter directs_of_cells cell_indices
             (map (fun xy : Z * Z => fst xy + snd xy) (combine old values)));
    do outlier_piles <- get_o_data odata "pile";
    do outlier_piles <- offset_assigned outlier_piles piles_count;
    do cdata <-
      _modify cdata get_o_data set_o_data "pre_pile"
        (fun pile_of_cells => scatter pile_of_cells cell_indices (data outlier_piles));
    for_each [ ("candidate", true);
               ("cell_deviant_votes", true);
               ("dissolved", true);
               ("outlier", false) ]%string
      is_final
      (fun name cdata =>
         _modify cdata get_o_data set_o_data (_prefix is_final name "")
           (fun value_of_cells =>
              do values <- get_o_data odata name;
              scatter value_of_cells cell_indices (data values)))
      cdata.

(** *** The parallel phase of [_compute_piled_metacells] *)

(** The arguments of one [compute_direct_metacells] call that differ between
    calls: the cells of the pile, [must_complete_cover] and [random_seed]. *)
Record DirectCall : Type := {
  call_cells_mask : list bool;
  call_must_complete_cover : bool;
  call_random_seed : Z
}.

(** [np.any(mask)] *)
Definition np_any (mask : list bool) : bool := existsb (fun b => b) mask.

(** The [compute_direct_metacells] call of [_compute_pile_metacells] for the
    pile [pile_index]. *)
Definition _compute_pile_metacells (pile_of_cells : list Z) (random_seed : Z)
    (pile_index : Z) : outcome DirectCall :=
  let pile_cells_mask := map (fun p => p =? pile_index) pile_of_cells in
  do _ <- assert (np_any pile_cells_mask);
  Ok {| call_cells_mask := pile_cells_mask;
        call_must_complete_cover := false;
        call_random_seed := random_seed |}.

(** [range(n)] *)
Definition range (n : Z) : list Z := map Z.of_nat (seq 0 (Z.to_nat n)).

(** [ut.parallel_map(function, count)]: the results for the indices below
    [count], in the order of the indices; an exception of a call is the
    exception of the map. *)
Fixpoint map_outcome {A B : Type} (function : A -> outcome B) (l : list A)
    : outcome (list B) :=
  match l with
  | [] => Ok []
  | x :: l' =>
      do y <- function x;
      do ys <- map_outcome function l';
      Ok (y :: ys)
  end.

(** The calls that [_compute_piled_metacells] makes through
    [ut.parallel_map(_compute_pile_metacells, piles_count)]. *)
Definition pile_calls (pile_of_cells : list Z) (random_seed : Z) : outcome (list DirectCall) :=
  do top <- np_max pile_of_cells;
  let piles_count := top + 1 in
  do _ <- assert (1 <? piles_count);
  map_outcome (_compute_pile_metacells pile_of_cells random_seed) (range piles_count).

(** *** [divide_and_conquer_pipeline] *)



End DivideAndConquer.


(** ** Downsampling seeds ([metacells/utilities/computation.py]) *)

(** The seed that [_downsample_sparse_matrix] and [_downsample_dense_matrix]
    give to the vector [index]. *)
Definition index_seed (random_seed : Z) (index : Z) : Z :=
  if negb (random_seed =? 0) then random_seed + index else 0.

(** ** Candidate metacells ([metacells/tools/candidates.py]) *)

(** Metadata about a community (the [Community] dataclass). *)
Module Community.

Record t : Type := {
  index : Z;
  nodes : Z;
  size : Z;
  mask : list bool;
  too_few : Z;
  too_small : Z;
  too_large : Z;
  monolithic : bool
}.

(** [community.monolithic = True] *)
Definition set_monolithic (c : t) : t :=
  {| index := index c; nodes := nodes c; size := size c; mask := mask c;
     too_few := too_few c; too_small := too_small c; too_large := too_large c;
     monolithic := true |}.

End Community.

(** What the ghost trace of an [Improver] records: each call of the partition
    method on the nodes of a too-large community (with the index of the
    community and the number of communities the method returned), and each
    assignment of [penalty] in the loop of [improve]. *)
Inductive Event : Type :=
| SplitAttempt (community_index : Z) (split_communities_count : Z)
| Penalty (too_few : Z) (too_small_and_large : Z).

(** The attributes of an [Improver] that [__init__] sets from its arguments
    and that no method assigns again. *)
Record Config (F : Type) : Type := {
  edge_weights : list (list F);
  node_sizes : option (list Z);
  target_comm_size : Z;
  must_complete_cover : bool;
  min_comm_size : option Z;
  max_comm_size : option Z;
  min_comm_nodes : option Z;
  random_seed : Z
}.

Arguments edge_weights {F} _.
Arguments node_sizes {F} _.
Arguments target_comm_size {F} _.
Arguments must_complete_cover {F} _.
Arguments min_comm_size {F} _.
Arguments max_comm_size {F} _.
Arguments min_comm_nodes {F} _.
Arguments random_seed {F} _.

(** The attributes of an [Improver] that its methods modify, and the ghost
    [trace]. *)
Record Improver : Type := {
  membership : list Z;
  communities : list Community.t;
  too_few : Z;
  too_small : Z;
  too_large : Z;
  next_community_index : Z;
  trace : list Event
}.

(** [a < b] on pairs of integers, as Python compares tuples. *)
Definition tuple_ltb (a b : Z * Z) : bool :=
  (fst a <? fst b) || ((fst a =? fst b) && (snd a <? snd b)).

(** [l[position:position+1] = []] *)
Definition delete_at {A : Type} (position : nat) (l : list A) : list A :=
  firstn position l ++ skipn (S position) l.

(** [l[position] = x] *)
Definition replace_at {A : Type} (position : nat) (x : A) (l : list A) : list A :=
  firstn position l ++ x :: skipn (S position) l.

(** Insertion into a list that has no duplicates and is in increasing order. *)
Fixpoint insert_unique (x : Z) (l : list Z) : list Z :=
  match l with
  | [] => [x]
  | y :: l' =>
      if x <? y then x :: l
      else if x =? y then l
      else y :: insert_unique x l'
  end.

(** The keys of a pandas [groupby]: the distinct values, in increasing
    order. *)
Definition groupby_keys (labels : list Z) : list Z := fold_right insert_unique [] labels.

(** [sorted(l)] by insertion, for the order [leb]. *)
Fixpoint insert_sorted {A : Type} (leb : A -> A -> bool) (x : A) (l : list A) : list A :=
  match l with
  | [] => [x]
  | y :: l' => if leb x y then x :: l else y :: insert_sorted leb x l'
  end.

Definition sorted {A : Type} (leb : A -> A -> bool) (l : list A) : list A :=
  fold_right (insert_sorted leb) [] l.

(** [a <= b] on the tuples [(nodes, size, position, index)] of [fill]. *)
Definition candidate_leb (a b : Z * Z * nat * Z) : bool :=
  let '(a1, a2, a3, a4) := a in
  let '(b1, b2, b3, b4) := b in
  (a1 <? b1) || ((a1 =? b1) &&
    ((a2 <? b2) || ((a2 =? b2) &&
      ((a3 <? b3)%nat || ((a3 =? b3)%nat && (a4 <=? b4)))))).

(** The steps of [compute_candidate_metacells] that do clustering work, in
    the order in which the function reaches them. *)
Inductive Step : Type :=
| CallPartitionMethod
| ConstructImprover
| CallImprove
| CallPack
| CallFill.

(** An outcome together with the steps reached before it. *)
Definition traced (A : Type) : Type := (list Step * outcome A)%type.

Definition lift {A : Type} (m : outcome A) : traced A := ([], m).

Definition step (s : Step) : traced unit := ([s], Ok tt).

Definition tbind {A B : Type} (m : traced A) (f : A -> traced B) : traced B :=
  match snd m with
  | Ok a => (fst m ++ fst (f a), snd (f a))
  | Raised e => (fst m, Raised e)
  | OutOfFuel => (fst m, OutOfFuel)
  end.

Notation "'run' x <- m ; k" := (tbind m (fun x => k))
  (at level 10, x pattern, m at level 99, k at level 200).

Section Candidates.

(** The type of the edge weights (floating point numbers in the source), the
    mean of a group of them and their zero. *)
Variable F : Type.
Variable fmean : list F -> F.
Variable fzero : F.

(** The [ut.PartitionMethod] interface:
    [partition_method(edge_weights, node_sizes, target_comm_size,
    max_comm_size, min_comm_size, min_comm_nodes, random_seed)] returns the
    community of each node. *)
Variable partition_method :
  list (list F) -> option (list Z) -> Z -> option Z -> option Z -> option Z -> Z -> list Z.

(** [ut.bin_pack(element_sizes, max_bin_size)] and
    [ut.bin_fill(element_sizes, min_bin_size)]: the bin of each element. *)
Variable bin_pack : list Z -> Z -> list Z.
Variable bin_fill : list Z -> Z -> list Z.

(** [ut.compress_indices(indices)] *)
Variable compress_indices : list Z -> list Z.

Local Abbreviation Config := (Config F).

(** [edge_weights[mask, :][:, mask]] *)
Definition submatrix (weights : list (list F)) (mask : list bool) : list (list F) :=
  map (fun row => select row mask) (select weights mask).

(** [frame.groupby(labels, axis=0).mean()]: one row per key, the mean of the rows
    of the group in each of the [width] columns. *)
Definition groupby_rows_mean (labels : list Z) (width : nat) (frame : list (list F))
    : list (list F) :=
  map (fun key =>
         let group := select frame (map (fun l => l =? key) labels) in
         map (fun column => fmean (map (fun row => nth column row fzero) group))
           (seq 0 width))
    (groupby_keys labels).

(** [frame.groupby(labels, axis=1).mean()]: in each row one entry per key. *)
Definition groupby_columns_mean (labels : list Z) (frame : list (list F)) : list (list F) :=
  map (fun row =>
         map (fun key => fmean (select row (map (fun l => l =? key) labels)))
           (groupby_keys labels))
    frame.

(** [np.fill_diagonal(matrix, 0)] *)
Fixpoint fill_diagonal (offset : nat) (matrix : list (list F)) : list (list F) :=
  match matrix with
  | [] => []
  | row :: rest =>
      (firstn offset row ++
         match skipn offset row with
         | [] => []
         | _ :: tail => fzero :: tail
         end)
      :: fill_diagonal (S offset) rest
  end.

(** The deficits and the excess that [add] computes for a community. *)
Definition few_of (cfg : Config) (total_nodes : Z) : Z :=
  match min_comm_nodes cfg with
  | Some min_nodes => if total_nodes <? min_nodes then min_nodes - total_nodes else 0
  | None => 0
  end.

Definition small_of (cfg : Config) (total_size : Z) : Z :=
  match min_comm_size cfg with
  | Some min_size => if total_size <? min_size then min_size - total_size else 0
  | None => 0
  end.

Definition large_of (cfg : Config) (total_size : Z) : Z :=
  match max_comm_size cfg with
  | Some max_size => if max_size <? total_size then total_size - max_size else 0
  | None => 0
  end.

(** [np.sum(mask)] when there are no node sizes, [np.sum(node_sizes[mask])]
    otherwise. *)
Definition size_of (cfg : Config) (mask : list bool) : Z :=
  match node_sizes cfg with
  | None => count_true mask
  | Some sizes => np_sum (select sizes mask)
  end.

(** One iteration of the loop of [Improver.add]. *)
Definition add_one (cfg : Config) (st : Improver) : Improver :=
  let community_index := next_community_index st in
  let mask := map (fun m => m =? community_index) (membership st) in
  let total_nodes := count_true mask in
  let few := few_of cfg total_nodes in
  let total_size := size_of cfg mask in
  let small := small_of cfg total_size in
  let large := large_of cfg total_size in
  {| membership := membership st;
     communities :=
       communities st ++
         [ {| Community.index := community_index;
              Community.nodes := total_nodes;
              Community.size := total_size;
              Community.mask := mask;
              Community.too_few := few;
              Community.too_small := small;
              Community.too_large := large;
              Community.monolithic := false |} ];
     too_few := too_few st + few;
     too_small := too_small st + small;
     too_large := too_large st + large;
     next_community_index := community_index + 1;
     trace := trace st |}.

(** [for _ in range(count)] *)
Fixpoint add_loop (cfg : Config) (count : nat) (st : Improver) : Improver :=
  match count with
  | O => st
  | S count' => add_loop cfg count' (add_one cfg st)
  end.

(** [Improver.add] *)
Definition add (cfg : Config) (count : option Z) (st : Improver) : outcome Improver :=
  do count <-
    match count with
    | None =>
        do _ <- assert (next_community_index st =? 0);
        do top <- np_max (membership st);
        Ok (top + 1)
    | Some count =>
        do _ <- assert (0 <? next_community_index st);
        Ok count
    end;
  Ok (add_loop cfg (Z.to_nat count) st).

(** [Improver.__init__] *)
Definition init (cfg : Config) (membership : list Z) : outcome Improver :=
  add cfg None
    {| membership := membership;
       communities := [];
       too_few := 0;
       too_small := 0;
       too_large := 0;
       next_community_index := 0;
       trace := [] |}.

(** [Improver.remove] *)
Definition remove (position : nat) (st : Improver) : outcome Improver :=
  match nth_error (communities st) position with
  | None => Raised IndexError
  | Some community =>
      let few := too_few st - Community.too_few community in
      let small := too_small st - Community.too_small community in
      let large := too_large st - Community.too_large community in
      do _ <- assert (0 <=? few);
      do _ <- assert (0 <=? small);
      do _ <- assert (0 <=? large);
      Ok {| membership := membership st;
            communities := delete_at position (communities st);
            too_few := few;
            too_small := small;
            too_large := large;
            next_community_index := next_community_index st;
            trace := trace st |}
  end.

(** [for position in positions: self.remove(position)] *)
Fixpoint remove_all (positions : list nat) (st : Improver) : outcome Improver :=
  match positions with
  | [] => Ok st
  | position :: rest => do st <- remove position st; remove_all rest st
  end.

Definition set_membership (membership : list Z) (st : Improver) : Improver :=
  {| membership := membership;
     communities := communities st;
     too_few := too_few st;
     too_small := too_small st;
     too_large := too_large st;
     next_community_index := next_community_index st;
     trace := trace st |}.

Definition set_communities (communities : list Community.t) (st : Improver) : Improver :=
  {| membership := membership st;
     communities := communities;
     too_few := too_few st;
     too_small := too_small st;
     too_large := too_large st;
     next_community_index := next_community_index st;
     trace := trace st |}.

Definition log (event : Event) (st : Improver) : Improver :=
  {| membership := membership st;
     communities := communities st;
     too_few := too_few st;
     too_small := too_small st;
     too_large := too_large st;
     next_community_index := next_community_index st;
     trace := trace st ++ [event] |}.

(** *** [merge_few_or_small] *)

(** What the first loop of [merge_few_or_small] collects. *)
Record Merged : Type := {
  merged_nodes_mask : list bool;
  location_of_nodes : list Z;
  merged_communities : list Community.t;
  position_of_merged_communities : list nat;
  size_of_merged_communities : list Z
}.

(** [a |= b] on masks. *)
Fixpoint mask_or (a b : list bool) : list bool :=
  match a, b with
  | x :: a', y :: b' => (x || y) :: mask_or a' b'
  | _, _ => a
  end.

(** The loop over [enumerate(self.communities)]. *)
Fixpoint collect_merged (communities : list Community.t) (position : nat) (acc : Merged)
    : Merged :=
  match communities with
  | [] => acc
  | community :: rest =>
      if (Community.too_few community =? 0) && (Community.too_small community =? 0)
      then collect_merged rest (S position) acc
      else
        collect_merged rest (S position)
          {| merged_nodes_mask := mask_or (merged_nodes_mask acc) (Community.mask community);
             location_of_nodes :=
               assign_mask (location_of_nodes acc) (Community.mask community)
                 (Z.of_nat (length (merged_communities acc)));
             merged_communities := merged_communities acc ++ [community];
             position_of_merged_communities :=
               position_of_merged_communities acc ++ [position];
             size_of_merged_communities :=
               size_of_merged_communities acc ++ [Community.size community] |}
  end.

(** The edge weights between the merged communities: the mean of the weights
    of the edges between their nodes, and zero on the diagonal. *)
Definition merged_edge_weights (cfg : Config) (m : Merged) : list (list F) :=
  let edge_weights_of_merged_nodes := submatrix (edge_weights cfg) (merged_nodes_mask m) in
  let location_of_merged_nodes := select (location_of_nodes m) (merged_nodes_mask m) in
  let merge_frame :=
    groupby_rows_mean location_of_merged_nodes (length location_of_merged_nodes)
      edge_weights_of_merged_nodes in
  let merge_frame := groupby_columns_mean location_of_merged_nodes merge_frame in
  fill_diagonal 0 merge_frame.

(** [for merged_community, merged_index in zip(...):
       self.membership[merged_community.mask] = merged_index + self.next_community_index] *)
Fixpoint relabel_merged (pairs : list (Community.t * Z)) (next : Z) (membership : list Z)
    : list Z :=
  match pairs with
  | [] => membership
  | (merged_community, merged_index) :: rest =>
      relabel_merged rest next
        (assign_mask membership (Community.mask merged_community) (merged_index + next))
  end.

(** [Improver.merge_few_or_small] *)
Definition merge_few_or_small (cfg : Config) (st : Improver) : outcome (bool * Improver) :=
  let nodes_count := length (edge_weights cfg) in
  let m :=
    collect_merged (communities st) 0
      {| merged_nodes_mask := repeat false nodes_count;
         location_of_nodes := repeat (-1) nodes_count;
         merged_communities := [];
         position_of_merged_communities := [];
         size_of_merged_communities := [] |} in
  if (length (merged_communities m) <? 2)%nat then Ok (false, st)
  else
    let merged_communities_edge_weights := merged_edge_weights cfg m in
    let merged_communities_node_sizes := size_of_merged_communities m in
    let merged_communities_membership :=
      partition_method merged_communities_edge_weights
        (Some merged_communities_node_sizes) (target_comm_size cfg)
        (max_comm_size cfg) (min_comm_size cfg) None (random_seed cfg) in
    let st1 :=
      set_membership
        (relabel_merged (combine (merged_communities m) merged_communities_membership)
           (next_community_index st) (membership st)) st in
    let before_too_few := too_few st1 in
    let before_too_small := too_small st1 in
    do st2 <- remove_all (rev (position_of_merged_communities m)) st1;
    do top <- np_max merged_communities_membership;
    let merged_communities_count := top + 1 in
    do st3 <- add cfg (Some merged_communities_count) st2;
    let did_improve :=
      tuple_ltb (too_few st3, too_small st3) (before_too_few, before_too_small) in
    Ok (did_improve, st3).

(** *** [split_large] *)

(** The [while position < len(self.communities)] loop of [split_large]; the
    result carries [did_split]. *)
Fixpoint split_scan (fuel : nat) (cfg : Config) (position : nat) (did_split : bool)
    (st : Improver) : outcome (bool * Improver) :=
  match fuel with
  | O => OutOfFuel
  | S fuel' =>
      match nth_error (communities st) position with
      | None => Ok (did_split, st)
      | Some split_community =>
          if (Community.too_large split_community =? 0)
             || Community.monolithic split_community
          then split_scan fuel' cfg (S position) did_split st
          else
            let split_edge_weights :=
              submatrix (edge_weights cfg) (Community.mask split_community) in
            let split_node_sizes :=
              match node_sizes cfg with
              | None => None
              | Some sizes => Some (select sizes (Community.mask split_community))
              end in
            let split_nodes_membership :=
              partition_method split_edge_weights split_node_sizes
                (target_comm_size cfg) (max_comm_size cfg) (min_comm_size cfg) None
                (random_seed cfg) in
            do top <- np_max split_nodes_membership;
            let split_communities_count := top + 1 in
            let st :=
              log (SplitAttempt (Community.index split_community) split_communities_count)
                st in
            if split_communities_count =? 1
            then
              split_scan fuel' cfg (S position) did_split
                (set_communities
                   (replace_at position (Community.set_monolithic split_community)
                      (communities st)) st)
            else
              do st <- remove position st;
              let split_nodes_membership :=
                map (fun i => i + next_community_index st) split_nodes_membership in
              let st :=
                set_membership
                  (assign_vector (membership st) (Community.mask split_community)
                     split_nodes_membership) st in
              do st <- add cfg (Some split_communities_count) st;
              split_scan fuel' cfg position true st
      end
  end.

(** [Improver.split_large] *)
Definition split_large (fuel : nat) (cfg : Config) (st : Improver)
    : outcome (bool * Improver) :=
  split_scan fuel cfg 0 false st.

(** *** [improve] *)

(** [while self.too_few > 0 or self.too_small > 0:
       if not self.merge_few_or_small(): break] *)
Fixpoint merge_loop (fuel : nat) (cfg : Config) (st : Improver) : outcome Improver :=
  match fuel with
  | O => OutOfFuel
  | S fuel' =>
      if (0 <? too_few st) || (0 <? too_small st)
      then
        do r <- merge_few_or_small cfg st;
        if fst r then merge_loop fuel' cfg (snd r) else Ok (snd r)
      else Ok st
  end.

(** [while self.too_large > 0:
       if not self.split_large(): break
       did_split = True] *)
Fixpoint split_loop (fuel : nat) (cfg : Config) (did_split : bool) (st : Improver)
    : outcome (bool * Improver) :=
  match fuel with
  | O => OutOfFuel
  | S fuel' =>
      if 0 <? too_large st
      then
        do r <- split_large fuel' cfg st;
        if fst r then split_loop fuel' cfg true (snd r) else Ok (did_split, snd r)
      else Ok (did_split, st)
  end.

(** The body of the outer loop of [improve]. *)
Definition improve_step (fuel : nat) (cfg : Config) (st : Improver) : outcome Improver :=
  match max_comm_size cfg with
  | None => Ok st
  | Some _ =>
      do r <- split_loop fuel cfg false st;
      match fst r, min_comm_size cfg with
      | true, Some _ => merge_loop fuel cfg (snd r)
      | _, _ => Ok (snd r)
      end
  end.

(** [while (self.too_few, self.too_small + self.too_large) < penalty] *)
Fixpoint improve_loop (fuel : nat) (cfg : Config) (penalty : Z * Z) (st : Improver)
    : outcome Improver :=
  match fuel with
  | O => OutOfFuel
  | S fuel' =>
      if tuple_ltb (too_few st, too_small st + too_large st) penalty
      then
        let penalty := (too_few st, too_small st + too_large st) in
        let st := log (Penalty (fst penalty) (snd penalty)) st in
        do st <- improve_step fuel' cfg st;
        improve_loop fuel' cfg penalty st
      else Ok st
  end.

(** [Improver.improve] *)
Definition improve (fuel : nat) (cfg : Config) (st : Improver) : outcome Improver :=
  do st <-
    match min_comm_size cfg with
    | Some _ => merge_loop fuel cfg st
    | None => Ok st
    end;
  let penalty := (too_few st, too_small st + too_large st + 1) in
  improve_loop fuel cfg penalty st.

(** *** [pack] and [fill] *)

(** The [while position < len(self.communities)] loop of [pack] ([fill] when
    [only_few]): the communities that are not skipped are removed, and their
    sizes (node counts for [fill]) and indices are collected. *)
Fixpoint collect_small (fuel : nat) (only_few : bool) (position : nat)
    (amounts : list Z) (indices : list Z) (st : Improver)
    : outcome (list Z * list Z * Improver) :=
  match fuel with
  | O => OutOfFuel
  | S fuel' =>
      match nth_error (communities st) position with
      | None => Ok (amounts, indices, st)
      | Some community =>
          if (if only_few then true else Community.too_small community =? 0)
             && (Community.too_few community =? 0)
          then collect_small fuel' only_few (S position) amounts indices st
          else
            let amount :=
              if only_few then Community.nodes community else Community.size community in
            do st <- remove position st;
            collect_small fuel' only_few position (amounts ++ [amount])
              (indices ++ [Community.index community]) st
      end
  end.

(** [for community_index, community_bin in zip(indices, bins):
       self.membership[self.membership == community_index] =
           self.next_community_index + community_bin] *)
Fixpoint relabel_bins (pairs : list (Z * Z)) (next : Z) (membership : list Z) : list Z :=
  match pairs with
  | [] => membership
  | (community_index, community_bin) :: rest =>
      relabel_bins rest next
        (assign_mask membership (map (fun m => m =? community_index) membership)
           (next + community_bin))
  end.

(** The end of [pack] and of [fill]: the members of the collected communities
    move to the community of their bin, and the new communities are added. *)
Definition add_bins (cfg : Config) (indices : list Z) (bins : list Z) (st : Improver)
    : outcome Improver :=
  do top <- np_max bins;
  let bins_count := top + 1 in
  let st :=
    set_membership
      (relabel_bins (combine indices bins) (next_community_index st) (membership st)) st in
  add cfg (Some bins_count) st.

(** [Improver.pack] *)
Definition pack (fuel : nat) (cfg : Config) (st : Improver) : outcome Improver :=
  do r <- collect_small fuel false 0 [] [] st;
  let '(list_of_small_community_sizes, list_of_small_community_indices, st) := r in
  if (length list_of_small_community_indices =? 0)%nat then Ok st
  else
    let small_community_bins :=
      bin_pack list_of_small_community_sizes (target_comm_size cfg) in
    add_bins cfg list_of_small_community_indices small_community_bins st.

(** [enumerate(l)], counting from [position]. *)
Fixpoint enumerate {A : Type} (position : nat) (l : list A) : list (nat * A) :=
  match l with
  | [] => []
  | x :: l' => (position, x) :: enumerate (S position) l'
  end.

(** The loop of [fill] over the sorted candidates, until the nodes suffice. *)
Fixpoint borrow (candidates : list (Z * Z * nat * Z)) (min_nodes : Z) (total_nodes : Z)
    (positions : list nat) (amounts : list Z) (indices : list Z)
    : list nat * list Z * list Z :=
  match candidates with
  | [] => (positions, amounts, indices)
  | (community_nodes, _, community_position, community_index) :: rest =>
      let positions := positions ++ [community_position] in
      let total_nodes := total_nodes + community_nodes in
      let amounts := amounts ++ [community_nodes] in
      let indices := indices ++ [community_index] in
      if min_nodes <=? total_nodes then (positions, amounts, indices)
      else borrow rest min_nodes total_nodes positions amounts indices
  end.

(** [Improver.fill] *)
Definition fill (fuel : nat) (cfg : Config) (st : Improver) : outcome Improver :=
  match min_comm_nodes cfg with
  | None => Raised AssertionError
  | Some min_nodes =>
      do r <- collect_small fuel true 0 [] [] st;
      let '(list_of_few_community_nodes, list_of_few_community_indices, st) := r in
      let total_nodes := np_sum list_of_few_community_nodes in
      if (length list_of_few_community_indices =? 0)%nat then Ok st
      else
        do r <-
          (if must_complete_cover cfg && (total_nodes <? min_nodes)
           then
             let candidates :=
               sorted candidate_leb
                 (map (fun pc : nat * Community.t =>
                         (Community.nodes (snd pc), Community.size (snd pc), fst pc,
                          Community.index (snd pc)))
                    (filter (fun pc : nat * Community.t =>
                               Community.too_few (snd pc) =? 0)
                       (enumerate 0 (communities st)))) in
             let '(positions, nodes, indices) :=
               borrow candidates min_nodes total_nodes []
                 list_of_few_community_nodes list_of_few_community_indices in
             do st <- remove_all (rev (sorted Nat.leb positions)) st;
             Ok (nodes, indices, st)
           else Ok (list_of_few_community_nodes, list_of_few_community_indices, st));
        let '(list_of_few_community_nodes, list_of_few_community_indices, st) := r in
        let few_community_bins := bin_fill list_of_few_community_nodes min_nodes in
        add_bins cfg list_of_few_community_indices few_community_bins st
  end.

(** *** [compute_candidate_metacells] *)

(** A Python float: an IEEE 754 double. *)
Definition float : Type := spec_float.

(** The conversion of an integer to a float, to the nearest double (ties to
    even); Python raises [OverflowError] for an integer beyond the doubles. *)
Definition float_of_int (n : Z) : outcome float :=
  match binary_normalize 53 1024 n 0 false with
  | S754_infinity _ => Raised OverflowError
  | x => Ok x
  end.

(** [n * x] for an integer [n] and a float [x]. *)
Definition int_times_float (n : Z) (x : float) : outcome float :=
  do y <- float_of_int n;
  Ok (SFmul 53 1024 y x).

(** [x > 0] and [x < y] on floats; both are [False] when a NaN is compared. *)
Definition float_positive (x : float) : bool := SFltb (S754_zero false) x.

Definition float_ltb (x y : float) : bool := SFltb x y.

(** [math.floor(x)] and [math.ceil(x)]: Python raises [ValueError] for a NaN
    and [OverflowError] for an infinity. *)
Definition math_floor (x : float) : outcome Z :=
  match x with
  | S754_nan => Raised ValueError
  | S754_infinity _ => Raised OverflowError
  | S754_zero _ => Ok 0
  | S754_finite s m e => Ok (Z.shiftl (cond_Zopp s (Zpos m)) e)
  end.

Definition math_ceil (x : float) : outcome Z :=
  match x with
  | S754_nan => Raised ValueError
  | S754_infinity _ => Raised OverflowError
  | S754_zero _ => Ok 0
  | S754_finite s m e => Ok (- Z.shiftl (- cond_Zopp s (Zpos m)) e)
  end.

(** [node_sizes]: the cell sizes, cast to int32, when cell sizes are
    given. *)
Definition node_sizes_of (cell_sizes : option (list Z)) : option (list Z) :=
  match cell_sizes with
  | Some sizes => Some (map astype_int32 sizes)
  | None => None
  end.

Definition is_some {A : Type} (o : option A) : bool :=
  match o with
  | Some _ => true
  | None => false
  end.

(** [compute_candidate_metacells], from the edge weights that
    [ut.get_oo_proper] returns and the cell sizes that [ut.get_o_numpy]
    returns (integers; the source casts them to int32); the result is the
    [community_of_cells] that is written to the data or returned as a
    series. *)
Definition compute_candidate_metacells (fuel : nat) (edge_weights : list (list F))
    (target_metacell_size : Z) (cell_sizes : option (list Z))
    (min_split_size_factor max_merge_size_factor : option float)
    (min_metacell_cells : option Z) (must_complete_cover : bool) (random_seed : Z)
    : traced (list Z) :=
  run _ <- lift (assert (forallb (fun row => (length row =? length edge_weights)%nat)
                           edge_weights));
  let node_sizes := node_sizes_of cell_sizes in
  run _ <- lift (assert (0 <? target_metacell_size));
  run max_metacell_size <-
    lift match min_split_size_factor with
         | Some factor =>
             do _ <- assert (float_positive factor);
             do product <- int_times_float target_metacell_size factor;
             do top <- math_ceil product;
             Ok (Some (top - 1))
         | None => Ok None
         end;
  run min_metacell_size <-
    lift match max_merge_size_factor with
         | Some factor =>
             do _ <- assert (float_positive factor);
             do product <- int_times_float target_metacell_size factor;
             do bottom <- math_floor product;
             Ok (Some (bottom + 1))
         | None => Ok None
         end;
  run _ <-
    lift match min_split_size_factor, max_merge_size_factor with
         | Some split_factor, Some merge_factor =>
             do _ <- assert (float_ltb merge_factor split_factor);
             match min_metacell_size, max_metacell_size with
             | Some min_size, Some max_size => assert (min_size <=? max_size)
             | _, _ => Raised AssertionError
             end
         | _, _ => Ok tt
         end;
  run _ <- step CallPartitionMethod;
  let community_of_cells :=
    partition_method edge_weights node_sizes target_metacell_size max_metacell_size
      min_metacell_size min_metacell_cells random_seed in
  if is_some max_metacell_size || is_some min_metacell_size
  then
    let cfg :=
      {| edge_weights := edge_weights;
         node_sizes := node_sizes;
         target_comm_size := target_metacell_size;
         must_complete_cover := must_complete_cover;
         min_comm_size := min_metacell_size;
         max_comm_size := max_metacell_size;
         min_comm_nodes := min_metacell_cells;
         random_seed := random_seed |} in
    run _ <- step ConstructImprover;
    run improver <- lift (init cfg community_of_cells);
    run _ <- step CallImprove;
    run improver <- lift (improve fuel cfg improver);
    run improver <-
      (if is_some min_metacell_size
       then run _ <- step CallPack; lift (pack fuel cfg improver)
       else lift (Ok improver));
    run improver <-
      (if is_some min_metacell_cells
       then run _ <- step CallFill; lift (fill fuel cfg improver)
       else lift (Ok improver));
    lift (Ok (compress_indices (membership improver)))
  else lift (Ok community_of_cells).


End Candidates.

Arguments submatrix {F} weights mask.
Arguments few_of {F} cfg total_nodes.
Arguments small_of {F} cfg total_size.
Arguments large_of {F} cfg total_size.
Arguments size_of {F} cfg mask.
Arguments add_one {F} cfg st.
Arguments add_loop {F} cfg count st.
Arguments add {F} cfg count st.
Arguments init {F} cfg membership.
Arguments merged_edge_weights {F} fmean fzero cfg m.
Arguments merge_few_or_small {F} fmean fzero partition_method cfg st.
Arguments split_scan {F} partition_method fuel cfg position did_split st.
Arguments split_large {F} partition_method fuel cfg st.
Arguments merge_loop {F} fmean fzero partition_method fuel cfg st.
Arguments split_loop {F} partition_method fuel cfg did_split st.
Arguments improve_step {F} fmean fzero partition_method fuel cfg st.
Arguments improve_loop {F} fmean fzero partition_method fuel cfg penalty st.
Arguments improve {F} fmean fzero partition_method fuel cfg st.
Arguments add_bins {F} cfg indices bins st.
Arguments pack {F} bin_pack fuel cfg st.
Arguments fill {F} bin_fill fuel cfg st.
Arguments compute_candidate_metacells {F} fmean fzero partition_method bin_pack bin_fill
  compress_indices fuel edge_weights target_metacell_size cell_sizes
  min_split_size_factor max_merge_size_factor min_metacell_cells must_complete_cover
  random_seed.

(** * Properties *)

(** ** Vectors *)

Lemma set_at_length (v : list Z) (i : nat) (x : Z) :
  length (set_at v i x) = length v.
Proof.
  revert i; induction v as [|y v IH]; intros [|i]; simpl; auto.
Qed.

Lemma set_at_same (v : list Z) (i : nat) (x : Z) :
  (i < length v)%nat -> nth_error (set_at v i x) i = Some x.
Proof.
  revert i; induction v as [|y v IH]; intros [|i] H; simpl in *; try lia; auto.
  apply IH; lia.
Qed.

Lemma set_at_other (v : list Z) (i j : nat) (x : Z) :
  i <> j -> nth_error (set_at v i x) j = nth_error v j.
Proof.
  revert i j; induction v as [|y v IH]; intros [|i] [|j] H; simpl; auto; try congruence.
Qed.

Lemma write_all_length (positions : list nat) :
  forall (v values : list Z), length (write_all v positions values) = length v.
Proof.
  induction positions as [|i positions IH]; intros v [|x values]; simpl; auto.
  rewrite IH; apply set_at_length.
Qed.

Lemma write_all_untouched (positions : list nat) :
  forall (v values : list Z) (i : nat),
    ~ In i positions -> nth_error (write_all v positions values) i = nth_error v i.
Proof.
  induction positions as [|j positions IH]; intros v [|x values] i H; simpl in *; auto.
  rewrite IH by tauto. apply set_at_other. tauto.
Qed.

(** With distinct positions, the entry at the [k]-th position receives the
    [k]-th value. *)
Lemma write_all_written (positions : list nat) :
  forall (v values : list Z) (k i : nat) (x : Z),
    NoDup positions ->
    nth_error positions k = Some i ->
    nth_error values k = Some x ->
    (i < length v)%nat ->
    nth_error (write_all v positions values) i = Some x.
Proof.
  induction positions as [|j positions IH]; intros v values k i x Hnd Hi Hx Hlen.
  - destruct k; discriminate.
  - destruct values as [|y values]; [destruct k; discriminate|].
    inversion Hnd as [|? ? Hnotin Hnd']; subst.
    destruct k as [|k]; simpl in *.
    + injection Hi as ->. injection Hx as ->.
      rewrite write_all_untouched by assumption.
      apply set_at_same; assumption.
    + apply (IH _ _ k); auto. rewrite set_at_length; assumption.
Qed.

(** An int32 value. *)
Definition is_int32 (x : Z) : Prop := - 2 ^ 31 <= x < 2 ^ 31.

Lemma astype_int32_range (x : Z) : is_int32 (astype_int32 x).
Proof.
  unfold is_int32, astype_int32.
  pose proof (Z.mod_pos_bound (x + 2 ^ 31) (2 ^ 32) ltac:(lia)). lia.
Qed.

Lemma astype_int32_id (x : Z) : is_int32 x -> astype_int32 x = x.
Proof.
  unfold is_int32, astype_int32. intros H.
  rewrite Z.mod_small by lia. lia.
Qed.

(** Indices between zero and the length are positions as they are. *)
Lemma np_index_in_range (n : nat) (i : Z) :
  0 <= i < Z.of_nat n -> np_index n i = Ok (Z.to_nat i).
Proof.
  intros H. unfold np_index.
  replace (0 <=? i) with true by (symmetry; apply Z.leb_le; lia).
  replace (i <? Z.of_nat n) with true by (symmetry; apply Z.ltb_lt; lia).
  reflexivity.
Qed.

Lemma np_index_ok (n : nat) (i : Z) (position : nat) :
  np_index n i = Ok position ->
  (position < n)%nat /\ (0 <= i -> position = Z.to_nat i).
Proof.
  unfold np_index.
  destruct ((0 <=? i) && (i <? Z.of_nat n)) eqn:E.
  - apply andb_true_iff in E. destruct E as [E1 E2].
    apply Z.leb_le in E1. apply Z.ltb_lt in E2.
    intros H. injection H as <-. split; [lia | reflexivity].
  - destruct ((- Z.of_nat n <=? i) && (i <? 0)) eqn:E'; [|discriminate].
    apply andb_true_iff in E'. destruct E' as [E1 E2].
    apply Z.leb_le in E1. apply Z.ltb_lt in E2.
    intros H. injection H as <-. split; lia.
Qed.

Lemma np_indices_in_range (n : nat) (indices : list Z) :
  (forall i, In i indices -> 0 <= i < Z.of_nat n) ->
  np_indices n indices = Ok (map Z.to_nat indices).
Proof.
  induction indices as [|i indices IH]; intros H; simpl; [reflexivity|].
  rewrite np_index_in_range by (apply H; left; reflexivity).
  simpl. rewrite IH by (intros j Hj; apply H; right; assumption). reflexivity.
Qed.

Lemma np_indices_ok (n : nat) (indices : list Z) :
  forall positions,
    np_indices n indices = Ok positions ->
    length positions = length indices
    /\ (forall position, In position positions -> (position < n)%nat)
    /\ ((forall i, In i indices -> 0 <= i) -> positions = map Z.to_nat indices).
Proof.
  induction indices as [|i indices IH]; intros positions H; simpl in H.
  - injection H as <-. repeat split; simpl; tauto.
  - destruct (np_index n i) as [position| |] eqn:E; simpl in H; try discriminate.
    destruct (np_indices n indices) as [rest| |]; simpl in H; try discriminate.
    injection H as <-. destruct (IH rest eq_refl) as (Hlen & Hin & Hmap).
    destruct (np_index_ok _ _ _ E) as [Hlt Hpos].
    split; [simpl; lia|]. split.
    + intros p [<-|Hp]; auto.
    + intros Hnonneg. simpl. rewrite <- Hpos by (apply Hnonneg; left; reflexivity).
      rewrite <- Hmap by (intros j Hj; apply Hnonneg; right; assumption). reflexivity.
Qed.

Lemma NoDup_map_to_nat (indices : list Z) :
  (forall i, In i indices -> 0 <= i) -> NoDup indices -> NoDup (map Z.to_nat indices).
Proof.
  induction indices as [|i indices IH]; intros Hnonneg Hnd; simpl; [constructor|].
  inversion Hnd as [|? ? Hnotin Hnd']; subst. constructor.
  - intros Hin. apply in_map_iff in Hin. destruct Hin as [j [Hj Hin]].
    assert (j = i).
    { pose proof (Hnonneg i (or_introl eq_refl)). pose proof (Hnonneg j (or_intror Hin)).
      lia. }
    subst j. contradiction.
  - apply IH; [intros j Hj; apply Hnonneg; right; assumption | assumption].
Qed.

Lemma broadcast_same (values : list Z) : broadcast (length values) values = Ok values.
Proof. unfold broadcast. rewrite Nat.eqb_refl. reflexivity. Qed.

(** What [scatter] writes, for indices that are positions of the vector. *)
Lemma scatter_in_range (v : Vector) (indices values : list Z) :
  length values = length indices ->
  (forall i, In i indices -> 0 <= i < Z.of_nat (length (data v))) ->
  scatter v indices values
  = Ok {| dtype := dtype v;
          data := write_all (data v) (map Z.to_nat indices) (map (cast (dtype v)) values) |}.
Proof.
  intros Hlen Hrange. unfold scatter.
  rewrite <- Hlen, broadcast_same. simpl.
  rewrite np_indices_in_range by assumption. reflexivity.
Qed.

(** What a [scatter] that returns has written, for indices that are not
    negative. *)
Lemma scatter_ok (v : Vector) (indices values : list Z) (v' : Vector) :
  scatter v indices values = Ok v' ->
  length values = length indices ->
  (forall i, In i indices -> 0 <= i) ->
  (forall i, In i indices -> i < Z.of_nat (length (data v)))
  /\ v' = {| dtype := dtype v;
             data := write_all (data v) (map Z.to_nat indices)
                       (map (cast (dtype v)) values) |}.
Proof.
  intros H Hlen Hnonneg. unfold scatter in H.
  rewrite <- Hlen, broadcast_same in H. simpl in H.
  destruct (np_indices (length (data v)) indices) as [positions| |] eqn:E; simpl in H;
    try discriminate.
  injection H as <-.
  destruct (np_indices_ok _ _ _ E) as (_ & Hin & Hmap).
  rewrite (Hmap Hnonneg) in *. split; [|reflexivity].
  intros i Hi. specialize (Hin (Z.to_nat i) (in_map Z.to_nat _ _ Hi)).
  specialize (Hnonneg i Hi). lia.
Qed.

(** ** Collecting the results of the piles *)

Module DivideAndConquerFacts.
Import DivideAndConquer.

Lemma lookup_store_same {V : Type} (name : string) (value : V) (a : annotations V) :
  lookup name (store name value a) = Some value.
Proof.
  induction a as [|[key old] a IH]; simpl.
  - rewrite String.eqb_refl. reflexivity.
  - destruct (String.eqb key name) eqn:E; simpl; rewrite E; [reflexivity | exact IH].
Qed.

Lemma lookup_store_other {V : Type} (name key : string) (value : V) (a : annotations V) :
  key <> name -> lookup key (store name value a) = lookup key a.
Proof.
  intros Hne. induction a as [|[key' old] a IH]; simpl.
  - destruct (String.eqb name key) eqn:E; [|reflexivity].
    apply String.eqb_eq in E. congruence.
  - destruct (String.eqb key' name) eqn:E; simpl.
    + apply String.eqb_eq in E. subst key'.
      destruct (String.eqb name key) eqn:E'; [|reflexivity].
      apply String.eqb_eq in E'. congruence.
    + rewrite IH. reflexivity.
Qed.

Lemma modify_m_fields (cdata : AnnData) (name : string) (modifier : Z -> outcome Z)
    (cdata' : AnnData) :
  _modify cdata get_m_data set_m_data name modifier = Ok cdata' ->
  obs cdata' = obs cdata /\ var cdata' = var cdata.
Proof.
  unfold _modify. destruct (get_m_data cdata name) as [old| |]; simpl; try discriminate.
  destruct (modifier old) as [new| |]; simpl; try discriminate.
  intros H. injection H as <-. split; reflexivity.
Qed.

Lemma modify_v_fields (cdata : AnnData) (name : string)
    (modifier : Vector -> outcome Vector) (cdata' : AnnData) :
  _modify cdata get_v_data set_v_data name modifier = Ok cdata' ->
  obs cdata' = obs cdata /\ uns cdata' = uns cdata.
Proof.
  unfold _modify. destruct (get_v_data cdata name) as [old| |]; simpl; try discriminate.
  destruct (modifier old) as [new| |]; simpl; try discriminate.
  intros H. injection H as <-. split; reflexivity.
Qed.

Lemma get_shaped_data_ok (a : annotations Vector) (name : string) (v : Vector) :
  _get_shaped_data a name = Ok v -> lookup name a = Some v.
Proof.
  unfold _get_shaped_data.
  destruct (assert (negb (has_double_underscore name))); simpl; try discriminate.
  destruct (lookup name a); [|discriminate]. intros H. injection H as <-. reflexivity.
Qed.

Lemma modify_o_written (cdata : AnnData) (name : string)
    (modifier : Vector -> outcome Vector) (cdata' : AnnData) :
  _modify cdata get_o_data set_o_data name modifier = Ok cdata' ->
  exists old new,
    lookup name (obs cdata) = Some old
    /\ modifier old = Ok new
    /\ lookup name (obs cdata') = Some new
    /\ (forall key, key <> name -> lookup key (obs cdata') = lookup key (obs cdata))
    /\ uns cdata' = uns cdata.
Proof.
  unfold _modify, get_o_data.
  destruct (_get_shaped_data (obs cdata) name) as [old| |] eqn:E; simpl; try discriminate.
  apply get_shaped_data_ok in E.
  destruct (modifier old) as [new| |] eqn:E'; simpl; try discriminate.
  intros H. injection H as <-. exists old, new. simpl.
  split; [assumption|]. split; [assumption|].
  split; [apply lookup_store_same|]. split; [|reflexivity].
  intros key Hkey. apply lookup_store_other. assumption.
Qed.

Lemma for_each_invariant (P : AnnData -> Prop) (names : list (string * bool))
    (flag : bool) (body : string -> AnnData -> outcome AnnData) :
  (forall name always a a',
      In (name, always) names -> body name a = Ok a' -> P a -> P a') ->
  forall a a', for_each names flag body a = Ok a' -> P a -> P a'.
Proof.
  induction names as [|[name always] names IH]; intros Hbody a a' H HP; simpl in H.
  - injection H as <-. assumption.
  - destruct (always || flag).
    + destruct (body name a) as [a1| |] eqn:E; simpl in H; try discriminate.
      apply (IH (fun n al x y Hin => Hbody n al x y (or_intror Hin)) a1 a' H).
      apply (Hbody name always a a1); [left; reflexivity | assumption | assumption].
    + simpl in H.
      apply (IH (fun n al x y Hin => Hbody n al x y (or_intror Hin)) a a' H HP).
Qed.

Lemma for_each_genes_fields (names : list (string * bool)) (flag : bool)
    (key : string -> string) (modifier : string -> Vector -> outcome Vector)
    (cdata cdata' : AnnData) :
  for_each names flag
    (fun name cdata => _modify cdata get_v_data set_v_data (key name) (modifier name))
    cdata = Ok cdata' ->
  obs cdata' = obs cdata /\ uns cdata' = uns cdata.
Proof.
  intros H.
  refine (for_each_invariant (fun a => obs a = obs cdata /\ uns a = uns cdata)
            names flag _ _ cdata cdata' H (conj eq_refl eq_refl)).
  intros name always a a' _ Hbody [Ho Hu].
  apply modify_v_fields in Hbody. destruct Hbody as [Ho' Hu']. split; congruence.
Qed.

#[local] Arguments for_each : simpl never.

Ltac other_name is_final :=
  destruct is_final; simpl; discriminate.

Lemma for_each_cells_keeps (is_final : bool) (flag : bool)
    (modifier : string -> Vector -> outcome Vector) (cdata cdata' : AnnData) :
  for_each [ ("candidate", true); ("cell_deviant_votes", true); ("dissolved", true);
             ("outlier", false) ]%string flag
    (fun name cdata =>
       _modify cdata get_o_data set_o_data (_prefix is_final name "") (modifier name))
    cdata = Ok cdata' ->
  lookup (_prefix is_final "metacell" "") (obs cdata')
  = lookup (_prefix is_final "metacell" "") (obs cdata)
  /\ uns cdata' = uns cdata.
Proof.
  intros H.
  refine (for_each_invariant
            (fun a => lookup (_prefix is_final "metacell" "") (obs a)
                      = lookup (_prefix is_final "metacell" "") (obs cdata)
                      /\ uns a = uns cdata)
            _ flag _ _ cdata cdata' H (conj eq_refl eq_refl)).
  intros name always a a' Hin Hbody [Ho Hu].
  apply modify_o_written in Hbody.
  destruct Hbody as (old & new & _ & _ & _ & Hother & Hu').
  split; [|congruence].
  rewrite Hother; [assumption|].
  destruct Hin as [E|[E|[E|[E|[]]]]]; injection E as <- _; other_name is_final.
Qed.

(** The vector of metacells of the phase after [_collect_pile_results]. *)
Lemma collect_pile_results_metacell (cdata : AnnData) (is_final : bool)
    (cells_frame genes_frame : DataFrame) (metacells_count pile_index : Z)
    (intermediate : bool) (cdata' : AnnData) (count' : Z) :
  _collect_pile_results cdata is_final cells_frame genes_frame metacells_count pile_index
    intermediate = Ok (cdata', count') ->
  exists directs values pile vector vector',
    lookup (_prefix is_final "directs" "final") (uns cdata) = Some directs
    /\ lookup "metacell" (columns cells_frame) = Some values
    /\ offset_assigned values metacells_count = Ok pile
    /\ np_max (data pile) = Ok (count' - 1)
    /\ lookup (_prefix is_final "metacell" "") (obs cdata) = Some vector
    /\ scatter vector (frame_index cells_frame) (data pile) = Ok vector'
    /\ lookup (_prefix is_final "metacell" "") (obs cdata') = Some vector'
    /\ lookup (_prefix is_final "directs" "final") (uns cdata') = Some (directs + 1).
Proof.
  unfold _collect_pile_results. intros H.
  match type of H with
  | (do _ <- ?a ; _) = _ => destruct a as [c1| |] eqn:E1; simpl in H; try discriminate
  end.
  match type of H with
  | (do _ <- ?a ; _) = _ => destruct a as [c2| |] eqn:E2; simpl in H; try discriminate
  end.
  apply for_each_genes_fields in E2. destruct E2 as [Ho2 Hu2].
  assert (Hm : exists directs,
               lookup (_prefix is_final "directs" "final") (uns cdata) = Some directs
               /\ obs c1 = obs cdata
               /\ lookup (_prefix is_final "directs" "final") (uns c1) = Some (directs + 1)).
  { unfold _modify, get_m_data in E1.
    destruct (lookup (_prefix is_final "directs" "final") (uns cdata)) as [directs|];
      simpl in E1; [|discriminate].
    injection E1 as <-. exists directs. simpl.
    split; [reflexivity|]. split; [reflexivity|]. apply lookup_store_same. }
  destruct Hm as (directs & Hd & Ho1 & Hd1).
  unfold column in H.
  destruct (lookup "metacell" (columns cells_frame)) as [values|] eqn:Hc; simpl in H;
    [|discriminate].
  destruct (offset_assigned values metacells_count) as [pile| |] eqn:Hp; simpl in H;
    try discriminate.
  destruct (np_max (data pile)) as [top| |] eqn:Ht; simpl in H; try discriminate.
  match type of H with
  | (do _ <- ?a ; _) = _ => destruct a as [c3| |] eqn:E3; simpl in H; try discriminate
  end.
  apply modify_o_written in E3.
  destruct E3 as (vector & vector' & Hv & Hs & Hv' & _ & Hu3).
  rewrite Ho2, Ho1 in Hv.
  assert (Hend : lookup (_prefix is_final "metacell" "") (obs cdata') = Some vector'
                 /\ uns cdata' = uns c3 /\ count' = top + 1).
  { destruct intermediate; simpl in H.
    - match type of H with
      | (do _ <- ?a ; _) = _ => destruct a as [c4| |] eqn:E4; simpl in H; try discriminate
      end.
      match type of H with
      | (do _ <- ?a ; _) = _ => destruct a as [c5| |] eqn:E5; simpl in H; try discriminate
      end.
      match type of H with
      | (do _ <- ?a ; _) = _ => destruct a as [c6| |] eqn:E6; simpl in H; try discriminate
      end.
      injection H as <- <-.
      apply modify_o_written in E4. destruct E4 as (_ & _ & _ & _ & _ & H4 & Hu4).
      apply modify_o_written in E5. destruct E5 as (_ & _ & _ & _ & _ & H5 & Hu5).
      apply for_each_cells_keeps in E6. destruct E6 as [H6 Hu6].
      split; [|split; [congruence | reflexivity]].
      rewrite H6, H5, H4; [assumption| |]; other_name is_final.
    - injection H as <- <-. split; [assumption|]. split; reflexivity. }
  destruct Hend as (Hfinal & Hu & ->).
  exists directs, values, pile, vector, vector'.
  replace (top + 1 - 1) with top by lia.
  repeat (split; [first [assumption | reflexivity]|]).
  rewrite Hu, Hu3, Hu2. assumption.
Qed.

(** In the preliminary phase and without the intermediate results,
    [_collect_pile_results] needs [pre_directs], the column of the pile and
    the vector [pre_metacell]. *)
Lemma collect_pile_results_returns (cdata : AnnData) (cells_frame genes_frame : DataFrame)
    (metacells_count pile_index directs top : Z) (values pile vector vector' : Vector) :
  lookup "pre_directs" (uns cdata) = Some directs ->
  lookup "metacell" (columns cells_frame) = Some values ->
  offset_assigned values metacells_count = Ok pile ->
  np_max (data pile) = Ok top ->
  lookup "pre_metacell" (obs cdata) = Some vector ->
  scatter vector (frame_index cells_frame) (data pile) = Ok vector' ->
  _collect_pile_results cdata false cells_frame genes_frame metacells_count pile_index
    false
  = Ok (set_o_data (set_m_data cdata "pre_directs" (directs + 1)) "pre_metacell" vector',
        top + 1).
Proof.
  intros Hd Hc Hp Ht Hv Hs. unfold _collect_pile_results.
  unfold _modify at 1, get_m_data. simpl _prefix. rewrite Hd. simpl bind.
  unfold for_each. simpl orb. simpl bind.
  unfold column. rewrite Hc. simpl bind. rewrite Hp. simpl bind. rewrite Ht. simpl bind.
  unfold _modify, get_o_data, _get_shaped_data. simpl.
  rewrite Hv. simpl. rewrite Hs. reflexivity.
Qed.

(** The vector of metacells of the phase after [_collect_outliers_results]. *)
Lemma collect_outliers_results_metacell (cdata odata : AnnData) (phase : string)
    (metacells_count piles_count : Z) (intermediate : bool) (cdata' : AnnData) :
  _collect_outliers_results cdata odata phase metacells_count piles_count intermediate
  = Ok cdata' ->
  exists indices values pile vector vector',
    lookup "complete_cell_index" (obs odata) = Some indices
    /\ lookup "metacell" (obs odata) = Some values
    /\ offset_assigned values metacells_count = Ok pile
    /\ lookup (_prefix (String.eqb phase "final") "metacell" "") (obs cdata) = Some vector
    /\ scatter vector (data indices) (data pile) = Ok vector'
    /\ lookup (_prefix (String.eqb phase "final") "metacell" "") (obs cdata')
       = Some vector'.
Proof.
  unfold _collect_outliers_results. intros H.
  destruct (assert (is_phase phase)); simpl in H; try discriminate.
  set (is_final := String.eqb phase "final") in *.
  match type of H with
  | (do _ <- ?a ; _) = _ => destruct a as [c1| |] eqn:E1; simpl in H; try discriminate
  end.
  apply modify_m_fields in E1. destruct E1 as [Ho1 _].
  match type of H with
  | (do _ <- ?a ; _) = _ => destruct a as [c2| |] eqn:E2; simpl in H; try discriminate
  end.
  apply for_each_genes_fields in E2. destruct E2 as [Ho2 _].
  destruct (get_o_data odata "complete_cell_index") as [indices| |] eqn:Hi; simpl in H;
    try discriminate.
  apply get_shaped_data_ok in Hi.
  destruct (get_o_data odata "metacell") as [values| |] eqn:Hc; simpl in H;
    try discriminate.
  apply get_shaped_data_ok in Hc.
  destruct (offset_assigned values metacells_count) as [pile| |] eqn:Hp; simpl in H;
    try discriminate.
  match type of H with
  | (do _ <- ?a ; _) = _ => destruct a as [c3| |] eqn:E3; simpl in H; try discriminate
  end.
  apply modify_o_written in E3.
  destruct E3 as (vector & vector' & Hv & Hs & Hv' & _ & _).
  rewrite Ho2, Ho1 in Hv.
  exists indices, values, pile, vector, vector'.
  repeat (split; [assumption|]).
  destruct intermediate; simpl in H.
  - match type of H with
    | (do _ <- ?a ; _) = _ => destruct a as [c4| |] eqn:E4; simpl in H; try discriminate
    end.
    destruct (get_o_data odata "pile") as [piles| |]; simpl in H; try discriminate.
    destruct (offset_assigned piles piles_count) as [outlier_piles| |]; simpl in H;
      try discriminate.
    match type of H with
    | (do _ <- ?a ; _) = _ => destruct a as [c5| |] eqn:E5; simpl in H; try discriminate
    end.
    apply modify_o_written in E4. destruct E4 as (_ & _ & _ & _ & _ & H4 & _).
    apply modify_o_written in E5. destruct E5 as (_ & _ & _ & _ & _ & H5 & _).
    apply for_each_cells_keeps in H. destruct H as [H6 _].
    rewrite H6, H5, H4; [assumption| |]; other_name is_final.
  - injection H as <-. assumption.
Qed.

(** In the preliminary phase and without the intermediate results,
    [_collect_outliers_results] needs [pre_directs] of the complete data,
    both counts of direct calls, the indices and the metacells of the
    outliers data, and the vector [pre_metacell]. *)
Lemma collect_outliers_results_returns (cdata odata : AnnData)
    (metacells_count piles_count directs pre_directs final_directs : Z)
    (indices values pile vector vector' : Vector) :
  lookup "pre_directs" (uns cdata) = Some directs ->
  lookup "pre_directs" (uns odata) = Some pre_directs ->
  lookup "final_directs" (uns odata) = Some final_directs ->
  lookup "complete_cell_index" (obs odata) = Some indices ->
  lookup "metacell" (obs odata) = Some values ->
  offset_assigned values metacells_count = Ok pile ->
  lookup "pre_metacell" (obs cdata) = Some vector ->
  scatter vector (data indices) (data pile) = Ok vector' ->
  _collect_outliers_results cdata odata "preliminary" metacells_count piles_count false
  = Ok (set_o_data
          (set_m_data cdata "pre_directs" (directs + pre_directs + final_directs))
          "pre_metacell" vector').
Proof.
  intros Hd Hpre Hfinal Hi Hc Hp Hv Hs. unfold _collect_outliers_results.
  simpl assert. simpl bind. simpl String.eqb.
  unfold _modify at 1, get_m_data. simpl _prefix.
  rewrite Hd. simpl bind. rewrite Hpre. simpl bind. rewrite Hfinal. simpl bind.
  unfold for_each. simpl orb. simpl bind.
  unfold get_o_data at 1, _get_shaped_data. simpl assert. simpl bind. rewrite Hi.
  simpl bind.
  unfold get_o_data at 1, _get_shaped_data. simpl assert. simpl bind. rewrite Hc.
  simpl bind. rewrite Hp. simpl bind.
  unfold _modify, get_o_data, _get_shaped_data. simpl.
  rewrite Hv. simpl. rewrite Hs. reflexivity.
Qed.

End DivideAndConquerFacts.

Import DivideAndConquer.

(** The entries that [v[v >= 0] += offset] leaves in an int32 vector. *)
Definition offset_values (values : list Z) (offset : Z) : list Z :=
  map (fun x => if 0 <=? x then astype_int32 (x + offset) else x) values.

Lemma offset_assigned_int32 (values : list Z) (offset : Z) :
  offset_assigned {| dtype := DInt32; data := values |} offset
  = Ok {| dtype := DInt32; data := offset_values values offset |}.
Proof. reflexivity. Qed.

Lemma offset_values_int32 (values : list Z) (offset : Z) :
  Forall is_int32 values -> Forall is_int32 (offset_values values offset).
Proof.
  unfold offset_values. intros H. rewrite Forall_map.
  eapply Forall_impl; [|exact H]. intros x Hx. simpl.
  destruct (0 <=? x); [apply astype_int32_range | assumption].
Qed.

Lemma offset_values_zero (values : list Z) :
  Forall is_int32 values -> offset_values values 0 = values.
Proof.
  unfold offset_values. induction 1 as [|x values Hx _ IH]; simpl; [reflexivity|].
  rewrite IH. f_equal. destruct (0 <=? x); [|reflexivity].
  rewrite Z.add_0_r. apply astype_int32_id. assumption.
Qed.

Lemma map_cast_int32 (values : list Z) :
  Forall is_int32 values -> map (cast DInt32) values = values.
Proof.
  induction 1 as [|x values Hx _ IH]; simpl; [reflexivity|].
  rewrite IH, astype_int32_id by assumption. reflexivity.
Qed.

(** What the cell at the [k]-th index of a pile holds once the pile has been
    written to an int32 vector of the complete data. *)
Lemma spliced_entry (vector vector' : Vector) (indices values : list Z) (offset : Z)
    (k : nat) (i x : Z) :
  dtype vector = DInt32 ->
  length values = length indices ->
  NoDup indices ->
  (forall j, In j indices -> 0 <= j) ->
  nth_error indices k = Some i ->
  nth_error values k = Some x ->
  is_int32 x ->
  scatter vector indices (offset_values values offset) = Ok vector' ->
  nth_error (data vector') (Z.to_nat i)
  = Some (if 0 <=? x then astype_int32 (x + offset) else x).
Proof.
  intros Hd Hlen Hnd Hnonneg Hi Hx Hint Hs.
  apply scatter_ok in Hs; [|unfold offset_values; rewrite length_map; assumption
                           |assumption].
  destruct Hs as [Hrange ->]. simpl. rewrite Hd.
  apply (write_all_written _ _ _ k).
  - apply NoDup_map_to_nat; assumption.
  - rewrite nth_error_map, Hi. reflexivity.
  - unfold offset_values. rewrite !nth_error_map, Hx. simpl. f_equal.
    destruct (0 <=? x); [|apply astype_int32_id; assumption].
    apply astype_int32_id, astype_int32_range.
  - assert (Hin : In i indices) by (eapply nth_error_In; eassumption).
    specialize (Hrange i Hin). specialize (Hnonneg i Hin). lia.
Qed.

(** The data of [cells] cells and one gene before any annotation is set. *)
Definition bare_data (cells : nat) : AnnData :=
  {| n_obs := cells; n_vars := 1; uns := []; obs := []; var := [] |}.

(** The frames that [_pile_results] returns for a pile when the intermediate
    results are not kept: the metacell of each cell of the pile, and the
    feature mask of the genes. *)
Definition pile_frames (indices metacells : list Z) : DataFrame * DataFrame :=
  ({| frame_index := indices;
      columns := [("metacell"%string, {| dtype := DInt32; data := metacells |})] |},
   {| frame_index := [0];
      columns := [("feature"%string, {| dtype := DBool; data := [1] |})] |}).

(** Two piles of two cells each; the direct computation found two metacells
    in each pile. *)
Definition two_piles : list (DataFrame * DataFrame) :=
  [ pile_frames [0; 2] [0; 1]; pile_frames [1; 3] [1; 0] ].

(** C1 (as the code behaves): [_collect_piles_results] does not keep the count
    that [_collect_pile_results] returns, so every pile is collected with the
    offset zero and the function returns zero.  In the preliminary phase,
    on the data that [_initial_divide_and_conquer_results] has prepared,
    with two piles of two metacells each, cell 0 (pile 0, metacell 0) and
    cell 3 (pile 1, metacell 0) both end in the metacell 0, and cells 2 and
    1 both in 1. *)
Example collect_piles_results_reuses_indices :
  exists cdata0 cdata,
    _initial_divide_and_conquer_results (bare_data 4) false true = Ok cdata0
    /\ _collect_piles_results cdata0 two_piles "preliminary" false = Ok (cdata, 0)
    /\ lookup "pre_metacell" (obs cdata)
       = Some {| dtype := DInt32; data := [0; 1; 1; 0] |}
    /\ lookup "pre_directs" (uns cdata) = Some 2.
Proof.
  eexists. eexists. split; [reflexivity|]. split; [reflexivity|]. split; reflexivity.
Qed.

(** Had the count been kept, the second pile would have been offset by two:
    the call for the first pile returns two. *)
Example collect_pile_results_returns_count :
  exists cdata0 cdata,
    _initial_divide_and_conquer_results (bare_data 4) false true = Ok cdata0
    /\ _collect_pile_results cdata0 false (fst (pile_frames [0; 2] [0; 1]))
         (snd (pile_frames [0; 2] [0; 1])) 0 0 false = Ok (cdata, 2).
Proof. eexists. eexists. split; reflexivity. Qed.

(** In the final phase the same piles are not collected at all: the name
    [_prefix('directs', 'final')] is [finaldirects], which is not among the
    metadata ([_initial_divide_and_conquer_results] sets [final_directs]). *)
Example collect_piles_results_final_phase :
  exists cdata0,
    _initial_divide_and_conquer_results (bare_data 4) false true = Ok cdata0
    /\ _collect_piles_results cdata0 two_piles "final" false = Raised KeyError.
Proof. eexists. split; reflexivity. Qed.

(** C6: when the results of a pile or of an outlier recursion are written to
    the vector of metacells of the complete data, the cell at a pile's index
    whose local metacell is negative holds that value, as it is, and only a
    cell whose local metacell is not negative has [metacells_count] added
    (as int32 values add).  This is so whenever one of the two functions
    returns, in either phase and with or without the intermediate results;
    and both return in the preliminary phase without intermediate results
    when the complete data has [pre_directs] and the indices are cells of
    its [pre_metacell]. *)
Theorem negative_sentinels_are_never_offset :
  forall (cdata : AnnData) (metacells_count : Z) (indices values : list Z)
         (k : nat) (i x : Z),
    length values = length indices ->
    NoDup indices ->
    (forall j, In j indices -> 0 <= j) ->
    nth_error indices k = Some i ->
    nth_error values k = Some x ->
    is_int32 x ->
    let holds (name : string) (cdata' : AnnData) :=
      exists vector',
        lookup name (obs cdata') = Some vector'
        /\ (x < 0 -> nth_error (data vector') (Z.to_nat i) = Some x)
        /\ (0 <= x ->
            nth_error (data vector') (Z.to_nat i)
            = Some (astype_int32 (x + metacells_count)))
        /\ (0 <= x -> is_int32 (x + metacells_count) ->
            nth_error (data vector') (Z.to_nat i) = Some (x + metacells_count)) in
    (forall cells_frame genes_frame pile_index,
        frame_index cells_frame = indices ->
        lookup "metacell" (columns cells_frame)
        = Some {| dtype := DInt32; data := values |} ->
        (forall is_final intermediate vector cdata' count',
            lookup (_prefix is_final "metacell" "") (obs cdata) = Some vector ->
            dtype vector = DInt32 ->
            _collect_pile_results cdata is_final cells_frame genes_frame metacells_count
              pile_index intermediate = Ok (cdata', count') ->
            holds (_prefix is_final "metacell" "") cdata')
        /\ (forall directs vector,
               lookup "pre_directs" (uns cdata) = Some directs ->
               lookup "pre_metacell" (obs cdata) = Some vector ->
               (forall j, In j indices -> j < Z.of_nat (length (data vector))) ->
               exists cdata' count',
                 _collect_pile_results cdata false cells_frame genes_frame
                   metacells_count pile_index false = Ok (cdata', count')))
    /\ (forall odata piles_count index_dtype,
           lookup "complete_cell_index" (obs odata)
           = Some {| dtype := index_dtype; data := indices |} ->
           lookup "metacell" (obs odata) = Some {| dtype := DInt32; data := values |} ->
           (forall phase intermediate vector cdata',
               lookup (_prefix (String.eqb phase "final") "metacell" "") (obs cdata)
               = Some vector ->
               dtype vector = DInt32 ->
               _collect_outliers_results cdata odata phase metacells_count piles_count
                 intermediate = Ok cdata' ->
               holds (_prefix (String.eqb phase "final") "metacell" "") cdata')
           /\ (forall directs pre_directs final_directs vector,
                  lookup "pre_directs" (uns cdata) = Some directs ->
                  lookup "pre_directs" (uns odata) = Some pre_directs ->
                  lookup "final_directs" (uns odata) = Some final_directs ->
                  lookup "pre_metacell" (obs cdata) = Some vector ->
                  (forall j, In j indices -> j < Z.of_nat (length (data vector))) ->
                  exists cdata',
                    _collect_outliers_results cdata odata "preliminary" metacells_count
                      piles_count false = Ok cdata')).
Proof.
  intros cdata metacells_count indices values k i x Hlen Hnd Hnonneg Hi Hx Hint holds.
  assert (Hholds : forall name cdata' vector vector',
             dtype vector = DInt32 ->
             scatter vector indices (offset_values values metacells_count) = Ok vector' ->
             lookup name (obs cdata') = Some vector' ->
             holds name cdata').
  { intros name cdata' vector vector' Hd Hs Hv'. exists vector'.
    split; [assumption|].
    pose proof (spliced_entry vector vector' indices values metacells_count k i x
                  Hd Hlen Hnd Hnonneg Hi Hx Hint Hs) as Hw.
    rewrite Hw. split; [|split].
    - intros Hneg. destruct (0 <=? x) eqn:E; [apply Z.leb_le in E; lia | reflexivity].
    - intros Hpos. destruct (0 <=? x) eqn:E; [reflexivity | apply Z.leb_gt in E; lia].
    - intros Hpos Hsum. destruct (0 <=? x) eqn:E; [|apply Z.leb_gt in E; lia].
      rewrite astype_int32_id by assumption. reflexivity. }
  assert (Hscatter : forall vector,
             (forall j, In j indices -> j < Z.of_nat (length (data vector))) ->
             exists vector',
               scatter vector indices (offset_values values metacells_count)
               = Ok vector').
  { intros vector Hrange. eexists. apply scatter_in_range.
    - unfold offset_values. rewrite length_map. assumption.
    - intros j Hj. split; [apply Hnonneg | apply Hrange]; assumption. }
  assert (Htop : exists top, np_max (offset_values values metacells_count) = Ok top).
  { destruct values as [|y values]; [destruct k; discriminate|].
    eexists. reflexivity. }
  split.
  - intros cells_frame genes_frame pile_index Hindex Hcolumn. split.
    + intros is_final intermediate vector cdata' count' Hv Hd H.
      apply DivideAndConquerFacts.collect_pile_results_metacell in H.
      destruct H as (directs & values0 & pile & vector0 & vector' & _ & Hc & Hp & _
                     & Hv0 & Hs & Hv' & _).
      rewrite Hcolumn in Hc. injection Hc as <-.
      rewrite offset_assigned_int32 in Hp. injection Hp as <-.
      rewrite Hv in Hv0. injection Hv0 as <-.
      rewrite Hindex in Hs. simpl in Hs.
      apply (Hholds _ cdata' vector vector'); assumption.
    + intros directs vector Hdirects Hv Hrange.
      destruct (Hscatter vector Hrange) as [vector' Hs].
      destruct Htop as [top Htop].
      eexists. eexists.
      apply (DivideAndConquerFacts.collect_pile_results_returns cdata cells_frame
               genes_frame metacells_count pile_index directs top _ _ vector vector'
               Hdirects Hcolumn (offset_assigned_int32 _ _) Htop Hv).
      rewrite Hindex. exact Hs.
  - intros odata piles_count index_dtype Hindex Hcolumn. split.
    + intros phase intermediate vector cdata' Hv Hd H.
      apply DivideAndConquerFacts.collect_outliers_results_metacell in H.
      destruct H as (indices0 & values0 & pile & vector0 & vector' & Hi0 & Hc & Hp
                     & Hv0 & Hs & Hv').
      rewrite Hindex in Hi0. injection Hi0 as <-.
      rewrite Hcolumn in Hc. injection Hc as <-.
      rewrite offset_assigned_int32 in Hp. injection Hp as <-.
      rewrite Hv in Hv0. injection Hv0 as <-.
      simpl in Hs.
      apply (Hholds _ cdata' vector vector'); assumption.
    + intros directs pre_directs final_directs vector Hdirects Hpre Hfinal Hv Hrange.
      destruct (Hscatter vector Hrange) as [vector' Hs].
      eexists.
      apply (DivideAndConquerFacts.collect_outliers_results_returns cdata odata
               metacells_count piles_count directs pre_directs final_directs _ _ _
               vector vector' Hdirects Hpre Hfinal Hindex Hcolumn
               (offset_assigned_int32 _ _) Hv).
      exact Hs.
Qed.

(** The outlier recursion of five cells of which the cell 3 stayed an
    outlier. *)
Definition some_outliers : AnnData :=
  {| n_obs := 3; n_vars := 1;
     uns := [("pre_directs", 0); ("final_directs", 1)]%string;
     obs := [ ("complete_cell_index", {| dtype := DInt32; data := [1; 3; 4] |});
              ("metacell", {| dtype := DInt32; data := [0; -1; 0] |}) ]%string;
     var := [("feature"%string, {| dtype := DInt32; data := [1] |})] |}.

Lemma negative_sentinels_are_never_offset_witness :
  exists cdata0 cdata' vector',
    _initial_divide_and_conquer_results (bare_data 5) false true = Ok cdata0
    /\ _collect_outliers_results cdata0 some_outliers "preliminary" 7 2 false = Ok cdata'
    /\ lookup "pre_metacell" (obs cdata') = Some vector'
    /\ nth_error (data vector') 3 = Some (-1).
Proof.
  let v := eval vm_compute in (_initial_divide_and_conquer_results (bare_data 5) false true) in
  match v with Ok ?s => pose (cdata0 := s) end.
  let v := eval vm_compute in
    (_collect_outliers_results cdata0 some_outliers "preliminary" 7 2 false) in
  match v with Ok ?s => pose (cdata' := s) end.
  assert (E : _collect_outliers_results cdata0 some_outliers "preliminary" 7 2 false
              = Ok cdata') by reflexivity.
  assert (Hnd : NoDup [1; 3; 4]).
  { repeat constructor; simpl; intros H; repeat destruct H as [H|H]; try discriminate H;
      exact H. }
  assert (Hnonneg : forall j, In j [1; 3; 4] -> 0 <= j).
  { intros j Hj. simpl in Hj. lia. }
  assert (Hint : is_int32 (-1)) by (unfold is_int32; lia).
  pose proof (negative_sentinels_are_never_offset cdata0 7 [1; 3; 4] [0; -1; 0] 1 3 (-1)
                eq_refl Hnd Hnonneg eq_refl eq_refl Hint) as H.
  cbv zeta in H. destruct H as [_ H].
  destruct (H some_outliers 2 DInt32 eq_refl eq_refl) as [Hholds _].
  destruct (Hholds "preliminary"%string false {| dtype := DInt32; data := repeat (-1) 5 |}
              cdata' eq_refl eq_refl E) as (vector' & Hv' & Hneg & _).
  exists cdata0, cdata', vector'.
  split; [reflexivity|]. split; [exact E|]. split; [exact Hv'|].
  apply Hneg. lia.
Defined.









(** A pile index below the largest that has no cell makes the phase fail. *)
Example pile_calls_skipped_index :
  pile_calls [0; 2; 0; 2] 7 = Raised AssertionError.
Proof. reflexivity. Qed.

(** ** Validation and the case without size factors *)

Lemma tbind_lift_ok {A B : Type} (a : A) (f : A -> traced B) :
  tbind (lift (Ok a)) f = f a.
Proof. unfold tbind, lift; simpl. destruct (f a); reflexivity. Qed.

Lemma tbind_lift_raised {A B : Type} (e : exn) (f : A -> traced B) :
  tbind (lift (Raised e)) f = ([], Raised e).
Proof. reflexivity. Qed.

Lemma tbind_step {B : Type} (s : Step) (f : unit -> traced B) :
  tbind (step s) f = (s :: fst (f tt), snd (f tt)).
Proof. reflexivity. Qed.

Section Validation.

Variable F : Type.
Variable fmean : list F -> F.
Variable fzero : F.
Variable partition_method :
  list (list F) -> option (list Z) -> Z -> option Z -> option Z -> option Z -> Z -> list Z.
Variable bin_pack : list Z -> Z -> list Z.
Variable bin_fill : list Z -> Z -> list Z.
Variable compress_indices : list Z -> list Z.


(** C10: with a minimal number of cells but without a split factor and
    without a merge factor, [compute_candidate_metacells] never constructs an
    [Improver] and never reaches [improve], [pack] or [fill]; when the edge
    weights are square and the target size is positive, all it does is call
    the partition method, and it returns the membership the method computed,
    as it is. *)
Theorem no_factors_no_improver :
  forall fuel edge_weights target_metacell_size cell_sizes min_metacell_cells
         must_complete_cover random_seed,
    let result :=
      compute_candidate_metacells fmean fzero partition_method bin_pack bin_fill
        compress_indices fuel edge_weights target_metacell_size cell_sizes None None
        (Some min_metacell_cells) must_complete_cover random_seed in
    (~ In ConstructImprover (fst result)
     /\ ~ In CallImprove (fst result)
     /\ ~ In CallPack (fst result)
     /\ ~ In CallFill (fst result))
    /\ (forallb (fun row => (length row =? length edge_weights)%nat) edge_weights = true ->
        0 < target_metacell_size ->
        result =
          ([CallPartitionMethod],
           Ok (partition_method edge_weights (node_sizes_of cell_sizes)
                 target_metacell_size None None (Some min_metacell_cells) random_seed))).
Proof.
  intros fuel w target sizes cells cover seed result. subst result.
  unfold compute_candidate_metacells.
  destruct (forallb _ w); simpl assert.
  - rewrite tbind_lift_ok.
    destruct (0 <? target) eqn:E; simpl assert.
    + repeat rewrite tbind_lift_ok. simpl.
      split; [|reflexivity].
      repeat split; intros [H|[]]; discriminate H.
    + rewrite tbind_lift_raised. simpl.
      split; [tauto|]. intros _ H. apply Z.ltb_ge in E. lia.
  - rewrite tbind_lift_raised. simpl. split; [tauto|]. discriminate.
Qed.

End Validation.

(** ** The contracts of the collaborators and the invariant of the [Improver] *)

(** The community indices a partition method returns are the integers from
    zero up to the number of communities: none is negative and none is
    skipped. *)
Definition dense (membership : list Z) : Prop :=
  forall g, In g membership -> 0 <= g /\ forall h, 0 <= h < g -> In h membership.

(** The contract of a partition method: given the weights of the edges between
    [n] nodes (and, when there are node sizes, the size of each of these
    nodes), it returns the community of each of the [n] nodes, and the
    indices are dense. *)
Definition partition_contract {F : Type}
    (partition_method :
       list (list F) -> option (list Z) -> Z -> option Z -> option Z -> option Z -> Z
       -> list Z) : Prop :=
  forall weights sizes target max_size min_size min_nodes seed,
    match sizes with
    | Some s => length s = length weights
    | None => True
    end ->
    length (partition_method weights sizes target max_size min_size min_nodes seed)
      = length weights
    /\ dense (partition_method weights sizes target max_size min_size min_nodes seed).

(** The contract of [bin_pack] and [bin_fill]: one bin per element, and no bin
    index is negative. *)
Definition bins_contract (bins_of : list Z -> Z -> list Z) : Prop :=
  forall amounts bound,
    length (bins_of amounts bound) = length amounts
    /\ Forall (fun b => 0 <= b) (bins_of amounts bound).

(** The sum of [f] over a list. *)
Definition sum_of {A : Type} (f : A -> Z) (l : list A) : Z := np_sum (map f l).

(** The weight of the nodes of a mask: their number when there are no sizes,
    the sum of their sizes otherwise. *)
Definition weight (sizes : option (list Z)) (mask : list bool) : Z :=
  match sizes with
  | None => count_true mask
  | Some s => np_sum (select s mask)
  end.

(** The weight of all the nodes. *)
Definition total_weight (sizes : option (list Z)) (nodes_count : nat) : Z :=
  match sizes with
  | None => Z.of_nat nodes_count
  | Some s => np_sum s
  end.

Section Invariant.

Variable F : Type.
Variable cfg : Config F.

(** The record of a community agrees with the membership vector: its mask
    marks the nodes that carry its index, and its counts, deficits and excess
    are those of these nodes. *)
Definition describes (membership : list Z) (c : Community.t) : Prop :=
  let mask := map (fun m => m =? Community.index c) membership in
  Community.mask c = mask
  /\ Community.nodes c = count_true mask
  /\ Community.size c = size_of cfg mask
  /\ Community.too_few c = few_of cfg (count_true mask)
  /\ Community.too_small c = small_of cfg (size_of cfg mask)
  /\ Community.too_large c = large_of cfg (size_of cfg mask).

(** The invariant of an [Improver] while communities with the indices from
    [next_community_index] up to [bound] are still to be added. *)
Record invariant (bound : Z) (st : Improver) : Prop := {
  inv_shape : length (membership st) = length (edge_weights cfg);
  inv_sizes :
    match node_sizes cfg with
    | Some s => length s = length (edge_weights cfg)
    | None => True
    end;
  inv_next : 0 <= next_community_index st;
  inv_index :
    Forall (fun c => 0 <= Community.index c < next_community_index st) (communities st);
  inv_describes : Forall (describes (membership st)) (communities st);
  inv_nodup : NoDup (map Community.index (communities st));
  inv_cover :
    Forall (fun m => In m (map Community.index (communities st))
                     \/ next_community_index st <= m < bound) (membership st);
  inv_too_few : too_few st = sum_of Community.too_few (communities st);
  inv_too_small : too_small st = sum_of Community.too_small (communities st);
  inv_too_large : too_large st = sum_of Community.too_large (communities st)
}.

(** The invariant between the calls of the methods: every node belongs to a
    community of the list. *)
Definition consistent (st : Improver) : Prop :=
  invariant (next_community_index st) st /\ 0 < next_community_index st.

(** No community is empty. *)
Definition inhabited (st : Improver) : Prop :=
  Forall (fun c => 0 < Community.nodes c) (communities st).

(** The record [add] makes for the community [community_index]. *)
Definition record_of (membership : list Z) (community_index : Z) : Community.t :=
  let mask := map (fun m => m =? community_index) membership in
  {| Community.index := community_index;
     Community.nodes := count_true mask;
     Community.size := size_of cfg mask;
     Community.mask := mask;
     Community.too_few := few_of cfg (count_true mask);
     Community.too_small := small_of cfg (size_of cfg mask);
     Community.too_large := large_of cfg (size_of cfg mask);
     Community.monolithic := false |}.

End Invariant.

Arguments describes {F} cfg membership c.
Arguments invariant {F} cfg bound st.
Arguments consistent {F} cfg st.
Arguments record_of {F} cfg membership community_index.

(** ** Sums, masks and counts *)

Lemma sum_of_nil {A : Type} (f : A -> Z) : sum_of f [] = 0.
Proof. reflexivity. Qed.

Lemma sum_of_cons {A : Type} (f : A -> Z) (x : A) (l : list A) :
  sum_of f (x :: l) = f x + sum_of f l.
Proof. reflexivity. Qed.

Lemma sum_of_app {A : Type} (f : A -> Z) (l1 l2 : list A) :
  sum_of f (l1 ++ l2) = sum_of f l1 + sum_of f l2.
Proof.
  induction l1 as [|x l1 IH]; simpl; [reflexivity|].
  rewrite !sum_of_cons, IH. lia.
Qed.

Lemma sum_of_plus {A : Type} (f g : A -> Z) (l : list A) :
  sum_of (fun x => f x + g x) l = sum_of f l + sum_of g l.
Proof.
  induction l as [|x l IH]; [reflexivity|].
  rewrite !sum_of_cons, IH. lia.
Qed.

Lemma sum_of_ext {A : Type} (f g : A -> Z) (l : list A) :
  (forall x, In x l -> f x = g x) -> sum_of f l = sum_of g l.
Proof.
  induction l as [|x l IH]; intros H; [reflexivity|].
  rewrite !sum_of_cons, IH, (H x); simpl; auto.
  intros y Hy. apply H. simpl; auto.
Qed.

Lemma sum_of_le {A : Type} (f g : A -> Z) (l : list A) :
  (forall x, In x l -> f x <= g x) -> sum_of f l <= sum_of g l.
Proof.
  induction l as [|x l IH]; intros H; [reflexivity|].
  rewrite !sum_of_cons.
  assert (f x <= g x) by (apply H; simpl; auto).
  assert (sum_of f l <= sum_of g l) by (apply IH; intros y Hy; apply H; simpl; auto).
  lia.
Qed.

Lemma sum_of_nonneg {A : Type} (f : A -> Z) (l : list A) :
  (forall x, In x l -> 0 <= f x) -> 0 <= sum_of f l.
Proof.
  induction l as [|x l IH]; intros H; [reflexivity|].
  rewrite sum_of_cons.
  assert (0 <= f x) by (apply H; simpl; auto).
  assert (0 <= sum_of f l) by (apply IH; intros y Hy; apply H; simpl; auto).
  lia.
Qed.

Lemma sum_of_map {A B : Type} (f : B -> Z) (g : A -> B) (l : list A) :
  sum_of f (map g l) = sum_of (fun x => f (g x)) l.
Proof. unfold sum_of. rewrite map_map. reflexivity. Qed.

(** The sum of an indicator over a list without duplicates. *)
Lemma sum_of_indicator (x y : Z) (l : list Z) :
  NoDup l ->
  sum_of (fun i => if x =? i then y else 0) l = if in_dec Z.eq_dec x l then y else 0.
Proof.
  induction l as [|i l IH]; intros Hnd; [reflexivity|].
  inversion Hnd as [|? ? Hnotin Hnd']; subst.
  rewrite sum_of_cons, IH by assumption.
  destruct (Z.eqb_spec x i) as [->|Hne].
  - destruct (in_dec Z.eq_dec i l); [contradiction|].
    destruct (in_dec Z.eq_dec i (i :: l)) as [_|Hn]; [lia|].
    exfalso; apply Hn; simpl; auto.
  - destruct (in_dec Z.eq_dec x l) as [Hin|Hn];
      destruct (in_dec Z.eq_dec x (i :: l)) as [Hin'|Hn']; try lia.
    + exfalso; apply Hn'; simpl; auto.
    + exfalso. destruct Hin' as [->|]; [congruence | contradiction].
Qed.

Lemma count_true_nonneg (mask : list bool) : 0 <= count_true mask.
Proof. induction mask as [|[] mask IH]; simpl; lia. Qed.

Lemma count_true_le_length (mask : list bool) : count_true mask <= Z.of_nat (length mask).
Proof.
  induction mask as [|b mask IH]; [simpl; lia|].
  cbn [count_true length]. destruct b; lia.
Qed.

Lemma count_true_pos {A : Type} (f : A -> bool) (l : list A) :
  0 < count_true (map f l) <-> exists x, In x l /\ f x = true.
Proof.
  induction l as [|y l IH]; simpl.
  - split; [lia | intros [x [[] _]]].
  - destruct (f y) eqn:E.
    + split; [intros _; exists y; auto|].
      intros _. pose proof (count_true_nonneg (map f l)). lia.
    + rewrite IH. split; intros [x [Hin Hx]].
      * exists x; auto.
      * destruct Hin as [->|Hin]; [congruence | exists x; auto].
Qed.

Lemma length_select_mask {A : Type} (v : list A) (mask : list bool) :
  length v = length mask -> Z.of_nat (length (select v mask)) = count_true mask.
Proof.
  revert mask; induction v as [|x v IH]; intros [|b mask] H; simpl in *; try lia.
  destruct b; simpl length; rewrite <- (IH mask) by lia; lia.
Qed.

(** The weights of the communities of distinct indices add up to the weight
    of the nodes that belong to one of them. *)
Lemma weight_partition (sizes : option (list Z)) (indices : list Z) (membership : list Z) :
  NoDup indices ->
  Forall (fun m => In m indices) membership ->
  match sizes with
  | Some s => length s = length membership
  | None => True
  end ->
  sum_of (fun i => weight sizes (map (fun m => m =? i) membership)) indices
  = total_weight sizes (length membership).
Proof.
  intros Hnd. destruct sizes as [s|]; simpl.
  - revert s; induction membership as [|x membership IH]; intros s Hcover Hlen.
    + destruct s; [|discriminate]. simpl.
      induction indices; [reflexivity|]. rewrite sum_of_cons. simpl.
      inversion Hnd; subst; auto.
    + destruct s as [|y s]; [discriminate|]. simpl in Hlen.
      inversion Hcover as [|? ? Hx Hcover']; subst.
      rewrite (sum_of_ext _ (fun i => (if x =? i then y else 0)
                                      + np_sum (select s (map (fun m => m =? i) membership)))).
      * rewrite sum_of_plus, sum_of_indicator by assumption.
        rewrite (IH s) by (auto; lia).
        destruct (in_dec Z.eq_dec x indices); [reflexivity | contradiction].
      * intros i _. simpl. destruct (x =? i); simpl; lia.
  - intros Hcover _.
    induction membership as [|x membership IH].
    + simpl. induction indices; [reflexivity|]. rewrite sum_of_cons. simpl.
      inversion Hnd; subst; auto.
    + inversion Hcover as [|? ? Hx Hcover']; subst.
      rewrite (sum_of_ext _ (fun i => (if x =? i then 1 else 0)
                                      + count_true (map (fun m => m =? i) membership))).
      * rewrite sum_of_plus, sum_of_indicator by assumption.
        rewrite IH by assumption.
        destruct (in_dec Z.eq_dec x indices); [|contradiction].
        simpl length. lia.
      * intros i _. cbn [map count_true weight]. destruct (x =? i); lia.
Qed.

Lemma np_max_spec (v : list Z) (top : Z) :
  np_max v = Ok top -> In top v /\ forall x, In x v -> x <= top.
Proof.
  destruct v as [|x v]; [discriminate|]. simpl. intros H; injection H as <-.
  revert x; induction v as [|y v IH]; intros x; simpl.
  - split; [auto | intros z [->|[]]; lia].
  - destruct (IH (Z.max x y)) as [Hin Hle]. split.
    + simpl. destruct Hin as [Hin|Hin]; [|tauto]. rewrite <- Hin.
      destruct (Z.max_spec x y) as [[_ E]|[_ E]]; rewrite E; auto.
    + intros z [->|[->|Hz]].
      * specialize (Hle (Z.max z y) (or_introl eq_refl)). lia.
      * specialize (Hle (Z.max x z) (or_introl eq_refl)). lia.
      * apply Hle; auto.
Qed.

Lemma np_max_returns (v : list Z) :
  v <> [] -> exists top, np_max v = Ok top.
Proof. destruct v; [congruence | eexists; reflexivity]. Qed.

(** A dense membership that is not empty has the indices from zero to its
    maximum. *)
Lemma dense_max (membership : list Z) (top : Z) :
  dense membership -> np_max membership = Ok top ->
  0 <= top /\ forall g, 0 <= g <= top -> In g membership.
Proof.
  intros Hdense Hmax. apply np_max_spec in Hmax. destruct Hmax as [Hin Hle].
  destruct (Hdense top Hin) as [H0 Hbelow]. split; [assumption|].
  intros g Hg. destruct (Z.eq_dec g top) as [->|]; [assumption|].
  apply Hbelow. lia.
Qed.

(** ** Adding and removing communities *)

Section ImproverFacts.

Variable F : Type.
Variable cfg : Config F.


Lemma few_of_nonneg (n : Z) : 0 <= few_of cfg n.
Proof.
  unfold few_of. destruct (min_comm_nodes cfg) as [k|]; [|lia].
  destruct (Z.ltb_spec n k); lia.
Qed.

Lemma small_of_nonneg (n : Z) : 0 <= small_of cfg n.
Proof.
  unfold small_of. destruct (min_comm_size cfg) as [k|]; [|lia].
  destruct (Z.ltb_spec n k); lia.
Qed.

Lemma large_of_nonneg (n : Z) : 0 <= large_of cfg n.
Proof.
  unfold large_of. destruct (max_comm_size cfg) as [k|]; [|lia].
  destruct (Z.ltb_spec k n); lia.
Qed.

(** The deficits and the excess of a record are not negative. *)
Definition nonneg_record (c : Community.t) : Prop :=
  0 <= Community.too_few c /\ 0 <= Community.too_small c /\ 0 <= Community.too_large c.

Lemma describes_nonneg (membership : list Z) (c : Community.t) :
  describes cfg membership c -> nonneg_record c.
Proof.
  intros (_ & _ & _ & Hf & Hs & Hl). unfold nonneg_record.
  rewrite Hf, Hs, Hl.
  auto using few_of_nonneg, small_of_nonneg, large_of_nonneg.
Qed.

Lemma describes_record_of (membership : list Z) (i : Z) :
  describes cfg membership (record_of cfg membership i).
Proof. unfold describes, record_of; simpl. repeat split. Qed.

(** A record keeps describing its community when the membership changes
    elsewhere. *)
Lemma describes_ext (m m' : list Z) (c : Community.t) :
  map (fun x => x =? Community.index c) m' = map (fun x => x =? Community.index c) m ->
  describes cfg m c -> describes cfg m' c.
Proof. unfold describes. intros ->. auto. Qed.

Lemma add_one_unfold (st : Improver) :
  add_one cfg st =
  let c := record_of cfg (membership st) (next_community_index st) in
  {| membership := membership st;
     communities := communities st ++ [c];
     too_few := too_few st + Community.too_few c;
     too_small := too_small st + Community.too_small c;
     too_large := too_large st + Community.too_large c;
     next_community_index := next_community_index st + 1;
     trace := trace st |}.
Proof. reflexivity. Qed.

Lemma add_one_invariant (bound : Z) (st : Improver) :
  invariant cfg bound st ->
  next_community_index st < bound ->
  invariant cfg bound (add_one cfg st).
Proof.
  intros [Hshape Hsizes Hnext Hindex Hdesc Hnd Hcover Hf Hs Hl] Hlt.
  rewrite add_one_unfold. cbv zeta.
  constructor; simpl; auto.
  - lia.
  - apply Forall_app; split.
    + eapply Forall_impl; [|exact Hindex]. simpl; intros c Hc; lia.
    + constructor; [simpl; lia | constructor].
  - apply Forall_app; split; [assumption|].
    constructor; [apply describes_record_of | constructor].
  - rewrite map_app. simpl.
    apply NoDup_app; [assumption | repeat constructor; simpl; tauto |].
    intros x Hx [<-|[]].
    apply in_map_iff in Hx. destruct Hx as [c [Hc Hin]].
    rewrite Forall_forall in Hindex. specialize (Hindex c Hin). lia.
  - eapply Forall_impl; [|exact Hcover]. simpl.
    intros m [Hm|Hm].
    + left. rewrite map_app. apply in_or_app; auto.
    + destruct (Z.eq_dec m (next_community_index st)) as [->|].
      * left. rewrite map_app. apply in_or_app; right; simpl; auto.
      * right. lia.
  - rewrite sum_of_app, sum_of_cons, sum_of_nil, Hf. simpl. lia.
  - rewrite sum_of_app, sum_of_cons, sum_of_nil, Hs. simpl. lia.
  - rewrite sum_of_app, sum_of_cons, sum_of_nil, Hl. simpl. lia.
Qed.

(** The indices [first], [first + 1], ..., [first + count - 1]. *)
Definition fresh_indices (first : Z) (count : nat) : list Z :=
  map (fun k => first + Z.of_nat k) (seq 0 count).

Lemma fresh_indices_S (first : Z) (count : nat) :
  fresh_indices first (S count) = first :: fresh_indices (first + 1) count.
Proof.
  unfold fresh_indices. simpl. rewrite <- seq_shift, map_map.
  f_equal; [f_equal; lia|]. apply map_ext. intros k. lia.
Qed.

Lemma in_fresh_indices (first : Z) (count : nat) (x : Z) :
  In x (fresh_indices first count) <-> first <= x < first + Z.of_nat count.
Proof.
  unfold fresh_indices. rewrite in_map_iff. split.
  - intros [k [<- Hk]]. apply in_seq in Hk. lia.
  - intros H. exists (Z.to_nat (x - first)). split; [lia|]. apply in_seq. lia.
Qed.

Lemma length_fresh_indices (first : Z) (count : nat) :
  length (fresh_indices first count) = count.
Proof. unfold fresh_indices. rewrite length_map, length_seq. reflexivity. Qed.

(** What [count] iterations of the loop of [add] do. *)
Lemma add_loop_spec (count : nat) :
  forall (bound : Z) (st : Improver),
    invariant cfg bound st ->
    next_community_index st + Z.of_nat count <= bound ->
    let st' := add_loop cfg count st in
    invariant cfg bound st'
    /\ membership st' = membership st
    /\ communities st' =
         communities st ++
           map (record_of cfg (membership st)) (fresh_indices (next_community_index st) count)
    /\ next_community_index st' = next_community_index st + Z.of_nat count
    /\ trace st' = trace st.
Proof.
  induction count as [|count IH]; intros bound st Hinv Hle; cbn [add_loop].
  - unfold fresh_indices. cbn [seq map]. rewrite app_nil_r.
    split; [exact Hinv|]. repeat split; auto. lia.
  - assert (H1 : invariant cfg bound (add_one cfg st))
      by (apply add_one_invariant; [assumption | lia]).
    destruct (IH bound (add_one cfg st) H1) as (Hinv' & Hm & Hc & Hn & Ht).
    { rewrite add_one_unfold; simpl. lia. }
    split; [exact Hinv'|]. rewrite Hm, Hc, Hn, Ht, fresh_indices_S.
    rewrite add_one_unfold. simpl. rewrite <- app_assoc. simpl.
    repeat split; auto. lia.
Qed.

(** [add(count)] after communities were removed and their nodes moved to the
    indices from [next_community_index] on. *)
Lemma add_some_spec (count : Z) (st : Improver) :
  invariant cfg (next_community_index st + count) st ->
  0 < next_community_index st ->
  0 <= count ->
  exists st',
    add cfg (Some count) st = Ok st'
    /\ consistent cfg st'
    /\ membership st' = membership st
    /\ communities st' =
         communities st ++
           map (record_of cfg (membership st))
             (fresh_indices (next_community_index st) (Z.to_nat count))
    /\ next_community_index st' = next_community_index st + count
    /\ trace st' = trace st.
Proof.
  intros Hinv Hnext Hcount.
  exists (add_loop cfg (Z.to_nat count) st).
  destruct (add_loop_spec (Z.to_nat count) _ st Hinv) as (Hinv' & Hm & Hc & Hn & Ht);
    [lia|].
  split.
  - unfold add. replace (0 <? next_community_index st) with true
      by (symmetry; apply Z.ltb_lt; assumption).
    reflexivity.
  - rewrite Z2Nat.id in Hn by assumption.
    split; [split; [rewrite Hn; exact Hinv' | lia]|].
    repeat split; auto.
Qed.

(** [Improver.__init__] on a membership without negative indices. *)
Lemma init_spec (membership0 : list Z) :
  membership0 <> [] ->
  Forall (fun m => 0 <= m) membership0 ->
  length membership0 = length (edge_weights cfg) ->
  match node_sizes cfg with
  | Some s => length s = length (edge_weights cfg)
  | None => True
  end ->
  exists st top,
    init cfg membership0 = Ok st
    /\ np_max membership0 = Ok top
    /\ consistent cfg st
    /\ membership st = membership0
    /\ communities st = map (record_of cfg membership0) (fresh_indices 0 (Z.to_nat (top + 1)))
    /\ trace st = [].
Proof.
  intros Hne Hnonneg Hlen Hsizes.
  destruct (np_max_returns _ Hne) as [top Htop].
  destruct (np_max_spec _ _ Htop) as [Hin Hle].
  assert (H0 : 0 <= top) by (rewrite Forall_forall in Hnonneg; auto).
  set (st0 := {| membership := membership0; communities := []; too_few := 0;
                 too_small := 0; too_large := 0; next_community_index := 0;
                 trace := [] |}).
  assert (Hinv : invariant cfg (top + 1) st0).
  { constructor; simpl; auto; try lia; try constructor.
    rewrite Forall_forall in *. intros m Hm. right.
    specialize (Hnonneg m Hm). specialize (Hle m Hm). lia. }
  destruct (add_loop_spec (Z.to_nat (top + 1)) _ st0 Hinv) as (Hinv' & Hm & Hc & Hn & Ht);
    [simpl; lia|].
  exists (add_loop cfg (Z.to_nat (top + 1)) st0), top.
  split; [|split].
  - unfold init, add. fold st0. simpl. rewrite Htop. reflexivity.
  - assumption.
  - simpl in Hn. rewrite Z2Nat.id in Hn by lia.
    split; [split; [rewrite Hn; exact Hinv' | lia]|].
    repeat split; auto.
Qed.

End ImproverFacts.

(** ** Removing communities *)

Lemma sum_of_perm {A : Type} (f : A -> Z) (l1 l2 : list A) :
  Permutation l1 l2 -> sum_of f l1 = sum_of f l2.
Proof.
  induction 1; rewrite ?sum_of_cons in *; lia.
Qed.

Lemma delete_at_split {A : Type} (l : list A) (position : nat) (x : A) :
  nth_error l position = Some x ->
  l = firstn position l ++ x :: skipn (S position) l.
Proof.
  revert position; induction l as [|y l IH]; intros [|p] H; simpl in *; try discriminate.
  - injection H as ->. reflexivity.
  - f_equal. apply IH. assumption.
Qed.

Lemma delete_at_perm {A : Type} (l : list A) (position : nat) (x : A) :
  nth_error l position = Some x ->
  Permutation l (x :: delete_at position l).
Proof.
  intros H. rewrite (delete_at_split l position x H) at 1.
  unfold delete_at. symmetry. apply Permutation_middle.
Qed.

Lemma delete_at_cons {A : Type} (y : A) (l : list A) (position : nat) :
  delete_at (S position) (y :: l) = y :: delete_at position l.
Proof. reflexivity. Qed.

Lemma delete_at_nil {A : Type} (position : nat) : delete_at position (@nil A) = [].
Proof. unfold delete_at. rewrite firstn_nil, skipn_nil. reflexivity. Qed.

Lemma nth_error_delete_at_lt {A : Type} (l : list A) (position q : nat) :
  (q < position)%nat -> nth_error (delete_at position l) q = nth_error l q.
Proof.
  revert position q; induction l as [|y l IH]; intros position q H.
  - rewrite delete_at_nil. reflexivity.
  - destruct position as [|p]; [lia|]. rewrite delete_at_cons.
    destruct q as [|q]; [reflexivity|]. simpl. apply IH. lia.
Qed.

Lemma nth_error_delete_at_ge {A : Type} (l : list A) (position q : nat) :
  (position <= q)%nat -> nth_error (delete_at position l) q = nth_error l (S q).
Proof.
  revert position q; induction l as [|y l IH]; intros position q H.
  - rewrite delete_at_nil. destruct q; reflexivity.
  - destruct position as [|p]; [reflexivity|]. rewrite delete_at_cons.
    destruct q as [|q]; [lia|]. simpl. apply IH. lia.
Qed.

Lemma length_delete_at {A : Type} (l : list A) (position : nat) (x : A) :
  nth_error l position = Some x -> S (length (delete_at position l)) = length l.
Proof.
  intros H. apply delete_at_perm in H. apply Permutation_length in H.
  simpl in H. lia.
Qed.

(** The running totals are the sums over the records, and no record has a
    negative deficit or excess. *)
Definition accounts (st : Improver) : Prop :=
  too_few st = sum_of Community.too_few (communities st)
  /\ too_small st = sum_of Community.too_small (communities st)
  /\ too_large st = sum_of Community.too_large (communities st)
  /\ Forall nonneg_record (communities st).

Lemma invariant_accounts {F : Type} (cfg : Config F) (bound : Z) (st : Improver) :
  invariant cfg bound st -> accounts st.
Proof.
  intros [_ _ _ _ Hdesc _ _ Hf Hs Hl]. repeat split; auto.
  eapply Forall_impl; [|exact Hdesc]. intros c. apply describes_nonneg.
Qed.

Lemma sum_of_nonneg_records (f : Community.t -> Z) (l : list Community.t) :
  (forall c, nonneg_record c -> 0 <= f c) ->
  Forall nonneg_record l -> 0 <= sum_of f l.
Proof.
  intros Hf Hl. apply sum_of_nonneg. rewrite Forall_forall in Hl. auto.
Qed.

Lemma remove_spec (position : nat) (st : Improver) (c : Community.t) :
  accounts st ->
  nth_error (communities st) position = Some c ->
  exists st',
    remove position st = Ok st'
    /\ accounts st'
    /\ membership st' = membership st
    /\ communities st' = delete_at position (communities st)
    /\ next_community_index st' = next_community_index st
    /\ trace st' = trace st.
Proof.
  intros (Hf & Hs & Hl & Hnn) Hnth.
  pose proof (delete_at_perm _ _ _ Hnth) as Hperm.
  assert (Hnn' : Forall nonneg_record (c :: delete_at position (communities st))).
  { rewrite Forall_forall in *. intros x Hx. apply Hnn.
    eapply Permutation_in; [symmetry; exact Hperm | exact Hx]. }
  inversion Hnn' as [|? ? (Hc1 & Hc2 & Hc3) Hrest]; subst.
  pose proof (sum_of_perm Community.too_few _ _ Hperm) as E1.
  pose proof (sum_of_perm Community.too_small _ _ Hperm) as E2.
  pose proof (sum_of_perm Community.too_large _ _ Hperm) as E3.
  rewrite sum_of_cons in E1, E2, E3.
  assert (0 <= sum_of Community.too_few (delete_at position (communities st)))
    by (apply sum_of_nonneg_records; [intros x Hx; apply Hx | assumption]).
  assert (0 <= sum_of Community.too_small (delete_at position (communities st)))
    by (apply sum_of_nonneg_records; [intros x Hx; apply Hx | assumption]).
  assert (0 <= sum_of Community.too_large (delete_at position (communities st)))
    by (apply sum_of_nonneg_records; [intros x Hx; apply Hx | assumption]).
  eexists. split.
  - unfold remove. rewrite Hnth.
    replace (0 <=? too_few st - Community.too_few c) with true
      by (symmetry; apply Z.leb_le; lia).
    replace (0 <=? too_small st - Community.too_small c) with true
      by (symmetry; apply Z.leb_le; lia).
    replace (0 <=? too_large st - Community.too_large c) with true
      by (symmetry; apply Z.leb_le; lia).
    reflexivity.
  - unfold accounts.
    cbn [too_few too_small too_large communities membership next_community_index trace].
    repeat split; auto; lia.
Qed.

(** Positions in strictly decreasing order. *)
Definition descending (positions : list nat) : Prop :=
  StronglySorted (fun p q => (q < p)%nat) positions.

(** Removing the communities at decreasing positions removes the communities
    that were at these positions at the start. *)
Lemma remove_all_spec (positions : list nat) :
  forall (removed : list Community.t) (st : Improver),
    Forall2 (fun p c => nth_error (communities st) p = Some c) positions removed ->
    descending positions ->
    accounts st ->
    exists st',
      remove_all positions st = Ok st'
      /\ accounts st'
      /\ membership st' = membership st
      /\ next_community_index st' = next_community_index st
      /\ trace st' = trace st
      /\ Permutation (communities st) (communities st' ++ removed).
Proof.
  induction positions as [|p positions IH]; intros removed st Hnth Hdesc Hacc.
  - inversion Hnth; subst. exists st. simpl. rewrite app_nil_r.
    repeat split; auto; apply Hacc.
  - inversion Hnth as [|? c ? removed' Hp Hrest]; subst.
    inversion Hdesc as [|? ? Hdesc' Hlt]; subst.
    destruct (remove_spec p st c Hacc Hp) as (st1 & E1 & Hacc1 & Hm1 & Hc1 & Hn1 & Ht1).
    destruct (IH removed' st1) as (st' & E' & Hacc' & Hm' & Hn' & Ht' & Hperm'); auto.
    { rewrite Hc1. clear - Hrest Hlt.
      induction Hrest as [|q c' qs cs' Hq Hrest IHr]; constructor.
      - inversion Hlt; subst. rewrite nth_error_delete_at_lt; assumption.
      - apply IHr. inversion Hlt; assumption. }
    exists st'. simpl. rewrite E1. simpl. split; [exact E'|].
    repeat split; try apply Hacc'; try congruence.
    rewrite (delete_at_perm _ _ _ Hp), <- Hc1, Hperm'.
    apply Permutation_middle.
Qed.

(** ** Moving nodes to new communities *)

Lemma NoDup_app_disjoint {A : Type} (l1 l2 : list A) (a : A) :
  NoDup (l1 ++ l2) -> In a l1 -> In a l2 -> False.
Proof.
  induction l1 as [|x l1 IH]; intros Hnd H1 H2; [contradiction|].
  simpl in Hnd. inversion Hnd as [|? ? Hnotin Hnd']; subst.
  destruct H1 as [->|H1]; [|auto].
  apply Hnotin. apply in_or_app. auto.
Qed.

Section Restore.

Variable F : Type.
Variable cfg : Config F.

(** After communities were removed and the nodes of the removed communities
    were given indices from [next_community_index] up to [bound], the state
    is ready for [add]. *)
Lemma restore_invariant (st0 st2 : Improver) (removed : list Community.t) (bound : Z) :
  consistent cfg st0 ->
  Permutation (communities st0) (communities st2 ++ removed) ->
  accounts st2 ->
  next_community_index st2 = next_community_index st0 ->
  Forall2 (fun old new =>
             (In old (map Community.index (communities st2)) /\ new = old)
             \/ (In old (map Community.index removed)
                 /\ next_community_index st0 <= new < bound))
          (membership st0) (membership st2) ->
  invariant cfg bound st2.
Proof.
  intros [[Hshape Hsizes Hnext Hindex Hdesc Hnd Hcover Hf Hs Hl] Hpos]
         Hperm (Hf2 & Hs2 & Hl2 & _) Hn2 Hrel.
  assert (Hin : forall c, In c (communities st2) -> In c (communities st0)).
  { intros c Hc. eapply Permutation_in; [symmetry; exact Hperm|].
    apply in_or_app; auto. }
  assert (Hnd2 : NoDup (map Community.index (communities st2)
                          ++ map Community.index removed)).
  { rewrite <- map_app. eapply Permutation_NoDup; [|exact Hnd].
    apply Permutation_map. exact Hperm. }
  constructor; auto.
  - rewrite <- (Forall2_length Hrel). assumption.
  - lia.
  - rewrite Forall_forall in *. intros c Hc. rewrite Hn2. auto.
  - rewrite Forall_forall in *. intros c Hc.
    apply (describes_ext F cfg (membership st0)); [|auto].
    specialize (Hindex c (Hin c Hc)).
    assert (Hc' : In (Community.index c) (map Community.index (communities st2)))
      by (apply in_map; assumption).
    clear - Hrel Hindex Hnd2 Hc'.
    induction Hrel as [|old new olds news Hpair Hrel IH]; [reflexivity|].
    simpl. rewrite IH. f_equal.
    destruct Hpair as [[_ ->]|[Hold Hnew]]; [reflexivity|].
    replace (new =? Community.index c) with false by (symmetry; apply Z.eqb_neq; lia).
    symmetry. apply Z.eqb_neq. intros ->.
    eapply NoDup_app_disjoint; eauto.
  - apply NoDup_app_remove_r in Hnd2. assumption.
  - clear - Hrel Hn2.
    induction Hrel as [|old new olds news Hpair Hrel IH]; constructor; auto.
    destruct Hpair as [[Hold ->]|[_ Hnew]]; [left; assumption | right; lia].
Qed.

End Restore.

Lemma NoDup_map_index_in (l : list Community.t) (c c' : Community.t) :
  NoDup (map Community.index l) -> In c l -> In c' l ->
  Community.index c = Community.index c' -> c = c'.
Proof.
  induction l as [|x l IH]; intros Hnd Hc Hc' E; [contradiction|].
  simpl in Hnd. inversion Hnd as [|? ? Hnotin Hnd']; subst.
  destruct Hc as [->|Hc], Hc' as [->|Hc']; auto.
  - exfalso. apply Hnotin. rewrite E. apply in_map. assumption.
  - exfalso. apply Hnotin. rewrite <- E. apply in_map. assumption.
Qed.

Lemma assign_mask_map (m : list Z) (h : Z -> Z) (p : Z -> bool) (v : Z) :
  assign_mask (map h m) (map p m) v = map (fun x => if p x then v else h x) m.
Proof. induction m as [|x m IH]; simpl; [reflexivity|]. rewrite IH. reflexivity. Qed.

(** The label [relabel_merged] gives to the nodes that carried [x]. *)
Fixpoint merged_label (pairs : list (Community.t * Z)) (next : Z) (h : Z -> Z) : Z -> Z :=
  match pairs with
  | [] => h
  | (c, v) :: rest =>
      merged_label rest next (fun x => if x =? Community.index c then v + next else h x)
  end.

Lemma relabel_merged_map (m : list Z) (next : Z) (pairs : list (Community.t * Z)) :
  forall h,
    Forall (fun cp : Community.t * Z =>
              Community.mask (fst cp)
              = map (fun x => x =? Community.index (fst cp)) m) pairs ->
    relabel_merged pairs next (map h m) = map (merged_label pairs next h) m.
Proof.
  induction pairs as [|[c v] pairs IH]; intros h Hmask; simpl; [reflexivity|].
  inversion Hmask as [|? ? Hc Hrest]; subst. simpl in Hc.
  rewrite Hc, assign_mask_map. apply IH. assumption.
Qed.

Lemma merged_label_other (next : Z) (pairs : list (Community.t * Z)) :
  forall h x,
    ~ In x (map (fun cp : Community.t * Z => Community.index (fst cp)) pairs) ->
    merged_label pairs next h x = h x.
Proof.
  induction pairs as [|[c v] pairs IH]; intros h x Hx; simpl in *; [reflexivity|].
  rewrite IH by tauto.
  destruct (Z.eqb_spec x (Community.index c)); [exfalso; auto | reflexivity].
Qed.

Lemma merged_label_found (next : Z) (pairs : list (Community.t * Z)) :
  forall h c v,
    NoDup (map (fun cp : Community.t * Z => Community.index (fst cp)) pairs) ->
    In (c, v) pairs ->
    merged_label pairs next h (Community.index c) = v + next.
Proof.
  induction pairs as [|[c0 v0] pairs IH]; intros h c v Hnd Hin; [contradiction|].
  simpl in *. inversion Hnd as [|? ? Hnotin Hnd']; subst.
  destruct Hin as [E|Hin].
  - injection E as -> ->. rewrite merged_label_other by assumption.
    rewrite Z.eqb_refl. reflexivity.
  - apply IH; assumption.
Qed.

(** The label [relabel_bins] gives to the nodes that carried [x]. *)
Fixpoint bin_label (pairs : list (Z * Z)) (next : Z) (h : Z -> Z) : Z -> Z :=
  match pairs with
  | [] => h
  | (i, b) :: rest =>
      bin_label rest next (fun x => if h x =? i then next + b else h x)
  end.

Lemma relabel_bins_map (m : list Z) (next : Z) (pairs : list (Z * Z)) :
  forall h, relabel_bins pairs next (map h m) = map (bin_label pairs next h) m.
Proof.
  induction pairs as [|[i b] pairs IH]; intros h; simpl; [reflexivity|].
  rewrite map_map, assign_mask_map. apply IH.
Qed.

Lemma bin_label_moved (next : Z) (pairs : list (Z * Z)) :
  forall h x,
    Forall (fun ib : Z * Z => fst ib < next) pairs ->
    next <= h x ->
    bin_label pairs next h x = h x.
Proof.
  induction pairs as [|[i b] pairs IH]; intros h x Hlt Hx; simpl; [reflexivity|].
  inversion Hlt as [|? ? Hi Hrest]; subst. simpl in Hi.
  rewrite IH; auto.
  - destruct (Z.eqb_spec (h x) i); [lia | reflexivity].
  - destruct (Z.eqb_spec (h x) i); lia.
Qed.

Lemma bin_label_other (next : Z) (pairs : list (Z * Z)) :
  forall h x,
    h x = x ->
    ~ In x (map fst pairs) ->
    bin_label pairs next h x = x.
Proof.
  induction pairs as [|[i b] pairs IH]; intros h x Hx Hnotin; simpl in *; [assumption|].
  apply IH; [|tauto].
  rewrite Hx. destruct (Z.eqb_spec x i); [exfalso; auto | reflexivity].
Qed.

Lemma bin_label_found (next : Z) (pairs : list (Z * Z)) :
  forall h i b,
    Forall (fun ib : Z * Z => fst ib < next /\ 0 <= snd ib) pairs ->
    NoDup (map fst pairs) ->
    In (i, b) pairs ->
    h i = i ->
    bin_label pairs next h i = next + b.
Proof.
  induction pairs as [|[i0 b0] pairs IH]; intros h i b Hok Hnd Hin Hi; [contradiction|].
  simpl in *. inversion Hnd as [|? ? Hnotin Hnd']; subst.
  inversion Hok as [|? ? [Hi0 Hb0] Hrest]; subst. simpl in Hi0, Hb0.
  destruct Hin as [E|Hin].
  - injection E as -> ->. rewrite bin_label_moved.
    + rewrite Hi, Z.eqb_refl. reflexivity.
    + eapply Forall_impl; [|exact Hrest]. simpl; tauto.
    + rewrite Hi, Z.eqb_refl. lia.
  - apply IH; auto.
    rewrite Hi. destruct (Z.eqb_spec i i0) as [->|]; [|reflexivity].
    exfalso. apply Hnotin. apply (in_map fst) in Hin. exact Hin.
Qed.

(** ** The communities that [merge_few_or_small] collects *)

(** A community that has too few nodes or is too small. *)
Definition violating (c : Community.t) : bool :=
  negb ((Community.too_few c =? 0) && (Community.too_small c =? 0)).

(** The positions, from [start] on, of the elements that satisfy [pred]. *)
Fixpoint positions_where {A : Type} (pred : A -> bool) (l : list A) (start : nat) : list nat :=
  match l with
  | [] => []
  | x :: l' =>
      if pred x then start :: positions_where pred l' (S start)
      else positions_where pred l' (S start)
  end.

Lemma positions_where_spec {A : Type} (pred : A -> bool) (l : list A) :
  forall (prefix : list A),
    Forall2 (fun p x => nth_error (prefix ++ l) p = Some x)
      (positions_where pred l (length prefix)) (filter pred l)
    /\ StronglySorted lt (positions_where pred l (length prefix))
    /\ Forall (fun p => (length prefix <= p)%nat) (positions_where pred l (length prefix)).
Proof.
  induction l as [|x l IH]; intros prefix; simpl.
  - repeat constructor.
  - destruct (IH (prefix ++ [x])) as (H2 & Hs & Hge).
    rewrite <- app_assoc, length_app in *. simpl in *.
    replace (length prefix + 1)%nat with (S (length prefix)) in * by lia.
    destruct (pred x).
    + split; [|split].
      * constructor; [|assumption].
        rewrite nth_error_app2, Nat.sub_diag by lia. reflexivity.
      * constructor; [assumption|].
        eapply Forall_impl; [|exact Hge]. simpl; lia.
      * constructor; [lia|]. eapply Forall_impl; [|exact Hge]. simpl; lia.
    + split; [assumption|]. split; [assumption|].
      eapply Forall_impl; [|exact Hge]. simpl; lia.
Qed.

Lemma descending_rev (positions : list nat) :
  StronglySorted lt positions -> descending (rev positions).
Proof.
  unfold descending. induction 1 as [|p positions Hs IH Hall]; simpl; [constructor|].
  assert (G : forall l, StronglySorted (fun a b => (b < a)%nat) l ->
                        Forall (fun q => (p < q)%nat) l ->
                        StronglySorted (fun a b => (b < a)%nat) (l ++ [p])).
  { induction 1 as [|q l Hl IHl Hq]; intros Hp; simpl.
    - repeat constructor.
    - inversion Hp; subst. constructor; [auto|].
      apply Forall_app; split; [assumption | repeat constructor; assumption]. }
  apply G; [assumption|].
  rewrite Forall_forall in *. intros q Hq. apply Hall. apply in_rev. assumption.
Qed.

Lemma Forall2_rev {A B : Type} (R : A -> B -> Prop) (l1 : list A) (l2 : list B) :
  Forall2 R l1 l2 -> Forall2 R (rev l1) (rev l2).
Proof.
  induction 1; simpl; [constructor|].
  apply Forall2_app; [assumption | repeat constructor; assumption].
Qed.

Lemma collect_merged_lists (l : list Community.t) :
  forall (position : nat) (acc : Merged),
    let r := collect_merged l position acc in
    merged_communities r = merged_communities acc ++ filter violating l
    /\ position_of_merged_communities r
       = position_of_merged_communities acc ++ positions_where violating l position
    /\ size_of_merged_communities r
       = size_of_merged_communities acc ++ map Community.size (filter violating l).
Proof.
  induction l as [|c l IH]; intros position acc;
    cbn [collect_merged filter positions_where map].
  - rewrite !app_nil_r. auto.
  - assert (Hv : violating c
                 = negb ((Community.too_few c =? 0) && (Community.too_small c =? 0)))
      by reflexivity.
    rewrite Hv.
    destruct ((Community.too_few c =? 0) && (Community.too_small c =? 0));
      cbn [negb map].
    + apply IH.
    + destruct (IH (S position)
                  {| merged_nodes_mask :=
                       mask_or (merged_nodes_mask acc) (Community.mask c);
                     location_of_nodes :=
                       assign_mask (location_of_nodes acc) (Community.mask c)
                         (Z.of_nat (length (merged_communities acc)));
                     merged_communities := merged_communities acc ++ [c];
                     position_of_merged_communities :=
                       position_of_merged_communities acc ++ [position];
                     size_of_merged_communities :=
                       size_of_merged_communities acc ++ [Community.size c] |})
        as (H1 & H2 & H3).
      simpl in *. rewrite H1, H2, H3, <- !app_assoc. auto.
Qed.

(** The mask and the locations of the merged nodes, as functions of the
    community index of a node. *)
Fixpoint labels_mask (indices : list Z) (f : Z -> bool) : Z -> bool :=
  match indices with
  | [] => f
  | i :: rest => labels_mask rest (fun x => f x || (x =? i))
  end.

Fixpoint labels_location (indices : list Z) (start : Z) (g : Z -> Z) : Z -> Z :=
  match indices with
  | [] => g
  | i :: rest => labels_location rest (start + 1) (fun x => if x =? i then start else g x)
  end.

Lemma mask_or_map (m : list Z) (f p : Z -> bool) :
  mask_or (map f m) (map p m) = map (fun x => f x || p x) m.
Proof. induction m as [|x m IH]; simpl; [reflexivity|]. rewrite IH. reflexivity. Qed.

Lemma collect_merged_masks (m : list Z) (l : list Community.t) :
  forall (position : nat) (acc : Merged) (f : Z -> bool) (g : Z -> Z),
    Forall (fun c => Community.mask c = map (fun x => x =? Community.index c) m) l ->
    merged_nodes_mask acc = map f m ->
    location_of_nodes acc = map g m ->
    let r := collect_merged l position acc in
    let indices := map Community.index (filter violating l) in
    merged_nodes_mask r = map (labels_mask indices f) m
    /\ location_of_nodes r
       = map (labels_location indices (Z.of_nat (length (merged_communities acc))) g) m.
Proof.
  induction l as [|c l IH]; intros position acc f g Hmask Hf Hg;
    cbn [collect_merged filter map].
  - auto.
  - inversion Hmask as [|? ? Hc Hrest]; subst.
    assert (Hv : violating c
                 = negb ((Community.too_few c =? 0) && (Community.too_small c =? 0)))
      by reflexivity.
    rewrite Hv.
    destruct ((Community.too_few c =? 0) && (Community.too_small c =? 0));
      cbn [negb map labels_mask labels_location].
    + apply IH; assumption.
    + match goal with
      | |- context [collect_merged l (S position) ?a] =>
          destruct (IH (S position) a (fun x => f x || (x =? Community.index c))
                      (fun x => if x =? Community.index c
                                then Z.of_nat (length (merged_communities acc))
                                else g x) Hrest) as (H1 & H2)
      end.
      * simpl. rewrite Hf, Hc. apply mask_or_map.
      * simpl. rewrite Hg, Hc. apply assign_mask_map.
      * simpl in H1, H2. rewrite H1, H2. split; [reflexivity|].
        rewrite length_app. simpl.
        replace (Z.of_nat (length (merged_communities acc) + 1))
          with (Z.of_nat (length (merged_communities acc)) + 1) by lia.
        reflexivity.
Qed.

Lemma labels_mask_spec (indices : list Z) :
  forall f x, labels_mask indices f x = f x || existsb (fun i => x =? i) indices.
Proof.
  induction indices as [|i indices IH]; intros f x; simpl.
  - rewrite orb_false_r. reflexivity.
  - rewrite IH. rewrite orb_assoc. reflexivity.
Qed.

Lemma labels_location_other (indices : list Z) :
  forall start g x, ~ In x indices -> labels_location indices start g x = g x.
Proof.
  induction indices as [|i indices IH]; intros start g x Hx; simpl in *; [reflexivity|].
  rewrite IH by tauto. destruct (Z.eqb_spec x i); [exfalso; auto | reflexivity].
Qed.

Lemma labels_location_found (indices : list Z) :
  forall start g j x,
    NoDup indices -> nth_error indices j = Some x ->
    labels_location indices start g x = start + Z.of_nat j.
Proof.
  induction indices as [|i indices IH]; intros start g j x Hnd Hj; [destruct j; discriminate|].
  inversion Hnd as [|? ? Hnotin Hnd']; subst. simpl.
  destruct j as [|j]; simpl in Hj.
  - injection Hj as ->. rewrite labels_location_other by assumption.
    rewrite Z.eqb_refl. lia.
  - rewrite (IH _ _ j) by assumption. lia.
Qed.

Lemma labels_location_range (indices : list Z) :
  forall start g x,
    In x indices ->
    start <= labels_location indices start g x < start + Z.of_nat (length indices).
Proof.
  induction indices as [|i indices IH]; intros start g x Hx; [contradiction|].
  simpl labels_location. simpl length.
  destruct (in_dec Z.eq_dec x indices) as [Hin|Hnotin].
  - specialize (IH (start + 1) (fun y => if y =? i then start else g y) x Hin). lia.
  - rewrite labels_location_other by assumption.
    destruct Hx as [->|Hx]; [|contradiction]. rewrite Z.eqb_refl. lia.
Qed.

Lemma select_map_filter {A : Type} (m : list Z) (g : Z -> A) (f : Z -> bool) :
  select (map g m) (map f m) = map g (filter f m).
Proof.
  induction m as [|x m IH]; simpl; [reflexivity|].
  destruct (f x); simpl; rewrite IH; reflexivity.
Qed.

(** ** The keys of a [groupby] *)

Lemma insert_unique_spec (x : Z) (l : list Z) :
  StronglySorted Z.lt l ->
  StronglySorted Z.lt (insert_unique x l)
  /\ forall y, In y (insert_unique x l) <-> y = x \/ In y l.
Proof.
  induction 1 as [|z l Hs IH Hall]; simpl.
  - split; [repeat constructor | intros y; intuition].
  - destruct IH as [IHs IHin].
    destruct (Z.ltb_spec x z); [|destruct (Z.eqb_spec x z)].
    + split.
      * constructor; [constructor; assumption|].
        constructor; [assumption|].
        eapply Forall_impl; [|exact Hall]. simpl; lia.
      * intros y; simpl; intuition.
    + subst. split; [constructor; assumption | intros y; simpl; intuition].
    + split.
      * constructor; [assumption|].
        rewrite Forall_forall in *. intros y Hy. apply IHin in Hy.
        destruct Hy as [->|Hy]; [lia | auto].
      * intros y; simpl. rewrite IHin. intuition.
Qed.

Lemma groupby_keys_spec (l : list Z) :
  StronglySorted Z.lt (groupby_keys l) /\ forall y, In y (groupby_keys l) <-> In y l.
Proof.
  unfold groupby_keys. induction l as [|x l [IHs IHin]]; simpl.
  - split; [constructor | reflexivity].
  - destruct (insert_unique_spec x _ IHs) as [Hs Hin]. split; [assumption|].
    intros y. rewrite Hin, IHin. intuition.
Qed.

Lemma sorted_lt_nodup (l : list Z) : StronglySorted Z.lt l -> NoDup l.
Proof.
  induction 1 as [|x l Hs IH Hall]; constructor; [|assumption].
  intros Hin. rewrite Forall_forall in Hall. specialize (Hall x Hin). lia.
Qed.

Lemma NoDup_fresh_indices (count : nat) :
  forall first, NoDup (fresh_indices first count).
Proof.
  induction count as [|count IH]; intros first.
  - constructor.
  - rewrite fresh_indices_S. constructor; [|apply IH].
    rewrite in_fresh_indices. lia.
Qed.

Lemma length_of_range (l : list Z) (k : nat) :
  NoDup l -> (forall x, In x l <-> 0 <= x < Z.of_nat k) -> length l = k.
Proof.
  intros Hnd Hin.
  assert (Hperm : Permutation l (fresh_indices 0 k)).
  { apply NoDup_Permutation; [assumption | |].
    - apply NoDup_fresh_indices.
    - intros x. rewrite Hin, in_fresh_indices. lia. }
  apply Permutation_length in Hperm. rewrite length_fresh_indices in Hperm. assumption.
Qed.

(** Filtering keeps the keys of a list distinct. *)
Lemma NoDup_map_filter {Item Key : Type} (key : Item -> Key) (keep : Item -> bool) :
  forall items : list Item,
    NoDup (map key items) -> NoDup (map key (filter keep items)).
Proof.
  intros items Hnd. induction items as [|x items IH]; simpl; [constructor|].
  simpl in Hnd. apply NoDup_cons_iff in Hnd. destruct Hnd as [Hnotin Hnd].
  destruct (keep x); simpl; [|auto].
  apply NoDup_cons; [|auto].
  intros Hin. apply Hnotin. apply in_map_iff in Hin. destruct Hin as [y [E Hy]].
  apply filter_In in Hy. rewrite <- E. apply in_map. tauto.
Qed.

Lemma repeat_as_map {A B : Type} (v : B) (m : list A) :
  repeat v (length m) = map (fun _ => v) m.
Proof. induction m as [|x m IH]; simpl; [reflexivity|]. rewrite IH. reflexivity. Qed.

Section MergedShape.

Variable F : Type.
Variable fmean : list F -> F.
Variable fzero : F.
Variable cfg : Config F.

Lemma length_fill_diagonal (matrix : list (list F)) :
  forall offset, length (fill_diagonal F fzero offset matrix) = length matrix.
Proof.
  induction matrix as [|row matrix IH]; intros offset; simpl; [reflexivity|].
  rewrite IH. reflexivity.
Qed.

Lemma length_merged_edge_weights (m : Merged) :
  length (merged_edge_weights fmean fzero cfg m)
  = length (groupby_keys (select (location_of_nodes m) (merged_nodes_mask m))).
Proof.
  unfold merged_edge_weights, groupby_columns_mean, groupby_rows_mean.
  rewrite length_fill_diagonal, !length_map. reflexivity.
Qed.

(** The start of the first loop of [merge_few_or_small]. *)
Definition nothing_merged (nodes_count : nat) : Merged :=
  {| merged_nodes_mask := repeat false nodes_count;
     location_of_nodes := repeat (-1) nodes_count;
     merged_communities := [];
     position_of_merged_communities := [];
     size_of_merged_communities := [] |}.

(** When no community is empty, the condensed graph has one node per merged
    community. *)
Lemma merged_edge_weights_shape (st : Improver) :
  consistent cfg st ->
  inhabited st ->
  let m := collect_merged (communities st) 0 (nothing_merged (length (edge_weights cfg))) in
  length (merged_edge_weights fmean fzero cfg m) = length (merged_communities m).
Proof.
  intros [[Hshape Hsizes Hnext Hindex Hdesc Hnd Hcover Hf Hs Hl] Hpos] Hinh m.
  rewrite length_merged_edge_weights.
  destruct (collect_merged_lists (communities st) 0
              (nothing_merged (length (edge_weights cfg)))) as (HM & _ & _).
  fold m in HM. simpl in HM. rewrite HM.
  destruct (collect_merged_masks (membership st) (communities st) 0
              (nothing_merged (length (edge_weights cfg)))
              (fun _ => false) (fun _ => -1)) as (Hmask & Hloc).
  { eapply Forall_impl; [|exact Hdesc]. intros c Hc. apply Hc. }
  { simpl. rewrite <- Hshape. apply repeat_as_map. }
  { simpl. rewrite <- Hshape. apply repeat_as_map. }
  fold m in Hmask, Hloc. simpl in Hmask, Hloc.
  rewrite Hmask, Hloc, select_map_filter.
  set (indices := map Community.index (filter violating (communities st))) in *.
  assert (Hndi : NoDup indices) by (apply NoDup_map_filter; assumption).
  destruct (groupby_keys_spec
              (map (labels_location indices 0 (fun _ => -1))
                 (filter (labels_mask indices (fun _ => false)) (membership st))))
    as [Hsorted Hkeys].
  replace (length (filter violating (communities st))) with (length indices)
    by (unfold indices; apply length_map).
  apply length_of_range; [apply sorted_lt_nodup; assumption|].
  intros y. rewrite Hkeys, in_map_iff. split.
  - intros [x [<- Hx]]. apply filter_In in Hx. destruct Hx as [_ Hx].
    rewrite labels_mask_spec in Hx. simpl in Hx.
    apply existsb_exists in Hx. destruct Hx as [i [Hi E]].
    apply Z.eqb_eq in E. subst i.
    pose proof (labels_location_range indices 0 (fun _ => -1) x Hi). lia.
  - intros Hy.
    destruct (nth_error indices (Z.to_nat y)) as [x|] eqn:E.
    2:{ apply nth_error_None in E. lia. }
    exists x. split.
    + rewrite (labels_location_found indices 0 _ (Z.to_nat y)) by assumption. lia.
    + assert (Hx : In x indices) by (eapply nth_error_In; eassumption).
      apply filter_In. split.
      * unfold indices in Hx. apply in_map_iff in Hx. destruct Hx as [c [<- Hc]].
        apply filter_In in Hc. destruct Hc as [Hc _].
        unfold inhabited in Hinh. rewrite Forall_forall in Hinh, Hdesc.
        specialize (Hinh c Hc). destruct (Hdesc c Hc) as (_ & Hnodes & _).
        rewrite Hnodes in Hinh. apply count_true_pos in Hinh.
        destruct Hinh as [x' [Hx' E']]. apply Z.eqb_eq in E'. subst x'. assumption.
      * rewrite labels_mask_spec. simpl. apply existsb_exists.
        exists x. split; [assumption | apply Z.eqb_refl].
Qed.

End MergedShape.

(** ** [merge_few_or_small] *)

Lemma map_fst_combine {A B : Type} (l1 : list A) (l2 : list B) :
  length l1 = length l2 -> map fst (combine l1 l2) = l1.
Proof.
  revert l2; induction l1 as [|x l1 IH]; intros [|y l2] H; simpl in *; try discriminate.
  - reflexivity.
  - rewrite IH by lia. reflexivity.
Qed.

Lemma map_snd_combine {A B : Type} (l1 : list A) (l2 : list B) :
  length l1 = length l2 -> map snd (combine l1 l2) = l2.
Proof.
  revert l2; induction l1 as [|x l1 IH]; intros [|y l2] H; simpl in *; try discriminate.
  - reflexivity.
  - rewrite IH by lia. reflexivity.
Qed.

Lemma in_combine_left {A B : Type} (l1 : list A) (l2 : list B) (x : A) :
  length l1 = length l2 -> In x l1 -> exists y, In (x, y) (combine l1 l2).
Proof.
  intros Hlen Hx. rewrite <- (map_fst_combine l1 l2 Hlen) in Hx.
  apply in_map_iff in Hx. destruct Hx as [[x' y] [E Hin]]. simpl in E. subst.
  exists y. assumption.
Qed.

Lemma in_combine_right {A B : Type} (l1 : list A) (l2 : list B) (y : B) :
  length l1 = length l2 -> In y l2 -> exists x, In (x, y) (combine l1 l2).
Proof.
  intros Hlen Hy. rewrite <- (map_snd_combine l1 l2 Hlen) in Hy.
  apply in_map_iff in Hy. destruct Hy as [[x y'] [E Hin]]. simpl in E. subst.
  exists x. assumption.
Qed.

Lemma relabel_merged_id (m : list Z) (next : Z) (pairs : list (Community.t * Z)) :
  Forall (fun cp : Community.t * Z =>
            Community.mask (fst cp) = map (fun x => x =? Community.index (fst cp)) m) pairs ->
  relabel_merged pairs next m = map (merged_label pairs next (fun x => x)) m.
Proof.
  intros H. rewrite <- (relabel_merged_map m next pairs (fun x => x) H), map_id.
  reflexivity.
Qed.

Section Merge.

Variable F : Type.
Variable fmean : list F -> F.
Variable fzero : F.
Variable partition_method :
  list (list F) -> option (list Z) -> Z -> option Z -> option Z -> option Z -> Z -> list Z.
Variable cfg : Config F.

Hypothesis partition_method_ok : partition_contract partition_method.

(** The membership the partition method computes for the merged
    communities of [st]. *)
Definition merged_membership (st : Improver) : list Z :=
  let m := collect_merged (communities st) 0 (nothing_merged (length (edge_weights cfg))) in
  partition_method (merged_edge_weights fmean fzero cfg m)
    (Some (size_of_merged_communities m)) (target_comm_size cfg) (max_comm_size cfg)
    (min_comm_size cfg) None (random_seed cfg).

(** With fewer than two violating communities nothing happens. *)
Lemma merge_few_or_small_nothing (st : Improver) :
  (length (filter violating (communities st)) < 2)%nat ->
  merge_few_or_small fmean fzero partition_method cfg st = Ok (false, st).
Proof.
  intros Hlt. unfold merge_few_or_small.
  fold (nothing_merged (length (edge_weights cfg))).
  destruct (collect_merged_lists (communities st) 0
              (nothing_merged (length (edge_weights cfg)))) as (HM & _ & _).
  simpl in HM. rewrite HM.
  replace (length (filter violating (communities st)) <? 2)%nat with true
    by (symmetry; apply Nat.ltb_lt; assumption).
  reflexivity.
Qed.

(** With at least two violating communities, they are replaced by the
    communities the partition method groups them into. *)
Lemma merge_few_or_small_spec (st : Improver) :
  consistent cfg st ->
  inhabited st ->
  let M := filter violating (communities st) in
  let P := merged_membership st in
  (2 <= length M)%nat ->
  exists st' kept top,
    np_max P = Ok top /\ 0 <= top /\ length P = length M /\ dense P
    /\ merge_few_or_small fmean fzero partition_method cfg st
       = Ok (tuple_ltb (too_few st', too_small st') (too_few st, too_small st), st')
    /\ consistent cfg st' /\ inhabited st'
    /\ membership st'
       = map (merged_label (combine M P) (next_community_index st) (fun x => x))
           (membership st)
    /\ communities st'
       = kept ++ map (record_of cfg (membership st'))
                   (fresh_indices (next_community_index st) (Z.to_nat (top + 1)))
    /\ Permutation (communities st) (kept ++ rev M)
    /\ next_community_index st' = next_community_index st + (top + 1)
    /\ trace st' = trace st.
Proof.
  intros Hcons Hinh M P Hlen.
  pose proof Hcons as [[Hshape Hsizes Hnext Hindex Hdesc Hnd Hcover Hf Hs Hl] Hpos].
  set (m := collect_merged (communities st) 0 (nothing_merged (length (edge_weights cfg)))).
  destruct (collect_merged_lists (communities st) 0
              (nothing_merged (length (edge_weights cfg)))) as (HM & HP & HS).
  fold m in HM, HP, HS. simpl in HM, HP, HS. fold M in HM, HS.
  pose proof (merged_edge_weights_shape F fmean fzero cfg st Hcons Hinh) as Hshape'.
  fold m in Hshape'. simpl in Hshape'.
  assert (HPdef : P = partition_method (merged_edge_weights fmean fzero cfg m)
                        (Some (size_of_merged_communities m)) (target_comm_size cfg)
                        (max_comm_size cfg) (min_comm_size cfg) None (random_seed cfg))
    by reflexivity.
  destruct (partition_method_ok (merged_edge_weights fmean fzero cfg m)
              (Some (size_of_merged_communities m)) (target_comm_size cfg)
              (max_comm_size cfg) (min_comm_size cfg) None (random_seed cfg))
    as [HlenP Hdense].
  { rewrite HS, length_map, Hshape', HM. reflexivity. }
  rewrite <- HPdef in HlenP, Hdense. rewrite Hshape', HM in HlenP.
  assert (HPne : P <> []) by (destruct P; simpl in HlenP; [lia | discriminate]).
  destruct (np_max_returns P HPne) as [top Htop].
  destruct (dense_max P top Hdense Htop) as [Htop0 Hall].
  destruct (np_max_spec P top Htop) as [_ Hle].
  (* the masks of the merged communities *)
  assert (HinM : forall c, In c M -> In c (communities st)).
  { intros c Hc. unfold M in Hc. apply filter_In in Hc. tauto. }
  assert (Hmasks : Forall (fun cp : Community.t * Z =>
                             Community.mask (fst cp)
                             = map (fun x => x =? Community.index (fst cp)) (membership st))
                     (combine M P)).
  { rewrite Forall_forall in *. intros [c v] Hcv. simpl.
    apply in_combine_l in Hcv. apply (Hdesc c (HinM c Hcv)). }
  assert (HndM : NoDup (map (fun cp : Community.t * Z => Community.index (fst cp))
                          (combine M P))).
  { rewrite <- (map_map fst Community.index), map_fst_combine by (symmetry; assumption).
    apply NoDup_map_filter. assumption. }
  set (rho := merged_label (combine M P) (next_community_index st) (fun x => x)).
  set (st1 := set_membership (map rho (membership st)) st).
  (* the removal *)
  destruct (positions_where_spec violating (communities st) []) as (Hnth & Hsorted & _).
  simpl in Hnth, Hsorted.
  destruct (remove_all_spec (rev (positions_where violating (communities st) 0))
              (rev M) st1) as (st2 & E2 & Hacc2 & Hm2 & Hn2 & Ht2 & Hperm).
  { apply Forall2_rev. exact Hnth. }
  { apply descending_rev. assumption. }
  { exact (invariant_accounts cfg _ st (proj1 Hcons)). }
  simpl in Hm2, Hn2, Ht2, Hperm.
  (* the state before [add] *)
  assert (Hinv2 : invariant cfg (next_community_index st2 + (top + 1)) st2).
  { rewrite Hn2. apply (restore_invariant F cfg st st2 (rev M)); auto.
    - rewrite Hm2.
      assert (Hndall : NoDup (map Community.index (communities st2)
                                ++ map Community.index (rev M))).
      { rewrite <- map_app. eapply Permutation_NoDup; [|exact Hnd].
        apply Permutation_map. exact Hperm. }
      clear - Hcover Hperm HndM Hndall Hlen HlenP Hle Hdense.
      induction (membership st) as [|old olds IH]; simpl; constructor.
      + inversion Hcover as [|? ? Hold _]; subst.
        destruct Hold as [Hold|Hold]; [|lia].
        apply in_map_iff in Hold. destruct Hold as [c [<- Hc]].
        apply (Permutation_in _ Hperm) in Hc. apply in_app_or in Hc.
        destruct Hc as [Hc|Hc].
        * left. split; [apply in_map; assumption|].
          unfold rho. apply merged_label_other.
          rewrite <- (map_map fst Community.index), map_fst_combine
            by (symmetry; assumption).
          intros Hin. eapply NoDup_app_disjoint; [exact Hndall | |].
          -- apply in_map. exact Hc.
          -- rewrite map_rev. apply in_rev. rewrite rev_involutive. exact Hin.
        * right. split; [apply in_map; assumption|].
          apply in_rev in Hc.
          destruct (in_combine_left M P c (eq_sym HlenP) Hc) as [v Hv].
          unfold rho. rewrite (merged_label_found _ _ _ c v HndM Hv).
          pose proof (in_combine_r _ _ _ _ Hv) as HvP.
          specialize (Hle v HvP). destruct (Hdense v HvP) as [Hv0 _]. lia.
      + apply IH. inversion Hcover; assumption. }
  destruct (add_some_spec F cfg (top + 1) st2 Hinv2) as
    (st3 & E3 & Hcons3 & Hm3 & Hc3 & Hn3 & Ht3); [lia | lia |].
  exists st3, (communities st2), top.
  split; [assumption|]. split; [assumption|]. split; [assumption|].
  split; [assumption|]. split.
  { unfold merge_few_or_small.
    fold (nothing_merged (length (edge_weights cfg))). fold m.
    rewrite HM.
    replace (length M <? 2)%nat with false by (symmetry; apply Nat.ltb_ge; lia).
    rewrite <- HPdef, HP.
    rewrite (relabel_merged_id _ _ _ Hmasks). fold rho. fold st1.
    simpl. rewrite E2. simpl. rewrite Htop. simpl. rewrite E3. simpl.
    reflexivity. }
  split; [assumption|]. split.
  { (* no community is empty *)
    unfold inhabited in *. rewrite Hc3. apply Forall_app. split.
    - rewrite Forall_forall in *. intros c Hc. apply Hinh.
      eapply Permutation_in; [symmetry; exact Hperm|]. apply in_or_app; auto.
    - rewrite Forall_forall. intros c Hc. apply in_map_iff in Hc.
      destruct Hc as [i [<- Hi]]. apply in_fresh_indices in Hi.
      unfold record_of. simpl. apply count_true_pos.
      assert (HgP : In (i - next_community_index st) P).
      { apply Hall. lia. }
      destruct (in_combine_right M P _ (eq_sym HlenP) HgP) as [c Hc].
      pose proof (in_combine_l _ _ _ _ Hc) as HcM.
      rewrite Forall_forall in Hinh, Hdesc.
      pose proof (Hinh c (HinM c HcM)) as Hpos'.
      destruct (Hdesc c (HinM c HcM)) as (_ & Hnodes & _).
      rewrite Hnodes in Hpos'. apply count_true_pos in Hpos'.
      destruct Hpos' as [x [Hx E]]. apply Z.eqb_eq in E. subst x.
      exists (rho (Community.index c)). split.
      + rewrite Hm2. simpl. apply in_map. assumption.
      + unfold rho. rewrite (merged_label_found _ _ _ c _ HndM Hc).
        apply Z.eqb_eq. lia. }
  rewrite Hm3, Hc3, Hn3, Ht3, Hm2, Hn2, Ht2. simpl.
  repeat split; auto.
Qed.

End Merge.

(** ** One iteration of the loop of [split_large] *)

Lemma length_select {A : Type} (v : list A) (mask : list bool) :
  length v = length mask -> length (select v mask) = Z.to_nat (count_true mask).
Proof. intros H. rewrite <- (length_select_mask v mask H). lia. Qed.

Lemma length_submatrix {F : Type} (weights : list (list F)) (mask : list bool) :
  length (submatrix weights mask) = length (select weights mask).
Proof. unfold submatrix. apply length_map. Qed.

(** [membership[mask] = values] when the mask marks the nodes that carry
    [i]: these nodes receive one of the values each, in order, and the other
    nodes keep their community. *)
Lemma assign_vector_rel (i : Z) (m : list Z) :
  forall values,
    Z.of_nat (length values) = count_true (map (fun x => x =? i) m) ->
    Forall2 (fun old new => (old <> i /\ new = old) \/ (old = i /\ In new values)) m
      (assign_vector m (map (fun x => x =? i) m) values)
    /\ forall v, In v values ->
                 In v (assign_vector m (map (fun x => x =? i) m) values).
Proof.
  induction m as [|x m IH]; intros values Hlen; cbn [map count_true] in *.
  - destruct values; [|simpl in Hlen; lia]. split; [constructor | intros v []].
  - cbn [assign_vector]. destruct (Z.eqb_spec x i) as [->|Hne].
    + destruct values as [|y values]; [pose proof (count_true_nonneg (map (fun x => x =? i) m)); simpl in Hlen; lia|].
      destruct (IH values) as [Hrel Hin]; [simpl in Hlen; lia|]. split.
      * constructor; [right; simpl; auto|].
        eapply Forall2_impl; [|exact Hrel]. simpl. intros a b [H|[H1 H2]]; auto.
      * intros v [->|Hv]; [left; reflexivity | right; auto].
    + destruct (IH values Hlen) as [Hrel Hin]. split.
      * constructor; [left; auto | assumption].
      * intros v Hv. right. auto.
Qed.

Lemma replace_at_split {A : Type} (l : list A) (position : nat) (x y : A) :
  nth_error l position = Some x ->
  exists before after,
    l = before ++ x :: after /\ replace_at position y l = before ++ y :: after
    /\ length before = position.
Proof.
  intros H. exists (firstn position l), (skipn (S position) l).
  split; [apply delete_at_split; assumption|]. split; [reflexivity|].
  apply firstn_length_le. apply Nat.lt_le_incl. apply nth_error_Some. congruence.
Qed.

Section SplitStep.

Variable F : Type.
Variable partition_method :
  list (list F) -> option (list Z) -> Z -> option Z -> option Z -> option Z -> Z -> list Z.
Variable cfg : Config F.

Hypothesis partition_method_ok : partition_contract partition_method.

(** The membership the partition method computes for the nodes of a
    community. *)
Definition split_membership (c : Community.t) : list Z :=
  partition_method (submatrix (edge_weights cfg) (Community.mask c))
    (match node_sizes cfg with
     | None => None
     | Some sizes => Some (select sizes (Community.mask c))
     end)
    (target_comm_size cfg) (max_comm_size cfg) (min_comm_size cfg) None (random_seed cfg).

(** The number of communities is at most the number of nodes. *)
Lemma communities_bound (st : Improver) :
  consistent cfg st -> inhabited st ->
  (length (communities st) <= length (edge_weights cfg))%nat.
Proof.
  intros [[Hshape Hsizes Hnext Hindex Hdesc Hnd Hcover Hf Hs Hl] Hpos] Hinh.
  assert (Hsum : sum_of (fun c => count_true (map (fun m => m =? Community.index c)
                                                (membership st))) (communities st)
                 = Z.of_nat (length (membership st))).
  { assert (Hcover' : Forall (fun m => In m (map Community.index (communities st)))
                        (membership st)).
    { eapply Forall_impl; [|exact Hcover]. simpl. intros m [H|H]; [assumption | lia]. }
    pose proof (weight_partition None (map Community.index (communities st))
                  (membership st) Hnd Hcover' I) as H.
    simpl in H. rewrite sum_of_map in H. exact H. }
  assert (Hle : Z.of_nat (length (communities st))
                <= sum_of (fun c => count_true (map (fun m => m =? Community.index c)
                                                  (membership st))) (communities st)).
  { unfold inhabited in Hinh. clear - Hinh Hdesc.
    induction (communities st) as [|c l IH]; [rewrite sum_of_nil; simpl; lia|].
    inversion Hinh as [|? ? Hc Hinh']; subst.
    inversion Hdesc as [|? ? Hd Hdesc']; subst.
    destruct Hd as (_ & Hnodes & _).
    rewrite sum_of_cons. simpl length. specialize (IH Hdesc' Hinh'). lia. }
  lia.
Qed.

Lemma split_membership_spec (st : Improver) (c : Community.t) :
  consistent cfg st -> inhabited st -> In c (communities st) ->
  exists top,
    np_max (split_membership c) = Ok top
    /\ 0 <= top
    /\ Z.of_nat (length (split_membership c)) = Community.nodes c
    /\ dense (split_membership c).
Proof.
  intros [[Hshape Hsizes Hnext Hindex Hdesc Hnd Hcover Hf Hs Hl] Hpos] Hinh Hc.
  rewrite Forall_forall in Hdesc. destruct (Hdesc c Hc) as (Hmask & Hnodes & _).
  assert (Hlenmask : length (Community.mask c) = length (edge_weights cfg)).
  { rewrite Hmask, length_map. assumption. }
  destruct (partition_method_ok (submatrix (edge_weights cfg) (Community.mask c))
              (match node_sizes cfg with
               | None => None
               | Some sizes => Some (select sizes (Community.mask c))
               end)
              (target_comm_size cfg) (max_comm_size cfg) (min_comm_size cfg) None
              (random_seed cfg)) as [Hlen Hdense].
  { destruct (node_sizes cfg) as [s|]; [|exact I].
    rewrite length_submatrix, !length_select by congruence. reflexivity. }
  fold (split_membership c) in Hlen, Hdense.
  rewrite length_submatrix, length_select in Hlen by congruence.
  unfold inhabited in Hinh. rewrite Forall_forall in Hinh. specialize (Hinh c Hc).
  rewrite <- Hmask in Hnodes.
  assert (Hne : split_membership c <> []).
  { intros E. rewrite E in Hlen. simpl in Hlen. lia. }
  destruct (np_max_returns _ Hne) as [top Htop].
  destruct (dense_max _ top Hdense Htop) as [Htop0 _].
  exists top. split; [assumption|]. split; [assumption|]. split; [lia | assumption].
Qed.

(** The partition method returned one community: the community is marked. *)
Lemma flag_step_spec (st : Improver) (position : nat) (c : Community.t) (event : Event) :
  consistent cfg st -> inhabited st ->
  nth_error (communities st) position = Some c ->
  let st' :=
    set_communities
      (replace_at position (Community.set_monolithic c) (communities (log event st)))
      (log event st) in
  consistent cfg st' /\ inhabited st'
  /\ length (communities st') = length (communities st).
Proof.
  intros [[Hshape Hsizes Hnext Hindex Hdesc Hnd Hcover Hf Hs Hl] Hpos] Hinh Hnth st'.
  destruct (replace_at_split _ position c (Community.set_monolithic c) Hnth)
    as (before & after & E & E' & _).
  unfold consistent, inhabited in *.
  subst st'. simpl in *. rewrite E' in *. clear E'. rewrite E in *. clear E.
  rewrite Forall_app, Forall_cons_iff in Hinh.
  split; [split|split].
  - constructor; simpl; auto.
    + rewrite Forall_app, Forall_cons_iff in *. tauto.
    + rewrite Forall_app, Forall_cons_iff in *. tauto.
    + rewrite map_app in *. assumption.
    + rewrite map_app in *. assumption.
    + rewrite sum_of_app, sum_of_cons in *. assumption.
    + rewrite sum_of_app, sum_of_cons in *. assumption.
    + rewrite sum_of_app, sum_of_cons in *. assumption.
  - assumption.
  - rewrite Forall_app, Forall_cons_iff. simpl. tauto.
  - rewrite !length_app. reflexivity.
Qed.

(** The partition method returned several communities: the community is
    replaced by these. *)
Lemma split_step_spec (st : Improver) (position : nat) (c : Community.t) (top : Z)
    (event : Event) :
  consistent cfg st -> inhabited st ->
  nth_error (communities st) position = Some c ->
  np_max (split_membership c) = Ok top ->
  top + 1 <> 1 ->
  exists st1 st3,
    remove position (log event st) = Ok st1
    /\ add cfg (Some (top + 1))
         (set_membership
            (assign_vector (membership st1) (Community.mask c)
               (map (fun i => i + next_community_index st1) (split_membership c)))
            st1) = Ok st3
    /\ consistent cfg st3 /\ inhabited st3
    /\ communities st3
       = delete_at position (communities st)
         ++ map (record_of cfg (membership st3))
              (fresh_indices (next_community_index st) (Z.to_nat (top + 1)))
    /\ next_community_index st3 = next_community_index st + (top + 1)
    /\ trace st3 = trace st ++ [event]
    /\ 1 <= top.
Proof.
  intros Hcons Hinh Hnth Htop Hne.
  pose proof Hcons as [[Hshape Hsizes Hnext Hindex Hdesc Hnd Hcover Hf Hs Hl] Hpos].
  assert (Hc : In c (communities st)) by (eapply nth_error_In; eassumption).
  destruct (split_membership_spec st c Hcons Hinh Hc) as (top' & Htop' & Htop0 & Hlen & Hdense).
  rewrite Htop in Htop'. injection Htop' as <-.
  destruct (np_max_spec _ _ Htop) as [_ Hle].
  destruct (dense_max _ top Hdense Htop) as [_ Hall].
  rewrite Forall_forall in Hdesc. destruct (Hdesc c Hc) as (Hmask & Hnodes & _).
  destruct (remove_spec position (log event st) c) as (st1 & E1 & Hacc1 & Hm1 & Hc1 & Hn1 & Ht1).
  { exact (invariant_accounts cfg _ st (proj1 Hcons)). }
  { exact Hnth. }
  simpl in Hm1, Hc1, Hn1, Ht1.
  set (values := map (fun i => i + next_community_index st1) (split_membership c)).
  destruct (assign_vector_rel (Community.index c) (membership st) values) as [Hrel Hin].
  { unfold values. rewrite length_map, Hlen, Hnodes. reflexivity. }
  set (st2 := set_membership (assign_vector (membership st1) (Community.mask c) values) st1).
  assert (Hperm : Permutation (communities st) (communities st2 ++ [c])).
  { simpl. rewrite Hc1. rewrite (delete_at_perm _ _ _ Hnth) at 1.
    apply Permutation_cons_append. }
  assert (Hinv2 : invariant cfg (next_community_index st2 + (top + 1)) st2).
  { simpl. rewrite Hn1.
    apply (restore_invariant F cfg st st2 [c]); auto.
    simpl. rewrite Hm1, Hmask.
    assert (Hndall : NoDup (map Community.index (communities st1 ++ [c]))).
    { eapply Permutation_NoDup; [|exact Hnd]. apply Permutation_map. exact Hperm. }
    clear - Hrel Hcover Hperm Hle Hdense Hn1.
    induction Hrel as [|old new olds news Hpair Hrel IH]; constructor.
    - inversion Hcover as [|? ? Hold _]; subst.
      destruct Hpair as [[Hne ->]|[-> Hnew]].
      + left. split; [|reflexivity].
        destruct Hold as [Hold|Hold]; [|lia].
        apply in_map_iff in Hold. destruct Hold as [c' [<- Hc']].
        apply (Permutation_in _ Hperm) in Hc'. apply in_app_or in Hc'.
        destruct Hc' as [Hc'|[->|[]]]; [apply in_map; assumption | congruence].
      + right. split; [simpl; auto|].
        unfold values in Hnew. apply in_map_iff in Hnew. destruct Hnew as [v [<- Hv]].
        specialize (Hle v Hv). destruct (Hdense v Hv) as [Hv0 _]. lia.
    - apply IH. inversion Hcover; assumption. }
  destruct (add_some_spec F cfg (top + 1) st2 Hinv2) as
    (st3 & E3 & Hcons3 & Hm3 & Hc3 & Hn3 & Ht3); [simpl; lia | lia |].
  exists st1, st3. split; [exact E1|]. split; [exact E3|]. split; [assumption|].
  split.
  { unfold inhabited in *. rewrite Hc3. apply Forall_app. split.
    - simpl. rewrite Hc1. rewrite Forall_forall in *. intros c' Hc'. apply Hinh.
      eapply Permutation_in; [symmetry; exact (delete_at_perm _ _ _ Hnth)|].
      right. assumption.
    - rewrite Forall_forall. intros c' Hc'. apply in_map_iff in Hc'.
      destruct Hc' as [i [<- Hi]]. apply in_fresh_indices in Hi. simpl in Hi.
      unfold record_of. simpl. apply count_true_pos.
      exists i. split; [|apply Z.eqb_refl].
      rewrite Hm1, Hmask. apply Hin. unfold values. apply in_map_iff.
      exists (i - next_community_index st1). split; [lia|]. apply Hall. lia. }
  rewrite Hc3, Hn3, Ht3, Hm3. simpl. rewrite Hc1, Hn1, Ht1.
  repeat split; auto. lia.
Qed.

End SplitStep.

(** ** Termination of the loops *)

(** [f] returns [r] once it is given enough fuel. *)
Definition returns {A : Type} (f : nat -> outcome A) (r : A) : Prop :=
  exists n, forall fuel, (n <= fuel)%nat -> f fuel = Ok r.

Section Loops.

Variable F : Type.
Variable fmean : list F -> F.
Variable fzero : F.
Variable partition_method :
  list (list F) -> option (list Z) -> Z -> option Z -> option Z -> option Z -> Z -> list Z.
Variable cfg : Config F.

Hypothesis partition_method_ok : partition_contract partition_method.

(** The state is consistent and no community is empty. *)
Definition good (st : Improver) : Prop := consistent cfg st /\ inhabited st.

Lemma split_scan_unfold (fuel : nat) (position : nat) (did_split : bool) (st : Improver) :
  split_scan partition_method (S fuel) cfg position did_split st =
  match nth_error (communities st) position with
  | None => Ok (did_split, st)
  | Some c =>
      if (Community.too_large c =? 0) || Community.monolithic c
      then split_scan partition_method fuel cfg (S position) did_split st
      else
        do top <- np_max (split_membership F partition_method cfg c);
        let st0 := log (SplitAttempt (Community.index c) (top + 1)) st in
        if top + 1 =? 1
        then
          split_scan partition_method fuel cfg (S position) did_split
            (set_communities
               (replace_at position (Community.set_monolithic c) (communities st0)) st0)
        else
          do st1 <- remove position st0;
          do st3 <- add cfg (Some (top + 1))
                      (set_membership
                         (assign_vector (membership st1) (Community.mask c)
                            (map (fun i => i + next_community_index st1)
                               (split_membership F partition_method cfg c))) st1);
          split_scan partition_method fuel cfg position true st3
  end.
Proof. reflexivity. Qed.

(** The loop of [split_large] returns; it never makes the list of
    communities shorter, and it reports a split only when the list grew. *)
Lemma split_scan_returns (n : nat) :
  forall (position : nat) (did_split : bool) (st : Improver),
    good st ->
    (position <= length (communities st))%nat ->
    (2 * length (edge_weights cfg) <= n + length (communities st) + position)%nat ->
    exists r,
      (forall fuel, (n < fuel)%nat ->
                    split_scan partition_method fuel cfg position did_split st = Ok r)
      /\ good (snd r)
      /\ (length (communities st) <= length (communities (snd r)))%nat
      /\ (fst r = true ->
          did_split = true
          \/ (length (communities st) < length (communities (snd r)))%nat)
      /\ (did_split = true -> fst r = true).
Proof.
  induction n as [|n IH]; intros position did_split st [Hcons Hinh] Hpos Hmeasure;
    pose proof (communities_bound F cfg st Hcons Hinh) as Hbound.
  - exists (did_split, st).
    split; [|simpl; split; [split; assumption|]; split; [lia|]; split; auto].
    intros [|fuel] Hfuel; [lia|]. rewrite split_scan_unfold.
    replace (nth_error (communities st) position) with (@None Community.t);
      [reflexivity|].
    symmetry. apply nth_error_None. lia.
  - destruct (nth_error (communities st) position) as [c|] eqn:Hnth.
    2:{ exists (did_split, st).
        split; [|simpl; split; [split; assumption|]; split; [lia|]; split; auto].
        intros [|fuel] Hfuel; [lia|]. rewrite split_scan_unfold, Hnth. reflexivity. }
    assert (Hlt : (position < length (communities st))%nat)
      by (apply nth_error_Some; congruence).
    destruct ((Community.too_large c =? 0) || Community.monolithic c) eqn:Hskip.
    + destruct (IH (S position) did_split st) as (r & Hr & Hgood & Hlen & Hsplit & Hkeep);
        [split; assumption | lia | lia |].
      exists r. split; [|auto].
      intros [|fuel] Hfuel; [lia|]. rewrite split_scan_unfold, Hnth, Hskip.
      apply Hr. lia.
    + assert (Hc : In c (communities st)) by (eapply nth_error_In; eassumption).
      destruct (split_membership_spec F partition_method cfg partition_method_ok st c
                  Hcons Hinh Hc) as (top & Htop & Htop0 & HlenP & Hdense).
      destruct (Z.eqb_spec (top + 1) 1) as [Hone|Hmany].
      * pose proof (flag_step_spec F cfg st position c
                      (SplitAttempt (Community.index c) (top + 1)) Hcons Hinh Hnth)
          as (Hcons' & Hinh' & Hlen').
        match type of Hcons' with
        | consistent cfg ?s =>
            destruct (IH (S position) did_split s)
              as (r & Hr & Hgood & Hlen & Hsplit & Hkeep);
            [split; assumption | rewrite Hlen'; lia | rewrite Hlen'; lia |]
        end.
        rewrite Hlen' in Hlen, Hsplit.
        exists r. split; [|auto].
        intros [|fuel] Hfuel; [lia|].
        rewrite split_scan_unfold, Hnth, Hskip, Htop. simpl bind.
        replace (top + 1 =? 1) with true by (symmetry; apply Z.eqb_eq; assumption).
        apply Hr. lia.
      * destruct (split_step_spec F partition_method cfg partition_method_ok st
                    position c top (SplitAttempt (Community.index c) (top + 1))
                    Hcons Hinh Hnth Htop Hmany)
          as (st1 & st3 & E1 & E3 & Hcons3 & Hinh3 & Hc3 & Hn3 & Ht3 & Htop1).
        assert (Hlen3 : (length (communities st) < length (communities st3))%nat).
        { rewrite Hc3, length_app, length_map, length_fresh_indices.
          pose proof (length_delete_at _ _ _ Hnth). lia. }
        destruct (IH position true st3) as (r & Hr & Hgood & Hlen & Hsplit & Hkeep);
          [split; assumption | lia | lia |].
        exists r. split; [|split; [assumption|]].
        -- intros [|fuel] Hfuel; [lia|].
           rewrite split_scan_unfold, Hnth, Hskip, Htop. simpl bind.
           replace (top + 1 =? 1) with false by (symmetry; apply Z.eqb_neq; assumption).
           rewrite E1. simpl bind. rewrite E3. simpl bind.
           apply Hr. lia.
        -- split; [lia|]. split; [intros _; right; lia | intros _; auto].
Qed.

(** [split_large] returns. *)
Lemma split_large_returns (st : Improver) :
  good st ->
  exists r,
    returns (fun fuel => split_large partition_method fuel cfg st) r
    /\ good (snd r)
    /\ (length (communities st) <= length (communities (snd r)))%nat
    /\ (fst r = true -> (length (communities st) < length (communities (snd r)))%nat).
Proof.
  intros Hgood.
  destruct (split_scan_returns (2 * length (edge_weights cfg)) 0 false st Hgood)
    as (r & Hr & Hgood' & Hlen & Hsplit & _); [lia | lia |].
  exists r. split; [|split; [assumption|split; [assumption|]]].
  - exists (S (2 * length (edge_weights cfg))). intros fuel Hfuel.
    unfold split_large. apply Hr. lia.
  - intros H. destruct (Hsplit H) as [H'|H']; [discriminate | assumption].
Qed.

(** The loop around [split_large] returns. *)
Lemma split_loop_returns (k : nat) :
  forall (did_split : bool) (st : Improver),
    good st ->
    (length (edge_weights cfg) <= k + length (communities st))%nat ->
    exists r,
      returns (fun fuel => split_loop partition_method fuel cfg did_split st) r
      /\ good (snd r).
Proof.
  induction k as [|k IH]; intros did_split st Hgood Hk;
    pose proof (communities_bound F cfg st (proj1 Hgood) (proj2 Hgood)) as Hbound;
    destruct (split_large_returns st Hgood) as (r & [n Hr] & Hgood' & Hlen & Hsplit);
    pose proof (communities_bound F cfg (snd r) (proj1 Hgood') (proj2 Hgood')) as Hbound'.
  - destruct (0 <? too_large st) eqn:Hlarge.
    + assert (Hfalse : fst r = false).
      { destruct (fst r); [|reflexivity]. specialize (Hsplit eq_refl). lia. }
      exists (did_split, snd r). split; [|assumption].
      exists (S n). intros [|fuel] Hfuel; [lia|]. simpl. rewrite Hlarge.
      rewrite Hr by lia. simpl. rewrite Hfalse. reflexivity.
    + exists (did_split, st). split; [|assumption].
      exists 1%nat. intros [|fuel] Hfuel; [lia|]. simpl. rewrite Hlarge. reflexivity.
  - destruct (0 <? too_large st) eqn:Hlarge.
    + destruct (fst r) eqn:Hfst.
      * specialize (Hsplit eq_refl).
        destruct (IH true (snd r) Hgood') as (r' & [n' Hr'] & Hgood''); [lia|].
        exists r'. split; [|assumption].
        exists (S (Nat.max n n')). intros [|fuel] Hfuel; [lia|]. simpl. rewrite Hlarge.
        rewrite Hr by lia. simpl. rewrite Hfst. apply Hr'. lia.
      * exists (did_split, snd r). split; [|assumption].
        exists (S n). intros [|fuel] Hfuel; [lia|]. simpl. rewrite Hlarge.
        rewrite Hr by lia. simpl. rewrite Hfst. reflexivity.
    + exists (did_split, st). split; [|assumption].
      exists 1%nat. intros [|fuel] Hfuel; [lia|]. simpl. rewrite Hlarge. reflexivity.
Qed.

End Loops.

Lemma lex_induction (P : nat -> nat -> Prop) :
  (forall a b,
      (forall a' b', (a' < a)%nat \/ (a' = a /\ (b' < b)%nat) -> P a' b') -> P a b) ->
  forall a b, P a b.
Proof.
  intros H a. induction a as [a IHa] using lt_wf_ind.
  intros b. induction b as [b IHb] using lt_wf_ind.
  apply H. intros a' b' [Hlt|[-> Hlt]]; auto.
Qed.

Lemma tuple_ltb_spec (a b : Z * Z) :
  tuple_ltb a b = true <-> fst a < fst b \/ (fst a = fst b /\ snd a < snd b).
Proof.
  unfold tuple_ltb. rewrite orb_true_iff, andb_true_iff, !Z.ltb_lt, Z.eqb_eq. tauto.
Qed.

Lemma tuple_ltb_irrefl (a : Z * Z) : tuple_ltb a a = false.
Proof.
  destruct (tuple_ltb a a) eqn:E; [|reflexivity].
  apply tuple_ltb_spec in E. lia.
Qed.

Lemma totals_nonneg (st : Improver) :
  accounts st -> 0 <= too_few st /\ 0 <= too_small st /\ 0 <= too_large st.
Proof.
  intros (Hf & Hs & Hl & Hnn). rewrite Hf, Hs, Hl.
  repeat split; apply sum_of_nonneg_records; auto; intros c Hc; apply Hc.
Qed.

Section Improve.

Variable F : Type.
Variable fmean : list F -> F.
Variable fzero : F.
Variable partition_method :
  list (list F) -> option (list Z) -> Z -> option Z -> option Z -> option Z -> Z -> list Z.
Variable cfg : Config F.

Hypothesis partition_method_ok : partition_contract partition_method.

Local Abbreviation good := (good F cfg).

Lemma good_totals (st : Improver) :
  good st -> 0 <= too_few st /\ 0 <= too_small st /\ 0 <= too_large st.
Proof.
  intros [[Hinv _] _]. apply totals_nonneg. eapply invariant_accounts. exact Hinv.
Qed.

Lemma good_log (event : Event) (st : Improver) : good st -> good (log event st).
Proof.
  intros [[[Hshape Hsizes Hnext Hindex Hdesc Hnd Hcover Hf Hs Hl] Hpos] Hinh].
  split; [split; [constructor|]|]; assumption.
Qed.

(** [merge_few_or_small] returns, and keeps the state good. *)
Lemma merge_few_or_small_returns (st : Improver) :
  good st ->
  exists st',
    merge_few_or_small fmean fzero partition_method cfg st
    = Ok (tuple_ltb (too_few st', too_small st') (too_few st, too_small st), st')
    /\ good st'.
Proof.
  intros [Hcons Hinh].
  destruct (Nat.lt_ge_cases (length (filter violating (communities st))) 2) as [Hlt|Hge].
  - exists st. rewrite tuple_ltb_irrefl. split; [|split; assumption].
    apply merge_few_or_small_nothing. assumption.
  - destruct (merge_few_or_small_spec F fmean fzero partition_method cfg
                partition_method_ok st Hcons Hinh Hge)
      as (st' & kept & top & _ & _ & _ & _ & E & Hcons' & Hinh' & _).
    exists st'. split; [exact E | split; assumption].
Qed.

(** The loop around [merge_few_or_small] returns. *)
Lemma merge_loop_returns (a b : nat) :
  forall st,
    good st ->
    too_few st = Z.of_nat a -> too_small st = Z.of_nat b ->
    exists st',
      returns (fun fuel => merge_loop fmean fzero partition_method fuel cfg st) st'
      /\ good st'.
Proof.
  revert a b. apply (lex_induction
    (fun a b => forall st, good st -> too_few st = Z.of_nat a ->
                           too_small st = Z.of_nat b ->
                           exists st',
                             returns (fun fuel => merge_loop fmean fzero partition_method
                                                    fuel cfg st) st'
                             /\ good st')).
  intros a b IH st Hgood Ha Hb.
  destruct ((0 <? too_few st) || (0 <? too_small st)) eqn:Hcond.
  - destruct (merge_few_or_small_returns st Hgood) as (st' & E & Hgood').
    destruct (tuple_ltb (too_few st', too_small st') (too_few st, too_small st)) eqn:Hlt.
    + apply tuple_ltb_spec in Hlt. simpl in Hlt.
      destruct (good_totals st' Hgood') as (Hf0 & Hs0 & _).
      destruct (IH (Z.to_nat (too_few st')) (Z.to_nat (too_small st'))) with (st := st')
        as (st'' & [n Hn] & Hgood''); auto; try lia.
      exists st''. split; [|assumption].
      exists (S n). intros [|fuel] Hfuel; [lia|]. simpl. rewrite Hcond, E. simpl.
      apply Hn. lia.
    + exists st'. split; [|assumption].
      exists 1%nat. intros [|fuel] Hfuel; [lia|]. simpl. rewrite Hcond, E. simpl.
      reflexivity.
  - exists st. split; [|assumption].
    exists 1%nat. intros [|fuel] Hfuel; [lia|]. simpl. rewrite Hcond. reflexivity.
Qed.

Lemma merge_loop_returns_good (st : Improver) :
  good st ->
  exists st',
    returns (fun fuel => merge_loop fmean fzero partition_method fuel cfg st) st'
    /\ good st'.
Proof.
  intros Hgood. destruct (good_totals st Hgood) as (Hf & Hs & _).
  apply (merge_loop_returns (Z.to_nat (too_few st)) (Z.to_nat (too_small st)));
    auto; lia.
Qed.

(** The body of the loop of [improve] returns. *)
Lemma improve_step_returns (st : Improver) :
  good st ->
  exists st',
    returns (fun fuel => improve_step fmean fzero partition_method fuel cfg st) st'
    /\ good st'.
Proof.
  intros Hgood. unfold improve_step.
  destruct (max_comm_size cfg) as [max_size|].
  2:{ exists st. split; [|assumption]. exists 0%nat. reflexivity. }
  destruct (split_loop_returns F partition_method cfg partition_method_ok
              (length (edge_weights cfg)) false st Hgood) as (r & [n Hr] & Hgood');
    [lia|].
  destruct (fst r) eqn:Hfst; [destruct (min_comm_size cfg) as [min_size|] eqn:Hmin|].
  - destruct (merge_loop_returns_good (snd r) Hgood') as (st' & [n' Hn'] & Hgood'').
    exists st'. split; [|assumption].
    exists (Nat.max n n'). intros fuel Hfuel.
    rewrite Hr by lia. simpl. rewrite Hfst. apply Hn'. lia.
  - exists (snd r). split; [|assumption].
    exists n. intros fuel Hfuel. rewrite Hr by lia. simpl. rewrite Hfst. reflexivity.
  - exists (snd r). split; [|assumption].
    exists n. intros fuel Hfuel. rewrite Hr by lia. simpl. rewrite Hfst. reflexivity.
Qed.

(** The loop of [improve] returns. *)
Lemma improve_loop_returns (a b : nat) :
  forall st penalty,
    good st ->
    penalty = (Z.of_nat a, Z.of_nat b) ->
    exists st',
      returns (fun fuel => improve_loop fmean fzero partition_method fuel cfg penalty st) st'
      /\ good st'.
Proof.
  revert a b. apply (lex_induction
    (fun a b => forall st penalty, good st -> penalty = (Z.of_nat a, Z.of_nat b) ->
                                   exists st',
                                     returns (fun fuel =>
                                                improve_loop fmean fzero partition_method
                                                  fuel cfg penalty st) st'
                                     /\ good st')).
  intros a b IH st penalty Hgood ->.
  destruct (tuple_ltb (too_few st, too_small st + too_large st) (Z.of_nat a, Z.of_nat b))
    eqn:Hlt.
  - apply tuple_ltb_spec in Hlt. simpl in Hlt.
    destruct (good_totals st Hgood) as (Hf0 & Hs0 & Hl0).
    set (st0 := log (Penalty (too_few st) (too_small st + too_large st)) st).
    destruct (improve_step_returns st0 (good_log _ st Hgood)) as (st1 & [n Hn] & Hgood1).
    destruct (IH (Z.to_nat (too_few st)) (Z.to_nat (too_small st + too_large st)))
      with (st := st1) (penalty := (too_few st, too_small st + too_large st))
      as (st' & [n' Hn'] & Hgood'); auto; try lia.
    { f_equal; lia. }
    exists st'. split; [|assumption].
    exists (S (Nat.max n n')). intros [|fuel] Hfuel; [lia|].
    cbn [improve_loop]. cbv zeta.
    replace (tuple_ltb (too_few st, too_small st + too_large st)
               (Z.of_nat a, Z.of_nat b)) with true
      by (symmetry; apply tuple_ltb_spec; simpl; lia).
    simpl fst. simpl snd. fold st0. rewrite Hn by lia. simpl bind.
    apply Hn'. lia.
  - exists st. split; [|assumption].
    exists 1%nat. intros [|fuel] Hfuel; [lia|]. cbn [improve_loop]. rewrite Hlt.
    reflexivity.
Qed.

(** [improve] returns. *)
Lemma improve_returns (st : Improver) :
  good st ->
  exists st',
    returns (fun fuel => improve fmean fzero partition_method fuel cfg st) st'
    /\ good st'.
Proof.
  intros Hgood. unfold improve.
  assert (H1 : exists st1,
             returns (fun fuel =>
                        match min_comm_size cfg with
                        | Some _ => merge_loop fmean fzero partition_method fuel cfg st
                        | None => Ok st
                        end) st1 /\ good st1).
  { destruct (min_comm_size cfg).
    - apply merge_loop_returns_good. assumption.
    - exists st. split; [|assumption]. exists 0%nat. reflexivity. }
  destruct H1 as (st1 & [n Hn] & Hgood1).
  destruct (good_totals st1 Hgood1) as (Hf0 & Hs0 & Hl0).
  destruct (improve_loop_returns (Z.to_nat (too_few st1))
              (Z.to_nat (too_small st1 + too_large st1 + 1)) st1
              (too_few st1, too_small st1 + too_large st1 + 1) Hgood1)
    as (st' & [n' Hn'] & Hgood').
  { f_equal; lia. }
  exists st'. split; [|assumption].
  exists (Nat.max n n'). intros fuel Hfuel. rewrite Hn by lia. simpl bind.
  apply Hn'. lia.
Qed.

End Improve.

(** ** The transitions of [improve] *)

Section Steps.

Variable F : Type.
Variable fmean : list F -> F.
Variable fzero : F.
Variable partition_method :
  list (list F) -> option (list Z) -> Z -> option Z -> option Z -> option Z -> Z -> list Z.
Variable cfg : Config F.

(** What changes the communities during [improve]: a call of
    [merge_few_or_small], and an iteration of the loop of [split_large] that
    calls the partition method, which either marks the community or replaces
    it. *)
Inductive transition : Improver -> Improver -> Prop :=
| transition_merge (st : Improver) (did_improve : bool) (st' : Improver) :
    merge_few_or_small fmean fzero partition_method cfg st = Ok (did_improve, st') ->
    transition st st'
| transition_flag (st : Improver) (position : nat) (c : Community.t) (top : Z) :
    nth_error (communities st) position = Some c ->
    (Community.too_large c =? 0) || Community.monolithic c = false ->
    np_max (split_membership F partition_method cfg c) = Ok top ->
    top + 1 = 1 ->
    transition st
      (set_communities
         (replace_at position (Community.set_monolithic c) (communities st))
         (log (SplitAttempt (Community.index c) (top + 1)) st))
| transition_split (st : Improver) (position : nat) (c : Community.t) (top : Z)
    (st1 st3 : Improver) :
    nth_error (communities st) position = Some c ->
    (Community.too_large c =? 0) || Community.monolithic c = false ->
    np_max (split_membership F partition_method cfg c) = Ok top ->
    top + 1 <> 1 ->
    remove position (log (SplitAttempt (Community.index c) (top + 1)) st) = Ok st1 ->
    add cfg (Some (top + 1))
      (set_membership
         (assign_vector (membership st1) (Community.mask c)
            (map (fun i => i + next_community_index st1)
               (split_membership F partition_method cfg c))) st1) = Ok st3 ->
    transition st st3.

(** The assignment of [penalty] in the loop of [improve]. *)
Inductive logs_penalty : Improver -> Improver -> Prop :=
| logs_penalty_intro (st : Improver) (a b : Z) : logs_penalty st (log (Penalty a b) st).

Definition transitions : Improver -> Improver -> Prop := clos_refl_trans Improver transition.

Definition execution : Improver -> Improver -> Prop :=
  clos_refl_trans Improver (fun st st' => transition st st' \/ logs_penalty st st').

Lemma transitions_execution (st st' : Improver) : transitions st st' -> execution st st'.
Proof.
  induction 1 as [x y H| |x y z _ IH1 _ IH2].
  - apply rt_step. left. assumption.
  - apply rt_refl.
  - eapply rt_trans; eassumption.
Qed.

Lemma split_scan_transitions (fuel : nat) :
  forall position did_split st r,
    split_scan partition_method fuel cfg position did_split st = Ok r ->
    transitions st (snd r).
Proof.
  induction fuel as [|fuel IH]; intros position did_split st r H; [discriminate|].
  rewrite split_scan_unfold in H.
  destruct (nth_error (communities st) position) as [c|] eqn:Hnth.
  2:{ injection H as <-. apply rt_refl. }
  destruct ((Community.too_large c =? 0) || Community.monolithic c) eqn:Hskip.
  { eapply IH; eassumption. }
  destruct (np_max (split_membership F partition_method cfg c)) as [top| |] eqn:Htop;
    simpl in H; try discriminate.
  destruct (Z.eqb_spec (top + 1) 1) as [Hone|Hmany].
  - eapply rt_trans; [apply rt_step; eapply transition_flag; eassumption|].
    eapply IH. exact H.
  - destruct (remove position (log (SplitAttempt (Community.index c) (top + 1)) st))
      as [st1| |] eqn:E1; simpl in H; try discriminate.
    destruct (add cfg (Some (top + 1)) _) as [st3| |] eqn:E3; simpl in H; try discriminate.
    eapply rt_trans; [apply rt_step; eapply transition_split; eassumption|].
    eapply IH. exact H.
Qed.

Lemma split_loop_transitions (fuel : nat) :
  forall did_split st r,
    split_loop partition_method fuel cfg did_split st = Ok r -> transitions st (snd r).
Proof.
  induction fuel as [|fuel IH]; intros did_split st r H; [discriminate|].
  simpl in H. destruct (0 <? too_large st).
  2:{ injection H as <-. apply rt_refl. }
  destruct (split_large partition_method fuel cfg st) as [r1| |] eqn:E; simpl in H;
    try discriminate.
  apply split_scan_transitions in E.
  destruct (fst r1).
  - eapply rt_trans; [exact E|]. eapply IH. exact H.
  - injection H as <-. exact E.
Qed.

Lemma merge_loop_transitions (fuel : nat) :
  forall st st',
    merge_loop fmean fzero partition_method fuel cfg st = Ok st' -> transitions st st'.
Proof.
  induction fuel as [|fuel IH]; intros st st' H; [discriminate|].
  simpl in H. destruct ((0 <? too_few st) || (0 <? too_small st)).
  2:{ injection H as <-. apply rt_refl. }
  destruct (merge_few_or_small fmean fzero partition_method cfg st) as [[b st1]| |] eqn:E;
    simpl in H; try discriminate.
  assert (Htransition : transition st st1) by (eapply transition_merge; eassumption).
  destruct b.
  - eapply rt_trans; [apply rt_step; exact Htransition|]. apply IH. exact H.
  - injection H as <-. apply rt_step. exact Htransition.
Qed.

Lemma improve_step_transitions (fuel : nat) (st st' : Improver) :
  improve_step fmean fzero partition_method fuel cfg st = Ok st' -> transitions st st'.
Proof.
  unfold improve_step. destruct (max_comm_size cfg).
  2:{ intros H; injection H as <-. apply rt_refl. }
  destruct (split_loop partition_method fuel cfg false st) as [r| |] eqn:E; simpl;
    try discriminate.
  apply split_loop_transitions in E.
  destruct (fst r); [destruct (min_comm_size cfg)|].
  - intros H. apply merge_loop_transitions in H. eapply rt_trans; eassumption.
  - intros H; injection H as <-. exact E.
  - intros H; injection H as <-. exact E.
Qed.

Lemma improve_loop_execution (fuel : nat) :
  forall penalty st st',
    improve_loop fmean fzero partition_method fuel cfg penalty st = Ok st' -> execution st st'.
Proof.
  induction fuel as [|fuel IH]; intros penalty st st' H; [discriminate|].
  cbn [improve_loop] in H. cbv zeta in H.
  destruct (tuple_ltb (too_few st, too_small st + too_large st) penalty).
  2:{ injection H as <-. apply rt_refl. }
  destruct (improve_step fmean fzero partition_method fuel cfg _) as [st1| |] eqn:E;
    simpl in H; try discriminate.
  apply improve_step_transitions in E. apply transitions_execution in E.
  eapply rt_trans; [apply rt_step; right; apply logs_penalty_intro|].
  eapply rt_trans; [exact E|]. eapply IH. exact H.
Qed.

Lemma improve_execution (fuel : nat) (st st' : Improver) :
  improve fmean fzero partition_method fuel cfg st = Ok st' -> execution st st'.
Proof.
  unfold improve.
  destruct (match min_comm_size cfg with
            | Some _ => merge_loop fmean fzero partition_method fuel cfg st
            | None => Ok st
            end) as [st1| |] eqn:E; simpl; try discriminate.
  intros H. apply improve_loop_execution in H.
  eapply rt_trans; [|exact H].
  destruct (min_comm_size cfg).
  - apply transitions_execution. eapply merge_loop_transitions. exact E.
  - injection E as <-. apply rt_refl.
Qed.

(** A property that every transition keeps holds after any number of transitions. *)
Lemma transitions_invariant (I : Improver -> Prop) :
  (forall st st', I st -> transition st st' -> I st') ->
  forall st st', transitions st st' -> I st -> I st'.
Proof.
  intros Htransition st st' H. induction H as [x y H| |x y z _ IH1 _ IH2]; eauto.
Qed.

Lemma execution_invariant (I : Improver -> Prop) :
  (forall st st', I st -> transition st st' -> I st') ->
  (forall st a b, I st -> I (log (Penalty a b) st)) ->
  forall st st', execution st st' -> I st -> I st'.
Proof.
  intros Htransition Hlog st st' H. induction H as [x y [H|H]| |x y z _ IH1 _ IH2]; eauto.
  destruct H. auto.
Qed.

End Steps.

(** ** What a transition does to the communities and to the trace *)

(** The communities of [st'] are communities of [st], followed by new
    communities that are not marked and have new indices. *)
Definition rebuilt (st st' : Improver) (kept news : list Community.t) : Prop :=
  communities st' = kept ++ news
  /\ incl kept (communities st)
  /\ Forall (fun c => next_community_index st <= Community.index c
                      /\ Community.monolithic c = false) news
  /\ next_community_index st <= next_community_index st'.

Lemma fresh_records {F : Type} (cfg : Config F) (m : list Z) (first : Z) (count : nat) :
  Forall (fun c => first <= Community.index c /\ Community.monolithic c = false)
    (map (record_of cfg m) (fresh_indices first count)).
Proof.
  rewrite Forall_forall. intros c Hc. apply in_map_iff in Hc.
  destruct Hc as [i [<- Hi]]. apply in_fresh_indices in Hi. simpl. split; [lia|reflexivity].
Qed.

Section TransitionFacts.

Variable F : Type.
Variable fmean : list F -> F.
Variable fzero : F.
Variable partition_method :
  list (list F) -> option (list Z) -> Z -> option Z -> option Z -> option Z -> Z -> list Z.
Variable cfg : Config F.

Hypothesis partition_method_ok : partition_contract partition_method.

Local Abbreviation good := (good F cfg).
Local Abbreviation transition := (transition F fmean fzero partition_method cfg).

Lemma transition_facts (st st' : Improver) :
  good st ->
  transition st st' ->
  good st'
  /\ ((trace st' = trace st /\ exists kept news, rebuilt st st' kept news)
      \/ (exists position c,
             nth_error (communities st) position = Some c
             /\ Community.monolithic c = false
             /\ Community.too_large c <> 0
             /\ trace st' = trace st ++ [SplitAttempt (Community.index c) 1]
             /\ communities st'
                = replace_at position (Community.set_monolithic c) (communities st)
             /\ next_community_index st' = next_community_index st)
      \/ (exists position c count kept news,
             nth_error (communities st) position = Some c
             /\ Community.monolithic c = false
             /\ Community.too_large c <> 0
             /\ count <> 1
             /\ trace st' = trace st ++ [SplitAttempt (Community.index c) count]
             /\ rebuilt st st' kept news
             /\ kept = delete_at position (communities st))).
Proof.
  intros [Hcons Hinh] Hstep.
  destruct Hstep as [st b st' E|st position c top Hnth Hskip Htop Hone
                    |st position c top st1 st3 Hnth Hskip Htop Hmany E1 E3].
  - destruct (Nat.lt_ge_cases (length (filter violating (communities st))) 2)
      as [Hlt|Hge].
    + rewrite (merge_few_or_small_nothing F fmean fzero partition_method cfg st Hlt) in E.
      injection E as _ <-. split; [split; assumption|]. left. split; [reflexivity|].
      exists (communities st), []. unfold rebuilt. rewrite app_nil_r.
      repeat split; auto using incl_refl. lia.
    + destruct (merge_few_or_small_spec F fmean fzero partition_method cfg
                  partition_method_ok st Hcons Hinh Hge)
        as (st2 & kept & top & _ & Htop0 & _ & _ & E' & Hcons' & Hinh' & _ & Hc & Hperm
            & Hn & Ht).
      rewrite E in E'. injection E' as _ ->.
      split; [split; assumption|]. left. split; [assumption|].
      exists kept, (map (record_of cfg (membership st2))
                      (fresh_indices (next_community_index st) (Z.to_nat (top + 1)))).
      unfold rebuilt. split; [assumption|]. split; [|split; [apply fresh_records | lia]].
      intros c Hc'. eapply Permutation_in; [symmetry; exact Hperm|].
      apply in_or_app. auto.
  - apply orb_false_iff in Hskip. destruct Hskip as [Hlarge Hmono].
    apply Z.eqb_neq in Hlarge.
    destruct (flag_step_spec F cfg st position c
                (SplitAttempt (Community.index c) (top + 1)) Hcons Hinh Hnth)
      as (Hcons' & Hinh' & _).
    split; [split; assumption|]. right. left.
    exists position, c. rewrite Hone. simpl. repeat split; auto.
  - apply orb_false_iff in Hskip. destruct Hskip as [Hlarge Hmono].
    apply Z.eqb_neq in Hlarge.
    destruct (split_step_spec F partition_method cfg partition_method_ok st position c
                top (SplitAttempt (Community.index c) (top + 1)) Hcons Hinh Hnth Htop
                Hmany)
      as (st1' & st3' & E1' & E3' & Hcons3 & Hinh3 & Hc3 & Hn3 & Ht3 & Htop1).
    rewrite E1 in E1'. injection E1' as <-. rewrite E3 in E3'. injection E3' as <-.
    split; [split; assumption|]. right. right.
    exists position, c, (top + 1), (delete_at position (communities st)),
      (map (record_of cfg (membership st3))
         (fresh_indices (next_community_index st) (Z.to_nat (top + 1)))).
    repeat split; auto; try lia.
    + intros x Hx. eapply Permutation_in; [symmetry; exact (delete_at_perm _ _ _ Hnth)|].
      right. assumption.
    + apply fresh_records.
Qed.

Lemma transitions_good (st st' : Improver) :
  transitions F fmean fzero partition_method cfg st st' -> good st -> good st'.
Proof.
  apply transitions_invariant. intros s s' Hs Ht.
  apply (transition_facts s s' Hs Ht).
Qed.

Lemma execution_good (st st' : Improver) :
  execution F fmean fzero partition_method cfg st st' -> good st -> good st'.
Proof.
  apply execution_invariant.
  - intros s s' Hs Ht. apply (transition_facts s s' Hs Ht).
  - intros s a b Hs. apply good_log. assumption.
Qed.

End TransitionFacts.

(** ** Communities that could not be split *)

(** No community index is passed to the partition method again after the
    method returned one community for it. *)
Definition never_again (t : list Event) : Prop :=
  forall t1 t2 i count,
    t = t1 ++ SplitAttempt i count :: t2 -> ~ In (SplitAttempt i 1) t1.

(** The marks of the communities follow the trace: a community is marked if
    and only if the trace has a call of the partition method for it that
    returned one community. *)
Record marks_follow_trace (st : Improver) : Prop := {
  marked_when_single :
    forall c, In c (communities st) ->
              In (SplitAttempt (Community.index c) 1) (trace st) ->
              Community.monolithic c = true;
  attempts_are_old :
    forall i count, In (SplitAttempt i count) (trace st) -> i < next_community_index st;
  marked_only_when_single :
    forall c, In c (communities st) ->
              Community.monolithic c = true ->
              In (SplitAttempt (Community.index c) 1) (trace st);
  trace_never_again : never_again (trace st)
}.

Lemma never_again_snoc (t : list Event) (e : Event) :
  never_again t ->
  (forall i count, e = SplitAttempt i count -> ~ In (SplitAttempt i 1) t) ->
  never_again (t ++ [e]).
Proof.
  intros Ht He t1 t2 i count E.
  destruct t2 as [|e2 t2'] using rev_ind.
  - apply app_inj_tail in E. destruct E as [<- ->]. eapply He. reflexivity.
  - clear IHt2'. rewrite app_comm_cons, app_assoc in E.
    apply app_inj_tail in E. destruct E as [-> _]. eapply Ht. reflexivity.
Qed.

Lemma in_snoc {A : Type} (l : list A) (x y : A) :
  In y (l ++ [x]) <-> In y l \/ y = x.
Proof.
  rewrite in_app_iff. simpl. intuition.
Qed.

Section Marks.

Variable F : Type.
Variable fmean : list F -> F.
Variable fzero : F.
Variable partition_method :
  list (list F) -> option (list Z) -> Z -> option Z -> option Z -> option Z -> Z -> list Z.
Variable cfg : Config F.

Hypothesis partition_method_ok : partition_contract partition_method.

Local Abbreviation good := (good F cfg).
Local Abbreviation transition := (transition F fmean fzero partition_method cfg).

Lemma rebuilt_marks (st st' : Improver) (kept news : list Community.t) :
  marks_follow_trace st ->
  rebuilt st st' kept news ->
  forall c, In c (communities st') ->
            (In c (communities st)
             /\ In c kept)
            \/ (Community.monolithic c = false
                /\ forall count, ~ In (SplitAttempt (Community.index c) count) (trace st)).
Proof.
  intros [J1 J2 J3 J4] (Hc & Hincl & Hnews & Hnext) c Hin.
  rewrite Hc in Hin. apply in_app_or in Hin. destruct Hin as [Hin|Hin].
  - left. auto.
  - right. rewrite Forall_forall in Hnews. destruct (Hnews c Hin) as [Hidx Hmono].
    split; [assumption|]. intros count Hev. specialize (J2 _ _ Hev). lia.
Qed.

Lemma transition_marks (st st' : Improver) :
  good st /\ marks_follow_trace st ->
  transition st st' ->
  good st' /\ marks_follow_trace st'.
Proof.
  intros [Hgood HJ] Hstep.
  destruct (transition_facts F fmean fzero partition_method cfg partition_method_ok
              st st' Hgood Hstep) as [Hgood' Hfacts].
  split; [assumption|].
  pose proof HJ as [J1 J2 J3 J4].
  destruct Hgood as [[[_ _ _ Hindex _ Hnd _ _ _ _] _] _].
  rewrite Forall_forall in Hindex.
  destruct Hfacts as [[Ht (kept & news & Hreb)]
                     |[(position & c & Hnth & Hmono & Hlarge & Ht & Hc & Hn)
                      |(position & c & count & kept & news & Hnth & Hmono & Hlarge & Hcount
                        & Ht & Hreb & Hkept)]].
  - pose proof (rebuilt_marks st st' kept news HJ Hreb) as Hcases.
    destruct Hreb as (_ & _ & _ & Hnext).
    constructor; rewrite ?Ht.
    + intros c Hc Hev. destruct (Hcases c Hc) as [[Hold _]|[_ Hno]]; [auto|].
      exfalso. eapply Hno. exact Hev.
    + intros i count Hev. specialize (J2 _ _ Hev). lia.
    + intros c Hc Hm. destruct (Hcases c Hc) as [[Hold _]|[Hfalse _]]; [auto|congruence].
    + assumption.
  - assert (Hin : In c (communities st)) by (eapply nth_error_In; eassumption).
    assert (Hnew : ~ In (SplitAttempt (Community.index c) 1) (trace st)).
    { intros Hev. specialize (J1 c Hin Hev). congruence. }
    destruct (replace_at_split _ position c (Community.set_monolithic c) Hnth)
      as (before & after & E & E' & _).
    rewrite E' in Hc. clear E'.
    assert (Hcases : forall c', In c' (communities st') ->
                                c' = Community.set_monolithic c
                                \/ (In c' (communities st)
                                    /\ Community.index c' <> Community.index c)).
    { intros c' Hc'. rewrite Hc in Hc'. apply in_app_or in Hc'.
      rewrite E in Hnd. rewrite map_app in Hnd. simpl in Hnd.
      apply NoDup_remove_2 in Hnd. rewrite E.
      destruct Hc' as [Hc'|[<-|Hc']]; [right|left; reflexivity|right].
      - split; [apply in_or_app; auto|]. intros Heq. apply Hnd.
        rewrite <- Heq. apply in_or_app. left. apply in_map. assumption.
      - split; [apply in_or_app; simpl; auto|]. intros Heq. apply Hnd.
        rewrite <- Heq. apply in_or_app. right. apply in_map. assumption. }
    constructor; rewrite ?Ht, ?Hn.
    + intros c' Hc' Hev. destruct (Hcases c' Hc') as [->|[Hold Hne]]; [reflexivity|].
      apply in_snoc in Hev. destruct Hev as [Hev|Hev]; [auto|].
      injection Hev as Heq. contradiction.
    + intros i count Hev. apply in_snoc in Hev. destruct Hev as [Hev|Hev]; [eauto|].
      injection Hev as -> _. apply Hindex. assumption.
    + intros c' Hc' Hm. apply in_snoc.
      destruct (Hcases c' Hc') as [->|[Hold Hne]]; [right; reflexivity | left; auto].
    + apply never_again_snoc; [assumption|].
      intros i count Hev. injection Hev as <- _. assumption.
  - assert (Hin : In c (communities st)) by (eapply nth_error_In; eassumption).
    assert (Hnew : ~ In (SplitAttempt (Community.index c) 1) (trace st)).
    { intros Hev. specialize (J1 c Hin Hev). congruence. }
    pose proof (rebuilt_marks st st' kept news HJ Hreb) as Hcases.
    destruct Hreb as (_ & _ & _ & Hnext).
    constructor; rewrite ?Ht.
    + intros c' Hc' Hev. apply in_snoc in Hev.
      destruct Hev as [Hev|Hev]; [|injection Hev as _ Heq; congruence].
      destruct (Hcases c' Hc') as [[Hold _]|[_ Hno]]; [auto|].
      exfalso. eapply Hno. exact Hev.
    + intros i count' Hev. apply in_snoc in Hev. destruct Hev as [Hev|Hev].
      * specialize (J2 _ _ Hev). lia.
      * injection Hev as -> _. specialize (Hindex c Hin). lia.
    + intros c' Hc' Hm. apply in_snoc. left.
      destruct (Hcases c' Hc') as [[Hold _]|[Hfalse _]]; [auto|congruence].
    + apply never_again_snoc; [assumption|].
      intros i count' Hev. injection Hev as <- _. assumption.
Qed.

Lemma log_penalty_marks (st : Improver) (a b : Z) :
  good st /\ marks_follow_trace st ->
  good (log (Penalty a b) st) /\ marks_follow_trace (log (Penalty a b) st).
Proof.
  intros [Hgood [J1 J2 J3 J4]]. split; [apply good_log; assumption|].
  constructor; simpl.
  - intros c Hc Hev. apply in_snoc in Hev. destruct Hev as [Hev|Hev]; [auto|discriminate].
  - intros i count Hev. apply in_snoc in Hev. destruct Hev as [Hev|Hev]; [eauto|discriminate].
  - intros c Hc Hm. apply in_snoc. left. auto.
  - apply never_again_snoc; [assumption|]. intros i count Hev. discriminate.
Qed.

Lemma execution_marks (st st' : Improver) :
  execution F fmean fzero partition_method cfg st st' ->
  good st /\ marks_follow_trace st ->
  good st' /\ marks_follow_trace st'.
Proof.
  apply (execution_invariant F fmean fzero partition_method cfg
           (fun s => good s /\ marks_follow_trace s)).
  - intros s s'. apply transition_marks.
  - intros s a b. apply log_penalty_marks.
Qed.

End Marks.

(** A community that [split_large] leaves alone. *)
Definition settled (c : Community.t) : Prop :=
  Community.too_large c = 0 \/ Community.monolithic c = true.

Lemma firstn_snoc {A : Type} (l : list A) (position : nat) (x : A) :
  nth_error l position = Some x -> firstn (S position) l = firstn position l ++ [x].
Proof.
  revert position; induction l as [|y l IH]; intros [|p] H; simpl in *; try discriminate.
  - injection H as ->. reflexivity.
  - rewrite (IH p H). reflexivity.
Qed.

Lemma firstn_length_app {A : Type} (l1 l2 : list A) :
  firstn (length l1) (l1 ++ l2) = l1.
Proof. induction l1 as [|x l1 IH]; simpl; [reflexivity | rewrite IH; reflexivity]. Qed.

Lemma firstn_S_length_app {A : Type} (l1 : list A) (x : A) (l2 : list A) :
  firstn (S (length l1)) (l1 ++ x :: l2) = l1 ++ [x].
Proof. induction l1 as [|y l1 IH]; simpl in *; [reflexivity | rewrite IH; reflexivity]. Qed.

Section Settled.

Variable F : Type.
Variable partition_method :
  list (list F) -> option (list Z) -> Z -> option Z -> option Z -> option Z -> Z -> list Z.
Variable cfg : Config F.

Hypothesis partition_method_ok : partition_contract partition_method.

(** When the loop of [split_large] returns, every community that is still
    too large is marked. *)
Lemma split_scan_settles (fuel : nat) :
  forall position did_split st r,
    good F cfg st ->
    Forall settled (firstn position (communities st)) ->
    split_scan partition_method fuel cfg position did_split st = Ok r ->
    Forall settled (communities (snd r)).
Proof.
  induction fuel as [|fuel IH]; intros position did_split st r [Hcons Hinh] Hpre H;
    [discriminate|].
  rewrite split_scan_unfold in H.
  destruct (nth_error (communities st) position) as [c|] eqn:Hnth.
  2:{ injection H as <-. simpl. apply nth_error_None in Hnth.
      rewrite firstn_all2 in Hpre by assumption. assumption. }
  destruct ((Community.too_large c =? 0) || Community.monolithic c) eqn:Hskip.
  { eapply IH; [split; eassumption | | exact H].
    rewrite (firstn_snoc _ _ _ Hnth). apply Forall_app. split; [assumption|].
    constructor; [|constructor]. apply orb_true_iff in Hskip.
    destruct Hskip as [Hz|Hm]; [left; apply Z.eqb_eq; assumption | right; assumption]. }
  destruct (np_max (split_membership F partition_method cfg c)) as [top| |] eqn:Htop;
    simpl in H; try discriminate.
  destruct (Z.eqb_spec (top + 1) 1) as [Hone|Hmany].
  - destruct (flag_step_spec F cfg st position c
                (SplitAttempt (Community.index c) (top + 1)) Hcons Hinh Hnth)
      as (Hcons' & Hinh' & _).
    eapply IH; [split; eassumption | | exact H].
    unfold set_communities, log. cbn [communities].
    destruct (replace_at_split _ position c (Community.set_monolithic c) Hnth)
      as (before & after & E & E' & Hlen).
    rewrite E'. rewrite E in Hpre. subst position.
    rewrite firstn_length_app in Hpre. rewrite firstn_S_length_app.
    apply Forall_app. split; [assumption|]. constructor; [right; reflexivity | constructor].
  - destruct (split_step_spec F partition_method cfg partition_method_ok st position c
                top (SplitAttempt (Community.index c) (top + 1)) Hcons Hinh Hnth Htop
                Hmany)
      as (st1 & st3 & E1 & E3 & Hcons3 & Hinh3 & Hc3 & Hn3 & Ht3 & Htop1).
    rewrite E1 in H. simpl in H. rewrite E3 in H. simpl in H.
    eapply IH; [split; eassumption | | exact H].
    rewrite Hc3. unfold delete_at. rewrite <- app_assoc.
    assert (Hlen : length (firstn position (communities st)) = position).
    { apply firstn_length_le. apply Nat.lt_le_incl. apply nth_error_Some. congruence. }
    rewrite <- Hlen at 1. rewrite firstn_length_app. assumption.
Qed.

End Settled.

(** ** [pack] and [fill] *)

(** A community that the first loop of [pack] ([fill] when [only_few])
    skips. *)
Definition skipped (only_few : bool) (c : Community.t) : bool :=
  (if only_few then true else Community.too_small c =? 0)
  && (Community.too_few c =? 0).

(** What the first loop of [pack] and [fill] collects of a community. *)
Definition amount_of (only_few : bool) (c : Community.t) : Z :=
  if only_few then Community.nodes c else Community.size c.

Lemma collect_small_unfold (fuel : nat) (only_few : bool) (position : nat)
    (amounts indices : list Z) (st : Improver) :
  collect_small (S fuel) only_few position amounts indices st =
  match nth_error (communities st) position with
  | None => Ok (amounts, indices, st)
  | Some c =>
      if skipped only_few c
      then collect_small fuel only_few (S position) amounts indices st
      else
        do st1 <- remove position st;
        collect_small fuel only_few position (amounts ++ [amount_of only_few c])
          (indices ++ [Community.index c]) st1
  end.
Proof. reflexivity. Qed.

(** The loop returns when it has more fuel than there are communities left;
    what it returns are the communities it removed, and only skipped
    communities remain from [position] on. *)
Lemma collect_small_spec (only_few : bool) (fuel : nat) :
  forall position amounts indices st,
    accounts st ->
    ((length (communities st) - position < fuel)%nat ->
     exists r, collect_small fuel only_few position amounts indices st = Ok r)
    /\ forall amounts' indices' st',
        collect_small fuel only_few position amounts indices st
        = Ok (amounts', indices', st') ->
        exists removed,
          accounts st'
          /\ membership st' = membership st
          /\ next_community_index st' = next_community_index st
          /\ trace st' = trace st
          /\ Permutation (communities st) (communities st' ++ removed)
          /\ amounts' = amounts ++ map (amount_of only_few) removed
          /\ indices' = indices ++ map Community.index removed
          /\ firstn position (communities st') = firstn position (communities st)
          /\ Forall (fun c => skipped only_few c = true)
               (skipn position (communities st')).
Proof.
  induction fuel as [|fuel IH]; intros position amounts indices st Hacc.
  { split; [lia | discriminate]. }
  rewrite collect_small_unfold.
  destruct (nth_error (communities st) position) as [c|] eqn:Hnth.
  2:{ split; [eexists; reflexivity|].
      intros amounts' indices' st' H. injection H as <- <- <-.
      exists []. rewrite !app_nil_r. repeat split; auto; try apply Hacc.
      apply nth_error_None in Hnth. rewrite skipn_all2 by assumption. constructor. }
  assert (Hlt : (position < length (communities st))%nat)
    by (apply nth_error_Some; congruence).
  destruct (skipped only_few c) eqn:Hskip.
  - destruct (IH (S position) amounts indices st Hacc) as [Hret Hspec].
    split; [intros Hfuel; apply Hret; lia|].
    intros amounts' indices' st' H.
    destruct (Hspec _ _ _ H) as (removed & Hacc' & Hm & Hn & Ht & Hperm & Ha & Hi & Hpre
                                 & Hrest).
    exists removed. repeat split; auto; try apply Hacc'.
    + rewrite (firstn_snoc _ _ _ Hnth) in Hpre.
      apply (f_equal (firstn position)) in Hpre.
      rewrite firstn_firstn, Nat.min_l in Hpre by lia.
      rewrite Hpre. rewrite firstn_app.
      rewrite firstn_firstn, Nat.min_id.
      rewrite firstn_length_le by lia. rewrite Nat.sub_diag. simpl.
      apply app_nil_r.
    + assert (Hc' : nth_error (communities st') position = Some c).
      { rewrite <- (firstn_skipn (S position) (communities st')), Hpre.
        rewrite nth_error_app1 by (rewrite firstn_length_le; lia).
        rewrite nth_error_firstn.
        replace (position <? S position)%nat with true
          by (symmetry; apply Nat.ltb_lt; lia).
        assumption. }
      rewrite (delete_at_split _ _ _ Hc') at 1.
      rewrite skipn_app.
      rewrite skipn_all2 by (rewrite firstn_length_le;
                             [lia | apply Nat.lt_le_incl; apply nth_error_Some; congruence]).
      rewrite firstn_length_le
        by (apply Nat.lt_le_incl; apply nth_error_Some; congruence).
      rewrite Nat.sub_diag. simpl. constructor; assumption.
  - destruct (remove_spec position st c Hacc Hnth)
      as (st1 & E1 & Hacc1 & Hm1 & Hc1 & Hn1 & Ht1).
    rewrite E1. simpl bind.
    destruct (IH position (amounts ++ [amount_of only_few c])
                (indices ++ [Community.index c]) st1 Hacc1) as [Hret Hspec].
    split.
    { intros Hfuel. apply Hret. rewrite Hc1.
      pose proof (length_delete_at _ _ _ Hnth). lia. }
    intros amounts' indices' st' H.
    destruct (Hspec _ _ _ H) as (removed & Hacc' & Hm & Hn & Ht & Hperm & Ha & Hi & Hpre
                                 & Hrest).
    exists (c :: removed). repeat split; try apply Hacc'; try congruence.
    + rewrite (delete_at_perm _ _ _ Hnth), <- Hc1, Hperm. apply Permutation_middle.
    + rewrite Ha, <- app_assoc. reflexivity.
    + rewrite Hi, <- app_assoc. reflexivity.
    + rewrite Hpre, Hc1. unfold delete_at.
      rewrite <- (firstn_length_le (communities st) (Nat.lt_le_incl _ _ Hlt)) at 1.
      apply firstn_length_app.
Qed.

Lemma relabel_bins_id (m : list Z) (next : Z) (pairs : list (Z * Z)) :
  relabel_bins pairs next m = map (bin_label pairs next (fun x => x)) m.
Proof.
  rewrite <- (relabel_bins_map m next pairs (fun x => x)), map_id. reflexivity.
Qed.

Section Bins.

Variable F : Type.
Variable cfg : Config F.

(** The end of [pack] and [fill]: the nodes of the removed communities move
    to the communities of their bins. *)
Lemma add_bins_spec (st0 st1 : Improver) (removed : list Community.t)
    (indices bins : list Z) :
  consistent cfg st0 ->
  accounts st1 ->
  membership st1 = membership st0 ->
  next_community_index st1 = next_community_index st0 ->
  Permutation (communities st0) (communities st1 ++ removed) ->
  Permutation indices (map Community.index removed) ->
  length bins = length indices ->
  Forall (fun b => 0 <= b) bins ->
  indices <> [] ->
  exists st' top,
    add_bins cfg indices bins st1 = Ok st'
    /\ np_max bins = Ok top
    /\ consistent cfg st'
    /\ communities st'
       = communities st1
         ++ map (record_of cfg (membership st'))
              (fresh_indices (next_community_index st0) (Z.to_nat (top + 1)))
    /\ next_community_index st' = next_community_index st0 + (top + 1)
    /\ trace st' = trace st1.
Proof.
  intros Hcons Hacc1 Hm1 Hn1 Hperm Hidx Hlen Hnonneg Hne.
  pose proof Hcons as [[Hshape Hsizes Hnext Hindex Hdesc Hnd Hcover Hf Hs Hl] Hpos].
  assert (Hbne : bins <> []).
  { intros ->. destruct indices; [congruence | discriminate]. }
  destruct (np_max_returns bins Hbne) as [top Htop].
  destruct (np_max_spec bins top Htop) as [Hin Hle].
  rewrite Forall_forall in Hnonneg.
  assert (Htop0 : 0 <= top) by auto.
  set (pairs := combine indices bins).
  set (rho := bin_label pairs (next_community_index st1) (fun x => x)).
  set (st2 := set_membership (map rho (membership st1)) st1).
  assert (Hndall : NoDup (map Community.index (communities st1)
                            ++ map Community.index removed)).
  { rewrite <- map_app. eapply Permutation_NoDup; [|exact Hnd].
    apply Permutation_map. exact Hperm. }
  assert (Hndi : NoDup (map fst pairs)).
  { unfold pairs. rewrite map_fst_combine by (symmetry; assumption).
    eapply Permutation_NoDup; [symmetry; exact Hidx|].
    apply NoDup_app_remove_l in Hndall. assumption. }
  assert (Hidxold : forall i, In i indices -> In i (map Community.index removed)
                                              /\ 0 <= i < next_community_index st0).
  { intros i Hi. apply (Permutation_in _ Hidx) in Hi. split; [assumption|].
    apply in_map_iff in Hi. destruct Hi as [c [<- Hc]].
    rewrite Forall_forall in Hindex. apply Hindex.
    eapply Permutation_in; [symmetry; exact Hperm|]. apply in_or_app. auto. }
  assert (Hpairs : Forall (fun ib : Z * Z => fst ib < next_community_index st1
                                             /\ 0 <= snd ib) pairs).
  { rewrite Forall_forall. intros [i b] Hib. simpl.
    pose proof (in_combine_l _ _ _ _ Hib) as Hi.
    pose proof (in_combine_r _ _ _ _ Hib) as Hb.
    destruct (Hidxold i Hi) as [_ Hi']. split; [lia | auto]. }
  assert (Hinv2 : invariant cfg (next_community_index st2 + (top + 1)) st2).
  { simpl. rewrite Hn1. apply (restore_invariant F cfg st0 st2 removed); auto.
    simpl. rewrite Hm1.
    clear - Hcover Hperm Hndall Hndi Hidx Hidxold Hpairs Hle Hnonneg Hlen Hn1.
    induction (membership st0) as [|old olds IH]; simpl; constructor.
    - inversion Hcover as [|? ? Hold _]; subst.
      destruct Hold as [Hold|Hold]; [|lia].
      destruct (in_dec Z.eq_dec old indices) as [Hi|Hi].
      + right. destruct (Hidxold old Hi) as [Hrem Hrange]. split; [assumption|].
        destruct (in_combine_left indices bins old (eq_sym Hlen) Hi) as [b Hb].
        unfold rho. rewrite (bin_label_found _ pairs (fun x => x) old b Hpairs Hndi Hb)
          by reflexivity.
        pose proof (in_combine_r _ _ _ _ Hb) as HbB.
        specialize (Hle b HbB). specialize (Hnonneg b HbB). lia.
      + left.
        assert (Hnotrem : ~ In old (map Community.index removed)).
        { intros H. apply Hi. eapply Permutation_in; [symmetry; exact Hidx | exact H]. }
        split.
        * apply in_map_iff in Hold. destruct Hold as [c [<- Hc]].
          apply (Permutation_in _ Hperm) in Hc. apply in_app_or in Hc.
          destruct Hc as [Hc|Hc]; [apply in_map; assumption|].
          exfalso. apply Hnotrem. apply in_map. assumption.
        * unfold rho. apply bin_label_other; [reflexivity|].
          unfold pairs. rewrite map_fst_combine by (symmetry; assumption). assumption.
    - apply IH. inversion Hcover; assumption. }
  destruct (add_some_spec F cfg (top + 1) st2 Hinv2) as
    (st3 & E3 & Hcons3 & Hm3 & Hc3 & Hn3 & Ht3); [simpl; lia | lia |].
  exists st3, top. split.
  { unfold add_bins. rewrite Htop. simpl bind. rewrite relabel_bins_id.
    fold pairs. fold rho. fold st2. exact E3. }
  split; [assumption|]. split; [assumption|].
  rewrite Hc3, Hn3, Ht3, Hm3. simpl. rewrite Hn1. repeat split; auto.
Qed.

End Bins.

Section Pack.

Variable F : Type.
Variable bin_pack : list Z -> Z -> list Z.
Variable cfg : Config F.

Hypothesis bin_pack_ok : bins_contract bin_pack.

(** [pack] returns when it has more fuel than there are communities.  When it
    returns, the state is consistent, and its communities are communities
    that are neither too small nor have too few nodes, each as it was,
    followed by new communities. *)
Lemma pack_spec (fuel : nat) (st : Improver) :
  consistent cfg st ->
  ((length (communities st) < fuel)%nat -> exists st', pack bin_pack fuel cfg st = Ok st')
  /\ forall st',
      pack bin_pack fuel cfg st = Ok st' ->
      consistent cfg st'
      /\ trace st' = trace st
      /\ exists kept news,
          rebuilt st st' kept news
          /\ Forall (fun c => skipped false c = true) kept.
Proof.
  intros Hcons.
  pose proof (invariant_accounts cfg _ st (proj1 Hcons)) as Hacc.
  destruct (collect_small_spec false fuel 0 [] [] st Hacc) as [Hret Hspec].
  unfold pack.
  destruct (collect_small fuel false 0 [] [] st) as [[[amounts indices] st1]| |] eqn:E.
  2:{ split; [intros Hfuel; destruct Hret as [r Hr]; [lia | discriminate]|discriminate]. }
  2:{ split; [intros Hfuel; destruct Hret as [r Hr]; [lia | discriminate]|discriminate]. }
  destruct (Hspec _ _ _ eq_refl) as (removed & Hacc1 & Hm1 & Hn1 & Ht1 & Hperm & Ha & Hi
                                     & _ & Hrest).
  simpl in Ha, Hi, Hrest. simpl bind.
  assert (Hincl : incl (communities st1) (communities st)).
  { intros c Hc. eapply Permutation_in; [symmetry; exact Hperm|]. apply in_or_app. auto. }
  destruct (length indices =? 0)%nat eqn:Hempty.
  - split; [intros _; eexists; reflexivity|].
    intros st' H. injection H as <-.
    apply Nat.eqb_eq in Hempty. apply length_zero_iff_nil in Hempty.
    rewrite Hempty in Hi. symmetry in Hi. apply map_eq_nil in Hi. subst removed.
    rewrite app_nil_r in Hperm.
    split.
    { destruct Hcons as [[Hshape Hsizes Hnext Hindex Hdesc Hnd Hcover Hf Hs Hl] Hpos].
      destruct Hacc1 as (Hf1 & Hs1 & Hl1 & _).
      split; [|lia]. rewrite Hn1.
      constructor; rewrite ?Hm1, ?Hn1; auto.
      - rewrite Forall_forall in *. auto.
      - rewrite Forall_forall in *. auto.
      - eapply Permutation_NoDup; [|exact Hnd]. apply Permutation_map. assumption.
      - eapply Forall_impl; [|exact Hcover]. simpl. intros m [H|H]; [left|right; lia].
        eapply Permutation_in; [|exact H]. apply Permutation_map. assumption. }
    split; [assumption|].
    exists (communities st1), []. unfold rebuilt. rewrite app_nil_r.
    repeat split; auto. lia.
  - apply Nat.eqb_neq in Hempty.
    destruct (bin_pack_ok amounts (target_comm_size cfg)) as [Hlen Hnonneg].
    destruct (add_bins_spec F cfg st st1 removed indices
                (bin_pack amounts (target_comm_size cfg))) as
      (st' & top & E' & Htop & Hcons' & Hc' & Hn' & Ht'); auto.
    { rewrite Hi. apply Permutation_refl. }
    { rewrite Hlen, Ha, Hi, !length_map. reflexivity. }
    { intros ->. apply Hempty. reflexivity. }
    split; [intros _; exists st'; exact E'|].
    intros st'' H. rewrite E' in H. injection H as <-.
    split; [assumption|]. split; [congruence|].
    exists (communities st1),
      (map (record_of cfg (membership st'))
         (fresh_indices (next_community_index st) (Z.to_nat (top + 1)))).
    unfold rebuilt. repeat split; auto.
    + apply fresh_records.
    + destruct (np_max_spec _ _ Htop) as [Hin _]. rewrite Forall_forall in Hnonneg.
      specialize (Hnonneg top Hin). lia.
Qed.

End Pack.

(** *** Sorting and enumerating *)

Lemma insert_sorted_perm {A : Type} (leb : A -> A -> bool) (x : A) (l : list A) :
  Permutation (insert_sorted leb x l) (x :: l).
Proof.
  induction l as [|y l IH]; simpl; [reflexivity|].
  destruct (leb x y); [reflexivity|].
  rewrite IH. apply perm_swap.
Qed.

Lemma sorted_perm {A : Type} (leb : A -> A -> bool) (l : list A) :
  Permutation (sorted leb l) l.
Proof.
  unfold sorted. induction l as [|x l IH]; simpl; [reflexivity|].
  rewrite insert_sorted_perm, IH. reflexivity.
Qed.

Lemma insert_sorted_nat (x : nat) (l : list nat) :
  StronglySorted le l -> StronglySorted le (insert_sorted Nat.leb x l).
Proof.
  induction 1 as [|y l Hs IH Hall]; simpl; [repeat constructor|].
  destruct (Nat.leb_spec x y).
  - constructor; [constructor; assumption|].
    constructor; [assumption|]. eapply Forall_impl; [|exact Hall]. simpl. lia.
  - constructor; [assumption|].
    rewrite Forall_forall in *. intros z Hz.
    apply (Permutation_in _ (insert_sorted_perm Nat.leb x l)) in Hz.
    destruct Hz as [->|Hz]; [lia | auto].
Qed.

Lemma sorted_nat_ascending (l : list nat) :
  NoDup l -> StronglySorted lt (sorted Nat.leb l).
Proof.
  intros Hnd.
  assert (Hs : StronglySorted le (sorted Nat.leb l)).
  { unfold sorted. induction l as [|x l IH]; simpl; [constructor|].
    apply insert_sorted_nat. apply IH. inversion Hnd; assumption. }
  assert (Hnd' : NoDup (sorted Nat.leb l)).
  { eapply Permutation_NoDup; [symmetry; apply sorted_perm | assumption]. }
  clear Hnd. induction Hs as [|x s Hs IH Hall]; [constructor|].
  inversion Hnd' as [|? ? Hnotin Hnd'']; subst.
  constructor; [auto|].
  rewrite Forall_forall in *. intros y Hy. specialize (Hall y Hy).
  assert (x <> y) by (intros ->; contradiction). lia.
Qed.

Lemma enumerate_spec {A : Type} (l : list A) :
  forall start p x,
    In (p, x) (enumerate start l) ->
    (start <= p)%nat /\ nth_error l (p - start) = Some x.
Proof.
  induction l as [|y l IH]; intros start p x H; simpl in H; [contradiction|].
  destruct H as [E|H].
  - injection E as <- <-. rewrite Nat.sub_diag. split; [lia | reflexivity].
  - destruct (IH _ _ _ H) as [Hle Hnth]. split; [lia|].
    replace (p - start)%nat with (S (p - S start)) by lia. exact Hnth.
Qed.

Lemma enumerate_nodup {A : Type} (l : list A) :
  forall start, NoDup (map fst (enumerate start l)).
Proof.
  induction l as [|y l IH]; intros start; simpl; constructor; [|apply IH].
  intros Hin. apply in_map_iff in Hin. destruct Hin as [[p x] [E Hin]]. simpl in E.
  subst p. apply enumerate_spec in Hin. lia.
Qed.

(** The position and the index of a candidate of [fill]. *)
Definition candidate_position (t : Z * Z * nat * Z) : nat := snd (fst t).
Definition candidate_index (t : Z * Z * nat * Z) : Z := snd t.
Definition candidate_nodes (t : Z * Z * nat * Z) : Z := fst (fst (fst t)).

Lemma borrow_spec (candidates : list (Z * Z * nat * Z)) :
  forall min_nodes total_nodes positions amounts indices positions' amounts' indices',
    borrow candidates min_nodes total_nodes positions amounts indices
    = (positions', amounts', indices') ->
    exists taken rest,
      candidates = taken ++ rest
      /\ positions' = positions ++ map candidate_position taken
      /\ amounts' = amounts ++ map candidate_nodes taken
      /\ indices' = indices ++ map candidate_index taken.
Proof.
  induction candidates as [|[[[n s] p] i] candidates IH];
    intros min_nodes total_nodes positions amounts indices positions' amounts' indices' H;
    simpl in H.
  - injection H as <- <- <-. exists [], []. rewrite !app_nil_r. auto.
  - destruct (min_nodes <=? total_nodes + n).
    + injection H as <- <- <-. exists [(n, s, p, i)], candidates. auto.
    + destruct (IH _ _ _ _ _ _ _ _ H) as (taken & rest & -> & -> & -> & ->).
      exists ((n, s, p, i) :: taken), rest. simpl. rewrite <- !app_assoc. auto.
Qed.

Lemma Forall2_exists {A B : Type} (R : A -> B -> Prop) (l : list A) :
  (forall x, In x l -> exists y, R x y) -> exists l', Forall2 R l l'.
Proof.
  induction l as [|x l IH]; intros H.
  - exists []. constructor.
  - destruct (H x (or_introl eq_refl)) as [y Hy].
    destruct IH as [l' Hl']; [intros z Hz; apply H; right; assumption|].
    exists (y :: l'). constructor; assumption.
Qed.

Section Fill.

Variable F : Type.
Variable bin_fill : list Z -> Z -> list Z.
Variable cfg : Config F.

Hypothesis bin_fill_ok : bins_contract bin_fill.

(** The candidates [fill] may borrow from the communities [l]. *)
Definition fill_candidates (l : list Community.t) : list (Z * Z * nat * Z) :=
  sorted candidate_leb
    (map (fun pc : nat * Community.t =>
            (Community.nodes (snd pc), Community.size (snd pc), fst pc,
             Community.index (snd pc)))
       (filter (fun pc : nat * Community.t => Community.too_few (snd pc) =? 0)
          (enumerate 0 l))).

Lemma fill_candidates_spec (l : list Community.t) :
  (forall t, In t (fill_candidates l) ->
             exists c, nth_error l (candidate_position t) = Some c
                       /\ candidate_index t = Community.index c)
  /\ NoDup (map candidate_position (fill_candidates l)).
Proof.
  unfold fill_candidates.
  set (tuple := fun pc : nat * Community.t =>
                  (Community.nodes (snd pc), Community.size (snd pc), fst pc,
                   Community.index (snd pc))).
  set (L := map tuple (filter (fun pc : nat * Community.t =>
                                 Community.too_few (snd pc) =? 0) (enumerate 0 l))).
  pose proof (sorted_perm candidate_leb L) as Hperm.
  split.
  - intros t Ht. apply (Permutation_in _ Hperm) in Ht. unfold L in Ht.
    apply in_map_iff in Ht. destruct Ht as [[p c] [<- Hpc]].
    apply filter_In in Hpc. destruct Hpc as [Hpc _].
    apply enumerate_spec in Hpc. destruct Hpc as [_ Hnth].
    rewrite Nat.sub_0_r in Hnth. exists c. simpl. auto.
  - eapply Permutation_NoDup; [apply Permutation_map; symmetry; exact Hperm|].
    unfold L. rewrite map_map. simpl.
    apply (NoDup_map_filter fst). apply enumerate_nodup.
Qed.

(** [fill] returns when it has more fuel than there are communities.  When it
    returns, the state is consistent, and its communities are communities
    that do not have too few nodes, each as it was, followed by new
    communities. *)
Lemma fill_spec (fuel : nat) (st : Improver) (min_nodes : Z) :
  consistent cfg st ->
  min_comm_nodes cfg = Some min_nodes ->
  ((length (communities st) < fuel)%nat -> exists st', fill bin_fill fuel cfg st = Ok st')
  /\ forall st',
      fill bin_fill fuel cfg st = Ok st' ->
      consistent cfg st'
      /\ trace st' = trace st
      /\ exists kept news,
          rebuilt st st' kept news
          /\ Forall (fun c => skipped true c = true) kept.
Proof.
  intros Hcons Hmin.
  pose proof (invariant_accounts cfg _ st (proj1 Hcons)) as Hacc.
  destruct (collect_small_spec true fuel 0 [] [] st Hacc) as [Hret Hspec].
  unfold fill. rewrite Hmin.
  destruct (collect_small fuel true 0 [] [] st) as [[[nodes0 indices0] st1]| |] eqn:E.
  2:{ split; [intros Hfuel; destruct Hret as [r Hr]; [lia | discriminate]|discriminate]. }
  2:{ split; [intros Hfuel; destruct Hret as [r Hr]; [lia | discriminate]|discriminate]. }
  destruct (Hspec _ _ _ eq_refl) as (removed0 & Hacc1 & Hm1 & Hn1 & Ht1 & Hperm & Ha & Hi
                                     & _ & Hrest).
  simpl in Ha, Hi, Hrest. simpl bind.
  assert (Hincl : incl (communities st1) (communities st)).
  { intros c Hc. eapply Permutation_in; [symmetry; exact Hperm|]. apply in_or_app. auto. }
  destruct (length indices0 =? 0)%nat eqn:Hempty.
  - split; [intros _; eexists; reflexivity|].
    intros st' H. injection H as <-.
    apply Nat.eqb_eq in Hempty. apply length_zero_iff_nil in Hempty.
    rewrite Hempty in Hi. symmetry in Hi. apply map_eq_nil in Hi. subst removed0.
    rewrite app_nil_r in Hperm.
    split.
    { destruct Hcons as [[Hshape Hsizes Hnext Hindex Hdesc Hnd Hcover Hf Hs Hl] Hpos].
      destruct Hacc1 as (Hf1 & Hs1 & Hl1 & _).
      split; [|lia]. rewrite Hn1.
      constructor; rewrite ?Hm1, ?Hn1; auto.
      - rewrite Forall_forall in *. auto.
      - rewrite Forall_forall in *. auto.
      - eapply Permutation_NoDup; [|exact Hnd]. apply Permutation_map. assumption.
      - eapply Forall_impl; [|exact Hcover]. simpl. intros m [H|H]; [left|right; lia].
        eapply Permutation_in; [|exact H]. apply Permutation_map. assumption. }
    split; [assumption|].
    exists (communities st1), []. unfold rebuilt. rewrite app_nil_r.
    repeat split; auto. lia.
  - apply Nat.eqb_neq in Hempty.
    assert (Hne0 : indices0 <> []) by (intros ->; apply Hempty; reflexivity).
    (* the communities that are borrowed *)
    assert (Hborrow :
              exists nodes indices st2 removed',
                (if must_complete_cover cfg && (np_sum nodes0 <? min_nodes)
                 then
                   let '(positions, nodes, indices) :=
                     borrow (fill_candidates (communities st1)) min_nodes (np_sum nodes0)
                       [] nodes0 indices0 in
                   do st <- remove_all (rev (sorted Nat.leb positions)) st1;
                   Ok (nodes, indices, st)
                 else Ok (nodes0, indices0, st1)) = Ok (nodes, indices, st2)
                /\ accounts st2
                /\ membership st2 = membership st1
                /\ next_community_index st2 = next_community_index st1
                /\ trace st2 = trace st1
                /\ Permutation (communities st1) (communities st2 ++ removed')
                /\ Permutation indices (map Community.index (removed' ++ removed0))
                /\ length nodes = length indices
                /\ indices <> []).
    { destruct (must_complete_cover cfg && (np_sum nodes0 <? min_nodes)).
      2:{ exists nodes0, indices0, st1, []. rewrite app_nil_r. simpl.
          repeat split; auto; try apply Hacc1.
          - rewrite Hi. apply Permutation_refl.
          - rewrite Ha, Hi, !length_map. reflexivity. }
      destruct (borrow (fill_candidates (communities st1)) min_nodes (np_sum nodes0)
                  [] nodes0 indices0) as [[positions nodes] indices] eqn:Hb.
      destruct (borrow_spec _ _ _ _ _ _ _ _ _ Hb)
        as (taken & rest & Hcand & Hpos' & Hnodes' & Hidx').
      simpl in Hpos'.
      destruct (fill_candidates_spec (communities st1)) as [Hvalid Hndc].
      rewrite Hcand in Hndc. rewrite map_app in Hndc. apply NoDup_app_remove_r in Hndc.
      rewrite <- Hpos' in Hndc.
      assert (Htaken : forall t, In t taken ->
                                 exists c, nth_error (communities st1) (candidate_position t)
                                           = Some c
                                           /\ candidate_index t = Community.index c).
      { intros t Ht. apply Hvalid. rewrite Hcand. apply in_or_app. auto. }
      set (ps := rev (sorted Nat.leb positions)).
      assert (Hpsperm : Permutation ps positions).
      { unfold ps. rewrite <- Permutation_rev. apply sorted_perm. }
      destruct (Forall2_exists (fun p c => nth_error (communities st1) p = Some c) ps)
        as [removed' Hrem].
      { intros p Hp. apply (Permutation_in _ Hpsperm) in Hp. rewrite Hpos' in Hp.
        apply in_map_iff in Hp. destruct Hp as [t [<- Ht]].
        destruct (Htaken t Ht) as [c [Hc _]]. exists c. assumption. }
      destruct (remove_all_spec ps removed' st1 Hrem) as
        (st2 & E2 & Hacc2 & Hm2 & Hn2 & Ht2 & Hperm2); auto.
      { unfold ps. apply descending_rev. apply sorted_nat_ascending. assumption. }
      exists nodes, indices, st2, removed'. fold ps. rewrite E2. simpl bind.
      repeat split; auto; try apply Hacc2.
      - set (g := fun p => match nth_error (communities st1) p with
                           | Some c => Community.index c
                           | None => 0
                           end).
        assert (H1 : map Community.index removed' = map g ps).
        { clear - Hrem. induction Hrem as [|p c ps' cs' Hp Hrem IH]; simpl; [reflexivity|].
          f_equal; [unfold g; rewrite Hp; reflexivity | exact IH]. }
        assert (H2 : map candidate_index taken = map g positions).
        { rewrite Hpos', map_map. apply map_ext_in. intros t Ht.
          destruct (Htaken t Ht) as [c [Hc Hidx]]. unfold g. rewrite Hc. assumption. }
        rewrite Hidx', Hi, map_app, H1, H2. simpl.
        rewrite Permutation_app_comm. apply Permutation_app; [|reflexivity].
        apply Permutation_map. symmetry. assumption.
      - rewrite Hnodes', Hidx', Ha, Hi, !length_app, !length_map. reflexivity.
      - rewrite Hidx'. intros H. apply app_eq_nil in H. destruct H as [H _].
        contradiction. }
    destruct Hborrow as (nodes & indices & st2 & removed' & E2 & Hacc2 & Hm2 & Hn2 & Ht2
                         & Hperm2 & Hidx & Hlen & Hne).
    fold (fill_candidates (communities st1)). rewrite E2. simpl bind.
    destruct (bin_fill_ok nodes min_nodes) as [Hlenb Hnonneg].
    destruct (add_bins_spec F cfg st st2 (removed' ++ removed0) indices
                (bin_fill nodes min_nodes)) as
      (st' & top & E' & Htop & Hcons' & Hc' & Hn' & Ht'); auto; try congruence.
    { rewrite Hperm, Hperm2, <- app_assoc. reflexivity. }
    split; [intros _; exists st'; exact E'|].
    intros st'' H. rewrite E' in H. injection H as <-.
    split; [assumption|]. split; [congruence|].
    exists (communities st2),
      (map (record_of cfg (membership st'))
         (fresh_indices (next_community_index st) (Z.to_nat (top + 1)))).
    assert (Hincl2 : incl (communities st2) (communities st1)).
    { intros c Hc. eapply Permutation_in; [symmetry; exact Hperm2|].
      apply in_or_app. auto. }
    unfold rebuilt. repeat split; auto.
    + intros c Hc. auto.
    + apply fresh_records.
    + destruct (np_max_spec _ _ Htop) as [Hin _]. rewrite Forall_forall in Hnonneg.
      specialize (Hnonneg top Hin). lia.
    + rewrite Forall_forall in *. intros c Hc. apply Hrest. auto.
Qed.

End Fill.

(** ** The state after construction *)

(** What [__init__] requires of its arguments: the membership gives a community
    to each node of the graph, its indices are dense, and there is a size for
    each node when there are sizes. *)
Definition valid_input {F : Type} (cfg : Config F) (membership0 : list Z) : Prop :=
  membership0 <> []
  /\ dense membership0
  /\ length membership0 = length (edge_weights cfg)
  /\ match node_sizes cfg with
     | Some s => length s = length (edge_weights cfg)
     | None => True
     end.

Lemma init_good {F : Type} (cfg : Config F) (membership0 : list Z) :
  valid_input cfg membership0 ->
  exists st,
    init cfg membership0 = Ok st
    /\ good F cfg st
    /\ membership st = membership0
    /\ trace st = []
    /\ Forall (fun c => Community.monolithic c = false) (communities st).
Proof.
  intros (Hne & Hdense & Hlen & Hsizes).
  destruct (init_spec F cfg membership0 Hne) as (st & top & E & Htop & Hcons & Hm & Hc & Ht);
    auto.
  { rewrite Forall_forall. intros m Hm. apply (Hdense m Hm). }
  destruct (dense_max _ _ Hdense Htop) as [Htop0 Hall].
  exists st. split; [assumption|]. split; [split; [assumption|]|].
  - unfold inhabited. rewrite Hc, Forall_forall. intros c Hin.
    apply in_map_iff in Hin. destruct Hin as [i [<- Hi]]. apply in_fresh_indices in Hi.
    unfold record_of. simpl. apply count_true_pos. exists i.
    split; [apply Hall; lia | apply Z.eqb_refl].
  - split; [assumption|]. split; [assumption|].
    rewrite Hc, Forall_forall. intros c Hin.
    apply in_map_iff in Hin. destruct Hin as [i [<- _]]. reflexivity.
Qed.

Lemma init_marks (st : Improver) :
  trace st = [] ->
  Forall (fun c => Community.monolithic c = false) (communities st) ->
  marks_follow_trace st.
Proof.
  intros Ht Hm. constructor; rewrite ?Ht.
  - intros c _ [].
  - intros i count [].
  - intros c Hc Hmono. rewrite Forall_forall in Hm. specialize (Hm c Hc). congruence.
  - intros t1 t2 i count E. destruct t1; discriminate.
Qed.

(** ** Conservation of the sizes *)

(** In a consistent state the sizes of the communities add up to the sizes of
    all the nodes, and their node counts to the number of nodes. *)
Lemma consistent_conserves {F : Type} (cfg : Config F) (st : Improver) :
  consistent cfg st ->
  sum_of Community.size (communities st)
  = total_weight (node_sizes cfg) (length (edge_weights cfg))
  /\ sum_of Community.nodes (communities st) = Z.of_nat (length (edge_weights cfg)).
Proof.
  intros [[Hshape Hsizes Hnext Hindex Hdesc Hnd Hcover Hf Hs Hl] Hpos].
  assert (Hcover' : Forall (fun m => In m (map Community.index (communities st)))
                      (membership st)).
  { eapply Forall_impl; [|exact Hcover]. simpl. intros m [H|H]; [assumption | lia]. }
  rewrite Forall_forall in Hdesc. split.
  - pose proof (weight_partition (node_sizes cfg) (map Community.index (communities st))
                  (membership st) Hnd Hcover') as H.
    rewrite sum_of_map, Hshape in H. rewrite <- H.
    + apply sum_of_ext. intros c Hc. destruct (Hdesc c Hc) as (_ & _ & Hsize & _).
      rewrite Hsize. reflexivity.
    + destruct (node_sizes cfg); [congruence | exact I].
  - pose proof (weight_partition None (map Community.index (communities st))
                  (membership st) Hnd Hcover' I) as H.
    rewrite sum_of_map, Hshape in H. simpl in H. rewrite <- H.
    apply sum_of_ext. intros c Hc. destruct (Hdesc c Hc) as (_ & Hnodes & _).
    rewrite Hnodes. reflexivity.
Qed.

(** ** The collaborators that are not among the sources *)

(** Modelled from the spec: [ut.bin_pack] is "a deterministic size-based
    bin-packing heuristic (greedy largest-first into bins capped at target
    size)".  The elements are taken in decreasing order of size; each goes to
    the first bin in which it fits, and opens a new bin when it fits in
    none. *)
Fixpoint first_fit (totals : list Z) (size cap : Z) (bin : Z) : Z * list Z :=
  match totals with
  | [] => (bin, [size])
  | total :: rest =>
      if total + size <=? cap then (bin, (total + size) :: rest)
      else
        let (b, rest') := first_fit rest size cap (bin + 1) in
        (b, total :: rest')
  end.

Fixpoint pack_in_order (order : list (Z * nat)) (cap : Z) (totals : list Z)
    (bins : list Z) : list Z :=
  match order with
  | [] => bins
  | (size, position) :: rest =>
      let (b, totals') := first_fit totals size cap 0 in
      pack_in_order rest cap totals' (set_at bins position b)
  end.

Definition bin_pack (element_sizes : list Z) (max_bin_size : Z) : list Z :=
  pack_in_order
    (sorted (fun a b : Z * nat => fst b <=? fst a)
       (combine element_sizes (seq 0 (length element_sizes))))
    max_bin_size [] (repeat 0 (length element_sizes)).

(** Modelled from the spec: [ut.bin_fill] is "a deterministic node-count
    bin-filling heuristic (greedy smallest-first merge until each bin reaches
    at least the minimum node count)".  The elements are taken in increasing
    order of size and put in the current bin; a bin that has reached the
    minimum is closed.  A last bin that stays below the minimum is merged into
    the bin before it, when there is one. *)
Fixpoint fill_in_order (order : list (Z * nat)) (min_size : Z) (bin total : Z)
    (bins : list Z) : Z * Z * list Z :=
  match order with
  | [] => (bin, total, bins)
  | (size, position) :: rest =>
      let bins := set_at bins position bin in
      if min_size <=? total + size
      then fill_in_order rest min_size (bin + 1) 0 bins
      else fill_in_order rest min_size bin (total + size) bins
  end.

Definition bin_fill (element_sizes : list Z) (min_bin_size : Z) : list Z :=
  let '(bin, total, bins) :=
    fill_in_order
      (sorted (fun a b : Z * nat => fst a <=? fst b)
         (combine element_sizes (seq 0 (length element_sizes))))
      min_bin_size 0 0 (repeat 0 (length element_sizes)) in
  if (0 <? total) && (0 <? bin)
  then map (fun b => if b =? bin then bin - 1 else b) bins
  else bins.

(** Modelled from the spec: [ut.compress_indices] is "compacting whatever
    community ids remain into a dense, zero-based range": each index becomes
    its rank among the distinct indices. *)
Fixpoint rank_of (x : Z) (keys : list Z) : Z :=
  match keys with
  | [] => 0
  | key :: rest => if key <? x then 1 + rank_of x rest else 0
  end.

Definition compress_indices (indices : list Z) : list Z :=
  map (fun x => rank_of x (groupby_keys indices)) indices.

(** A partition method for the examples: the first node is a community, and
    the other nodes are another. *)
Definition first_apart {F : Type} (edge_weights : list (list F))
    (node_sizes : option (list Z)) (target_comm_size : Z)
    (max_comm_size min_comm_size min_comm_nodes : option Z) (random_seed : Z) : list Z :=
  match edge_weights with
  | [] => []
  | _ :: rest => 0 :: map (fun _ => 1) rest
  end.

Lemma set_at_nonneg (bins : list Z) (position : nat) (b : Z) :
  0 <= b -> Forall (fun x => 0 <= x) bins -> Forall (fun x => 0 <= x) (set_at bins position b).
Proof.
  intros Hb. revert position. induction bins as [|x bins IH]; intros [|p] H; simpl;
    inversion H; subst; constructor; auto.
Qed.

Lemma first_fit_nonneg (totals : list Z) (size cap : Z) :
  forall bin, 0 <= bin -> 0 <= fst (first_fit totals size cap bin).
Proof.
  induction totals as [|total rest IH]; intros bin Hbin; simpl; [assumption|].
  destruct (total + size <=? cap); [assumption|].
  specialize (IH (bin + 1)). destruct (first_fit rest size cap (bin + 1)). simpl in *.
  apply IH. lia.
Qed.

Lemma pack_in_order_spec (order : list (Z * nat)) (cap : Z) :
  forall totals bins,
    Forall (fun x => 0 <= x) bins ->
    length (pack_in_order order cap totals bins) = length bins
    /\ Forall (fun x => 0 <= x) (pack_in_order order cap totals bins).
Proof.
  induction order as [|[size position] order IH]; intros totals bins Hbins; simpl; [auto|].
  pose proof (first_fit_nonneg totals size cap 0 (Z.le_refl 0)) as Hb.
  destruct (first_fit totals size cap 0) as [b totals']. simpl in Hb.
  destruct (IH totals' (set_at bins position b)) as [Hlen Hnn].
  { apply set_at_nonneg; assumption. }
  rewrite Hlen, set_at_length. auto.
Qed.

Lemma repeat_nonneg (n : nat) : Forall (fun x => 0 <= x) (repeat 0 n).
Proof. induction n; simpl; constructor; auto; lia. Qed.

Lemma bin_pack_contract : bins_contract bin_pack.
Proof.
  intros amounts bound. unfold bin_pack.
  destruct (pack_in_order_spec
              (sorted (fun a b : Z * nat => fst b <=? fst a)
                 (combine amounts (seq 0 (length amounts))))
              bound [] (repeat 0 (length amounts)) (repeat_nonneg _)) as [Hlen Hnn].
  rewrite repeat_length in Hlen. auto.
Qed.

Lemma fill_in_order_spec (order : list (Z * nat)) (min_size : Z) :
  forall bin total bins,
    0 <= bin ->
    Forall (fun x => 0 <= x) bins ->
    let '(bin', total', bins') := fill_in_order order min_size bin total bins in
    0 <= bin' /\ length bins' = length bins /\ Forall (fun x => 0 <= x) bins'.
Proof.
  induction order as [|[size position] order IH]; intros bin total bins Hbin Hbins; simpl;
    [auto|].
  assert (Hset : Forall (fun x => 0 <= x) (set_at bins position bin))
    by (apply set_at_nonneg; assumption).
  destruct (min_size <=? total + size).
  - specialize (IH (bin + 1) 0 (set_at bins position bin)).
    destruct (fill_in_order order min_size (bin + 1) 0 (set_at bins position bin))
      as [[bin' total'] bins'].
    rewrite set_at_length in IH. apply IH; [lia | assumption].
  - specialize (IH bin (total + size) (set_at bins position bin)).
    destruct (fill_in_order order min_size bin (total + size) (set_at bins position bin))
      as [[bin' total'] bins'].
    rewrite set_at_length in IH. apply IH; assumption.
Qed.

Lemma bin_fill_contract : bins_contract bin_fill.
Proof.
  intros amounts bound. unfold bin_fill.
  pose proof (fill_in_order_spec
                (sorted (fun a b : Z * nat => fst a <=? fst b)
                   (combine amounts (seq 0 (length amounts))))
                bound 0 0 (repeat 0 (length amounts)) (Z.le_refl 0) (repeat_nonneg _)) as H.
  destruct (fill_in_order _ bound 0 0 (repeat 0 (length amounts))) as [[bin total] bins].
  destruct H as (Hbin & Hlen & Hnn). rewrite repeat_length in Hlen.
  destruct ((0 <? total) && (0 <? bin)) eqn:E; [|auto].
  apply andb_true_iff in E. destruct E as [_ E]. apply Z.ltb_lt in E.
  rewrite length_map. split; [assumption|].
  rewrite Forall_forall in *. intros x Hx. apply in_map_iff in Hx.
  destruct Hx as [b [<- Hb]]. specialize (Hnn b Hb).
  destruct (b =? bin); lia.
Qed.

Lemma first_apart_contract {F : Type} : partition_contract (@first_apart F).
Proof.
  intros weights sizes target max_size min_size min_nodes seed _.
  unfold first_apart. destruct weights as [|row rest].
  - split; [reflexivity | intros g []].
  - split; [simpl; rewrite length_map; reflexivity|].
    intros g Hg.
    assert (Hcases : g = 0 \/ g = 1).
    { destruct Hg as [<-|Hg]; [auto|]. apply in_map_iff in Hg.
      destruct Hg as [x [<- _]]. auto. }
    split; [lia|]. intros h Hh. left. lia.
Qed.

(** ** The calls [compute_candidate_metacells] makes on the [Improver] *)

(** The construction of the [Improver], [improve], [pack] when there is a
    minimal size and [fill] when there is a minimal number of nodes, as in
    [compute_candidate_metacells]. *)
Definition run_improver {F : Type} (fmean : list F -> F) (fzero : F)
    (partition_method :
       list (list F) -> option (list Z) -> Z -> option Z -> option Z -> option Z -> Z
       -> list Z)
    (bin_pack bin_fill : list Z -> Z -> list Z)
    (fuel : nat) (cfg : Config F) (membership0 : list Z) : outcome Improver :=
  do improver <- init cfg membership0;
  do improver <- improve fmean fzero partition_method fuel cfg improver;
  do improver <-
    (if is_some (min_comm_size cfg) then pack bin_pack fuel cfg improver else Ok improver);
  if is_some (min_comm_nodes cfg) then fill bin_fill fuel cfg improver else Ok improver.

(** The bounds that the spec expects of every community after [pack] and
    [fill]. *)
Definition within_bounds {F : Type} (cfg : Config F) (st : Improver) : Prop :=
  forall c, In c (communities st) ->
    (forall min_size, min_comm_size cfg = Some min_size -> min_size <= Community.size c)
    /\ (forall min_nodes, min_comm_nodes cfg = Some min_nodes ->
                          min_nodes <= Community.nodes c)
    /\ (forall max_size, max_comm_size cfg = Some max_size ->
                         max_size < Community.size c -> Community.monolithic c = true).

Section Refinement.

Variable F : Type.
Variable fmean : list F -> F.
Variable fzero : F.
Variable partition_method :
  list (list F) -> option (list Z) -> Z -> option Z -> option Z -> option Z -> Z -> list Z.
Variable bin_pack : list Z -> Z -> list Z.
Variable bin_fill : list Z -> Z -> list Z.

Hypothesis partition_method_ok : partition_contract partition_method.
Hypothesis bin_pack_ok : bins_contract bin_pack.
Hypothesis bin_fill_ok : bins_contract bin_fill.

Lemma improve_good (fuel : nat) (cfg : Config F) (st st' : Improver) :
  good F cfg st ->
  improve fmean fzero partition_method fuel cfg st = Ok st' ->
  good F cfg st'.
Proof.
  intros Hgood H. apply improve_execution in H.
  eapply execution_good; eassumption.
Qed.

Lemma fill_consistent (fuel : nat) (cfg : Config F) (st st' : Improver) :
  consistent cfg st ->
  fill bin_fill fuel cfg st = Ok st' ->
  consistent cfg st'.
Proof.
  intros Hcons H. destruct (min_comm_nodes cfg) as [k|] eqn:Hk.
  - destruct (fill_spec F bin_fill cfg bin_fill_ok fuel st k Hcons Hk) as [_ Hspec].
    apply (Hspec st' H).
  - unfold fill in H. rewrite Hk in H. discriminate.
Qed.

Lemma pack_consistent (fuel : nat) (cfg : Config F) (st st' : Improver) :
  consistent cfg st ->
  pack bin_pack fuel cfg st = Ok st' ->
  consistent cfg st'.
Proof.
  intros Hcons H.
  destruct (pack_spec F bin_pack cfg bin_pack_ok fuel st Hcons) as [_ Hspec].
  apply (Hspec st' H).
Qed.

Lemma run_improver_consistent (fuel : nat) (cfg : Config F) (membership0 : list Z)
    (st' : Improver) :
  valid_input cfg membership0 ->
  run_improver fmean fzero partition_method bin_pack bin_fill fuel cfg membership0 = Ok st' ->
  consistent cfg st'.
Proof.
  intros Hvalid H.
  destruct (init_good cfg membership0 Hvalid) as (st0 & E0 & Hgood0 & _).
  unfold run_improver in H. rewrite E0 in H. simpl in H.
  destruct (improve fmean fzero partition_method fuel cfg st0) as [st1| |] eqn:E1;
    simpl in H; try discriminate.
  pose proof (improve_good fuel cfg st0 st1 Hgood0 E1) as [Hcons1 _].
  assert (H2 : exists st2,
             (if is_some (min_comm_size cfg) then pack bin_pack fuel cfg st1 else Ok st1)
             = Ok st2 /\ consistent cfg st2).
  { destruct (is_some (min_comm_size cfg)).
    - destruct (pack bin_pack fuel cfg st1) as [st2| |] eqn:E2; simpl in H;
        try discriminate.
      exists st2. split; [reflexivity|]. eapply pack_consistent; eassumption.
    - exists st1. auto. }
  destruct H2 as (st2 & E2 & Hcons2). rewrite E2 in H. simpl in H.
  destruct (is_some (min_comm_nodes cfg)).
  - eapply fill_consistent; eassumption.
  - injection H as <-. assumption.
Qed.

(** C3: the sizes of the communities of the [Improver] add up to the sizes of
    the nodes (their number, when there are no sizes) after the construction,
    in every state that calls of [merge_few_or_small] and iterations of
    [split_large] lead to, after each further [merge_few_or_small],
    [split_large], [pack] and [fill], and when [compute_candidate_metacells]
    is done with the [Improver]. *)
Theorem sizes_are_conserved (cfg : Config F) (membership0 : list Z) :
  valid_input cfg membership0 ->
  let total := total_weight (node_sizes cfg) (length membership0) in
  let conserved := fun st : Improver => sum_of Community.size (communities st) = total in
  (exists st0, init cfg membership0 = Ok st0 /\ conserved st0)
  /\ (forall st0 st,
         init cfg membership0 = Ok st0 ->
         execution F fmean fzero partition_method cfg st0 st ->
         conserved st
         /\ (forall did_improve st',
                merge_few_or_small fmean fzero partition_method cfg st
                = Ok (did_improve, st') -> conserved st')
         /\ (forall fuel did_split st',
                split_large partition_method fuel cfg st = Ok (did_split, st') ->
                conserved st')
         /\ (forall fuel st',
                improve fmean fzero partition_method fuel cfg st = Ok st' ->
                conserved st')
         /\ (forall fuel st1,
                pack bin_pack fuel cfg st = Ok st1 ->
                conserved st1
                /\ forall fuel' st2, fill bin_fill fuel' cfg st1 = Ok st2 -> conserved st2)
         /\ (forall fuel st2, fill bin_fill fuel cfg st = Ok st2 -> conserved st2))
  /\ (forall fuel st',
         run_improver fmean fzero partition_method bin_pack bin_fill fuel cfg membership0
         = Ok st' -> conserved st').
Proof.
  intros Hvalid total conserved.
  destruct (init_good cfg membership0 Hvalid) as (st0 & E0 & Hgood0 & _).
  assert (Hlen : length membership0 = length (edge_weights cfg)) by apply Hvalid.
  assert (Hcons : forall st, consistent cfg st -> conserved st).
  { intros st H. unfold conserved, total. rewrite Hlen.
    apply (consistent_conserves cfg st H). }
  assert (Hreach : forall st, execution F fmean fzero partition_method cfg st0 st ->
                              good F cfg st).
  { intros st H.
    exact (execution_good F fmean fzero partition_method cfg partition_method_ok
             st0 st H Hgood0). }
  split; [exists st0; split; [assumption | apply Hcons; apply Hgood0]|].
  split.
  - intros st0' st E0' Hexec. rewrite E0 in E0'. injection E0' as <-.
    pose proof (Hreach st Hexec) as Hgood.
    split; [apply Hcons; apply Hgood|].
    split; [|split; [|split; [|split]]].
    + intros b st' H. apply Hcons.
      apply (Hreach st'). eapply rt_trans; [exact Hexec|].
      apply rt_step. left. eapply transition_merge. exact H.
    + intros fuel b st' H. apply Hcons.
      apply (split_scan_transitions F fmean fzero) in H. simpl in H.
      apply (Hreach st'). eapply rt_trans; [exact Hexec|].
      apply transitions_execution. exact H.
    + intros fuel st' H. apply Hcons.
      apply (improve_good fuel cfg st st' Hgood H).
    + intros fuel st1 H.
      pose proof (pack_consistent fuel cfg st st1 (proj1 Hgood) H) as H1.
      split; [apply Hcons; assumption|].
      intros fuel' st2 H'. apply Hcons. eapply fill_consistent; eassumption.
    + intros fuel st2 H. apply Hcons. eapply fill_consistent; [apply Hgood | eassumption].
  - intros fuel st' H. apply Hcons.
    exact (run_improver_consistent fuel cfg membership0 st' Hvalid H).
Qed.

(** After [pack], every community that [pack] found in the list and left there
    has at least the minimal size and the minimal number of nodes (where
    these are configured); after [fill], every community that [fill] found in
    the list and left there has at least the minimal number of nodes.  The
    record of such a community is the one it had before. *)
Lemma pack_and_fill_keep (cfg : Config F) (st : Improver) :
  consistent cfg st ->
  (forall fuel st',
      pack bin_pack fuel cfg st = Ok st' ->
      forall c, In c (communities st') ->
                Community.index c < next_community_index st ->
                In c (communities st)
                /\ (forall min_size, min_comm_size cfg = Some min_size ->
                                     min_size <= Community.size c)
                /\ (forall min_nodes, min_comm_nodes cfg = Some min_nodes ->
                                      min_nodes <= Community.nodes c))
  /\ (forall fuel st',
         fill bin_fill fuel cfg st = Ok st' ->
         forall c, In c (communities st') ->
                   Community.index c < next_community_index st ->
                   In c (communities st)
                   /\ (forall min_nodes, min_comm_nodes cfg = Some min_nodes ->
                                         min_nodes <= Community.nodes c)).
Proof.
  intros Hcons.
  pose proof Hcons as [[Hshape Hsizes Hnext Hindex Hdesc Hnd Hcover Hf Hs Hl] Hpos].
  rewrite Forall_forall in Hdesc.
  assert (Hkept : forall st' kept news c,
             rebuilt st st' kept news -> In c (communities st') ->
             Community.index c < next_community_index st ->
             In c kept /\ In c (communities st)).
  { intros st' kept news c (Hc & Hincl & Hnews & _) Hin Hidx.
    rewrite Hc in Hin. apply in_app_or in Hin. destruct Hin as [Hin|Hin]; [auto|].
    rewrite Forall_forall in Hnews. destruct (Hnews c Hin) as [Hge _]. lia. }
  split.
  - intros fuel st' H c Hc Hidx.
    destruct (pack_spec F bin_pack cfg bin_pack_ok fuel st Hcons) as [_ Hspec].
    destruct (Hspec st' H) as (_ & _ & kept & news & Hreb & Hskipped).
    destruct (Hkept st' kept news c Hreb Hc Hidx) as [Hk Hold].
    split; [assumption|].
    rewrite Forall_forall in Hskipped. specialize (Hskipped c Hk).
    unfold skipped in Hskipped. apply andb_true_iff in Hskipped.
    destruct Hskipped as [Hsmall Hfew]. apply Z.eqb_eq in Hsmall, Hfew.
    destruct (Hdesc c Hold) as (_ & Hnodes & Hsize & Hfew' & Hsmall' & _).
    rewrite <- Hsize in Hsmall'. rewrite <- Hnodes in Hfew'.
    split.
    + intros min_size Hmin. rewrite Hsmall' in Hsmall. unfold small_of in Hsmall.
      rewrite Hmin in Hsmall. destruct (Z.ltb_spec (Community.size c) min_size); lia.
    + intros min_nodes Hmin. rewrite Hfew' in Hfew. unfold few_of in Hfew.
      rewrite Hmin in Hfew. destruct (Z.ltb_spec (Community.nodes c) min_nodes); lia.
  - intros fuel st' H c Hc Hidx.
    destruct (min_comm_nodes cfg) as [k|] eqn:Hk.
    2:{ unfold fill in H. rewrite Hk in H. discriminate. }
    destruct (fill_spec F bin_fill cfg bin_fill_ok fuel st k Hcons Hk) as [_ Hspec].
    destruct (Hspec st' H) as (_ & _ & kept & news & Hreb & Hskipped).
    destruct (Hkept st' kept news c Hreb Hc Hidx) as [Hk' Hold].
    split; [assumption|].
    rewrite Forall_forall in Hskipped. specialize (Hskipped c Hk').
    unfold skipped in Hskipped. simpl in Hskipped. apply Z.eqb_eq in Hskipped.
    destruct (Hdesc c Hold) as (_ & Hnodes & _ & Hfew' & _).
    rewrite <- Hnodes in Hfew'.
    intros min_nodes Hmin. injection Hmin as <-.
    rewrite Hfew' in Hskipped. unfold few_of in Hskipped. rewrite Hk in Hskipped.
    destruct (Z.ltb_spec (Community.nodes c) k); lia.
Qed.

End Refinement.

(** ** Example runs *)

(** A lone node of size 1, with a target size of 3, a minimal size of 4, a
    maximal size of 5 and at least 2 nodes in a community. *)
Definition lone_node : Config Z :=
  {| edge_weights := [[0]];
     node_sizes := Some [1];
     target_comm_size := 3;
     must_complete_cover := false;
     min_comm_size := Some 4;
     max_comm_size := Some 5;
     min_comm_nodes := Some 2;
     random_seed := 123456 |}.

(** A node of size 10 and a node of size 1, each a community of its own, with
    the same bounds. *)
Definition large_and_small : Config Z :=
  {| edge_weights := [[0; 1]; [1; 0]];
     node_sizes := Some [10; 1];
     target_comm_size := 3;
     must_complete_cover := false;
     min_comm_size := Some 4;
     max_comm_size := Some 5;
     min_comm_nodes := Some 2;
     random_seed := 123456 |}.

Definition zmean (values : list Z) : Z := np_sum values / Z.of_nat (length values).

(** Whatever the collaborators do, the communities of nodes whose sizes add
    up to less than the minimal size cannot all reach it. *)
Lemma small_total_is_out_of_bounds {F : Type} (fmean : list F -> F) (fzero : F)
    (partition_method :
       list (list F) -> option (list Z) -> Z -> option Z -> option Z -> option Z -> Z
       -> list Z)
    (bin_pack bin_fill : list Z -> Z -> list Z)
    (fuel : nat) (cfg : Config F) (membership0 : list Z) (min_size : Z) (st' : Improver) :
  partition_contract partition_method ->
  bins_contract bin_pack ->
  bins_contract bin_fill ->
  valid_input cfg membership0 ->
  min_comm_size cfg = Some min_size ->
  0 < total_weight (node_sizes cfg) (length membership0) < min_size ->
  run_improver fmean fzero partition_method bin_pack bin_fill fuel cfg membership0 = Ok st' ->
  ~ within_bounds cfg st'.
Proof.
  intros Hp Hbp Hbf Hvalid Hmin Htotal H Hbounds.
  pose proof (run_improver_consistent F fmean fzero partition_method bin_pack bin_fill
                Hp Hbp Hbf fuel cfg membership0 st' Hvalid H) as Hcons.
  pose proof (consistent_conserves cfg st' Hcons) as Hsum.
  assert (Hlen : length membership0 = length (edge_weights cfg)) by apply Hvalid.
  rewrite <- Hlen in Hsum.
  assert (Hall : forall cs : list Community.t,
             (forall c, In c cs -> min_size <= Community.size c) ->
             cs = [] \/ min_size <= sum_of Community.size cs).
  { induction cs as [|c cs IH]; intros Hcs; [left; reflexivity|right].
    rewrite sum_of_cons.
    destruct IH as [->|IH]; [intros c' Hc'; apply Hcs; right; exact Hc'| |].
    - rewrite sum_of_nil. specialize (Hcs c (or_introl eq_refl)). lia.
    - specialize (Hcs c (or_introl eq_refl)). lia. }
  destruct (Hall (communities st')) as [Hnil|Hge].
  - intros c Hc. destruct (Hbounds c Hc) as [Hsize _]. exact (Hsize min_size Hmin).
  - rewrite Hnil, sum_of_nil in Hsum. lia.
  - lia.
Qed.

(** C5 (counterexample): [pack] and [fill] leave the lone node in a community
    of size 1 with 1 node, below both minima; and they put the node of size 10
    and the node of size 1 into one community of size 11, above the maximal
    size, that is not monolithic. *)
Lemma pack_and_fill_leave_violations :
  (exists st',
      run_improver zmean 0 first_apart bin_pack bin_fill 10 lone_node [0] = Ok st'
      /\ map (fun c => (Community.nodes c, Community.size c, Community.monolithic c))
             (communities st') = [(1, 1, false)]
      /\ ~ within_bounds lone_node st')
  /\ (exists st',
         run_improver zmean 0 first_apart bin_pack bin_fill 10 large_and_small [0; 1]
         = Ok st'
         /\ map (fun c => (Community.nodes c, Community.size c, Community.monolithic c))
                (communities st') = [(2, 11, false)]
         /\ ~ within_bounds large_and_small st').
Proof.
  split.
  - eexists. split; [vm_compute; reflexivity|]. split; [reflexivity|].
    intros H. destruct (H _ (or_introl eq_refl)) as (Hsize & _).
    specialize (Hsize 4 eq_refl). simpl in Hsize. lia.
  - eexists. split; [vm_compute; reflexivity|]. split; [reflexivity|].
    intros H. destruct (H _ (or_introl eq_refl)) as (_ & _ & Hmono).
    specialize (Hmono 5 eq_refl). simpl in Hmono.
    assert (Hlt : 5 < 11) by lia. specialize (Hmono Hlt). discriminate.
Qed.

(** ** Marking the communities that could not be split *)

Lemma remove_trace (position : nat) (st st' : Improver) :
  remove position st = Ok st' -> trace st' = trace st.
Proof.
  unfold remove. destruct (nth_error (communities st) position) as [c|]; [|discriminate].
  destruct (0 <=? too_few st - Community.too_few c); simpl; [|discriminate].
  destruct (0 <=? too_small st - Community.too_small c); simpl; [|discriminate].
  destruct (0 <=? too_large st - Community.too_large c); simpl; [|discriminate].
  intros H. injection H as <-. reflexivity.
Qed.

Lemma add_loop_trace {F : Type} (cfg : Config F) (count : nat) :
  forall st, trace (add_loop cfg count st) = trace st.
Proof.
  induction count as [|count IH]; intros st; simpl; [reflexivity|].
  rewrite IH. reflexivity.
Qed.

Lemma add_trace {F : Type} (cfg : Config F) (count : option Z) (st st' : Improver) :
  add cfg count st = Ok st' -> trace st' = trace st.
Proof.
  unfold add. intros H.
  match type of H with
  | (do count <- ?a ; _) = _ => destruct a as [n| |]; simpl in H; try discriminate
  end.
  injection H as <-. apply add_loop_trace.
Qed.

Section Monolithic.

Variable F : Type.
Variable fmean : list F -> F.
Variable fzero : F.
Variable partition_method :
  list (list F) -> option (list Z) -> Z -> option Z -> option Z -> option Z -> Z -> list Z.
Variable cfg : Config F.

Hypothesis partition_method_ok : partition_contract partition_method.

Lemma transitions_extend_trace (st st' : Improver) :
  transitions F fmean fzero partition_method cfg st st' ->
  good F cfg st ->
  good F cfg st' /\ exists rest, trace st' = trace st ++ rest.
Proof.
  induction 1 as [st st' Hstep|st|st st1 st' _ IH1 _ IH2]; intros Hgood.
  - destruct (transition_facts F fmean fzero partition_method cfg partition_method_ok
                st st' Hgood Hstep) as [Hgood' Hcases].
    split; [assumption|].
    destruct Hcases as [[Ht _]|[(position & c & _ & _ & _ & Ht & _)|Hsplit]].
    + exists []. rewrite app_nil_r. assumption.
    + eexists. exact Ht.
    + destruct Hsplit as (position & c & count & kept & news & _ & _ & _ & _ & Ht & _).
      eexists. exact Ht.
  - split; [assumption|]. exists []. rewrite app_nil_r. reflexivity.
  - destruct (IH1 Hgood) as [Hgood1 [rest1 H1]].
    destruct (IH2 Hgood1) as [Hgood' [rest2 H2]].
    split; [assumption|]. exists (rest1 ++ rest2). rewrite H2, H1, <- app_assoc. reflexivity.
Qed.

(** C7 (amended): in every state that [improve] goes through, the record of
    a community is marked monolithic exactly when the partition method has
    been called to split that record (the community of that index) and has
    returned one community; the partition method is not called again for
    the same index after that; the loop of [split_large] passes over a too
    large community exactly when its record is marked, and calls the
    partition method for it otherwise; and when [split_large] returns, every
    community that is still too large is marked. *)
Theorem single_community_marks_monolithic (membership0 : list Z) (st0 st : Improver) :
  valid_input cfg membership0 ->
  init cfg membership0 = Ok st0 ->
  execution F fmean fzero partition_method cfg st0 st ->
  (forall c, In c (communities st) ->
             (In (SplitAttempt (Community.index c) 1) (trace st)
              <-> Community.monolithic c = true))
  /\ never_again (trace st)
  /\ (forall fuel position did_split c,
         nth_error (communities st) position = Some c ->
         Community.too_large c <> 0 ->
         (Community.monolithic c = true ->
          split_scan partition_method (S fuel) cfg position did_split st
          = split_scan partition_method fuel cfg (S position) did_split st)
         /\ (Community.monolithic c = false ->
             forall r,
               split_scan partition_method (S fuel) cfg position did_split st = Ok r ->
               exists count rest,
                 trace (snd r) = trace st ++ SplitAttempt (Community.index c) count :: rest))
  /\ (forall fuel did_split st',
         split_large partition_method fuel cfg st = Ok (did_split, st') ->
         Forall settled (communities st')).
Proof.
  intros Hvalid E0 Hexec.
  destruct (init_good cfg membership0 Hvalid) as (st0' & E0' & Hgood0 & _ & Ht0 & Hm0).
  rewrite E0 in E0'. injection E0' as <-.
  destruct (execution_marks F fmean fzero partition_method cfg partition_method_ok
              st0 st Hexec (conj Hgood0 (init_marks st0 Ht0 Hm0))) as [Hgood Hmarks].
  split; [|split; [|split]].
  - intros c Hc. split.
    + apply (marked_when_single st Hmarks c Hc).
    + apply (marked_only_when_single st Hmarks c Hc).
  - apply (trace_never_again st Hmarks).
  - intros fuel position did_split c Hnth Hlarge.
    assert (Hz : (Community.too_large c =? 0) = false) by (apply Z.eqb_neq; assumption).
    split.
    + intros Hmono. rewrite split_scan_unfold, Hnth, Hz, Hmono. reflexivity.
    + intros Hmono r H. rewrite split_scan_unfold, Hnth, Hz, Hmono in H. simpl in H.
      fold (split_membership F partition_method cfg c) in H.
      destruct (np_max (split_membership F partition_method cfg c)) as [top| |] eqn:Htop;
        simpl in H; try discriminate.
      destruct (top + 1 =? 1) eqn:Hone.
      * apply Z.eqb_eq in Hone.
        assert (Hstep : transition F fmean fzero partition_method cfg st
                          (set_communities
                             (replace_at position (Community.set_monolithic c)
                                (communities st))
                             (log (SplitAttempt (Community.index c) (top + 1)) st))).
        { apply transition_flag; auto. rewrite Hz, Hmono. reflexivity. }
        destruct (transition_facts F fmean fzero partition_method cfg partition_method_ok
                    _ _ Hgood Hstep) as [Hgood1 _].
        apply (split_scan_transitions F fmean fzero) in H.
        destruct (transitions_extend_trace _ _ H Hgood1) as [_ [rest Hrest]].
        exists (top + 1), rest. rewrite Hrest. simpl. rewrite <- app_assoc. reflexivity.
      * apply Z.eqb_neq in Hone.
        destruct (remove position (log (SplitAttempt (Community.index c) (top + 1)) st))
          as [st1| |] eqn:E1; simpl in H; try discriminate.
        match type of H with
        | (do st <- ?a ; _) = _ => destruct a as [st3| |] eqn:E3; simpl in H;
                                   try discriminate
        end.
        assert (Hstep : transition F fmean fzero partition_method cfg st st3).
        { eapply transition_split; eauto. rewrite Hz, Hmono. reflexivity. }
        destruct (transition_facts F fmean fzero partition_method cfg partition_method_ok
                    _ _ Hgood Hstep) as [Hgood3 Hcases].
        apply (split_scan_transitions F fmean fzero) in H.
        destruct (transitions_extend_trace _ _ H Hgood3) as [_ [rest Hrest]].
        assert (Ht3 : trace st3 = trace st ++ [SplitAttempt (Community.index c) (top + 1)]).
        { apply remove_trace in E1. apply add_trace in E3. simpl in E1, E3. congruence. }
        exists (top + 1), rest. rewrite Hrest, Ht3, <- app_assoc. reflexivity.
  - intros fuel did_split st' H.
    apply (split_scan_settles F partition_method cfg partition_method_ok fuel 0 false st
             (did_split, st') Hgood); [constructor | exact H].
Qed.

End Monolithic.

Lemma valid_lone_node : valid_input lone_node [0].
Proof.
  split; [discriminate|]. split; [|split; reflexivity].
  intros g [<-|[]]. split; [lia|]. intros h Hh. lia.
Qed.

Lemma valid_large_and_small : valid_input large_and_small [0; 1].
Proof.
  split; [discriminate|]. split; [|split; reflexivity].
  intros g [<-|[<-|[]]]; (split; [lia|]); intros h Hh; simpl.
  - lia.
  - left. lia.
Qed.

Lemma single_community_marks_monolithic_witness :
  exists st0 st,
    valid_input large_and_small [0; 1]
    /\ init large_and_small [0; 1] = Ok st0
    /\ improve zmean 0 first_apart 10 large_and_small st0 = Ok st
    /\ trace st = [Penalty 2 8; SplitAttempt 2 1]
    /\ map (fun c => (Community.index c, Community.monolithic c)) (communities st)
       = [(2, true); (3, false)]
    /\ (forall c, In c (communities st) ->
                  (In (SplitAttempt (Community.index c) 1) (trace st)
                   <-> Community.monolithic c = true))
    /\ never_again (trace st).
Proof.
  let v := eval vm_compute in (init large_and_small [0; 1]) in
  match v with Ok ?s => pose (st0 := s) end.
  let v := eval vm_compute in (improve zmean 0 first_apart 10 large_and_small st0) in
  match v with Ok ?s => pose (st := s) end.
  exists st0, st.
  split; [exact valid_large_and_small|].
  split; [reflexivity|].
  split; [reflexivity|].
  split; [reflexivity|].
  split; [reflexivity|].
  pose proof (single_community_marks_monolithic Z zmean 0 first_apart large_and_small
                first_apart_contract [0; 1] st0 st valid_large_and_small eq_refl
                (improve_execution Z zmean 0 first_apart large_and_small 10 st0 st eq_refl))
    as H.
  split; [exact (proj1 H) | exact (proj1 (proj2 H))].
Defined.

(** ** The bounds after [pack] and [fill] *)

Section Bounds.

Variable F : Type.
Variable fmean : list F -> F.
Variable fzero : F.
Variable partition_method :
  list (list F) -> option (list Z) -> Z -> option Z -> option Z -> option Z -> Z -> list Z.
Variable bin_pack : list Z -> Z -> list Z.
Variable bin_fill : list Z -> Z -> list Z.

Hypothesis partition_method_ok : partition_contract partition_method.
Hypothesis bin_pack_ok : bins_contract bin_pack.
Hypothesis bin_fill_ok : bins_contract bin_fill.

(** C5 (amended): when [compute_candidate_metacells] has constructed the
    [Improver] and called [improve], [pack] (when there is a minimal size)
    and [fill] (when there is a minimal number of nodes), every community
    that was in the list before [pack] and is still there has at least the
    minimal size and the minimal number of nodes, where these are configured,
    and every community that was in the list before [fill] and is still there
    has at least the minimal number of nodes.  Nothing is said of the
    communities that [pack] and [fill] make, nor of the maximal size. *)
Theorem kept_communities_satisfy_minimum (fuel : nat) (cfg : Config F)
    (membership0 : list Z) (st0 st1 st2 st3 : Improver) :
  valid_input cfg membership0 ->
  init cfg membership0 = Ok st0 ->
  improve fmean fzero partition_method fuel cfg st0 = Ok st1 ->
  (if is_some (min_comm_size cfg) then pack bin_pack fuel cfg st1 else Ok st1) = Ok st2 ->
  (if is_some (min_comm_nodes cfg) then fill bin_fill fuel cfg st2 else Ok st2) = Ok st3 ->
  forall c,
    In c (communities st3) ->
    (Community.index c < next_community_index st1 ->
     In c (communities st1)
     /\ (forall min_size, min_comm_size cfg = Some min_size -> min_size <= Community.size c)
     /\ (forall min_nodes, min_comm_nodes cfg = Some min_nodes ->
                           min_nodes <= Community.nodes c))
    /\ (Community.index c < next_community_index st2 ->
        In c (communities st2)
        /\ (forall min_nodes, min_comm_nodes cfg = Some min_nodes ->
                              min_nodes <= Community.nodes c)).
Proof.
  intros Hvalid E0 E1 E2 E3 c Hc.
  destruct (init_good cfg membership0 Hvalid) as (st0' & E0' & Hgood0 & _).
  rewrite E0 in E0'. injection E0' as <-.
  pose proof (improve_good F fmean fzero partition_method partition_method_ok
                fuel cfg st0 st1 Hgood0 E1) as [Hcons1 _].
  assert (Hcons2 : consistent cfg st2).
  { revert E2. destruct (is_some (min_comm_size cfg)); intros E2.
    - exact (pack_consistent F bin_pack bin_pack_ok fuel cfg st1 st2 Hcons1 E2).
    - injection E2 as <-. assumption. }
  assert (Hnext : next_community_index st1 <= next_community_index st2).
  { revert E2. destruct (is_some (min_comm_size cfg)); intros E2.
    - destruct (pack_spec F bin_pack cfg bin_pack_ok fuel st1 Hcons1) as [_ Hspec].
      destruct (Hspec st2 E2) as (_ & _ & kept & news & (_ & _ & _ & Hle) & _). exact Hle.
    - injection E2 as <-. lia. }
  (* the communities that are left by the last step *)
  assert (Hlast : Community.index c < next_community_index st2 ->
                  In c (communities st2)
                  /\ (forall min_nodes, min_comm_nodes cfg = Some min_nodes ->
                                        min_nodes <= Community.nodes c)).
  { intros Hidx. destruct (min_comm_nodes cfg) as [k|] eqn:Hk; simpl in E3.
    - destruct (pack_and_fill_keep F bin_pack bin_fill bin_pack_ok bin_fill_ok cfg st2 Hcons2)
        as [_ Hfill].
      destruct (Hfill fuel st3 E3 c Hc Hidx) as [Hin Hnodes].
      split; [assumption|]. rewrite Hk in Hnodes. exact Hnodes.
    - injection E3 as <-. split; [assumption | discriminate]. }
  split; [|exact Hlast].
  intros Hidx. destruct Hlast as [Hin2 Hnodes]; [lia|].
  destruct (min_comm_size cfg) as [m|] eqn:Hm; simpl in E2.
  - destruct (pack_and_fill_keep F bin_pack bin_fill bin_pack_ok bin_fill_ok cfg st1 Hcons1)
      as [Hpack _].
    destruct (Hpack fuel st2 E2 c Hin2 Hidx) as (Hin1 & Hsize & Hnodes').
    rewrite Hm in Hsize. auto.
  - injection E2 as <-. split; [assumption|]. split; [discriminate | assumption].
Qed.

End Bounds.

(** A node of size 4 and two nodes of size 1, each a community of its own,
    with a target size of 3, a minimal size of 4, a maximal size of 5 and at
    least 1 node in a community. *)
Definition one_fits : Config Z :=
  {| edge_weights := [[0; 1; 1]; [1; 0; 1]; [1; 1; 0]];
     node_sizes := Some [4; 1; 1];
     target_comm_size := 3;
     must_complete_cover := false;
     min_comm_size := Some 4;
     max_comm_size := Some 5;
     min_comm_nodes := Some 1;
     random_seed := 123456 |}.

Lemma valid_one_fits : valid_input one_fits [0; 1; 2].
Proof.
  split; [discriminate|]. split; [|split; reflexivity].
  intros g [<-|[<-|[<-|[]]]]; (split; [lia|]); intros h Hh; simpl.
  - lia.
  - left. lia.
  - assert (Hcases : h = 0 \/ h = 1) by lia. destruct Hcases as [->| ->]; auto.
Qed.

Lemma kept_communities_satisfy_minimum_witness :
  exists st0 st1 st2 st3,
    valid_input one_fits [0; 1; 2]
    /\ init one_fits [0; 1; 2] = Ok st0
    /\ improve zmean 0 first_apart 10 one_fits st0 = Ok st1
    /\ pack bin_pack 10 one_fits st1 = Ok st2
    /\ fill bin_fill 10 one_fits st2 = Ok st3
    /\ next_community_index st1 = 5
    /\ map (fun c => (Community.index c, Community.nodes c, Community.size c))
         (communities st3) = [(0, 1, 4); (5, 2, 2)]
    /\ forall c,
        In c (communities st3) ->
        (Community.index c < next_community_index st1 ->
         In c (communities st1)
         /\ (forall min_size, min_comm_size one_fits = Some min_size ->
                              min_size <= Community.size c)
         /\ (forall min_nodes, min_comm_nodes one_fits = Some min_nodes ->
                               min_nodes <= Community.nodes c))
        /\ (Community.index c < next_community_index st2 ->
            In c (communities st2)
            /\ (forall min_nodes, min_comm_nodes one_fits = Some min_nodes ->
                                  min_nodes <= Community.nodes c)).
Proof.
  let v := eval vm_compute in (init one_fits [0; 1; 2]) in
  match v with Ok ?s => pose (st0 := s) end.
  let v := eval vm_compute in (improve zmean 0 first_apart 10 one_fits st0) in
  match v with Ok ?s => pose (st1 := s) end.
  let v := eval vm_compute in (pack bin_pack 10 one_fits st1) in
  match v with Ok ?s => pose (st2 := s) end.
  let v := eval vm_compute in (fill bin_fill 10 one_fits st2) in
  match v with Ok ?s => pose (st3 := s) end.
  exists st0, st1, st2, st3.
  split; [exact valid_one_fits|].
  do 6 (split; [reflexivity|]).
  exact (kept_communities_satisfy_minimum Z zmean 0 first_apart bin_pack bin_fill
           first_apart_contract bin_pack_contract bin_fill_contract
           10 one_fits [0; 1; 2] st0 st1 st2 st3
           valid_one_fits eq_refl eq_refl eq_refl eq_refl).
Defined.

Lemma sizes_are_conserved_witness :
  exists st',
    valid_input large_and_small [0; 1]
    /\ run_improver zmean 0 first_apart bin_pack bin_fill 10 large_and_small [0; 1] = Ok st'
    /\ map Community.size (communities st') = [11]
    /\ sum_of Community.size (communities st')
       = total_weight (node_sizes large_and_small) (length [0; 1]).
Proof.
  let v := eval vm_compute in
             (run_improver zmean 0 first_apart bin_pack bin_fill 10 large_and_small [0; 1]) in
  match v with Ok ?s => pose (st' := s) end.
  exists st'.
  split; [exact valid_large_and_small|].
  assert (E : run_improver zmean 0 first_apart bin_pack bin_fill 10 large_and_small [0; 1]
              = Ok st') by (vm_compute; reflexivity).
  split; [exact E|]. split; [reflexivity|].
  pose proof (sizes_are_conserved Z zmean 0 first_apart bin_pack bin_fill
                first_apart_contract bin_pack_contract bin_fill_contract
                large_and_small [0; 1] valid_large_and_small) as H.
  cbv zeta in H. destruct H as (_ & _ & H).
  exact (H 10%nat st' E).
Defined.

(** ** Merging never raises the deficits *)

Lemma sum_of_scaled {A : Type} (f : A -> Z) (k : Z) (l : list A) :
  sum_of (fun x => k * f x) l = k * sum_of f l.
Proof.
  induction l as [|x l IH]; [rewrite !sum_of_nil; lia|].
  rewrite !sum_of_cons, IH. lia.
Qed.

(** The weight of the nodes that satisfy [p], when every node that satisfies
    [p] satisfies exactly one of [preds], and no other node satisfies any. *)
Lemma weight_union (preds : list (Z -> bool)) (p : Z -> bool) (membership : list Z) :
  (forall x, In x membership ->
             (if p x then 1 else 0)
             = sum_of (fun q : Z -> bool => if q x then 1 else 0) preds) ->
  forall sizes,
    match sizes with
    | Some s => length s = length membership
    | None => True
    end ->
    weight sizes (map p membership)
    = sum_of (fun q : Z -> bool => weight sizes (map q membership)) preds.
Proof.
  induction membership as [|x membership IH]; intros Hp sizes Hlen.
  - destruct sizes as [s|]; simpl.
    + destruct s; [|discriminate]. simpl.
      clear. induction preds as [|q preds IH]; [reflexivity|].
      rewrite sum_of_cons, <- IH. reflexivity.
    + clear. induction preds as [|q preds IH]; [reflexivity|].
      rewrite sum_of_cons, <- IH. reflexivity.
  - assert (Hx := Hp x (or_introl eq_refl)).
    assert (Hp' : forall y, In y membership ->
                            (if p y then 1 else 0)
                            = sum_of (fun q : Z -> bool => if q y then 1 else 0) preds)
      by (intros y Hy; apply Hp; right; exact Hy).
    destruct sizes as [s|].
    + destruct s as [|a s]; [discriminate|]. simpl in Hlen.
      specialize (IH Hp' (Some s)). simpl in IH.
      assert (E : forall q : Z -> bool,
                 weight (Some (a :: s)) (map q (x :: membership))
                 = a * (if q x then 1 else 0) + weight (Some s) (map q membership)).
      { intros q. simpl. destruct (q x); simpl; lia. }
      rewrite E. rewrite (sum_of_ext _ _ preds (fun q _ => E q)).
      rewrite sum_of_plus, sum_of_scaled, <- Hx. simpl. rewrite IH by lia. reflexivity.
    + specialize (IH Hp' None I). simpl in IH.
      assert (E : forall q : Z -> bool,
                 weight None (map q (x :: membership))
                 = (if q x then 1 else 0) + weight None (map q membership)).
      { intros q. simpl. destruct (q x); cbn [count_true]; lia. }
      rewrite E. rewrite (sum_of_ext _ _ preds (fun q _ => E q)).
      rewrite sum_of_plus, <- Hx. simpl. rewrite IH. reflexivity.
Qed.

(** A deficit of a sum is at most the sum of the deficits. *)
Lemma deficit_of_sum {A : Type} (g : Z -> Z) (amount : A -> Z) (l : list A) :
  (forall a b, a <= b -> g b <= g a) ->
  (forall a, 0 <= g a) ->
  (forall x, In x l -> 0 <= amount x) ->
  l <> [] ->
  g (sum_of amount l) <= sum_of (fun x => g (amount x)) l.
Proof.
  intros Hanti Hpos Hamount Hne. destruct l as [|x l]; [congruence|].
  rewrite !sum_of_cons.
  assert (0 <= sum_of amount l)
    by (apply sum_of_nonneg; intros y Hy; apply Hamount; right; exact Hy).
  assert (0 <= sum_of (fun x => g (amount x)) l)
    by (apply sum_of_nonneg; intros y Hy; apply Hpos).
  assert (g (amount x + sum_of amount l) <= g (amount x)) by (apply Hanti; lia).
  lia.
Qed.

(** The groups of distinct keys hold each element at most once. *)
Lemma sum_of_groups_le {A : Type} (h : A -> Z) (key : A -> Z) (keys : list Z) (l : list A) :
  (forall x, 0 <= h x) ->
  NoDup keys ->
  sum_of (fun k => sum_of h (filter (fun x => key x =? k) l)) keys <= sum_of h l.
Proof.
  intros Hpos Hnd. induction l as [|x l IH].
  - cbn [filter]. rewrite sum_of_nil.
    clear. induction keys as [|k keys IH]; unfold sum_of in *; simpl in *; lia.
  - rewrite sum_of_cons.
    assert (E : forall k,
               sum_of h (filter (fun y => key y =? k) (x :: l))
               = (if key x =? k then h x else 0)
                 + sum_of h (filter (fun y => key y =? k) l)).
    { intros k. simpl. destruct (key x =? k); [rewrite sum_of_cons|]; lia. }
    rewrite (sum_of_ext _ _ keys (fun k _ => E k)).
    rewrite sum_of_plus, sum_of_indicator by assumption.
    specialize (Hpos x). destruct (in_dec Z.eq_dec (key x) keys); lia.
Qed.

(** Grouping elements under distinct keys that all have an element does not
    raise the total deficit. *)
Lemma grouped_deficit_le {A : Type} (g : Z -> Z) (amount : A -> Z) (key : A -> Z)
    (keys : list Z) (l : list A) :
  (forall a b, a <= b -> g b <= g a) ->
  (forall a, 0 <= g a) ->
  (forall x, In x l -> 0 <= amount x) ->
  NoDup keys ->
  (forall k, In k keys -> exists x, In x l /\ key x = k) ->
  sum_of (fun k => g (sum_of amount (filter (fun x => key x =? k) l))) keys
  <= sum_of (fun x => g (amount x)) l.
Proof.
  intros Hanti Hpos Hamount Hnd Hkeys.
  eapply Z.le_trans; [|apply (sum_of_groups_le (fun x => g (amount x)) key keys l);
                       [intros; apply Hpos | assumption]].
  apply sum_of_le. intros k Hk.
  apply deficit_of_sum; try assumption.
  - intros x Hx. apply filter_In in Hx. apply Hamount. tauto.
  - destruct (Hkeys k Hk) as [x [Hx Hkx]].
    intros Hnil.
    assert (Hin : In x (filter (fun y => key y =? k) l))
      by (apply filter_In; split; [assumption | apply Z.eqb_eq; assumption]).
    rewrite Hnil in Hin. contradiction.
Qed.

(** No node has a negative size. *)
Definition nonneg_sizes {F : Type} (cfg : Config F) : Prop :=
  match node_sizes cfg with
  | Some sizes => Forall (fun s => 0 <= s) sizes
  | None => True
  end.

Lemma weight_nonneg (sizes : option (list Z)) (mask : list bool) :
  match sizes with
  | Some s => Forall (fun a => 0 <= a) s
  | None => True
  end ->
  0 <= weight sizes mask.
Proof.
  destruct sizes as [s|]; simpl; [|intros _; apply count_true_nonneg].
  revert mask; induction s as [|a s IH]; intros mask H; [reflexivity|].
  inversion H as [|? ? Ha Hs]; subst.
  destruct mask as [|[] mask]; simpl; [lia| |auto].
  specialize (IH mask Hs). lia.
Qed.

(** The nodes that [merge_few_or_small] labels [i] are the nodes of the merged
    communities whose new label is [i]. *)
Lemma merged_label_indicator (pairs : list (Community.t * Z)) (next i x : Z) :
  NoDup (map (fun cp : Community.t * Z => Community.index (fst cp)) pairs) ->
  x < next <= i ->
  (if merged_label pairs next (fun y => y) x =? i then 1 else 0)
  = sum_of (fun q : Z -> bool => if q x then 1 else 0)
      (map (fun (cp : Community.t * Z) (y : Z) => y =? Community.index (fst cp))
         (filter (fun cp : Community.t * Z => snd cp + next =? i) pairs)).
Proof.
  intros Hnd Hx.
  rewrite sum_of_map.
  rewrite <- (sum_of_map (fun k => if x =? k then 1 else 0)
                (fun cp : Community.t * Z => Community.index (fst cp))).
  rewrite sum_of_indicator by (apply NoDup_map_filter; assumption).
  destruct (in_dec Z.eq_dec x _) as [Hin|Hnotin].
  - apply in_map_iff in Hin. destruct Hin as [[c v] [E Hin]]. simpl in E.
    apply filter_In in Hin. destruct Hin as [Hin Hv]. simpl in Hv. apply Z.eqb_eq in Hv.
    rewrite <- E, (merged_label_found next pairs _ c v Hnd Hin), Hv, Z.eqb_refl.
    reflexivity.
  - destruct (Z.eqb_spec (merged_label pairs next (fun y => y) x) i) as [E|]; [|reflexivity].
    exfalso. apply Hnotin.
    destruct (in_dec Z.eq_dec x
                (map (fun cp : Community.t * Z => Community.index (fst cp)) pairs))
      as [Hin|Hout].
    + apply in_map_iff in Hin. destruct Hin as [[c v] [Ex Hin]]. simpl in Ex.
      apply in_map_iff. exists (c, v). split; [assumption|].
      apply filter_In. split; [assumption|]. simpl. apply Z.eqb_eq.
      rewrite <- Ex, (merged_label_found next pairs _ c v Hnd Hin) in E. assumption.
    + rewrite merged_label_other in E by assumption. lia.
Qed.

Section MergeMonotone.

Variable F : Type.
Variable fmean : list F -> F.
Variable fzero : F.
Variable partition_method :
  list (list F) -> option (list Z) -> Z -> option Z -> option Z -> option Z -> Z -> list Z.
Variable cfg : Config F.

Hypothesis partition_method_ok : partition_contract partition_method.
Hypothesis sizes_ok : nonneg_sizes cfg.

Lemma few_of_antitone (a b : Z) : a <= b -> few_of cfg b <= few_of cfg a.
Proof.
  intros H. unfold few_of. destruct (min_comm_nodes cfg) as [k|]; [|lia].
  destruct (Z.ltb_spec a k); destruct (Z.ltb_spec b k); lia.
Qed.

Lemma small_of_antitone (a b : Z) : a <= b -> small_of cfg b <= small_of cfg a.
Proof.
  intros H. unfold small_of. destruct (min_comm_size cfg) as [k|]; [|lia].
  destruct (Z.ltb_spec a k); destruct (Z.ltb_spec b k); lia.
Qed.

(** The deficit of the communities that a merge makes, for a deficit [g] of
    the weight of the nodes under [sizes]. *)
Lemma merged_deficit_le (g : Z -> Z) (sizes : option (list Z)) (m : list Z)
    (M : list Community.t) (P : list Z) (next top : Z) :
  (forall a b, a <= b -> g b <= g a) ->
  (forall a, 0 <= g a) ->
  match sizes with
  | Some s => length s = length m /\ Forall (fun a => 0 <= a) s
  | None => True
  end ->
  NoDup (map Community.index M) ->
  length P = length M ->
  (forall j, 0 <= j <= top -> In j P) ->
  0 <= top ->
  Forall (fun x => x < next) m ->
  sum_of (fun i =>
            g (weight sizes
                 (map (fun x => x =? i)
                    (map (merged_label (combine M P) next (fun y => y)) m))))
    (fresh_indices next (Z.to_nat (top + 1)))
  <= sum_of (fun c => g (weight sizes (map (fun x => x =? Community.index c) m))) M.
Proof.
  intros Hanti Hpos Hsizes Hnd Hlen Hall Htop Hm.
  set (pairs := combine M P).
  set (amount := fun cp : Community.t * Z =>
                   weight sizes (map (fun x => x =? Community.index (fst cp)) m)).
  set (key := fun cp : Community.t * Z => snd cp + next).
  assert (Hndp : NoDup (map (fun cp : Community.t * Z => Community.index (fst cp)) pairs)).
  { rewrite <- (map_map fst Community.index). unfold pairs.
    rewrite map_fst_combine by lia. assumption. }
  assert (Hsizes' : match sizes with Some s => length s = length m | None => True end)
    by (destruct sizes; tauto).
  assert (Hsizes'' : match sizes with
                     | Some s => Forall (fun a => 0 <= a) s
                     | None => True
                     end)
    by (destruct sizes; tauto).
  assert (E : forall i, In i (fresh_indices next (Z.to_nat (top + 1))) ->
                        g (weight sizes
                             (map (fun x => x =? i)
                                (map (merged_label pairs next (fun y => y)) m)))
                        = g (sum_of amount (filter (fun cp => key cp =? i) pairs))).
  { intros i Hi. apply in_fresh_indices in Hi. f_equal.
    rewrite map_map.
    rewrite (weight_union
               (map (fun (cp : Community.t * Z) (y : Z) => y =? Community.index (fst cp))
                  (filter (fun cp => key cp =? i) pairs))
               (fun x => merged_label pairs next (fun y => y) x =? i) m).
    - rewrite sum_of_map. reflexivity.
    - intros x Hx. apply merged_label_indicator; [assumption|].
      rewrite Forall_forall in Hm. specialize (Hm x Hx). lia.
    - assumption. }
  rewrite (sum_of_ext _ _ _ E).
  eapply Z.le_trans.
  - apply (grouped_deficit_le g amount key); try assumption.
    + intros cp _. apply weight_nonneg. assumption.
    + apply NoDup_fresh_indices.
    + intros i Hi. apply in_fresh_indices in Hi.
      destruct (in_combine_right M P (i - next)) as [c Hc]; [lia | apply Hall; lia|].
      exists (c, i - next). split; [assumption|]. unfold key. simpl. lia.
  - apply Z.eq_le_incl. unfold amount.
    rewrite <- (sum_of_map (fun c => g (weight sizes
                                          (map (fun x => x =? Community.index c) m)))
                  fst pairs).
    unfold pairs. rewrite map_fst_combine by lia. reflexivity.
Qed.

(** [merge_few_or_small] raises neither [too_few] nor [too_small]. *)
Lemma merge_few_or_small_monotone (st : Improver) (did_improve : bool) (st' : Improver) :
  good F cfg st ->
  merge_few_or_small fmean fzero partition_method cfg st = Ok (did_improve, st') ->
  too_few st' <= too_few st /\ too_small st' <= too_small st.
Proof.
  intros [Hcons Hinh] H.
  destruct (Nat.lt_ge_cases (length (filter violating (communities st))) 2) as [Hlt|Hge].
  { rewrite (merge_few_or_small_nothing F fmean fzero partition_method cfg st Hlt) in H.
    injection H as _ <-. lia. }
  destruct (merge_few_or_small_spec F fmean fzero partition_method cfg
              partition_method_ok st Hcons Hinh Hge)
    as (st1 & kept & top & Htop & Htop0 & HlenP & Hdense & E & Hcons' & _ & Hm' & Hc'
        & Hperm & _).
  rewrite E in H. injection H as _ <-.
  pose proof Hcons as [[Hshape Hsizes Hnext Hindex Hdesc Hnd Hcover Hf Hs Hl] Hpos].
  pose proof Hcons' as [[_ _ _ _ _ _ _ Hf' Hs' _] _].
  set (M := filter violating (communities st)) in *.
  set (P := merged_membership F fmean fzero partition_method cfg st) in *.
  destruct (dense_max P top Hdense Htop) as [_ Hall].
  assert (HndM : NoDup (map Community.index M))
    by (apply NoDup_map_filter; assumption).
  assert (Hbelow : Forall (fun x => x < next_community_index st) (membership st)).
  { rewrite Forall_forall in *. intros x Hx.
    destruct (Hcover x Hx) as [Hin|Hout]; [|lia].
    apply in_map_iff in Hin. destruct Hin as [c [<- Hc]]. apply (Hindex c Hc). }
  assert (HdescM : forall c, In c M -> describes cfg (membership st) c).
  { intros c Hc. unfold M in Hc. apply filter_In in Hc.
    rewrite Forall_forall in Hdesc. apply Hdesc. tauto. }
  rewrite Hf', Hs', Hf, Hs, Hc'.
  rewrite (sum_of_perm Community.too_few _ _ Hperm).
  rewrite (sum_of_perm Community.too_small _ _ Hperm).
  rewrite !sum_of_app, !sum_of_map.
  rewrite (sum_of_perm Community.too_few (rev M) M)
    by (apply Permutation_sym, Permutation_rev).
  rewrite (sum_of_perm Community.too_small (rev M) M)
    by (apply Permutation_sym, Permutation_rev).
  split; apply Z.add_le_mono_l.
  - rewrite (sum_of_ext Community.too_few
               (fun c => few_of cfg
                           (weight None
                              (map (fun x => x =? Community.index c) (membership st)))) M).
    2:{ intros c Hc. destruct (HdescM c Hc) as (_ & _ & _ & Hfew & _). exact Hfew. }
    rewrite Hm'.
    apply (merged_deficit_le (few_of cfg) None (membership st) M P
             (next_community_index st) top); auto using few_of_antitone, few_of_nonneg.
  - rewrite (sum_of_ext Community.too_small
               (fun c => small_of cfg
                           (weight (node_sizes cfg)
                              (map (fun x => x =? Community.index c) (membership st)))) M).
    2:{ intros c Hc. destruct (HdescM c Hc) as (_ & _ & _ & _ & Hsmall & _). exact Hsmall. }
    rewrite Hm'.
    apply (merged_deficit_le (small_of cfg) (node_sizes cfg) (membership st) M P
             (next_community_index st) top);
      auto using small_of_antitone, small_of_nonneg.
    unfold nonneg_sizes in sizes_ok.
    destruct (node_sizes cfg) as [s|]; [|exact I]. split; [lia | assumption].
Qed.

End MergeMonotone.

(** ** What [merge_few_or_small] reports *)

Section MergeReport.

Variable F : Type.
Variable fmean : list F -> F.
Variable fzero : F.
Variable partition_method :
  list (list F) -> option (list Z) -> Z -> option Z -> option Z -> option Z -> Z -> list Z.
Variable cfg : Config F.

Hypothesis partition_method_ok : partition_contract partition_method.

(** C4: in every state that [improve] goes through, when no node has a
    negative size, [merge_few_or_small] returns; it returns [True] exactly
    when neither [too_few] nor [too_small] is larger than before and one of
    them is smaller, which is what the comparison of the pairs in the code
    amounts to; and with fewer than two communities that have too few nodes
    or are too small it returns [False] and leaves the state as it is. *)
Theorem merge_reports_decrease (membership0 : list Z) (st0 st : Improver) :
  valid_input cfg membership0 ->
  nonneg_sizes cfg ->
  init cfg membership0 = Ok st0 ->
  execution F fmean fzero partition_method cfg st0 st ->
  exists did_improve st',
    merge_few_or_small fmean fzero partition_method cfg st = Ok (did_improve, st')
    /\ did_improve = tuple_ltb (too_few st', too_small st') (too_few st, too_small st)
    /\ (did_improve = true
        <-> too_few st' <= too_few st
            /\ too_small st' <= too_small st
            /\ (too_few st' < too_few st \/ too_small st' < too_small st))
    /\ ((length (filter violating (communities st)) < 2)%nat ->
        did_improve = false /\ st' = st).
Proof.
  intros Hvalid Hsizes E0 Hexec.
  destruct (init_good cfg membership0 Hvalid) as (st0' & E0' & Hgood0 & _).
  rewrite E0 in E0'. injection E0' as <-.
  pose proof (execution_good F fmean fzero partition_method cfg partition_method_ok
                st0 st Hexec Hgood0) as Hgood.
  destruct (merge_few_or_small_returns F fmean fzero partition_method cfg
              partition_method_ok st Hgood) as (st' & E & _).
  destruct (merge_few_or_small_monotone F fmean fzero partition_method cfg
              partition_method_ok Hsizes st _ st' Hgood E) as [Hfew Hsmall].
  exists (tuple_ltb (too_few st', too_small st') (too_few st, too_small st)), st'.
  split; [assumption|]. split; [reflexivity|]. split.
  - rewrite tuple_ltb_spec. simpl. lia.
  - intros Hlt.
    rewrite (merge_few_or_small_nothing F fmean fzero partition_method cfg st Hlt) in E.
    injection E as Hb <-. split; [|reflexivity]. apply tuple_ltb_irrefl.
Qed.

End MergeReport.

(** Three nodes of sizes 1, 1 and 3, each a community of its own, with a
    minimal size of 4. *)
Definition three_small : Config Z :=
  {| edge_weights := [[0; 1; 1]; [1; 0; 1]; [1; 1; 0]];
     node_sizes := Some [1; 1; 3];
     target_comm_size := 3;
     must_complete_cover := false;
     min_comm_size := Some 4;
     max_comm_size := Some 5;
     min_comm_nodes := None;
     random_seed := 123456 |}.

Lemma valid_three_small : valid_input three_small [0; 1; 2].
Proof.
  split; [discriminate|]. split; [|split; reflexivity].
  intros g [<-|[<-|[<-|[]]]]; (split; [lia|]); intros h Hh; simpl.
  - lia.
  - left. lia.
  - assert (Hcases : h = 0 \/ h = 1) by lia. destruct Hcases as [->| ->]; auto.
Qed.

Lemma nonneg_three_small : nonneg_sizes three_small.
Proof. unfold nonneg_sizes. simpl. repeat constructor; lia. Qed.

Lemma merge_reports_decrease_witness :
  exists st0,
    valid_input three_small [0; 1; 2]
    /\ nonneg_sizes three_small
    /\ init three_small [0; 1; 2] = Ok st0
    /\ exists did_improve st',
        merge_few_or_small zmean 0 first_apart three_small st0 = Ok (did_improve, st')
        /\ did_improve = true
        /\ (too_few st0, too_small st0) = (0, 7)
        /\ (too_few st', too_small st') = (0, 3)
        /\ (did_improve = true
            <-> too_few st' <= too_few st0
                /\ too_small st' <= too_small st0
                /\ (too_few st' < too_few st0 \/ too_small st' < too_small st0)).
Proof.
  let v := eval vm_compute in (init three_small [0; 1; 2]) in
  match v with Ok ?s => pose (st0 := s) end.
  exists st0.
  split; [exact valid_three_small|].
  split; [exact nonneg_three_small|].
  split; [reflexivity|].
  destruct (merge_reports_decrease Z zmean 0 first_apart three_small first_apart_contract
              [0; 1; 2] st0 st0 valid_three_small nonneg_three_small eq_refl
              (rt_refl _ _ st0))
    as (did_improve & st' & E & _ & Hiff & _).
  exists did_improve, st'.
  split; [exact E|].
  assert (E' := E). vm_compute in E'. injection E' as Hb Hst.
  split; [symmetry; exact Hb|].
  split; [reflexivity|].
  split; [rewrite <- Hst; reflexivity|].
  exact Hiff.
Defined.

(** ** The penalties of [improve] *)

(** The values that the loop of [improve] assigns to [penalty], in the order
    of the assignments. *)
Fixpoint penalties (t : list Event) : list (Z * Z) :=
  match t with
  | [] => []
  | Penalty a b :: rest => (a, b) :: penalties rest
  | SplitAttempt _ _ :: rest => penalties rest
  end.

(** Every pair is less than the pair before it, as Python compares tuples. *)
Fixpoint descends (l : list (Z * Z)) : bool :=
  match l with
  | [] => true
  | p :: rest =>
      match rest with
      | [] => true
      | q :: _ => tuple_ltb q p && descends rest
      end
  end.

Lemma penalties_app (t1 t2 : list Event) :
  penalties (t1 ++ t2) = penalties t1 ++ penalties t2.
Proof.
  induction t1 as [|[i count|a b] t1 IH]; simpl; [reflexivity|assumption|].
  rewrite IH. reflexivity.
Qed.

Lemma descends_snoc (p q : Z * Z) (l : list (Z * Z)) :
  descends l = true ->
  tuple_ltb q (last l p) = true ->
  descends (l ++ [q]) = true.
Proof.
  induction l as [|x l IH]; intros Hl Hq; [reflexivity|].
  destruct l as [|y l].
  - simpl in *. rewrite Hq. reflexivity.
  - change (descends (x :: y :: l)) with (tuple_ltb y x && descends (y :: l)) in Hl.
    apply andb_true_iff in Hl. destruct Hl as [Hyx Hl].
    change ((x :: y :: l) ++ [q]) with (x :: y :: (l ++ [q])).
    change (descends (x :: y :: l ++ [q]))
      with (tuple_ltb y x && descends ((y :: l) ++ [q])).
    rewrite Hyx. simpl andb. apply IH; assumption.
Qed.

Section Penalties.

Variable F : Type.
Variable fmean : list F -> F.
Variable fzero : F.
Variable partition_method :
  list (list F) -> option (list Z) -> Z -> option Z -> option Z -> option Z -> Z -> list Z.
Variable cfg : Config F.

Hypothesis partition_method_ok : partition_contract partition_method.

(** Merging and splitting assign nothing to [penalty]. *)
Lemma transitions_penalties (st st' : Improver) :
  transitions F fmean fzero partition_method cfg st st' ->
  good F cfg st ->
  good F cfg st' /\ penalties (trace st') = penalties (trace st).
Proof.
  induction 1 as [st st' Hstep|st|st st1 st' _ IH1 _ IH2]; intros Hgood.
  - destruct (transition_facts F fmean fzero partition_method cfg partition_method_ok
                st st' Hgood Hstep) as [Hgood' Hcases].
    split; [assumption|].
    destruct Hcases as [[Ht _]|[(position & c & _ & _ & _ & Ht & _)|Hsplit]].
    + rewrite Ht. reflexivity.
    + rewrite Ht, penalties_app. simpl. apply app_nil_r.
    + destruct Hsplit as (position & c & count & kept & news & _ & _ & _ & _ & Ht & _).
      rewrite Ht, penalties_app. simpl. apply app_nil_r.
  - auto.
  - destruct (IH1 Hgood) as [Hgood1 H1]. destruct (IH2 Hgood1) as [Hgood' H2].
    split; [assumption | congruence].
Qed.

Definition nonneg_pair (p : Z * Z) : Prop := 0 <= fst p /\ 0 <= snd p.

(** Each value assigned to [penalty] is less than the one before. *)
Lemma improve_loop_penalties (fuel : nat) :
  forall penalty st st',
    good F cfg st ->
    improve_loop fmean fzero partition_method fuel cfg penalty st = Ok st' ->
    descends (penalties (trace st)) = true ->
    last (penalties (trace st)) penalty = penalty ->
    Forall nonneg_pair (penalties (trace st)) ->
    descends (penalties (trace st')) = true
    /\ Forall nonneg_pair (penalties (trace st')).
Proof.
  induction fuel as [|fuel IH]; intros penalty st st' Hgood H Hdesc Hlast Hpos;
    [discriminate|].
  cbn [improve_loop] in H. cbv zeta in H.
  destruct (tuple_ltb (too_few st, too_small st + too_large st) penalty) eqn:Hlt.
  2:{ injection H as <-. auto. }
  cbn [fst snd] in H.
  set (current := (too_few st, too_small st + too_large st)) in *.
  set (st1 := log (Penalty (too_few st) (too_small st + too_large st)) st) in *.
  destruct (improve_step fmean fzero partition_method fuel cfg st1) as [st2| |] eqn:E;
    simpl in H; try discriminate.
  apply improve_step_transitions in E.
  assert (Hgood1 : good F cfg st1) by (apply good_log; assumption).
  destruct (transitions_penalties st1 st2 E Hgood1) as [Hgood2 Hsame].
  assert (Hp1 : penalties (trace st1) = penalties (trace st) ++ [current]).
  { unfold st1, log. simpl. rewrite penalties_app. reflexivity. }
  apply (IH current st2 st' Hgood2 H); rewrite Hsame, Hp1.
  - apply (descends_snoc penalty); [assumption|]. rewrite Hlast. exact Hlt.
  - apply last_last.
  - apply Forall_app. split; [assumption|]. constructor; [|constructor].
    destruct (good_totals F cfg st Hgood) as (Hf & Hs & Hl).
    unfold nonneg_pair, current. simpl. lia.
Qed.

(** C2: [improve] returns, whatever the membership vector of a partition
    method, the edge weights, the node sizes and the bounds: with enough fuel
    for the iterations of its loops the result no longer depends on the
    fuel.  The values that the outer loop assigns to [penalty] are pairs of
    non-negative integers, each less than the one before as Python compares
    tuples.  The loop of the merges and the loop of the splits stop at the
    first call that reports no improvement, and go on after a call that
    reports one. *)
Theorem improve_terminates (membership0 : list Z) (st0 : Improver) :
  valid_input cfg membership0 ->
  init cfg membership0 = Ok st0 ->
  (exists st', returns (fun fuel => improve fmean fzero partition_method fuel cfg st0) st')
  /\ (forall fuel st',
         improve fmean fzero partition_method fuel cfg st0 = Ok st' ->
         descends (penalties (trace st')) = true
         /\ Forall nonneg_pair (penalties (trace st')))
  /\ (forall fuel st did_improve st1,
         (0 <? too_few st) || (0 <? too_small st) = true ->
         merge_few_or_small fmean fzero partition_method cfg st = Ok (did_improve, st1) ->
         merge_loop fmean fzero partition_method (S fuel) cfg st
         = if did_improve then merge_loop fmean fzero partition_method fuel cfg st1
           else Ok st1)
  /\ (forall fuel did_split st did_improve st1,
         (0 <? too_large st) = true ->
         split_large partition_method fuel cfg st = Ok (did_improve, st1) ->
         split_loop partition_method (S fuel) cfg did_split st
         = if did_improve then split_loop partition_method fuel cfg true st1
           else Ok (did_split, st1)).
Proof.
  intros Hvalid E0.
  destruct (init_good cfg membership0 Hvalid) as (st0' & E0' & Hgood0 & _ & Ht0 & _).
  rewrite E0 in E0'. injection E0' as <-.
  split; [|split; [|split]].
  - destruct (improve_returns F fmean fzero partition_method cfg partition_method_ok
                st0 Hgood0) as (st' & Hret & _).
    exists st'. exact Hret.
  - intros fuel st' H. unfold improve in H.
    destruct (match min_comm_size cfg with
              | Some _ => merge_loop fmean fzero partition_method fuel cfg st0
              | None => Ok st0
              end) as [st1| |] eqn:E1; simpl in H; try discriminate.
    assert (Hsteps : transitions F fmean fzero partition_method cfg st0 st1).
    { destruct (min_comm_size cfg).
      - apply (merge_loop_transitions F fmean fzero partition_method cfg fuel). exact E1.
      - injection E1 as <-. apply rt_refl. }
    destruct (transitions_penalties st0 st1 Hsteps Hgood0) as [Hgood1 Hsame].
    rewrite Ht0 in Hsame. simpl in Hsame.
    apply (improve_loop_penalties fuel _ st1 st' Hgood1 H); rewrite Hsame.
    + reflexivity.
    + reflexivity.
    + constructor.
  - intros fuel st did_improve st1 Hcond E. cbn [merge_loop]. rewrite Hcond, E. reflexivity.
  - intros fuel did_split st did_improve st1 Hcond E. cbn [split_loop].
    rewrite Hcond, E. reflexivity.
Qed.

End Penalties.

(** Two nodes of size 6 in one community, with a maximal size of 5. *)
Definition two_large : Config Z :=
  {| edge_weights := [[0; 1]; [1; 0]];
     node_sizes := Some [6; 6];
     target_comm_size := 3;
     must_complete_cover := false;
     min_comm_size := None;
     max_comm_size := Some 5;
     min_comm_nodes := None;
     random_seed := 123456 |}.

Lemma valid_two_large : valid_input two_large [0; 0].
Proof.
  split; [discriminate|]. split; [|split; reflexivity].
  intros g [<-|[<-|[]]]; (split; [lia|]); intros h Hh; lia.
Qed.

Lemma improve_terminates_witness :
  exists st0 st',
    valid_input two_large [0; 0]
    /\ init two_large [0; 0] = Ok st0
    /\ improve zmean 0 first_apart 10 two_large st0 = Ok st'
    /\ trace st'
       = [Penalty 0 7; SplitAttempt 0 2; SplitAttempt 1 1; SplitAttempt 2 1; Penalty 0 2]
    /\ (exists st'', returns (fun fuel => improve zmean 0 first_apart fuel two_large st0) st'')
    /\ descends (penalties (trace st')) = true
    /\ Forall nonneg_pair (penalties (trace st')).
Proof.
  let v := eval vm_compute in (init two_large [0; 0]) in
  match v with Ok ?s => pose (st0 := s) end.
  let v := eval vm_compute in (improve zmean 0 first_apart 10 two_large st0) in
  match v with Ok ?s => pose (st' := s) end.
  exists st0, st'.
  split; [exact valid_two_large|].
  do 3 (split; [reflexivity|]).
  pose proof (improve_terminates Z zmean 0 first_apart two_large first_apart_contract
                [0; 0] st0 valid_two_large eq_refl) as H.
  split; [exact (proj1 H)|].
  exact (proj1 (proj2 H) 10%nat st' eq_refl).
Defined.


(** ** Example calls of the entry points *)

(** The doubles one half, one, two and the double nearest to one third. *)
Definition float_half : float := S754_finite false 4503599627370496 (-53).
Definition float_one : float := S754_finite false 4503599627370496 (-52).
Definition float_two : float := S754_finite false 4503599627370496 (-51).
Definition float_third : float := S754_finite false 6004799503160661 (-54).



Lemma no_factors_no_improver_witness :
  forallb (fun row : list Z => (length row =? 2)%nat) [[0; 1]; [1; 0]] = true
  /\ 0 < 3
  /\ compute_candidate_metacells zmean 0 first_apart bin_pack bin_fill compress_indices
       10 [[0; 1]; [1; 0]] 3 None None None (Some 2) false 123456
     = ([CallPartitionMethod], Ok [0; 1]).
Proof.
  assert (H3 : 0 < 3) by lia.
  split; [reflexivity|]. split; [exact H3|].
  pose proof (no_factors_no_improver Z zmean 0 first_apart bin_pack bin_fill
                compress_indices 10%nat [[0; 1]; [1; 0]] 3 None 2 false 123456) as H.
  cbv zeta in H. destruct H as [_ H].
  exact (H eq_refl H3).
Defined.


(** C7 as stated: the nodes of a community for which the partition method
    returned one community are never passed to it again, that is, whatever
    community holds exactly these nodes later in the run is marked
    monolithic (the loop of [split_large] calls the partition method for
    every too large community that is not). *)
Definition mark_follows_nodes {F : Type} (fmean : list F -> F) (fzero : F)
    (partition_method :
       list (list F) -> option (list Z) -> Z -> option Z -> option Z -> option Z -> Z
       -> list Z)
    (cfg : Config F) (st0 : Improver) : Prop :=
  forall st1 st2 c1 c2,
    execution F fmean fzero partition_method cfg st0 st1 ->
    execution F fmean fzero partition_method cfg st1 st2 ->
    In c1 (communities st1) ->
    Community.monolithic c1 = true ->
    In c2 (communities st2) ->
    Community.mask c2 = Community.mask c1 ->
    Community.too_large c2 <> 0 ->
    Community.monolithic c2 = true.

(** Four nodes of sizes 10, 1, 3 and 3; a community may have at most the
    size 5 and must have two nodes. *)
Definition lone_large_node : Config Z :=
  {| edge_weights := [[0; 1; 1; 1]; [1; 0; 1; 1]; [1; 1; 0; 1]; [1; 1; 1; 0]];
     node_sizes := Some [10; 1; 3; 3];
     target_comm_size := 3;
     must_complete_cover := false;
     min_comm_size := Some 1;
     max_comm_size := Some 5;
     min_comm_nodes := Some 2;
     random_seed := 123456 |}.

(** C7 (as stated) fails: the mark belongs to the record, not to the nodes.
    The node of size 10 is alone in the community 3, which is marked when
    the partition method returns one community for it; the next
    [merge_few_or_small] retires the community 3 (it has too few nodes) with
    the others, and the same node is then alone in the new community 7,
    which is not marked; [split_large] passes it to the partition method a
    second time. *)
Lemma marked_nodes_are_passed_again :
  exists st0 st,
    init lone_large_node [0; 1; 2; 2] = Ok st0
    /\ improve zmean 0 first_apart 40 lone_large_node st0 = Ok st
    /\ trace st
       = [Penalty 2 6; SplitAttempt 2 2; SplitAttempt 3 1; Penalty 1 7;
          SplitAttempt 7 1; SplitAttempt 8 2; SplitAttempt 10 2]
    /\ (exists st1 st2 c1 c2,
           execution Z zmean 0 first_apart lone_large_node st0 st1
           /\ execution Z zmean 0 first_apart lone_large_node st1 st2
           /\ In c1 (communities st1)
           /\ Community.index c1 = 3
           /\ Community.mask c1 = [true; false; false; false]
           /\ Community.monolithic c1 = true
           /\ In c2 (communities st2)
           /\ Community.index c2 = 7
           /\ Community.mask c2 = [true; false; false; false]
           /\ Community.monolithic c2 = false
           /\ Community.too_large c2 = 5)
    /\ ~ mark_follows_nodes zmean 0 first_apart lone_large_node st0.
Proof.
  let v := eval vm_compute in (init lone_large_node [0; 1; 2; 2]) in
  match v with Ok ?s => pose (st0 := s) end.
  let v := eval vm_compute in (improve zmean 0 first_apart 40 lone_large_node st0) in
  match v with Ok ?s => pose (st := s) end.
  let v := eval vm_compute in (merge_loop zmean 0 first_apart 40 lone_large_node st0) in
  match v with Ok ?s => pose (stA := s) end.
  let v := eval vm_compute in
    (split_loop first_apart 40 lone_large_node false (log (Penalty 2 6) stA)) in
  match v with Ok ?s => pose (rB := s) end.
  let v := eval vm_compute in (merge_loop zmean 0 first_apart 40 lone_large_node (snd rB)) in
  match v with Ok ?s => pose (stC := s) end.
  assert (EA : merge_loop zmean 0 first_apart 40 lone_large_node st0 = Ok stA)
    by (vm_compute; reflexivity).
  assert (EB : split_loop first_apart 40 lone_large_node false (log (Penalty 2 6) stA)
               = Ok rB) by (vm_compute; reflexivity).
  assert (EC : merge_loop zmean 0 first_apart 40 lone_large_node (snd rB) = Ok stC)
    by (vm_compute; reflexivity).
  assert (H1 : execution Z zmean 0 first_apart lone_large_node st0 (snd rB)).
  { eapply rt_trans;
      [apply transitions_execution;
       apply (merge_loop_transitions Z zmean 0 first_apart lone_large_node 40 _ _ EA)|].
    eapply rt_trans; [apply rt_step; right; apply (logs_penalty_intro stA 2 6)|].
    apply transitions_execution.
    apply (split_loop_transitions Z zmean 0 first_apart lone_large_node 40 _ _ _ EB). }
  assert (H2 : execution Z zmean 0 first_apart lone_large_node (snd rB) stC).
  { apply transitions_execution.
    apply (merge_loop_transitions Z zmean 0 first_apart lone_large_node 40 _ _ EC). }
  pose (c1 := {| Community.index := 3; Community.nodes := 1; Community.size := 10;
                 Community.mask := [true; false; false; false];
                 Community.too_few := 1; Community.too_small := 0;
                 Community.too_large := 5; Community.monolithic := true |}).
  pose (c2 := {| Community.index := 7; Community.nodes := 1; Community.size := 10;
                 Community.mask := [true; false; false; false];
                 Community.too_few := 1; Community.too_small := 0;
                 Community.too_large := 5; Community.monolithic := false |}).
  assert (Hc1 : In c1 (communities (snd rB))) by (left; reflexivity).
  assert (Hc2 : In c2 (communities stC)) by (left; reflexivity).
  exists st0, st.
  split; [reflexivity|]. split; [vm_compute; reflexivity|]. split; [reflexivity|].
  split.
  - exists (snd rB), stC, c1, c2. repeat (split; [first [assumption | reflexivity]|]).
    reflexivity.
  - intros H.
    specialize (H (snd rB) stC c1 c2 H1 H2 Hc1 eq_refl Hc2 eq_refl ltac:(discriminate)).
    discriminate H.
Qed.

(** * Further properties of the [Improver] *)

Lemma add_loop_next {F : Type} (cfg : Config F) (count : nat) :
  forall st,
    next_community_index (add_loop cfg count st)
    = next_community_index st + Z.of_nat count.
Proof.
  induction count as [|count IH]; intros st; cbn [add_loop]; [lia|].
  rewrite IH. unfold add_one. cbn [next_community_index]. lia.
Qed.

(** X1: constructing an [Improver] from a membership vector whose community
    indices are the integers from zero to its maximum gives one community for
    each index, in increasing order of the indices; the record of a community
    has the mask, the number and the total size of the nodes that carry its
    index and the deficits and the excess that follow from them, it is not
    monolithic and not empty; the three totals of the [Improver] are the
    sums of the deficits and of the excesses of the records. *)
Theorem construction_describes_membership {F : Type} (cfg : Config F)
    (membership0 : list Z) :
  valid_input cfg membership0 ->
  exists st top,
    init cfg membership0 = Ok st
    /\ np_max membership0 = Ok top
    /\ membership st = membership0
    /\ next_community_index st = top + 1
    /\ map Community.index (communities st) = fresh_indices 0 (Z.to_nat (top + 1))
    /\ (forall c, In c (communities st) ->
                  describes cfg membership0 c
                  /\ Community.monolithic c = false
                  /\ 0 < Community.nodes c)
    /\ too_few st = sum_of Community.too_few (communities st)
    /\ too_small st = sum_of Community.too_small (communities st)
    /\ too_large st = sum_of Community.too_large (communities st).
Proof.
  intros Hvalid.
  destruct (init_good cfg membership0 Hvalid) as (st & E & [Hcons Hinh] & Hm & _ & Hmono).
  pose proof Hvalid as (Hne & Hdense & Hlen & Hsizes).
  destruct (np_max_returns membership0 Hne) as [top Htop].
  destruct (dense_max _ _ Hdense Htop) as [Htop0 _].
  assert (Hst : st = add_loop cfg (Z.to_nat (top + 1))
                       {| membership := membership0; communities := []; too_few := 0;
                          too_small := 0; too_large := 0; next_community_index := 0;
                          trace := [] |}).
  { unfold init, add in E. cbn [next_community_index membership] in E.
    rewrite Htop in E. simpl in E. injection E as <-. reflexivity. }
  pose proof Hcons as [[_ _ _ _ Hdesc _ _ Hf Hs Hl] _].
  exists st, top. split; [assumption|]. split; [assumption|]. split; [assumption|].
  split.
  { rewrite Hst, add_loop_next. cbn [next_community_index]. lia. }
  split.
  { destruct (init_spec F cfg membership0 Hne) as (st' & top' & E' & Htop' & _ & _ & Hc & _);
      auto.
    - rewrite Forall_forall. intros m Hin. apply (Hdense m Hin).
    - rewrite E in E'. injection E' as <-. rewrite Htop in Htop'. injection Htop' as <-.
      rewrite Hc, map_map. simpl. apply map_id. }
  split; [|auto].
  intros c Hc. rewrite Forall_forall in Hdesc, Hmono. unfold inhabited in Hinh.
  rewrite Forall_forall in Hinh. rewrite <- Hm. auto.
Qed.

Lemma construction_describes_membership_witness :
  valid_input one_fits [0; 1; 2]
  /\ exists st,
      init one_fits [0; 1; 2] = Ok st
      /\ next_community_index st = 3
      /\ map (fun c => (Community.index c, Community.size c, Community.too_small c))
           (communities st) = [(0, 4, 0); (1, 1, 3); (2, 1, 3)]
      /\ too_small st = 6.
Proof.
  split; [exact valid_one_fits|].
  destruct (construction_describes_membership one_fits [0; 1; 2] valid_one_fits)
    as (st & top & E & Htop & _).
  exists st. split; [exact E|].
  vm_compute in E. injection E as <-. repeat split; reflexivity.
Defined.

(** ** The indices of the communities *)

Lemma in_replace_at {A : Type} (l : list A) (position : nat) (x y : A) :
  In y (replace_at position x l) -> y = x \/ In y l.
Proof.
  unfold replace_at. intros H. apply in_app_or in H. destruct H as [H|[H|H]].
  - right. rewrite <- (firstn_skipn position l). apply in_or_app. auto.
  - auto.
  - right. rewrite <- (firstn_skipn (S position) l). apply in_or_app. auto.
Qed.

(** The communities of [st'] carry indices of communities of [st] or indices
    that [st] had not given out yet. *)
Definition indices_from (st st' : Improver) : Prop :=
  next_community_index st <= next_community_index st'
  /\ forall c, In c (communities st') ->
               In (Community.index c) (map Community.index (communities st))
               \/ next_community_index st <= Community.index c.

Lemma indices_from_refl (st : Improver) : indices_from st st.
Proof.
  split; [lia|]. intros c Hc. left. apply in_map. assumption.
Qed.

Lemma indices_from_trans (st1 st2 st3 : Improver) :
  indices_from st1 st2 -> indices_from st2 st3 -> indices_from st1 st3.
Proof.
  intros [Hn1 H1] [Hn2 H2]. split; [lia|].
  intros c Hc. destruct (H2 c Hc) as [Hin|Hge]; [|right; lia].
  apply in_map_iff in Hin. destruct Hin as [c2 [E Hc2]].
  rewrite <- E. apply H1. assumption.
Qed.

Lemma rebuilt_indices_from (st st' : Improver) (kept news : list Community.t) :
  rebuilt st st' kept news -> indices_from st st'.
Proof.
  intros (Hc & Hincl & Hnews & Hnext). split; [assumption|].
  intros c Hin. rewrite Hc in Hin. apply in_app_or in Hin. destruct Hin as [Hin|Hin].
  - left. apply in_map. apply Hincl. assumption.
  - right. rewrite Forall_forall in Hnews. apply (Hnews c Hin).
Qed.

Section Indices.

Variable F : Type.
Variable fmean : list F -> F.
Variable fzero : F.
Variable partition_method :
  list (list F) -> option (list Z) -> Z -> option Z -> option Z -> option Z -> Z -> list Z.
Variable bin_pack : list Z -> Z -> list Z.
Variable bin_fill : list Z -> Z -> list Z.
Variable cfg : Config F.

Hypothesis partition_method_ok : partition_contract partition_method.
Hypothesis bin_pack_ok : bins_contract bin_pack.
Hypothesis bin_fill_ok : bins_contract bin_fill.

Lemma transition_indices_from (st st' : Improver) :
  good F cfg st ->
  transition F fmean fzero partition_method cfg st st' ->
  indices_from st st'.
Proof.
  intros Hgood Hstep.
  destruct (transition_facts F fmean fzero partition_method cfg partition_method_ok
              st st' Hgood Hstep) as [_ Hcases].
  destruct Hcases as [[_ (kept & news & Hreb)]|[Hflag|Hsplit]].
  - eapply rebuilt_indices_from. exact Hreb.
  - destruct Hflag as (position & c & Hnth & _ & _ & _ & Hc & Hn).
    split; [lia|]. intros c' Hin. left. rewrite Hc in Hin.
    apply in_replace_at in Hin. destruct Hin as [->|Hin].
    + change (Community.index (Community.set_monolithic c)) with (Community.index c).
      apply in_map. eapply nth_error_In. exact Hnth.
    + apply in_map. assumption.
  - destruct Hsplit as (position & c & count & kept & news & _ & _ & _ & _ & _ & Hreb & _).
    eapply rebuilt_indices_from. exact Hreb.
Qed.

Lemma execution_indices_from (st st' : Improver) :
  execution F fmean fzero partition_method cfg st st' ->
  good F cfg st ->
  good F cfg st' /\ indices_from st st'.
Proof.
  intros Hexec Hgood.
  apply (execution_invariant F fmean fzero partition_method cfg
           (fun s => good F cfg s /\ indices_from st s)) with (st := st).
  - intros s s' [Hs Hfrom] Hstep. split.
    + apply (transition_facts F fmean fzero partition_method cfg partition_method_ok
               s s' Hs Hstep).
    + eapply indices_from_trans; [exact Hfrom|].
      apply transition_indices_from; assumption.
  - intros s a b [Hs Hfrom]. split; [apply good_log; assumption | exact Hfrom].
  - exact Hexec.
  - split; [assumption | apply indices_from_refl].
Qed.

(** X2: the index of a community is never used again.  From a state that
    [improve] goes through to a later one, and from there through [pack] and
    through [fill], [next_community_index] does not decrease and every
    community carries either the index of a community of the earlier state or
    an index that had not been given out then; the indices of the communities
    of a state are distinct and below its [next_community_index]. *)
Theorem community_indices_are_never_reused (membership0 : list Z) (st0 st st' : Improver) :
  valid_input cfg membership0 ->
  init cfg membership0 = Ok st0 ->
  execution F fmean fzero partition_method cfg st0 st ->
  execution F fmean fzero partition_method cfg st st' ->
  indices_from st st'
  /\ NoDup (map Community.index (communities st'))
  /\ (forall c, In c (communities st') ->
                0 <= Community.index c < next_community_index st')
  /\ (forall fuel st2,
         pack bin_pack fuel cfg st' = Ok st2 ->
         indices_from st' st2
         /\ NoDup (map Community.index (communities st2))
         /\ forall fuel' st3,
             fill bin_fill fuel' cfg st2 = Ok st3 ->
             indices_from st2 st3 /\ NoDup (map Community.index (communities st3)))
  /\ (forall fuel st3,
         fill bin_fill fuel cfg st' = Ok st3 ->
         indices_from st' st3 /\ NoDup (map Community.index (communities st3))).
Proof.
  intros Hvalid E0 Hexec0 Hexec.
  destruct (init_good cfg membership0 Hvalid) as (st0' & E0' & Hgood0 & _).
  rewrite E0 in E0'. injection E0' as <-.
  pose proof (execution_good F fmean fzero partition_method cfg partition_method_ok
                st0 st Hexec0 Hgood0) as Hgood.
  destruct (execution_indices_from st st' Hexec Hgood) as [Hgood' Hfrom].
  assert (Hfill : forall fuel s s',
             consistent cfg s -> fill bin_fill fuel cfg s = Ok s' ->
             indices_from s s' /\ NoDup (map Community.index (communities s'))).
  { intros fuel s s' Hs H.
    destruct (min_comm_nodes cfg) as [k|] eqn:Hk.
    2:{ unfold fill in H. rewrite Hk in H. discriminate. }
    destruct (fill_spec F bin_fill cfg bin_fill_ok fuel s k Hs Hk) as [_ Hspec].
    destruct (Hspec s' H) as (Hs' & _ & kept & news & Hreb & _).
    split; [eapply rebuilt_indices_from; exact Hreb | apply Hs']. }
  split; [assumption|]. split; [apply Hgood'|]. split.
  { pose proof (proj1 Hgood') as [[_ _ _ Hindex _ _ _ _ _ _] _].
    rewrite Forall_forall in Hindex. exact Hindex. }
  split.
  - intros fuel st2 H.
    destruct (pack_spec F bin_pack cfg bin_pack_ok fuel st' (proj1 Hgood')) as [_ Hspec].
    destruct (Hspec st2 H) as (Hcons2 & _ & kept & news & Hreb & _).
    split; [eapply rebuilt_indices_from; exact Hreb|]. split; [apply Hcons2|].
    intros fuel' st3 H3. apply (Hfill fuel' st2 st3 Hcons2 H3).
  - intros fuel st3 H3. apply (Hfill fuel st' st3 (proj1 Hgood') H3).
Qed.

End Indices.

Lemma community_indices_are_never_reused_witness :
  exists st0 st',
    valid_input two_large [0; 0]
    /\ init two_large [0; 0] = Ok st0
    /\ improve zmean 0 first_apart 10 two_large st0 = Ok st'
    /\ map Community.index (communities st0) = [0]
    /\ map Community.index (communities st') = [1; 2]
    /\ indices_from st0 st'
    /\ NoDup (map Community.index (communities st')).
Proof.
  let v := eval vm_compute in (init two_large [0; 0]) in
  match v with Ok ?s => pose (st0 := s) end.
  let v := eval vm_compute in (improve zmean 0 first_apart 10 two_large st0) in
  match v with Ok ?s => pose (st' := s) end.
  exists st0, st'.
  assert (E0 : init two_large [0; 0] = Ok st0) by reflexivity.
  assert (E1 : improve zmean 0 first_apart 10 two_large st0 = Ok st')
    by (vm_compute; reflexivity).
  split; [exact valid_two_large|].
  split; [exact E0|]. split; [exact E1|].
  split; [reflexivity|]. split; [reflexivity|].
  pose proof (community_indices_are_never_reused Z zmean 0 first_apart bin_pack bin_fill
                two_large first_apart_contract bin_pack_contract bin_fill_contract
                [0; 0] st0 st0 st' valid_two_large E0 (rt_refl _ _ st0)
                (improve_execution Z zmean 0 first_apart two_large 10 st0 st' E1)) as H.
  split; [exact (proj1 H) | exact (proj1 (proj2 H))].
Defined.

(** ** Every node in one community *)

Lemma NoDup_map_injective {A B : Type} (f : A -> B) (l : list A) (x y : A) :
  NoDup (map f l) -> In x l -> In y l -> f x = f y -> x = y.
Proof.
  induction l as [|a l IH]; intros Hnd Hx Hy E; [contradiction|].
  simpl in Hnd. apply NoDup_cons_iff in Hnd. destruct Hnd as [Hnotin Hnd].
  destruct Hx as [->|Hx], Hy as [->|Hy].
  - reflexivity.
  - exfalso. apply Hnotin. rewrite E. apply in_map. assumption.
  - exfalso. apply Hnotin. rewrite <- E. apply in_map. assumption.
  - auto.
Qed.

(** In a consistent state every node is marked by the mask of exactly one
    community of the list, the one whose index the membership vector has for
    the node. *)
Lemma consistent_cover {F : Type} (cfg : Config F) (st : Improver) :
  consistent cfg st ->
  forall node m,
    nth_error (membership st) node = Some m ->
    exists c,
      In c (communities st)
      /\ Community.index c = m
      /\ nth_error (Community.mask c) node = Some true
      /\ forall c', In c' (communities st) ->
                    nth_error (Community.mask c') node = Some true -> c' = c.
Proof.
  intros [[_ _ _ _ Hdesc Hnd Hcover _ _ _] _] node m Hnode.
  rewrite Forall_forall in Hdesc, Hcover.
  assert (Hm : In m (membership st)) by (eapply nth_error_In; exact Hnode).
  destruct (Hcover m Hm) as [Hin|Hout]; [|lia].
  apply in_map_iff in Hin. destruct Hin as [c [Hidx Hc]].
  assert (Hmask : forall c', In c' (communities st) ->
                             nth_error (Community.mask c') node
                             = Some (m =? Community.index c')).
  { intros c' Hc'. destruct (Hdesc c' Hc') as [-> _].
    rewrite nth_error_map, Hnode. reflexivity. }
  exists c. split; [assumption|]. split; [assumption|]. split.
  - rewrite (Hmask c Hc), Hidx, Z.eqb_refl. reflexivity.
  - intros c' Hc' Htrue. rewrite (Hmask c' Hc') in Htrue. injection Htrue as Htrue.
    apply Z.eqb_eq in Htrue.
    apply (NoDup_map_injective Community.index (communities st)); auto. congruence.
Qed.

Section Cover.

Variable F : Type.
Variable fmean : list F -> F.
Variable fzero : F.
Variable partition_method :
  list (list F) -> option (list Z) -> Z -> option Z -> option Z -> option Z -> Z -> list Z.
Variable bin_pack : list Z -> Z -> list Z.
Variable bin_fill : list Z -> Z -> list Z.

Hypothesis partition_method_ok : partition_contract partition_method.
Hypothesis bin_pack_ok : bins_contract bin_pack.
Hypothesis bin_fill_ok : bins_contract bin_fill.

(** X3: when [compute_candidate_metacells] is done with the [Improver]
    (construction, [improve], [pack] and [fill] as configured), the
    membership vector still has one entry per node, and every node is
    marked by the mask of exactly one community of the list: the community
    whose index the membership vector has for the node. *)
Theorem every_node_in_one_community (fuel : nat) (cfg : Config F) (membership0 : list Z)
    (st' : Improver) :
  valid_input cfg membership0 ->
  run_improver fmean fzero partition_method bin_pack bin_fill fuel cfg membership0 = Ok st' ->
  length (membership st') = length membership0
  /\ forall node,
      (node < length membership0)%nat ->
      exists m c,
        nth_error (membership st') node = Some m
        /\ In c (communities st')
        /\ Community.index c = m
        /\ nth_error (Community.mask c) node = Some true
        /\ forall c', In c' (communities st') ->
                      nth_error (Community.mask c') node = Some true -> c' = c.
Proof.
  intros Hvalid H.
  pose proof (run_improver_consistent F fmean fzero partition_method bin_pack bin_fill
                partition_method_ok bin_pack_ok bin_fill_ok fuel cfg membership0 st'
                Hvalid H) as Hcons.
  assert (Hlen : length (membership st') = length membership0).
  { destruct Hvalid as (_ & _ & Hlen & _). rewrite Hlen. apply Hcons. }
  split; [assumption|]. intros node Hnode.
  destruct (nth_error (membership st') node) as [m|] eqn:Hm.
  - destruct (consistent_cover cfg st' Hcons node m Hm) as (c & Hc).
    exists m, c. split; [reflexivity | exact Hc].
  - apply nth_error_None in Hm. lia.
Qed.

End Cover.

Lemma every_node_in_one_community_witness :
  exists st',
    valid_input large_and_small [0; 1]
    /\ run_improver zmean 0 first_apart bin_pack bin_fill 10 large_and_small [0; 1] = Ok st'
    /\ membership st' = [6; 6]
    /\ map (fun c => (Community.index c, Community.mask c)) (communities st')
       = [(6, [true; true])]
    /\ length (membership st') = length [0; 1].
Proof.
  let v := eval vm_compute in
             (run_improver zmean 0 first_apart bin_pack bin_fill 10 large_and_small [0; 1]) in
  match v with Ok ?s => pose (st' := s) end.
  exists st'.
  assert (E : run_improver zmean 0 first_apart bin_pack bin_fill 10 large_and_small [0; 1]
              = Ok st') by (vm_compute; reflexivity).
  split; [exact valid_large_and_small|]. split; [exact E|].
  split; [reflexivity|]. split; [reflexivity|].
  exact (proj1 (every_node_in_one_community Z zmean 0 first_apart bin_pack bin_fill
                  first_apart_contract bin_pack_contract bin_fill_contract
                  10 large_and_small [0; 1] st' valid_large_and_small E)).
Defined.

(** ** What a merge leaves alone *)

Section MergeKeeps.

Variable F : Type.
Variable fmean : list F -> F.
Variable fzero : F.
Variable partition_method :
  list (list F) -> option (list Z) -> Z -> option Z -> option Z -> option Z -> Z -> list Z.
Variable cfg : Config F.

Hypothesis partition_method_ok : partition_contract partition_method.

(** X4: [merge_few_or_small] leaves every community that has neither too few
    nodes nor too small a size as it is, record and nodes; when at least two
    communities violate a minimum, it retires all of them, and their nodes go
    to communities with indices that had not been given out. *)
Theorem merge_leaves_compliant_communities (membership0 : list Z) (st0 st : Improver)
    (did_improve : bool) (st' : Improver) :
  valid_input cfg membership0 ->
  init cfg membership0 = Ok st0 ->
  execution F fmean fzero partition_method cfg st0 st ->
  merge_few_or_small fmean fzero partition_method cfg st = Ok (did_improve, st') ->
  (forall c, In c (communities st) -> violating c = false ->
             In c (communities st')
             /\ forall node,
                 nth_error (membership st) node = Some (Community.index c) ->
                 nth_error (membership st') node = Some (Community.index c))
  /\ ((2 <= length (filter violating (communities st)))%nat ->
      forall c, In c (communities st) -> violating c = true ->
                ~ In (Community.index c) (map Community.index (communities st'))
                /\ forall node,
                    nth_error (membership st) node = Some (Community.index c) ->
                    exists m, nth_error (membership st') node = Some m
                              /\ next_community_index st <= m).
Proof.
  intros Hvalid E0 Hexec H.
  destruct (init_good cfg membership0 Hvalid) as (st0' & E0' & Hgood0 & _).
  rewrite E0 in E0'. injection E0' as <-.
  pose proof (execution_good F fmean fzero partition_method cfg partition_method_ok
                st0 st Hexec Hgood0) as [Hcons Hinh].
  destruct (Nat.lt_ge_cases (length (filter violating (communities st))) 2) as [Hlt|Hge].
  { rewrite (merge_few_or_small_nothing F fmean fzero partition_method cfg st Hlt) in H.
    injection H as _ <-. split; [auto | intros; lia]. }
  destruct (merge_few_or_small_spec F fmean fzero partition_method cfg
              partition_method_ok st Hcons Hinh Hge)
    as (st1 & kept & top & Htop & Htop0 & HlenP & Hdense & E & Hcons' & _ & Hm' & Hc'
        & Hperm & _).
  rewrite E in H. injection H as _ <-.
  pose proof Hcons as [[_ _ _ Hindex _ Hnd _ _ _ _] _].
  set (M := filter violating (communities st)) in *.
  set (P := merged_membership F fmean fzero partition_method cfg st) in *.
  assert (Hndp : NoDup (map (fun cp : Community.t * Z => Community.index (fst cp))
                          (combine M P))).
  { rewrite <- (map_map fst Community.index), map_fst_combine by lia.
    apply NoDup_map_filter. assumption. }
  assert (Hnd2 : NoDup (map Community.index kept ++ map Community.index (rev M))).
  { rewrite <- map_app. eapply Permutation_NoDup; [|exact Hnd].
    apply Permutation_map. exact Hperm. }
  assert (HinM : forall c, In c (communities st) -> (In c M <-> violating c = true)).
  { intros c Hc. unfold M. rewrite filter_In. tauto. }
  split.
  - intros c Hc Hok.
    assert (HnotM : ~ In c M) by (rewrite (HinM c Hc); congruence).
    split.
    + rewrite Hc'. apply in_or_app. left.
      pose proof (Permutation_in c Hperm Hc) as Hin. apply in_app_or in Hin.
      destruct Hin as [Hin|Hin]; [assumption|]. apply in_rev in Hin. contradiction.
    + intros node Hnode. rewrite Hm', nth_error_map, Hnode. simpl. f_equal.
      apply merged_label_other.
      rewrite <- (map_map fst Community.index), map_fst_combine by lia.
      intros Hin. apply in_map_iff in Hin. destruct Hin as [c2 [E2 Hc2]].
      assert (Hc2' : In c2 (communities st)) by (unfold M in Hc2; apply filter_In in Hc2; tauto).
      assert (c2 = c)
        by (apply (NoDup_map_injective Community.index (communities st)); auto).
      subst c2. contradiction.
  - intros _ c Hc Hbad.
    assert (HcM : In c M) by (rewrite (HinM c Hc); assumption).
    split.
    + rewrite Hc', map_app, in_app_iff. intros [Hin|Hin].
      * apply (NoDup_app_disjoint _ _ (Community.index c) Hnd2 Hin).
        apply in_map. apply -> in_rev. assumption.
      * rewrite map_map in Hin. simpl in Hin. rewrite map_id in Hin.
        apply in_fresh_indices in Hin. rewrite Forall_forall in Hindex.
        specialize (Hindex c Hc). lia.
    + intros node Hnode.
      destruct (in_combine_left M P c) as [v Hv]; [lia | assumption|].
      exists (v + next_community_index st). split.
      * rewrite Hm', nth_error_map, Hnode. simpl. f_equal.
        apply (merged_label_found _ _ _ c v Hndp Hv).
      * assert (Hvin : In v P).
        { apply in_combine_r in Hv. assumption. }
        destruct (Hdense v Hvin) as [Hv0 _]. lia.
Qed.

End MergeKeeps.

Lemma merge_leaves_compliant_communities_witness :
  exists st0 st',
    valid_input one_fits [0; 1; 2]
    /\ init one_fits [0; 1; 2] = Ok st0
    /\ merge_few_or_small zmean 0 first_apart one_fits st0 = Ok (false, st')
    /\ map Community.index (communities st0) = [0; 1; 2]
    /\ map Community.index (communities st') = [0; 3; 4]
    /\ membership st' = [0; 3; 4]
    /\ forall c, In c (communities st0) -> violating c = false -> In c (communities st').
Proof.
  let v := eval vm_compute in (init one_fits [0; 1; 2]) in
  match v with Ok ?s => pose (st0 := s) end.
  let v := eval vm_compute in (merge_few_or_small zmean 0 first_apart one_fits st0) in
  match v with Ok (_, ?s) => pose (st' := s) end.
  exists st0, st'.
  assert (E0 : init one_fits [0; 1; 2] = Ok st0) by reflexivity.
  assert (E1 : merge_few_or_small zmean 0 first_apart one_fits st0 = Ok (false, st'))
    by (vm_compute; reflexivity).
  split; [exact valid_one_fits|].
  split; [exact E0|]. split; [exact E1|].
  do 3 (split; [reflexivity|]).
  pose proof (merge_leaves_compliant_communities Z zmean 0 first_apart one_fits
                first_apart_contract [0; 1; 2] st0 st0 false st' valid_one_fits E0
                (rt_refl _ _ st0) E1) as [H _].
  intros c Hc Hok. exact (proj1 (H c Hc Hok)).
Defined.

(** ** What [split_large] reports *)

Section SplitReport.

Variable F : Type.
Variable fmean : list F -> F.
Variable fzero : F.
Variable partition_method :
  list (list F) -> option (list Z) -> Z -> option Z -> option Z -> option Z -> Z -> list Z.
Variable cfg : Config F.

Hypothesis partition_method_ok : partition_contract partition_method.

(** The loop of [split_large] either splits nothing, and then it only marks
    communities, or it reports a split and the list of communities is
    longer. *)
Lemma split_scan_grows (fuel : nat) :
  forall position did_split st r,
    good F cfg st ->
    split_scan partition_method fuel cfg position did_split st = Ok r ->
    (fst r = did_split
     /\ membership (snd r) = membership st
     /\ map Community.index (communities (snd r)) = map Community.index (communities st)
     /\ next_community_index (snd r) = next_community_index st)
    \/ (fst r = true
        /\ (length (communities st) < length (communities (snd r)))%nat).
Proof.
  induction fuel as [|fuel IH]; intros position did_split st r [Hcons Hinh] H;
    [discriminate|].
  rewrite split_scan_unfold in H.
  destruct (nth_error (communities st) position) as [c|] eqn:Hnth.
  2:{ injection H as <-. left. auto. }
  destruct ((Community.too_large c =? 0) || Community.monolithic c) eqn:Hskip.
  { apply (IH (S position) did_split st r); [split; assumption | exact H]. }
  destruct (np_max (split_membership F partition_method cfg c)) as [top| |] eqn:Htop;
    simpl in H; try discriminate.
  destruct (top + 1 =? 1) eqn:Hone.
  - destruct (flag_step_spec F cfg st position c
                (SplitAttempt (Community.index c) (top + 1)) Hcons Hinh Hnth)
      as (Hcons1 & Hinh1 & Hlen1).
    destruct (IH _ _ _ r (conj Hcons1 Hinh1) H) as [(Hb & Hm & Hi & Hn)|[Hb Hlt]].
    + left. split; [assumption|]. split; [exact Hm|]. split; [|exact Hn].
      rewrite Hi. simpl.
      destruct (replace_at_split (communities st) position c (Community.set_monolithic c)
                  Hnth) as (before & after & E & E' & _).
      rewrite E', E at 1. rewrite !map_app. reflexivity.
    + right. split; [assumption|]. rewrite <- Hlen1. exact Hlt.
  - apply Z.eqb_neq in Hone.
    destruct (split_step_spec F partition_method cfg partition_method_ok st position c top
                (SplitAttempt (Community.index c) (top + 1)) Hcons Hinh Hnth Htop Hone)
      as (st1 & st3 & E1 & E3 & Hcons3 & Hinh3 & Hc3 & _ & _ & Htop1).
    rewrite E1 in H. simpl in H. rewrite E3 in H. simpl in H.
    assert (Hlen3 : (length (communities st) < length (communities st3))%nat).
    { rewrite Hc3, length_app, length_map, length_fresh_indices.
      pose proof (length_delete_at _ _ _ Hnth). lia. }
    right. destruct (IH _ _ _ r (conj Hcons3 Hinh3) H) as [(Hb & _ & Hi & _)|[Hb Hlt]].
    + split; [assumption|].
      assert (Hl : length (communities (snd r)) = length (communities st3)).
      { rewrite <- (length_map Community.index), Hi, length_map. reflexivity. }
      lia.
    + split; [assumption | lia].
Qed.

(** X5: in every state that [improve] goes through, [split_large] returns; it
    returns [True] exactly when the list of communities has become longer;
    and when it returns [False] it has changed neither the membership
    vector nor the indices of the communities (it has done no more than mark
    communities monolithic). *)
Theorem split_large_reports_growth (membership0 : list Z) (st0 st : Improver) :
  valid_input cfg membership0 ->
  init cfg membership0 = Ok st0 ->
  execution F fmean fzero partition_method cfg st0 st ->
  (exists r, returns (fun fuel => split_large partition_method fuel cfg st) r)
  /\ forall fuel did_split st',
      split_large partition_method fuel cfg st = Ok (did_split, st') ->
      (did_split = true
       <-> (length (communities st) < length (communities st'))%nat)
      /\ (did_split = false ->
          membership st' = membership st
          /\ map Community.index (communities st') = map Community.index (communities st)
          /\ next_community_index st' = next_community_index st).
Proof.
  intros Hvalid E0 Hexec.
  destruct (init_good cfg membership0 Hvalid) as (st0' & E0' & Hgood0 & _).
  rewrite E0 in E0'. injection E0' as <-.
  pose proof (execution_good F fmean fzero partition_method cfg partition_method_ok
                st0 st Hexec Hgood0) as Hgood.
  split.
  - destruct (split_large_returns F partition_method cfg partition_method_ok st Hgood)
      as (r & Hr & _).
    exists r. exact Hr.
  - intros fuel did_split st' H.
    destruct (split_scan_grows fuel 0 false st (did_split, st') Hgood H)
      as [(Hb & Hm & Hi & Hn)|[Hb Hlt]]; simpl in *.
    + subst did_split. split; [|auto]. split; [discriminate|].
      intros Hlt. exfalso.
      assert (Hl : length (communities st') = length (communities st)).
      { rewrite <- (length_map Community.index), Hi, length_map. reflexivity. }
      lia.
    + subst did_split. split; [tauto | discriminate].
Qed.

End SplitReport.

Lemma split_large_reports_growth_witness :
  exists st0 st',
    valid_input two_large [0; 0]
    /\ init two_large [0; 0] = Ok st0
    /\ split_large first_apart 10 two_large st0 = Ok (true, st')
    /\ length (communities st0) = 1%nat
    /\ length (communities st') = 2%nat
    /\ (true = true <-> (length (communities st0) < length (communities st'))%nat).
Proof.
  let v := eval vm_compute in (init two_large [0; 0]) in
  match v with Ok ?s => pose (st0 := s) end.
  let v := eval vm_compute in (split_large (@first_apart Z) 10 two_large st0) in
  match v with Ok (_, ?s) => pose (st' := s) end.
  exists st0, st'.
  assert (E0 : init two_large [0; 0] = Ok st0) by reflexivity.
  assert (E1 : split_large first_apart 10 two_large st0 = Ok (true, st'))
    by (vm_compute; reflexivity).
  split; [exact valid_two_large|].
  split; [exact E0|]. split; [exact E1|].
  split; [reflexivity|]. split; [reflexivity|].
  exact (proj1 (proj2 (split_large_reports_growth Z zmean 0 first_apart two_large
                         first_apart_contract [0; 0] st0 st0 valid_two_large E0
                         (rt_refl _ _ st0))
                  10%nat true st' E1)).
Defined.

(** ** [pack] and [fill] with nothing to do *)

(** The first loop of [pack] and [fill] walks over the communities it skips
    and leaves the state as it is. *)
Lemma collect_small_all_skipped (only_few : bool) (fuel : nat) :
  forall position amounts indices st,
    Forall (fun c => skipped only_few c = true) (skipn position (communities st)) ->
    (length (communities st) - position < fuel)%nat ->
    collect_small fuel only_few position amounts indices st = Ok (amounts, indices, st).
Proof.
  induction fuel as [|fuel IH]; intros position amounts indices st Hall Hfuel; [lia|].
  rewrite collect_small_unfold.
  destruct (nth_error (communities st) position) as [c|] eqn:Hnth; [|reflexivity].
  assert (Hlt : (position < length (communities st))%nat)
    by (apply nth_error_Some; congruence).
  assert (Hskip : skipn position (communities st)
                  = c :: skipn (S position) (communities st)).
  { clear - Hnth. revert position Hnth.
    induction (communities st) as [|x l IHl]; intros [|p] H; simpl in *;
      try discriminate.
    - injection H as ->. reflexivity.
    - apply IHl. assumption. }
  rewrite Hskip in Hall. apply Forall_cons_iff in Hall. destruct Hall as [Hc Hrest].
  rewrite Hc. apply IH; [assumption | lia].
Qed.

(** X6: [pack] leaves the [Improver] as it is when no community has too few
    nodes or too small a size, and [fill] leaves it as it is when no
    community has too few nodes; [fill] raises [AssertionError] when no
    minimal number of nodes is configured. *)
Theorem pack_and_fill_with_nothing_to_do {F : Type}
    (bin_pack bin_fill : list Z -> Z -> list Z) (fuel : nat) (cfg : Config F)
    (st : Improver) :
  (length (communities st) < fuel)%nat ->
  ((forall c, In c (communities st) ->
              Community.too_small c = 0 /\ Community.too_few c = 0) ->
   pack bin_pack fuel cfg st = Ok st)
  /\ ((forall c, In c (communities st) -> Community.too_few c = 0) ->
      forall min_nodes, min_comm_nodes cfg = Some min_nodes ->
                        fill bin_fill fuel cfg st = Ok st)
  /\ (min_comm_nodes cfg = None -> fill bin_fill fuel cfg st = Raised AssertionError).
Proof.
  intros Hfuel. split; [|split].
  - intros Hall. unfold pack.
    rewrite (collect_small_all_skipped false fuel 0 [] [] st); [reflexivity| |lia].
    simpl. rewrite Forall_forall. intros c Hc. destruct (Hall c Hc) as [Hs Hf].
    unfold skipped. rewrite Hs, Hf. reflexivity.
  - intros Hall min_nodes Hmin. unfold fill. rewrite Hmin.
    rewrite (collect_small_all_skipped true fuel 0 [] [] st); [reflexivity| |lia].
    simpl. rewrite Forall_forall. intros c Hc. unfold skipped.
    rewrite (Hall c Hc). reflexivity.
  - intros Hmin. unfold fill. rewrite Hmin. reflexivity.
Qed.

(** Three nodes of sizes 2, 2 and 1 in one community, within all the bounds. *)
Definition all_fit : Config Z :=
  {| edge_weights := [[0; 1; 1]; [1; 0; 1]; [1; 1; 0]];
     node_sizes := Some [2; 2; 1];
     target_comm_size := 3;
     must_complete_cover := false;
     min_comm_size := Some 4;
     max_comm_size := Some 5;
     min_comm_nodes := Some 2;
     random_seed := 123456 |}.

Lemma pack_and_fill_with_nothing_to_do_witness :
  exists st,
    init all_fit [0; 0; 0] = Ok st
    /\ (length (communities st) < 5)%nat
    /\ (forall c, In c (communities st) ->
                  Community.too_small c = 0 /\ Community.too_few c = 0)
    /\ pack bin_pack 5 all_fit st = Ok st
    /\ fill bin_fill 5 all_fit st = Ok st.
Proof.
  let v := eval vm_compute in (init all_fit [0; 0; 0]) in
  match v with Ok ?s => pose (st := s) end.
  exists st.
  assert (Hfuel : (length (communities st) < 5)%nat) by (simpl; lia).
  assert (Hall : forall c, In c (communities st) ->
                           Community.too_small c = 0 /\ Community.too_few c = 0).
  { intros c [<-|[]]. split; reflexivity. }
  pose proof (pack_and_fill_with_nothing_to_do bin_pack bin_fill 5 all_fit st Hfuel)
    as (Hpack & Hfill & _).
  split; [reflexivity|]. split; [exact Hfuel|]. split; [exact Hall|].
  split; [exact (Hpack Hall)|].
  apply (Hfill (fun c Hc => proj2 (Hall c Hc)) 2). reflexivity.
Defined.

(** ** What [pack] moves *)

Lemma remove_communities (position : nat) (st st' : Improver) :
  remove position st = Ok st' ->
  communities st' = delete_at position (communities st).
Proof.
  unfold remove. destruct (nth_error (communities st) position) as [c|]; [|discriminate].
  destruct (0 <=? too_few st - Community.too_few c); simpl; [|discriminate].
  destruct (0 <=? too_small st - Community.too_small c); simpl; [|discriminate].
  destruct (0 <=? too_large st - Community.too_large c); simpl; [|discriminate].
  intros H. injection H as <-. reflexivity.
Qed.

Lemma in_delete_at {A : Type} (l : list A) (position : nat) (x : A) :
  In x (delete_at position l) -> In x l.
Proof.
  unfold delete_at. intros H. apply in_app_or in H. destruct H as [H|H].
  - rewrite <- (firstn_skipn position l). apply in_or_app. auto.
  - rewrite <- (firstn_skipn (S position) l). apply in_or_app. auto.
Qed.

Lemma add_loop_membership {F : Type} (cfg : Config F) (count : nat) :
  forall st, membership (add_loop cfg count st) = membership st.
Proof.
  induction count as [|count IH]; intros st; simpl; [reflexivity|].
  rewrite IH. reflexivity.
Qed.

Lemma add_membership {F : Type} (cfg : Config F) (count : option Z) (st st' : Improver) :
  add cfg count st = Ok st' -> membership st' = membership st.
Proof.
  unfold add. intros H.
  match type of H with
  | (do count <- ?a ; _) = _ => destruct a as [n| |]; simpl in H; try discriminate
  end.
  injection H as <-. apply add_loop_membership.
Qed.

(** The first loop of [pack] and [fill] removes only communities that it does
    not skip. *)
Lemma collect_small_removed (only_few : bool) (fuel : nat) :
  forall position amounts indices st amounts' indices' st',
    collect_small fuel only_few position amounts indices st = Ok (amounts', indices', st') ->
    exists extra,
      indices' = indices ++ extra
      /\ forall i, In i extra ->
                   exists c, In c (communities st)
                             /\ Community.index c = i
                             /\ skipped only_few c = false.
Proof.
  induction fuel as [|fuel IH]; intros position amounts indices st amounts' indices' st' H;
    [discriminate|].
  rewrite collect_small_unfold in H.
  destruct (nth_error (communities st) position) as [c|] eqn:Hnth.
  2:{ injection H as <- <- <-. exists []. rewrite app_nil_r. split; [reflexivity|].
      intros i []. }
  destruct (skipped only_few c) eqn:Hskip.
  { apply (IH _ _ _ _ _ _ _ H). }
  destruct (remove position st) as [st1| |] eqn:E1; simpl in H; try discriminate.
  destruct (IH _ _ _ _ _ _ _ H) as (extra & Hextra & Hall).
  exists (Community.index c :: extra). split.
  - rewrite Hextra, <- app_assoc. reflexivity.
  - intros i [<-|Hi].
    + exists c. split; [eapply nth_error_In; exact Hnth | auto].
    + destruct (Hall i Hi) as (c' & Hc' & Hidx & Hs).
      exists c'. split; [|auto].
      rewrite (remove_communities _ _ _ E1) in Hc'. eapply in_delete_at. exact Hc'.
Qed.

Lemma skipped_violating (c : Community.t) : skipped false c = negb (violating c).
Proof.
  unfold skipped, violating.
  destruct (Community.too_small c =? 0), (Community.too_few c =? 0); reflexivity.
Qed.

Section PackMoves.

Variable F : Type.
Variable fmean : list F -> F.
Variable fzero : F.
Variable partition_method :
  list (list F) -> option (list Z) -> Z -> option Z -> option Z -> option Z -> Z -> list Z.
Variable bin_pack : list Z -> Z -> list Z.
Variable cfg : Config F.

Hypothesis partition_method_ok : partition_contract partition_method.
Hypothesis bin_pack_ok : bins_contract bin_pack.

Lemma pack_moves (fuel : nat) (st st' : Improver) :
  consistent cfg st ->
  pack bin_pack fuel cfg st = Ok st' ->
  (forall c, In c (communities st) -> violating c = false ->
             In c (communities st')
             /\ forall node,
                 nth_error (membership st) node = Some (Community.index c) ->
                 nth_error (membership st') node = Some (Community.index c))
  /\ (forall c, In c (communities st) -> violating c = true ->
                ~ In (Community.index c) (map Community.index (communities st'))
                /\ forall node,
                    nth_error (membership st) node = Some (Community.index c) ->
                    exists m, nth_error (membership st') node = Some m
                              /\ next_community_index st <= m).
Proof.
  intros Hcons H.
  pose proof Hcons as [[_ _ _ Hindex _ Hnd _ _ _ _] _].
  pose proof (invariant_accounts cfg _ st (proj1 Hcons)) as Hacc.
  unfold pack in H.
  destruct (collect_small fuel false 0 [] [] st) as [[[amounts indices] st1]| |] eqn:E;
    simpl in H; try discriminate.
  destruct (collect_small_spec false fuel 0 [] [] st Hacc) as [_ Hspec].
  destruct (Hspec _ _ _ E)
    as (removed & Hacc1 & Hm1 & Hn1 & Ht1 & Hperm & Hamounts & Hindices & _ & Hskipped).
  simpl in Hamounts, Hindices, Hskipped.
  destruct (collect_small_removed false fuel _ _ _ _ _ _ _ E) as (extra & Hextra & Hbad).
  simpl in Hextra. subst extra.
  rewrite Forall_forall in Hskipped, Hindex.
  assert (Hnd2 : NoDup (map Community.index (communities st1)
                          ++ map Community.index removed)).
  { rewrite <- map_app. eapply Permutation_NoDup; [|exact Hnd].
    apply Permutation_map. exact Hperm. }
  assert (Hremoved : forall c, In c removed -> In c (communities st) /\ violating c = true).
  { intros c Hc.
    assert (Hin : In c (communities st)).
    { apply (Permutation_in c (Permutation_sym Hperm)). apply in_or_app. auto. }
    split; [assumption|].
    destruct (Hbad (Community.index c)) as (c2 & Hc2 & Hidx & Hs).
    { rewrite Hindices. apply in_map. assumption. }
    assert (c2 = c)
      by (apply (NoDup_map_injective Community.index (communities st)); auto).
    subst c2. rewrite skipped_violating in Hs. apply negb_false_iff. assumption. }
  assert (Hkept : forall c, In c (communities st1) ->
                            In c (communities st) /\ violating c = false).
  { intros c Hc. split.
    - apply (Permutation_in c (Permutation_sym Hperm)). apply in_or_app. auto.
    - specialize (Hskipped c Hc). rewrite skipped_violating in Hskipped.
      apply negb_true_iff. assumption. }
  assert (Hsplit : forall c, In c (communities st) ->
                             (violating c = false -> In c (communities st1))
                             /\ (violating c = true -> In c removed)).
  { intros c Hc. pose proof (Permutation_in c Hperm Hc) as Hin.
    apply in_app_or in Hin. split; intros Hv; destruct Hin as [Hin|Hin]; auto.
    - destruct (Hremoved c Hin). congruence.
    - destruct (Hkept c Hin). congruence. }
  destruct (length indices =? 0)%nat eqn:Hempty.
  { injection H as <-. apply Nat.eqb_eq in Hempty.
    assert (removed = []).
    { destruct removed; [reflexivity|]. rewrite Hindices in Hempty. discriminate. }
    subst removed. split.
    - intros c Hc Hv. split; [apply (Hsplit c Hc); assumption|].
      rewrite Hm1. auto.
    - intros c Hc Hv. destruct (proj2 (Hsplit c Hc) Hv). }
  apply Nat.eqb_neq in Hempty.
  set (bins := bin_pack amounts (target_comm_size cfg)) in *.
  destruct (bin_pack_ok amounts (target_comm_size cfg)) as [Hlenb Hnonneg].
  fold bins in Hlenb, Hnonneg.
  assert (Hlen : length bins = length indices).
  { rewrite Hlenb, Hamounts, Hindices, !length_map. reflexivity. }
  destruct (add_bins_spec F cfg st st1 removed indices bins Hcons Hacc1 Hm1 Hn1 Hperm)
    as (st2 & top & E2 & Htop & _ & Hc2 & _); auto.
  { rewrite Hindices. apply Permutation_refl. }
  { intros ->. apply Hempty. reflexivity. }
  rewrite E2 in H. injection H as <-.
  assert (Hm2 : membership st2
                = map (bin_label (combine indices bins) (next_community_index st)
                         (fun x => x)) (membership st)).
  { unfold add_bins in E2. rewrite Htop in E2. simpl in E2.
    apply add_membership in E2. simpl in E2.
    rewrite E2, relabel_bins_id, Hn1, Hm1. reflexivity. }
  assert (Hfst : map fst (combine indices bins) = indices)
    by (apply map_fst_combine; lia).
  split.
  - intros c Hc Hv. pose proof (proj1 (Hsplit c Hc) Hv) as Hin1. split.
    + rewrite Hc2. apply in_or_app. auto.
    + intros node Hnode. rewrite Hm2, nth_error_map, Hnode. simpl. f_equal.
      apply bin_label_other; [reflexivity|]. rewrite Hfst, Hindices.
      intros Hin. apply (NoDup_app_disjoint _ _ (Community.index c) Hnd2); [|assumption].
      apply in_map. assumption.
  - intros c Hc Hv. pose proof (proj2 (Hsplit c Hc) Hv) as Hinr. split.
    + rewrite Hc2, map_app, in_app_iff. intros [Hin|Hin].
      * apply (NoDup_app_disjoint _ _ (Community.index c) Hnd2 Hin).
        apply in_map. assumption.
      * rewrite map_map in Hin. simpl in Hin. rewrite map_id in Hin.
        apply in_fresh_indices in Hin. specialize (Hindex c Hc). lia.
    + intros node Hnode.
      destruct (in_combine_left indices bins (Community.index c)) as [b Hb]; [lia| |].
      { rewrite Hindices. apply in_map. assumption. }
      exists (next_community_index st + b). split.
      * rewrite Hm2, nth_error_map, Hnode. simpl. f_equal.
        apply bin_label_found; auto.
        -- rewrite Forall_forall. intros [i b'] Hib. simpl.
           pose proof (in_combine_l _ _ _ _ Hib) as Hi.
           pose proof (in_combine_r _ _ _ _ Hib) as Hb'.
           rewrite Forall_forall in Hnonneg. split; [|auto].
           rewrite Hindices in Hi. apply in_map_iff in Hi. destruct Hi as [c' [<- Hc']].
           apply (Hindex c'). apply (Hremoved c' Hc').
        -- rewrite Hfst, Hindices. eapply NoDup_app_remove_l. exact Hnd2.
      * apply in_combine_r in Hb. rewrite Forall_forall in Hnonneg.
        specialize (Hnonneg b Hb). lia.
Qed.

(** X7: from a state that [improve] goes through, [pack] leaves every
    community that has neither too few nodes nor too small a size as it is,
    record and nodes; it retires every other community, and the nodes of a
    retired community go to a community with an index that had not been given
    out. *)
Theorem pack_moves_the_violating_communities (membership0 : list Z) (st0 st : Improver)
    (fuel : nat) (st' : Improver) :
  valid_input cfg membership0 ->
  init cfg membership0 = Ok st0 ->
  execution F fmean fzero partition_method cfg st0 st ->
  pack bin_pack fuel cfg st = Ok st' ->
  (forall c, In c (communities st) -> violating c = false ->
             In c (communities st')
             /\ forall node,
                 nth_error (membership st) node = Some (Community.index c) ->
                 nth_error (membership st') node = Some (Community.index c))
  /\ (forall c, In c (communities st) -> violating c = true ->
                ~ In (Community.index c) (map Community.index (communities st'))
                /\ forall node,
                    nth_error (membership st) node = Some (Community.index c) ->
                    exists m, nth_error (membership st') node = Some m
                              /\ next_community_index st <= m).
Proof.
  intros Hvalid E0 Hexec H.
  destruct (init_good cfg membership0 Hvalid) as (st0' & E0' & Hgood0 & _).
  rewrite E0 in E0'. injection E0' as <-.
  pose proof (execution_good F fmean fzero partition_method cfg partition_method_ok
                st0 st Hexec Hgood0) as [Hcons _].
  exact (pack_moves fuel st st' Hcons H).
Qed.

End PackMoves.

Lemma pack_moves_the_violating_communities_witness :
  exists st0 st',
    valid_input one_fits [0; 1; 2]
    /\ init one_fits [0; 1; 2] = Ok st0
    /\ pack bin_pack 10 one_fits st0 = Ok st'
    /\ membership st' = [0; 3; 3]
    /\ map Community.index (communities st') = [0; 3]
    /\ forall c, In c (communities st0) -> violating c = true ->
                 ~ In (Community.index c) (map Community.index (communities st')).
Proof.
  let v := eval vm_compute in (init one_fits [0; 1; 2]) in
  match v with Ok ?s => pose (st0 := s) end.
  let v := eval vm_compute in (pack bin_pack 10 one_fits st0) in
  match v with Ok ?s => pose (st' := s) end.
  exists st0, st'.
  assert (E0 : init one_fits [0; 1; 2] = Ok st0) by reflexivity.
  assert (E1 : pack bin_pack 10 one_fits st0 = Ok st') by (vm_compute; reflexivity).
  split; [exact valid_one_fits|].
  split; [exact E0|]. split; [exact E1|].
  split; [reflexivity|]. split; [reflexivity|].
  pose proof (pack_moves_the_violating_communities Z zmean 0 first_apart bin_pack one_fits
                first_apart_contract bin_pack_contract [0; 1; 2] st0 st0 10 st'
                valid_one_fits E0 (rt_refl _ _ st0) E1) as [_ H].
  intros c Hc Hv. exact (proj1 (H c Hc Hv)).
Defined.

(** * Further properties of [compute_candidate_metacells] *)

(** [max_metacell_size] and [min_metacell_size], as the function computes
    them from the factors, in floating point. *)
Definition max_size_of (target_metacell_size : Z) (min_split_size_factor : option float)
    : outcome (option Z) :=
  match min_split_size_factor with
  | Some factor =>
      do product <- int_times_float target_metacell_size factor;
      do top <- math_ceil product;
      Ok (Some (top - 1))
  | None => Ok None
  end.

Definition min_size_of (target_metacell_size : Z) (max_merge_size_factor : option float)
    : outcome (option Z) :=
  match max_merge_size_factor with
  | Some factor =>
      do product <- int_times_float target_metacell_size factor;
      do bottom <- math_floor product;
      Ok (Some (bottom + 1))
  | None => Ok None
  end.

(** What the assertions of [compute_candidate_metacells] ask of its
    parameters, and the sizes [max_metacell_size] and [min_metacell_size]
    that it derives from them. *)
Definition valid_parameters {F : Type} (edge_weights : list (list F))
    (target_metacell_size : Z) (min_split_size_factor max_merge_size_factor : option float)
    (max_metacell_size min_metacell_size : option Z) : Prop :=
  forallb (fun row => (length row =? length edge_weights)%nat) edge_weights = true
  /\ 0 < target_metacell_size
  /\ (forall factor, min_split_size_factor = Some factor -> float_positive factor = true)
  /\ (forall factor, max_merge_size_factor = Some factor -> float_positive factor = true)
  /\ max_size_of target_metacell_size min_split_size_factor = Ok max_metacell_size
  /\ min_size_of target_metacell_size max_merge_size_factor = Ok min_metacell_size
  /\ (forall split_factor merge_factor,
         min_split_size_factor = Some split_factor ->
         max_merge_size_factor = Some merge_factor ->
         float_ltb merge_factor split_factor = true
         /\ exists min_size max_size,
             min_metacell_size = Some min_size
             /\ max_metacell_size = Some max_size
             /\ min_size <= max_size).

(** The steps [compute_candidate_metacells] goes through after the partition
    method when it works on an [Improver]. *)
Definition improver_steps (max_merge_size_factor : option float)
    (min_metacell_cells : option Z) : list Step :=
  [CallPartitionMethod; ConstructImprover; CallImprove]
  ++ (if is_some max_merge_size_factor then [CallPack] else [])
  ++ (if is_some min_metacell_cells then [CallFill] else []).

Section CandidatesSteps.

Variable F : Type.
Variable fmean : list F -> F.
Variable fzero : F.
Variable partition_method :
  list (list F) -> option (list Z) -> Z -> option Z -> option Z -> option Z -> Z -> list Z.
Variable bin_pack : list Z -> Z -> list Z.
Variable bin_fill : list Z -> Z -> list Z.
Variable compress_indices : list Z -> list Z.

(** The configuration that [compute_candidate_metacells] gives to the
    [Improver]. *)
Definition improver_config (edge_weights : list (list F)) (target_metacell_size : Z)
    (cell_sizes : option (list Z)) (max_metacell_size min_metacell_size : option Z)
    (min_metacell_cells : option Z) (must_complete_cover : bool) (random_seed : Z)
    : Config F :=
  {| edge_weights := edge_weights;
     node_sizes := node_sizes_of cell_sizes;
     target_comm_size := target_metacell_size;
     must_complete_cover := must_complete_cover;
     min_comm_size := min_metacell_size;
     max_comm_size := max_metacell_size;
     min_comm_nodes := min_metacell_cells;
     random_seed := random_seed |}.

Lemma max_size_of_some (target : Z) (split : option float) (max_size : option Z) :
  max_size_of target split = Ok max_size -> is_some max_size = is_some split.
Proof.
  destruct split as [s|]; simpl.
  - destruct (int_times_float target s); simpl; try discriminate.
    destruct (math_ceil a); simpl; try discriminate.
    intros H. injection H as <-. reflexivity.
  - intros H. injection H as <-. reflexivity.
Qed.

Lemma min_size_of_some (target : Z) (merge : option float) (min_size : option Z) :
  min_size_of target merge = Ok min_size -> is_some min_size = is_some merge.
Proof.
  destruct merge as [m|]; simpl.
  - destruct (int_times_float target m); simpl; try discriminate.
    destruct (math_floor a); simpl; try discriminate.
    intros H. injection H as <-. reflexivity.
  - intros H. injection H as <-. reflexivity.
Qed.

(** With parameters that pass the assertions, the function is the call of
    the partition method, followed by the work on the [Improver] when a
    factor is given. *)
Lemma candidates_unfold (fuel : nat) (edge_weights : list (list F))
    (target_metacell_size : Z) (cell_sizes : option (list Z))
    (min_split_size_factor max_merge_size_factor : option float)
    (max_metacell_size min_metacell_size : option Z)
    (min_metacell_cells : option Z) (must_complete_cover : bool) (random_seed : Z) :
  valid_parameters edge_weights target_metacell_size min_split_size_factor
    max_merge_size_factor max_metacell_size min_metacell_size ->
  let cfg :=
    improver_config edge_weights target_metacell_size cell_sizes max_metacell_size
      min_metacell_size min_metacell_cells must_complete_cover random_seed in
  let community_of_cells :=
    partition_method edge_weights (node_sizes_of cell_sizes) target_metacell_size
      max_metacell_size min_metacell_size min_metacell_cells random_seed in
  compute_candidate_metacells fmean fzero partition_method bin_pack bin_fill
    compress_indices fuel edge_weights target_metacell_size cell_sizes
    min_split_size_factor max_merge_size_factor min_metacell_cells must_complete_cover
    random_seed
  = if is_some min_split_size_factor || is_some max_merge_size_factor
    then
      run _ <- step CallPartitionMethod;
      run _ <- step ConstructImprover;
      run improver <- lift (init cfg community_of_cells);
      run _ <- step CallImprove;
      run improver <- lift (improve fmean fzero partition_method fuel cfg improver);
      run improver <-
        (if is_some max_merge_size_factor
         then run _ <- step CallPack; lift (pack bin_pack fuel cfg improver)
         else lift (Ok improver));
      run improver <-
        (if is_some min_metacell_cells
         then run _ <- step CallFill; lift (fill bin_fill fuel cfg improver)
         else lift (Ok improver));
      lift (Ok (compress_indices (membership improver)))
    else ([CallPartitionMethod], Ok community_of_cells).
Proof.
  intros (Hsquare & Htarget & Hsplit & Hmerge & Hmax & Hmin & Hboth) cfg
    community_of_cells.
  pose proof (max_size_of_some _ _ _ Hmax) as Hsome_max.
  pose proof (min_size_of_some _ _ _ Hmin) as Hsome_min.
  unfold compute_candidate_metacells. rewrite Hsquare. simpl assert.
  rewrite tbind_lift_ok.
  replace (0 <? target_metacell_size) with true by (symmetry; apply Z.ltb_lt; assumption).
  simpl assert. rewrite tbind_lift_ok.
  assert (Hmax' : match min_split_size_factor with
                  | Some factor =>
                      do _ <- assert (float_positive factor);
                      do product <- int_times_float target_metacell_size factor;
                      do top <- math_ceil product;
                      Ok (Some (top - 1))
                  | None => Ok None
                  end = Ok max_metacell_size).
  { destruct min_split_size_factor as [s|]; [|exact Hmax].
    rewrite (Hsplit s eq_refl). exact Hmax. }
  assert (Hmin' : match max_merge_size_factor with
                  | Some factor =>
                      do _ <- assert (float_positive factor);
                      do product <- int_times_float target_metacell_size factor;
                      do bottom <- math_floor product;
                      Ok (Some (bottom + 1))
                  | None => Ok None
                  end = Ok min_metacell_size).
  { destruct max_merge_size_factor as [m|]; [|exact Hmin].
    rewrite (Hmerge m eq_refl). exact Hmin. }
  rewrite Hmax', tbind_lift_ok, Hmin', tbind_lift_ok.
  assert (Hcheck : match min_split_size_factor, max_merge_size_factor with
                   | Some split_factor, Some merge_factor =>
                       do _ <- assert (float_ltb merge_factor split_factor);
                       match min_metacell_size, max_metacell_size with
                       | Some min_size, Some max_size => assert (min_size <=? max_size)
                       | _, _ => Raised AssertionError
                       end
                   | _, _ => Ok tt
                   end = Ok tt).
  { destruct min_split_size_factor as [s|], max_merge_size_factor as [m|];
      try reflexivity.
    destruct (Hboth s m eq_refl eq_refl) as (Hlt & mn & mx & -> & -> & Hle).
    rewrite Hlt. simpl. apply Z.leb_le in Hle. rewrite Hle. reflexivity. }
  rewrite Hcheck, tbind_lift_ok.
  rewrite Hsome_max, Hsome_min.
  subst cfg community_of_cells. unfold improver_config.
  destruct (is_some min_split_size_factor || is_some max_merge_size_factor);
    reflexivity.
Qed.

End CandidatesSteps.


(** ** [compute_candidate_metacells] returns *)

Lemma collect_small_more_fuel (only_few : bool) (fuel : nat) :
  forall position amounts indices st r fuel',
    collect_small fuel only_few position amounts indices st = Ok r ->
    (fuel <= fuel')%nat ->
    collect_small fuel' only_few position amounts indices st = Ok r.
Proof.
  induction fuel as [|fuel IH]; intros position amounts indices st r fuel' H Hle;
    [discriminate|].
  destruct fuel' as [|fuel']; [lia|].
  rewrite collect_small_unfold in *.
  destruct (nth_error (communities st) position) as [c|]; [|assumption].
  destruct (skipped only_few c).
  - apply (IH _ _ _ _ _ fuel' H). lia.
  - destruct (remove position st) as [st1| |]; simpl in *; try discriminate.
    apply (IH _ _ _ _ _ fuel' H). lia.
Qed.

Lemma pack_more_fuel {F : Type} (bin_pack : list Z -> Z -> list Z) (cfg : Config F)
    (fuel fuel' : nat) (st st' : Improver) :
  pack bin_pack fuel cfg st = Ok st' ->
  (fuel <= fuel')%nat ->
  pack bin_pack fuel' cfg st = Ok st'.
Proof.
  unfold pack. intros H Hle.
  destruct (collect_small fuel false 0 [] [] st) as [r| |] eqn:E; simpl in H;
    try discriminate.
  rewrite (collect_small_more_fuel false fuel _ _ _ _ r fuel' E Hle). exact H.
Qed.

Lemma fill_more_fuel {F : Type} (bin_fill : list Z -> Z -> list Z) (cfg : Config F)
    (fuel fuel' : nat) (st st' : Improver) :
  fill bin_fill fuel cfg st = Ok st' ->
  (fuel <= fuel')%nat ->
  fill bin_fill fuel' cfg st = Ok st'.
Proof.
  unfold fill. intros H Hle. destruct (min_comm_nodes cfg) as [k|]; [|discriminate].
  destruct (collect_small fuel true 0 [] [] st) as [r| |] eqn:E; simpl in H;
    try discriminate.
  rewrite (collect_small_more_fuel true fuel _ _ _ _ r fuel' E Hle). exact H.
Qed.


Section CandidatesReturn.

Variable F : Type.
Variable fmean : list F -> F.
Variable fzero : F.
Variable partition_method :
  list (list F) -> option (list Z) -> Z -> option Z -> option Z -> option Z -> Z -> list Z.
Variable bin_pack : list Z -> Z -> list Z.
Variable bin_fill : list Z -> Z -> list Z.
Variable compress_indices : list Z -> list Z.

Hypothesis partition_method_ok : partition_contract partition_method.
Hypothesis bin_pack_ok : bins_contract bin_pack.
Hypothesis bin_fill_ok : bins_contract bin_fill.

(** The work on the [Improver] returns, with the same states for every
    amount of fuel that is large enough. *)
Lemma improver_work_returns (cfg : Config F) (membership0 : list Z) :
  valid_input cfg membership0 ->
  exists n st0 st1 st2 st3,
    init cfg membership0 = Ok st0
    /\ forall fuel,
        (n <= fuel)%nat ->
        improve fmean fzero partition_method fuel cfg st0 = Ok st1
        /\ (if is_some (min_comm_size cfg) then pack bin_pack fuel cfg st1 else Ok st1)
           = Ok st2
        /\ (if is_some (min_comm_nodes cfg) then fill bin_fill fuel cfg st2 else Ok st2)
           = Ok st3.
Proof.
  intros Hvalid.
  destruct (init_good cfg membership0 Hvalid) as (st0 & E0 & Hgood0 & _).
  destruct (improve_returns F fmean fzero partition_method cfg partition_method_ok
              st0 Hgood0) as (st1 & [n1 Hn1] & [Hcons1 _]).
  assert (H2 : exists n2 st2,
             consistent cfg st2
             /\ forall fuel, (n2 <= fuel)%nat ->
                             (if is_some (min_comm_size cfg)
                              then pack bin_pack fuel cfg st1 else Ok st1) = Ok st2).
  { destruct (is_some (min_comm_size cfg)).
    - destruct (pack_spec F bin_pack cfg bin_pack_ok (S (length (communities st1))) st1
                  Hcons1) as [Hret Hspec].
      destruct Hret as [st2 E2]; [lia|].
      exists (S (length (communities st1))), st2. split; [apply (Hspec st2 E2)|].
      intros fuel Hfuel. eapply pack_more_fuel; eassumption.
    - exists 0%nat, st1. auto. }
  destruct H2 as (n2 & st2 & Hcons2 & Hn2).
  assert (H3 : exists n3 st3,
             forall fuel, (n3 <= fuel)%nat ->
                          (if is_some (min_comm_nodes cfg)
                           then fill bin_fill fuel cfg st2 else Ok st2) = Ok st3).
  { destruct (min_comm_nodes cfg) as [k|] eqn:Hk; simpl.
    - destruct (fill_spec F bin_fill cfg bin_fill_ok (S (length (communities st2))) st2 k
                  Hcons2 Hk) as [Hret _].
      destruct Hret as [st3 E3]; [lia|].
      exists (S (length (communities st2))), st3.
      intros fuel Hfuel. eapply fill_more_fuel; eassumption.
    - exists 0%nat, st2. auto. }
  destruct H3 as (n3 & st3 & Hn3).
  exists (Nat.max n1 (Nat.max n2 n3)), st0, st1, st2, st3. split; [assumption|].
  intros fuel Hfuel. split; [apply Hn1; lia|]. split; [apply Hn2; lia | apply Hn3; lia].
Qed.

Lemma node_sizes_of_length {A : Type} (cell_sizes : option (list Z)) (weights : list A) :
  match cell_sizes with
  | Some sizes => length sizes = length weights
  | None => True
  end ->
  match node_sizes_of cell_sizes with
  | Some sizes => length sizes = length weights
  | None => True
  end.
Proof.
  destruct cell_sizes as [sizes|]; simpl; [|trivial].
  rewrite length_map. trivial.
Qed.

(** X8: [compute_candidate_metacells] returns.  For a square matrix of edge
    weights that is not empty, one size per cell when sizes are given,
    parameters that pass the assertions (with the sizes computed from the
    factors in floating point), and a partition method, [bin_pack] and
    [bin_fill] that keep their contracts, the function returns a membership
    vector, the same for every amount of fuel that is large enough.
    Without a factor it calls the partition method and nothing else; with a
    factor it constructs the [Improver] and calls [improve], then [pack]
    when a merge factor is given, then [fill] when a minimal number of cells
    is given. *)
Theorem candidates_return (edge_weights : list (list F)) (target_metacell_size : Z)
    (cell_sizes : option (list Z))
    (min_split_size_factor max_merge_size_factor : option float)
    (max_metacell_size min_metacell_size : option Z)
    (min_metacell_cells : option Z) (must_complete_cover : bool) (random_seed : Z) :
  valid_parameters edge_weights target_metacell_size min_split_size_factor
    max_merge_size_factor max_metacell_size min_metacell_size ->
  edge_weights <> [] ->
  match cell_sizes with
  | Some sizes => length sizes = length edge_weights
  | None => True
  end ->
  exists n result,
    forall fuel,
      (n <= fuel)%nat ->
      compute_candidate_metacells fmean fzero partition_method bin_pack bin_fill
        compress_indices fuel edge_weights target_metacell_size cell_sizes
        min_split_size_factor max_merge_size_factor min_metacell_cells must_complete_cover
        random_seed
      = (if is_some min_split_size_factor || is_some max_merge_size_factor
         then improver_steps max_merge_size_factor min_metacell_cells
         else [CallPartitionMethod],
         Ok result).
Proof.
  intros Hparams Hne Hsizes.
  apply (node_sizes_of_length cell_sizes edge_weights) in Hsizes.
  set (cfg := improver_config F edge_weights target_metacell_size cell_sizes
                max_metacell_size min_metacell_size min_metacell_cells
                must_complete_cover random_seed).
  set (community_of_cells :=
         partition_method edge_weights (node_sizes_of cell_sizes) target_metacell_size
           max_metacell_size min_metacell_size min_metacell_cells random_seed).
  destruct (is_some min_split_size_factor || is_some max_merge_size_factor) eqn:Hfactor.
  2:{ exists 0%nat, community_of_cells. intros fuel _.
      rewrite (candidates_unfold F fmean fzero partition_method bin_pack bin_fill
                 compress_indices fuel _ _ _ _ _ _ _ _ _ _ Hparams).
      rewrite Hfactor. reflexivity. }
  assert (Hvalid : valid_input cfg community_of_cells).
  { destruct (partition_method_ok edge_weights (node_sizes_of cell_sizes)
                target_metacell_size max_metacell_size min_metacell_size
                min_metacell_cells random_seed Hsizes) as [Hlen Hdense].
    fold community_of_cells in Hlen, Hdense.
    split; [|split; [assumption|split; [assumption|exact Hsizes]]].
    intros E. rewrite E in Hlen. destruct edge_weights; [congruence | discriminate]. }
  destruct (improver_work_returns cfg community_of_cells Hvalid)
    as (n & st0 & st1 & st2 & st3 & E0 & Hn).
  exists n, (compress_indices (membership st3)). intros fuel Hfuel.
  destruct (Hn fuel Hfuel) as (E1 & E2 & E3).
  rewrite (candidates_unfold F fmean fzero partition_method bin_pack bin_fill
             compress_indices fuel _ _ _ _ _ _ _ _ _ _ Hparams).
  rewrite Hfactor. fold cfg. fold community_of_cells.
  rewrite E0, tbind_step, tbind_step, tbind_lift_ok, tbind_step, E1, tbind_lift_ok.
  assert (Hmin : is_some (min_comm_size cfg) = is_some max_merge_size_factor).
  { destruct Hparams as (_ & _ & _ & _ & _ & Hmin & _).
    apply (min_size_of_some _ _ _ Hmin). }
  change (min_comm_nodes cfg) with min_metacell_cells in E3.
  rewrite Hmin in E2. unfold improver_steps.
  destruct (is_some max_merge_size_factor), (is_some min_metacell_cells);
    try (injection E2 as E2; subst st2); try (injection E3 as E3; subst st3);
    unfold tbind, lift, step; cbn [fst snd app];
    rewrite ?E2; cbn [fst snd app]; rewrite ?E3; reflexivity.
Qed.

End CandidatesReturn.

Lemma valid_example_parameters :
  valid_parameters [[0; 1; 1]; [1; 0; 1]; [1; 1; 0]] 3 (Some float_two) (Some float_one)
    (Some 5) (Some 4).
Proof.
  split; [reflexivity|]. split; [lia|].
  split; [intros factor H; injection H as <-; reflexivity|].
  split; [intros factor H; injection H as <-; reflexivity|].
  split; [reflexivity|]. split; [reflexivity|].
  intros s m Hs Hm. injection Hs as <-. injection Hm as <-.
  split; [reflexivity|]. exists 4, 5. repeat split. lia.
Qed.

Lemma candidates_return_witness :
  valid_parameters [[0; 1; 1]; [1; 0; 1]; [1; 1; 0]] 3 (Some float_two) (Some float_one)
    (Some 5) (Some 4)
  /\ [[0; 1; 1]; [1; 0; 1]; [1; 1; 0]] <> []
  /\ length [4; 1; 1] = length [[0; 1; 1]; [1; 0; 1]; [1; 1; 0]]
  /\ compute_candidate_metacells zmean 0 first_apart bin_pack bin_fill compress_indices
       10 [[0; 1; 1]; [1; 0; 1]; [1; 1; 0]] 3 (Some [4; 1; 1]) (Some float_two)
       (Some float_one) (Some 1) false 123456
     = ([CallPartitionMethod; ConstructImprover; CallImprove; CallPack; CallFill],
        Ok [0; 1; 1])
  /\ exists n result,
      forall fuel,
        (n <= fuel)%nat ->
        compute_candidate_metacells zmean 0 first_apart bin_pack bin_fill compress_indices
          fuel [[0; 1; 1]; [1; 0; 1]; [1; 1; 0]] 3 (Some [4; 1; 1]) (Some float_two)
          (Some float_one) (Some 1) false 123456
        = ([CallPartitionMethod; ConstructImprover; CallImprove; CallPack; CallFill],
           Ok result).
Proof.
  assert (Hne : [[0; 1; 1]; [1; 0; 1]; [1; 1; 0]] <> []) by discriminate.
  split; [exact valid_example_parameters|]. split; [exact Hne|].
  split; [reflexivity|]. split; [vm_compute; reflexivity|].
  exact (candidates_return Z zmean 0 first_apart bin_pack bin_fill compress_indices
           first_apart_contract bin_pack_contract bin_fill_contract
           [[0; 1; 1]; [1; 0; 1]; [1; 1; 0]] 3 (Some [4; 1; 1]) (Some float_two)
           (Some float_one) (Some 5) (Some 4) (Some 1) false 123456
           valid_example_parameters Hne eq_refl).
Defined.

(** ** The empty graph, and what the assertions let through *)

Section CandidatesEdges.

Variable F : Type.
Variable fmean : list F -> F.
Variable fzero : F.
Variable partition_method :
  list (list F) -> option (list Z) -> Z -> option Z -> option Z -> option Z -> Z -> list Z.
Variable bin_pack : list Z -> Z -> list Z.
Variable bin_fill : list Z -> Z -> list Z.
Variable compress_indices : list Z -> list Z.

(** X9: on a graph without nodes, with parameters that pass the assertions,
    [compute_candidate_metacells] returns the empty membership of the
    partition method when no factor is given; with a factor it raises
    [ValueError] when it constructs the [Improver] (the maximum of an empty
    vector), after the call of the partition method and before [improve]. *)
Theorem candidates_of_an_empty_graph (fuel : nat) (target_metacell_size : Z)
    (cell_sizes : option (list Z))
    (min_split_size_factor max_merge_size_factor : option float)
    (max_metacell_size min_metacell_size : option Z)
    (min_metacell_cells : option Z) (must_complete_cover : bool) (random_seed : Z) :
  partition_contract partition_method ->
  valid_parameters (@nil (list F)) target_metacell_size min_split_size_factor
    max_merge_size_factor max_metacell_size min_metacell_size ->
  match cell_sizes with
  | Some sizes => sizes = []
  | None => True
  end ->
  compute_candidate_metacells fmean fzero partition_method bin_pack bin_fill
    compress_indices fuel [] target_metacell_size cell_sizes min_split_size_factor
    max_merge_size_factor min_metacell_cells must_complete_cover random_seed
  = if is_some min_split_size_factor || is_some max_merge_size_factor
    then ([CallPartitionMethod; ConstructImprover], Raised ValueError)
    else ([CallPartitionMethod], Ok []).
Proof.
  intros Hcontract Hparams Hsizes.
  rewrite (candidates_unfold F fmean fzero partition_method bin_pack bin_fill
             compress_indices fuel _ _ _ _ _ _ _ _ _ _ Hparams).
  destruct (Hcontract [] (node_sizes_of cell_sizes) target_metacell_size
              max_metacell_size min_metacell_size min_metacell_cells random_seed)
    as [Hlen _].
  { destruct cell_sizes as [s|]; [rewrite Hsizes; reflexivity | exact I]. }
  apply length_zero_iff_nil in Hlen. rewrite Hlen.
  destruct (is_some min_split_size_factor || is_some max_merge_size_factor);
    reflexivity.
Qed.

Ltac check_failed := unfold tbind at 1, lift; cbn [fst snd In]; intros [].

(** X10: [compute_candidate_metacells] reaches the call of the partition
    method exactly when its parameters pass all the assertions: the matrix of
    edge weights is square, the target size is positive, each factor that is
    given is positive and its product with the target size is a finite
    double, and when both factors are given the merge factor is less than
    the split factor and the minimal size [floor(target * merge) + 1] is at
    most the maximal size [ceil(target * split) - 1], both products as
    floating point multiplication rounds them. *)
Theorem partition_is_reached_iff_parameters_valid (fuel : nat)
    (edge_weights : list (list F)) (target_metacell_size : Z)
    (cell_sizes : option (list Z))
    (min_split_size_factor max_merge_size_factor : option float)
    (min_metacell_cells : option Z) (must_complete_cover : bool) (random_seed : Z) :
  In CallPartitionMethod
    (fst (compute_candidate_metacells fmean fzero partition_method bin_pack bin_fill
            compress_indices fuel edge_weights target_metacell_size cell_sizes
            min_split_size_factor max_merge_size_factor min_metacell_cells
            must_complete_cover random_seed))
  <-> exists max_metacell_size min_metacell_size,
        valid_parameters edge_weights target_metacell_size min_split_size_factor
          max_merge_size_factor max_metacell_size min_metacell_size.
Proof.
  split.
  - unfold compute_candidate_metacells.
    destruct (forallb _ edge_weights) eqn:Hsquare; simpl assert;
      [rewrite tbind_lift_ok | check_failed].
    destruct (0 <? target_metacell_size) eqn:Htarget; simpl assert;
      [rewrite tbind_lift_ok | check_failed].
    apply Z.ltb_lt in Htarget.
    match goal with
    | |- In _ (fst (tbind (lift ?m) _)) -> _ =>
        destruct m as [max_size| |] eqn:Hmax; [rewrite tbind_lift_ok | check_failed..]
    end.
    match goal with
    | |- In _ (fst (tbind (lift ?m) _)) -> _ =>
        destruct m as [min_size| |] eqn:Hmin; [rewrite tbind_lift_ok | check_failed..]
    end.
    match goal with
    | |- In _ (fst (tbind (lift ?m) _)) -> _ =>
        destruct m as [[]| |] eqn:Hcheck; [rewrite tbind_lift_ok | check_failed..]
    end.
    intros _. exists max_size, min_size.
    assert (Hsplit : forall factor, min_split_size_factor = Some factor ->
                                    float_positive factor = true).
    { intros factor ->. destruct (float_positive factor); [reflexivity|].
      simpl in Hmax. discriminate. }
    assert (Hmerge : forall factor, max_merge_size_factor = Some factor ->
                                    float_positive factor = true).
    { intros factor ->. destruct (float_positive factor); [reflexivity|].
      simpl in Hmin. discriminate. }
    split; [assumption|]. split; [assumption|].
    split; [assumption|]. split; [assumption|].
    split; [|split].
    + destruct min_split_size_factor as [s|]; [|exact Hmax].
      rewrite (Hsplit s eq_refl) in Hmax. exact Hmax.
    + destruct max_merge_size_factor as [m|]; [|exact Hmin].
      rewrite (Hmerge m eq_refl) in Hmin. exact Hmin.
    + intros s m -> ->.
      destruct (float_ltb m s); simpl in Hcheck; [|discriminate].
      split; [reflexivity|].
      destruct min_size as [mn|], max_size as [mx|]; try discriminate.
      exists mn, mx. split; [reflexivity|]. split; [reflexivity|].
      destruct (mn <=? mx) eqn:Hle; [apply Z.leb_le; assumption | discriminate].
  - intros (max_size & min_size & Hparams).
    rewrite (candidates_unfold F fmean fzero partition_method bin_pack bin_fill
               compress_indices fuel _ _ _ _ _ _ _ _ _ _ Hparams).
    destruct (is_some min_split_size_factor || is_some max_merge_size_factor).
    + rewrite tbind_step. left. reflexivity.
    + left. reflexivity.
Qed.

End CandidatesEdges.

Lemma valid_empty_parameters :
  valid_parameters (@nil (list Z)) 3 (Some float_two) (Some float_one) (Some 5) (Some 4).
Proof.
  split; [reflexivity|]. split; [lia|].
  split; [intros factor H; injection H as <-; reflexivity|].
  split; [intros factor H; injection H as <-; reflexivity|].
  split; [reflexivity|]. split; [reflexivity|].
  intros s m Hs Hm. injection Hs as <-. injection Hm as <-.
  split; [reflexivity|]. exists 4, 5. repeat split. lia.
Qed.

Lemma candidates_of_an_empty_graph_witness :
  partition_contract (@first_apart Z)
  /\ valid_parameters (@nil (list Z)) 3 (Some float_two) (Some float_one) (Some 5) (Some 4)
  /\ compute_candidate_metacells zmean 0 first_apart bin_pack bin_fill compress_indices
       10 [] 3 None (Some float_two) (Some float_one) None false 123456
     = ([CallPartitionMethod; ConstructImprover], Raised ValueError).
Proof.
  split; [exact first_apart_contract|]. split; [exact valid_empty_parameters|].
  exact (candidates_of_an_empty_graph Z zmean 0 first_apart bin_pack bin_fill
           compress_indices 10 3 None (Some float_two) (Some float_one) (Some 5) (Some 4)
           None false 123456 first_apart_contract valid_empty_parameters I).
Defined.

(** The target 3 with the split factor one half and the double nearest to
    one third as merge factor: the factors are in order, but three times the
    merge factor rounds to one, so the minimal size is 2 and the maximal
    size is 1, and the partition method is not reached. *)
Lemma partition_is_reached_iff_parameters_valid_witness :
  float_ltb float_third float_half = true
  /\ min_size_of 3 (Some float_third) = Ok (Some 2)
  /\ max_size_of 3 (Some float_half) = Ok (Some 1)
  /\ ~ In CallPartitionMethod
         (fst (compute_candidate_metacells zmean 0 first_apart bin_pack bin_fill
                 compress_indices 10 [[0]] 3 None (Some float_half) (Some float_third)
                 None false 123456)).
Proof.
  split; [reflexivity|]. split; [reflexivity|]. split; [reflexivity|]. intros H.
  apply (partition_is_reached_iff_parameters_valid Z zmean 0 first_apart bin_pack bin_fill
           compress_indices) in H.
  destruct H as (max_size & min_size & _ & _ & _ & _ & Hmax & Hmin & H).
  destruct (H _ _ eq_refl eq_refl) as (_ & mn & mx & -> & -> & Hle).
  vm_compute in Hmax. vm_compute in Hmin.
  injection Hmax as <-. injection Hmin as <-. lia.
Defined.


(** * The totals of the [Improver] and the bounds *)

Lemma sum_of_pos_iff {A : Type} (f : A -> Z) (l : list A) :
  (forall x, In x l -> 0 <= f x) ->
  (0 < sum_of f l <-> exists x, In x l /\ 0 < f x).
Proof.
  induction l as [|a l IH]; intros Hpos.
  - rewrite sum_of_nil. split; [lia | intros [x [[] _]]].
  - rewrite sum_of_cons.
    assert (Ha : 0 <= f a) by (apply Hpos; left; reflexivity).
    assert (Hl : forall x, In x l -> 0 <= f x) by (intros x Hx; apply Hpos; right; exact Hx).
    pose proof (sum_of_nonneg f l Hl) as Hsum.
    specialize (IH Hl). split.
    + intros H. destruct (Z.lt_ge_cases 0 (f a)) as [Hlt|Hge].
      * exists a. split; [left; reflexivity | assumption].
      * destruct (proj1 IH) as [x [Hx Hfx]]; [lia|].
        exists x. split; [right; assumption | assumption].
    + intros [x [[->|Hx] Hfx]]; [lia|].
      assert (0 < sum_of f l) by (apply IH; exists x; auto). lia.
Qed.

Section Totals.

Variable F : Type.
Variable fmean : list F -> F.
Variable fzero : F.
Variable partition_method :
  list (list F) -> option (list Z) -> Z -> option Z -> option Z -> option Z -> Z -> list Z.
Variable cfg : Config F.

Hypothesis partition_method_ok : partition_contract partition_method.

(** X11: in every state that [improve] goes through, the totals that guard
    its loops say what they are tested for: [too_few] is positive exactly
    when a community has fewer nodes than the minimal number, [too_small]
    exactly when a community has less than the minimal size, [too_large]
    exactly when a community has more than the maximal size; no community is
    empty, and there are at most as many communities as nodes. *)
Theorem totals_flag_violations (membership0 : list Z) (st0 st : Improver) :
  valid_input cfg membership0 ->
  init cfg membership0 = Ok st0 ->
  execution F fmean fzero partition_method cfg st0 st ->
  (0 < too_few st
   <-> exists c min_nodes,
         In c (communities st)
         /\ min_comm_nodes cfg = Some min_nodes /\ Community.nodes c < min_nodes)
  /\ (0 < too_small st
      <-> exists c min_size,
            In c (communities st)
            /\ min_comm_size cfg = Some min_size /\ Community.size c < min_size)
  /\ (0 < too_large st
      <-> exists c max_size,
            In c (communities st)
            /\ max_comm_size cfg = Some max_size /\ max_size < Community.size c)
  /\ (forall c, In c (communities st) -> 0 < Community.nodes c)
  /\ (length (communities st) <= length membership0)%nat.
Proof.
  intros Hvalid E0 Hexec.
  destruct (init_good cfg membership0 Hvalid) as (st0' & E0' & Hgood0 & _).
  rewrite E0 in E0'. injection E0' as <-.
  pose proof (execution_good F fmean fzero partition_method cfg partition_method_ok
                st0 st Hexec Hgood0) as [Hcons Hinh].
  pose proof Hcons as [[_ _ _ _ Hdesc _ _ Hf Hs Hl] _].
  rewrite Forall_forall in Hdesc.
  assert (Hnn : forall c, In c (communities st) -> nonneg_record c).
  { intros c Hc. eapply describes_nonneg. apply (Hdesc c Hc). }
  split; [|split; [|split; [|split]]].
  - rewrite Hf, sum_of_pos_iff by (intros c Hc; apply (Hnn c Hc)). split.
    + intros [c [Hc Hpos]]. destruct (Hdesc c Hc) as (_ & Hnodes & _ & Hfew & _).
      rewrite <- Hnodes in Hfew. rewrite Hfew in Hpos. unfold few_of in Hpos.
      destruct (min_comm_nodes cfg) as [k|]; [|lia].
      exists c, k. split; [assumption|]. split; [reflexivity|].
      destruct (Z.ltb_spec (Community.nodes c) k); lia.
    + intros (c & k & Hc & Hk & Hlt). exists c. split; [assumption|].
      destruct (Hdesc c Hc) as (_ & Hnodes & _ & Hfew & _).
      rewrite <- Hnodes in Hfew. rewrite Hfew. unfold few_of. rewrite Hk.
      destruct (Z.ltb_spec (Community.nodes c) k); lia.
  - rewrite Hs, sum_of_pos_iff by (intros c Hc; apply (Hnn c Hc)). split.
    + intros [c [Hc Hpos]]. destruct (Hdesc c Hc) as (_ & _ & Hsize & _ & Hsmall & _).
      rewrite <- Hsize in Hsmall. rewrite Hsmall in Hpos. unfold small_of in Hpos.
      destruct (min_comm_size cfg) as [k|]; [|lia].
      exists c, k. split; [assumption|]. split; [reflexivity|].
      destruct (Z.ltb_spec (Community.size c) k); lia.
    + intros (c & k & Hc & Hk & Hlt). exists c. split; [assumption|].
      destruct (Hdesc c Hc) as (_ & _ & Hsize & _ & Hsmall & _).
      rewrite <- Hsize in Hsmall. rewrite Hsmall. unfold small_of. rewrite Hk.
      destruct (Z.ltb_spec (Community.size c) k); lia.
  - rewrite Hl, sum_of_pos_iff by (intros c Hc; apply (Hnn c Hc)). split.
    + intros [c [Hc Hpos]]. destruct (Hdesc c Hc) as (_ & _ & Hsize & _ & _ & Hlarge).
      rewrite <- Hsize in Hlarge. rewrite Hlarge in Hpos. unfold large_of in Hpos.
      destruct (max_comm_size cfg) as [k|]; [|lia].
      exists c, k. split; [assumption|]. split; [reflexivity|].
      destruct (Z.ltb_spec k (Community.size c)); lia.
    + intros (c & k & Hc & Hk & Hlt). exists c. split; [assumption|].
      destruct (Hdesc c Hc) as (_ & _ & Hsize & _ & _ & Hlarge).
      rewrite <- Hsize in Hlarge. rewrite Hlarge. unfold large_of. rewrite Hk.
      destruct (Z.ltb_spec k (Community.size c)); lia.
  - unfold inhabited in Hinh. rewrite Forall_forall in Hinh. exact Hinh.
  - destruct Hvalid as (_ & _ & Hlen & _). rewrite Hlen.
    apply (communities_bound F cfg st Hcons Hinh).
Qed.

End Totals.

Lemma totals_flag_violations_witness :
  exists st0 st,
    valid_input large_and_small [0; 1]
    /\ init large_and_small [0; 1] = Ok st0
    /\ improve zmean 0 first_apart 10 large_and_small st0 = Ok st
    /\ (too_few st, too_small st, too_large st) = (2, 3, 5)
    /\ map (fun c => (Community.nodes c, Community.size c)) (communities st)
       = [(1, 10); (1, 1)]
    /\ (0 < too_large st
        <-> exists c max_size,
              In c (communities st)
              /\ max_comm_size large_and_small = Some max_size
              /\ max_size < Community.size c).
Proof.
  let v := eval vm_compute in (init large_and_small [0; 1]) in
  match v with Ok ?s => pose (st0 := s) end.
  let v := eval vm_compute in (improve zmean 0 first_apart 10 large_and_small st0) in
  match v with Ok ?s => pose (st := s) end.
  exists st0, st.
  assert (E0 : init large_and_small [0; 1] = Ok st0) by reflexivity.
  assert (E1 : improve zmean 0 first_apart 10 large_and_small st0 = Ok st)
    by (vm_compute; reflexivity).
  split; [exact valid_large_and_small|].
  split; [exact E0|]. split; [exact E1|].
  split; [reflexivity|]. split; [reflexivity|].
  exact (proj1 (proj2 (proj2
           (totals_flag_violations Z zmean 0 first_apart large_and_small
              first_apart_contract [0; 1] st0 st valid_large_and_small E0
              (improve_execution Z zmean 0 first_apart large_and_small 10 st0 st E1))))).
Defined.

(** * Further properties of the collection of the piles *)

(** The frame of the cells of a pile, for a complete data of [cells] cells:
    a column of int32 metacells [values], one for each index, and indices
    that are cells of the complete data. *)
Definition pile_of (cells : nat) (cells_frame : DataFrame) (values : list Z) : Prop :=
  lookup "metacell" (columns cells_frame) = Some {| dtype := DInt32; data := values |}
  /\ length values = length (frame_index cells_frame)
  /\ Forall is_int32 values
  /\ forall i, In i (frame_index cells_frame) -> 0 <= i < Z.of_nat cells.

(** What [_collect_pile_results] does in the preliminary phase, without
    intermediate results. *)
Lemma collect_pile_results_preliminary (cdata : AnnData)
    (cells_frame genes_frame : DataFrame) (metacells_count pile_index directs : Z)
    (vector : Vector) (values : list Z) :
  lookup "pre_directs" (uns cdata) = Some directs ->
  lookup "pre_metacell" (obs cdata) = Some vector ->
  pile_of (length (data vector)) cells_frame values ->
  (values = [] ->
   _collect_pile_results cdata false cells_frame genes_frame metacells_count pile_index
     false = Raised ValueError)
  /\ (values <> [] ->
      exists cdata' count' vector',
        _collect_pile_results cdata false cells_frame genes_frame metacells_count
          pile_index false = Ok (cdata', count')
        /\ (exists x, In x values
                      /\ count' = (if 0 <=? x then astype_int32 (x + metacells_count)
                                   else x) + 1)
        /\ (forall x, In x values ->
                      (if 0 <=? x then astype_int32 (x + metacells_count) else x)
                      < count')
        /\ ((forall x, In x values -> x < 0) -> count' <= 0)
        /\ lookup "pre_metacell" (obs cdata') = Some vector'
        /\ dtype vector' = dtype vector
        /\ length (data vector') = length (data vector)
        /\ (forall position,
               (forall i, In i (frame_index cells_frame) -> Z.to_nat i <> position) ->
               nth_error (data vector') position = nth_error (data vector) position)
        /\ lookup "pre_directs" (uns cdata') = Some (directs + 1)
        /\ (forall name, name <> "pre_directs"%string ->
                         lookup name (uns cdata') = lookup name (uns cdata))
        /\ (forall name, name <> "pre_metacell"%string ->
                         lookup name (obs cdata') = lookup name (obs cdata))
        /\ var cdata' = var cdata).
Proof.
  intros Hd Hv (Hc & Hlen & _ & Hrange).
  split.
  - intros ->. unfold _collect_pile_results.
    unfold _modify at 1, get_m_data. simpl _prefix. rewrite Hd. simpl bind.
    unfold for_each. simpl orb. simpl bind.
    unfold column. rewrite Hc. reflexivity.
  - intros Hne.
    destruct (np_max_returns (offset_values values metacells_count)) as [top Htop].
    { unfold offset_values. destruct values; [congruence | discriminate]. }
    pose proof (scatter_in_range vector (frame_index cells_frame)
                  (offset_values values metacells_count)) as Hs.
    rewrite (DivideAndConquerFacts.collect_pile_results_returns cdata cells_frame
               genes_frame metacells_count pile_index directs top _ _ vector _
               Hd Hc (offset_assigned_int32 _ _) Htop Hv
               (Hs ltac:(unfold offset_values; rewrite length_map; exact Hlen) Hrange)).
    eexists. eexists. eexists. split; [reflexivity|].
    destruct (np_max_spec _ _ Htop) as [Hin Hle]. unfold offset_values in Hin, Hle.
    split.
    { apply in_map_iff in Hin. destruct Hin as [x [Hx Hin]]. exists x.
      split; [assumption | lia]. }
    split.
    { intros x Hx.
      assert (H : (if 0 <=? x then astype_int32 (x + metacells_count) else x) <= top).
      { apply Hle. apply in_map_iff. exists x. auto. }
      lia. }
    split.
    { intros Hneg. apply in_map_iff in Hin. destruct Hin as [x [Hx Hin]].
      specialize (Hneg x Hin). destruct (Z.leb_spec 0 x); lia. }
    split; [apply DivideAndConquerFacts.lookup_store_same|].
    split; [reflexivity|].
    split; [apply write_all_length|].
    split.
    { intros position Hout. apply write_all_untouched.
      intros Hin'. apply in_map_iff in Hin'. destruct Hin' as [i [Hi Hin']].
      apply (Hout i Hin'). assumption. }
    split; [apply DivideAndConquerFacts.lookup_store_same|].
    split; [intros name Hname; apply DivideAndConquerFacts.lookup_store_other;
            assumption|].
    split; [intros name Hname; apply DivideAndConquerFacts.lookup_store_other;
            assumption|].
    reflexivity.
Qed.

(** X12: in the preliminary phase and without intermediate results,
    [_collect_pile_results] raises [ValueError] for a pile without cells.
    For a pile with cells it returns; the count it returns is one more than
    the largest value it writes (so it is at most zero, whatever the count it
    was given, when every cell of the pile is an outlier); a cell outside the
    pile keeps its metacell; [pre_directs] grows by one; and no other
    annotation changes. *)
Theorem collect_pile_results_writes_the_pile (cdata : AnnData)
    (cells_frame genes_frame : DataFrame) (metacells_count pile_index directs : Z)
    (vector : Vector) (values : list Z) :
  lookup "pre_directs" (uns cdata) = Some directs ->
  lookup "pre_metacell" (obs cdata) = Some vector ->
  pile_of (length (data vector)) cells_frame values ->
  (values = [] ->
   _collect_pile_results cdata false cells_frame genes_frame metacells_count pile_index
     false = Raised ValueError)
  /\ (values <> [] ->
      exists cdata' count' vector',
        _collect_pile_results cdata false cells_frame genes_frame metacells_count
          pile_index false = Ok (cdata', count')
        /\ (exists x, In x values
                      /\ count' = (if 0 <=? x then astype_int32 (x + metacells_count)
                                   else x) + 1)
        /\ (forall x, In x values ->
                      (if 0 <=? x then astype_int32 (x + metacells_count) else x)
                      < count')
        /\ ((forall x, In x values -> x < 0) -> count' <= 0)
        /\ lookup "pre_metacell" (obs cdata') = Some vector'
        /\ dtype vector' = dtype vector
        /\ length (data vector') = length (data vector)
        /\ (forall position,
               (forall i, In i (frame_index cells_frame) -> Z.to_nat i <> position) ->
               nth_error (data vector') position = nth_error (data vector) position)
        /\ lookup "pre_directs" (uns cdata') = Some (directs + 1)
        /\ (forall name, name <> "pre_directs"%string ->
                         lookup name (uns cdata') = lookup name (uns cdata))
        /\ (forall name, name <> "pre_metacell"%string ->
                         lookup name (obs cdata') = lookup name (obs cdata))
        /\ var cdata' = var cdata).
Proof.
  intros Hd Hv Hpile.
  exact (collect_pile_results_preliminary cdata cells_frame genes_frame metacells_count
           pile_index directs vector values Hd Hv Hpile).
Qed.

Lemma collect_pile_results_writes_the_pile_witness :
  exists cdata0 cdata',
    _initial_divide_and_conquer_results (bare_data 4) false true = Ok cdata0
    /\ _collect_pile_results cdata0 false (fst (pile_frames [0; 2] [-1; -1]))
         (snd (pile_frames [0; 2] [-1; -1])) 5 0 false = Ok (cdata', 0)
    /\ lookup "pre_metacell" (obs cdata')
       = Some {| dtype := DInt32; data := [-1; -1; -1; -1] |}
    /\ lookup "pre_directs" (uns cdata') = Some 1.
Proof.
  let v := eval vm_compute in (_initial_divide_and_conquer_results (bare_data 4) false true) in
  match v with Ok ?s => pose (cdata0 := s) end.
  assert (Hpile : pile_of 4 (fst (pile_frames [0; 2] [-1; -1])) [-1; -1]).
  { split; [reflexivity|]. split; [reflexivity|]. split.
    - repeat constructor; unfold is_int32; lia.
    - intros i Hi. simpl in Hi. lia. }
  destruct (proj2 (collect_pile_results_writes_the_pile cdata0
                     (fst (pile_frames [0; 2] [-1; -1]))
                     (snd (pile_frames [0; 2] [-1; -1])) 5 0 0
                     {| dtype := DInt32; data := repeat (-1) 4 |} [-1; -1]
                     eq_refl eq_refl Hpile) ltac:(discriminate))
    as (cdata' & count' & vector' & E & _).
  exists cdata0, cdata'. split; [reflexivity|].
  vm_compute in E. injection E as <- <-.
  split; [reflexivity|]. split; reflexivity.
Defined.

(** The loop of [_collect_piles_results] over piles with distinct cells, in
    the preliminary phase. *)
Lemma collect_piles_loop_spec (results : list (DataFrame * DataFrame)) :
  forall (cdata : AnnData) (pile_index directs : Z) (vector : Vector),
    lookup "pre_directs" (uns cdata) = Some directs ->
    lookup "pre_metacell" (obs cdata) = Some vector ->
    dtype vector = DInt32 ->
    (forall cells_frame genes_frame,
        In (cells_frame, genes_frame) results ->
        exists values,
          values <> [] /\ pile_of (length (data vector)) cells_frame values) ->
    NoDup (concat (map (fun frames => frame_index (fst frames)) results)) ->
    exists cdata' vector',
      collect_piles_loop cdata false results 0 pile_index false = Ok cdata'
      /\ lookup "pre_directs" (uns cdata') = Some (directs + Z.of_nat (length results))
      /\ lookup "pre_metacell" (obs cdata') = Some vector'
      /\ dtype vector' = DInt32
      /\ length (data vector') = length (data vector)
      /\ (forall cells_frame genes_frame values k i x,
             In (cells_frame, genes_frame) results ->
             lookup "metacell" (columns cells_frame)
             = Some {| dtype := DInt32; data := values |} ->
             nth_error (frame_index cells_frame) k = Some i ->
             nth_error values k = Some x ->
             nth_error (data vector') (Z.to_nat i) = Some x)
      /\ (forall position,
             (forall i,
                 In i (concat (map (fun frames => frame_index (fst frames)) results)) ->
                 Z.to_nat i <> position) ->
             nth_error (data vector') position = nth_error (data vector) position).
Proof.
  induction results as [|[cells_frame genes_frame] results IH];
    intros cdata pile_index directs vector Hd Hv Hdtype Hok Hnd.
  { exists cdata, vector. simpl. rewrite Z.add_0_r.
    repeat (split; [first [assumption | reflexivity]|]).
    split; [intros ? ? ? ? ? ? []|]. reflexivity. }
  simpl in Hnd.
  destruct (Hok cells_frame genes_frame (or_introl eq_refl))
    as (values & Hne & Hpile).
  destruct (proj2 (collect_pile_results_preliminary cdata cells_frame genes_frame 0
                     pile_index directs vector values Hd Hv Hpile) Hne)
    as (cdata1 & count1 & vector1 & E1 & _ & _ & _ & Hv1 & Hdtype1 & Hlen1 & Hout1
        & Hd1 & _).
  destruct Hpile as (Hc & Hlen & Hint & Hrange).
  assert (Hwritten : forall k i x,
             nth_error (frame_index cells_frame) k = Some i ->
             nth_error values k = Some x ->
             nth_error (data vector1) (Z.to_nat i) = Some x).
  { intros k i x Hi Hx.
    apply DivideAndConquerFacts.collect_pile_results_metacell in E1.
    destruct E1 as (_ & values0 & pile & vector0 & vector1' & _ & Hc0 & Hp & _ & Hv0
                    & Hs & Hv1' & _).
    simpl in Hv0, Hv1'.
    rewrite Hc in Hc0. injection Hc0 as <-.
    rewrite offset_assigned_int32 in Hp. injection Hp as <-.
    rewrite Hv in Hv0. injection Hv0 as <-.
    rewrite Hv1 in Hv1'. injection Hv1' as <-.
    simpl in Hs. rewrite offset_values_zero in Hs by assumption.
    pose proof (spliced_entry vector vector1 (frame_index cells_frame) values 0 k i x
                  Hdtype Hlen) as Hw.
    rewrite offset_values_zero in Hw by assumption.
    rewrite Hw; try assumption.
    - destruct (0 <=? x); [|reflexivity]. rewrite Z.add_0_r. f_equal.
      apply astype_int32_id. rewrite Forall_forall in Hint. apply Hint.
      eapply nth_error_In. exact Hx.
    - eapply NoDup_app_remove_r. exact Hnd.
    - intros j Hj. apply Hrange. assumption.
    - rewrite Forall_forall in Hint. apply Hint. eapply nth_error_In. exact Hx. }
  destruct (IH cdata1 (pile_index + 1) (directs + 1) vector1 Hd1 Hv1)
    as (cdata' & vector' & E & Hd' & Hv' & Hdtype' & Hlen' & Hw & Hu).
  { congruence. }
  { intros c g Hin. destruct (Hok c g (or_intror Hin)) as (vs & Hvs & Hp).
    exists vs. split; [assumption|]. rewrite Hlen1. assumption. }
  { eapply NoDup_app_remove_l. exact Hnd. }
  exists cdata', vector'. cbn [collect_piles_loop]. rewrite E1. simpl bind.
  split; [exact E|].
  split; [rewrite Hd'; f_equal; cbn [length]; lia|].
  split; [assumption|]. split; [assumption|]. split; [congruence|]. split.
  - intros c g vs k i x [Hin|Hin] Hcol Hi Hx.
    + injection Hin as <- <-. rewrite Hc in Hcol. injection Hcol as <-.
      rewrite Hu; [apply (Hwritten k i x Hi Hx)|].
      intros j Hj Heq.
      assert (Hi' : In i (frame_index cells_frame)) by (eapply nth_error_In; exact Hi).
      assert (j = i).
      { pose proof (Hrange i Hi').
        assert (Hj' : exists c' g', In (c', g') results /\ In j (frame_index c')).
        { apply in_concat in Hj. destruct Hj as [l [Hl Hjl]].
          apply in_map_iff in Hl. destruct Hl as [[c' g'] [<- Hcg]].
          exists c', g'. split; assumption. }
        destruct Hj' as (c' & g' & Hcg & Hjc).
        destruct (Hok c' g' (or_intror Hcg)) as (vs' & _ & _ & _ & _ & Hrange').
        pose proof (Hrange' j Hjc). lia. }
      subst j. apply (NoDup_app_disjoint _ _ i Hnd); assumption.
    + apply (Hw c g vs k i x Hin Hcol Hi Hx).
  - intros position Hout. simpl in Hout.
    rewrite Hu by (intros i Hi; apply Hout; apply in_or_app; right; assumption).
    apply Hout1. intros i Hi. apply Hout. apply in_or_app. left. assumption.
Qed.

(** X13: [_collect_piles_results] adds no offset.  In the preliminary phase
    and without intermediate results, for piles with cells, whose indices
    are distinct cells of the complete data, it returns zero, every cell of
    a pile ends with the metacell it has in its pile, as it is, the other
    cells keep their metacell, and [pre_directs] grows by the number of
    piles.  (The count that [_collect_pile_results] returns is not used.) *)
Theorem piles_are_collected_without_offset (cdata : AnnData)
    (results_of_piles : list (DataFrame * DataFrame)) (directs : Z) (vector : Vector) :
  lookup "pre_directs" (uns cdata) = Some directs ->
  lookup "pre_metacell" (obs cdata) = Some vector ->
  dtype vector = DInt32 ->
  (forall cells_frame genes_frame,
      In (cells_frame, genes_frame) results_of_piles ->
      exists values, values <> [] /\ pile_of (length (data vector)) cells_frame values) ->
  NoDup (concat (map (fun frames => frame_index (fst frames)) results_of_piles)) ->
  exists cdata' vector',
    _collect_piles_results cdata results_of_piles "preliminary" false = Ok (cdata', 0)
    /\ lookup "pre_directs" (uns cdata')
       = Some (directs + Z.of_nat (length results_of_piles))
    /\ lookup "pre_metacell" (obs cdata') = Some vector'
    /\ (forall cells_frame genes_frame values k i x,
           In (cells_frame, genes_frame) results_of_piles ->
           lookup "metacell" (columns cells_frame)
           = Some {| dtype := DInt32; data := values |} ->
           nth_error (frame_index cells_frame) k = Some i ->
           nth_error values k = Some x ->
           nth_error (data vector') (Z.to_nat i) = Some x)
    /\ (forall position,
           (forall i,
               In i (concat (map (fun frames => frame_index (fst frames))
                               results_of_piles)) ->
               Z.to_nat i <> position) ->
           nth_error (data vector') position = nth_error (data vector) position).
Proof.
  intros Hd Hv Hdtype Hok Hnd.
  destruct (collect_piles_loop_spec results_of_piles cdata 0 directs vector Hd Hv Hdtype
              Hok Hnd) as (cdata' & vector' & E & Hd' & Hv' & _ & _ & Hw & Hu).
  exists cdata', vector'. unfold _collect_piles_results.
  simpl assert. simpl bind. simpl String.eqb. rewrite E. simpl. auto.
Qed.

Lemma piles_are_collected_without_offset_witness :
  exists cdata0 cdata',
    _initial_divide_and_conquer_results (bare_data 4) false true = Ok cdata0
    /\ NoDup (concat (map (fun frames => frame_index (fst frames)) two_piles))
    /\ _collect_piles_results cdata0 two_piles "preliminary" false = Ok (cdata', 0)
    /\ lookup "pre_directs" (uns cdata') = Some 2
    /\ lookup "pre_metacell" (obs cdata')
       = Some {| dtype := DInt32; data := [0; 1; 1; 0] |}.
Proof.
  let v := eval vm_compute in (_initial_divide_and_conquer_results (bare_data 4) false true) in
  match v with Ok ?s => pose (cdata0 := s) end.
  assert (Hok : forall cells_frame genes_frame,
             In (cells_frame, genes_frame) two_piles ->
             exists values, values <> [] /\ pile_of 4 cells_frame values).
  { intros c g [H|[H|[]]]; injection H as <- <-.
    - exists [0; 1]. split; [discriminate|]. split; [reflexivity|]. split; [reflexivity|].
      split; [repeat constructor; unfold is_int32; lia|].
      intros i Hi. simpl in Hi. lia.
    - exists [1; 0]. split; [discriminate|]. split; [reflexivity|]. split; [reflexivity|].
      split; [repeat constructor; unfold is_int32; lia|].
      intros i Hi. simpl in Hi. lia. }
  assert (Hnd : NoDup (concat (map (fun frames => frame_index (fst frames)) two_piles))).
  { simpl. repeat constructor; simpl; intros H; repeat destruct H as [H|H];
      try discriminate H; exact H. }
  destruct (piles_are_collected_without_offset cdata0 two_piles 0
              {| dtype := DInt32; data := repeat (-1) 4 |} eq_refl eq_refl eq_refl
              Hok Hnd) as (cdata' & vector' & E & Hd & _).
  exists cdata0, cdata'. split; [reflexivity|]. split; [exact Hnd|].
  split; [exact E|]. split; [exact Hd|].
  vm_compute in E. injection E as <-. reflexivity.
Defined.

(** ** The final phase, and the intermediate results *)

(** X16: in the final phase the name under which the collection functions
    look up the count of direct calls is [finaldirects].  On a data whose
    metadata has no such name they raise [KeyError]: [_collect_pile_results]
    for every pile, [_collect_piles_results] when there is at least one
    pile, and [_collect_outliers_results].  The data that
    [_initial_divide_and_conquer_results] prepares has [final_directs], and
    has [finaldirects] only if it had it before. *)
Theorem final_phase_is_not_collected (cdata : AnnData) :
  lookup "finaldirects" (uns cdata) = None ->
  (forall cells_frame genes_frame metacells_count pile_index intermediate,
      _collect_pile_results cdata true cells_frame genes_frame metacells_count pile_index
        intermediate = Raised KeyError)
  /\ (forall results_of_piles intermediate,
         results_of_piles <> [] ->
         _collect_piles_results cdata results_of_piles "final" intermediate
         = Raised KeyError)
  /\ (forall odata metacells_count piles_count intermediate,
         _collect_outliers_results cdata odata "final" metacells_count piles_count
           intermediate = Raised KeyError)
  /\ (forall adata pre_metacell,
         lookup "finaldirects" (uns adata) = None ->
         exists cdata0,
           _initial_divide_and_conquer_results adata false pre_metacell = Ok cdata0
           /\ lookup "final_directs" (uns cdata0) = Some 0
           /\ lookup "finaldirects" (uns cdata0) = None).
Proof.
  intros Hnone.
  assert (Hpile : forall cells_frame genes_frame metacells_count pile_index intermediate,
             _collect_pile_results cdata true cells_frame genes_frame metacells_count
               pile_index intermediate = Raised KeyError).
  { intros. unfold _collect_pile_results, _modify at 1, get_m_data. simpl _prefix.
    rewrite Hnone. reflexivity. }
  split; [exact Hpile|]. split; [|split].
  - intros results intermediate Hne. unfold _collect_piles_results.
    simpl assert. simpl bind. simpl String.eqb.
    destruct results as [|[cells_frame genes_frame] results]; [congruence|].
    cbn [collect_piles_loop]. rewrite Hpile. reflexivity.
  - intros. unfold _collect_outliers_results. simpl assert. simpl bind. simpl String.eqb.
    unfold _modify at 1, get_m_data. simpl _prefix. rewrite Hnone. reflexivity.
  - intros adata pre_metacell Hadata.
    unfold _initial_divide_and_conquer_results. simpl.
    destruct pre_metacell; simpl; eexists; (split; [reflexivity|]); simpl;
      (split;
       [rewrite DivideAndConquerFacts.lookup_store_same; reflexivity
       |rewrite !DivideAndConquerFacts.lookup_store_other by discriminate;
        assumption]).
Qed.

Lemma final_phase_is_not_collected_witness :
  exists cdata0,
    _initial_divide_and_conquer_results (bare_data 4) false true = Ok cdata0
    /\ lookup "finaldirects" (uns cdata0) = None
    /\ _collect_piles_results cdata0 two_piles "final" false = Raised KeyError.
Proof.
  let v := eval vm_compute in (_initial_divide_and_conquer_results (bare_data 4) false true) in
  match v with Ok ?s => pose (cdata0 := s) end.
  exists cdata0. split; [reflexivity|]. split; [reflexivity|].
  destruct (final_phase_is_not_collected cdata0 eq_refl) as (_ & H & _).
  apply H. discriminate.
Defined.



(** X17: [_initial_divide_and_conquer_results] cannot prepare the
    intermediate results: the entry for [pre_gene_deviant_votes] gives the
    name of the annotation as the [dtype] of the vector, which numpy refuses
    with [TypeError].  Without intermediate results it returns, with both
    counts of direct calls at zero, the feature mask of the genes cleared,
    and the vectors [metacell] and (when asked for) [pre_metacell] at -1 for
    every cell. *)
Theorem intermediate_results_are_not_initialised (adata : AnnData) (pre_metacell : bool) :
  _initial_divide_and_conquer_results adata true pre_metacell = Raised TypeError
  /\ exists cdata0,
      _initial_divide_and_conquer_results adata false pre_metacell = Ok cdata0
      /\ lookup "pre_directs" (uns cdata0) = Some 0
      /\ lookup "final_directs" (uns cdata0) = Some 0
      /\ lookup "feature" (var cdata0)
         = Some {| dtype := DBool; data := repeat 0 (n_vars adata) |}
      /\ lookup "metacell" (obs cdata0)
         = Some {| dtype := DInt32; data := repeat (-1) (n_obs adata) |}
      /\ (pre_metacell = true ->
          lookup "pre_metacell" (obs cdata0)
          = Some {| dtype := DInt32; data := repeat (-1) (n_obs adata) |}).
Proof.
  split; [reflexivity|].
  unfold _initial_divide_and_conquer_results. simpl.
  destruct pre_metacell; simpl; eexists; (split; [reflexivity|]); simpl.
  - split.
    { rewrite DivideAndConquerFacts.lookup_store_other by discriminate.
      apply DivideAndConquerFacts.lookup_store_same. }
    split; [apply DivideAndConquerFacts.lookup_store_same|].
    split; [apply DivideAndConquerFacts.lookup_store_same|].
    split; [apply DivideAndConquerFacts.lookup_store_same|].
    intros _. rewrite DivideAndConquerFacts.lookup_store_other by discriminate.
    apply DivideAndConquerFacts.lookup_store_same.
  - split.
    { rewrite DivideAndConquerFacts.lookup_store_other by discriminate.
      apply DivideAndConquerFacts.lookup_store_same. }
    split; [apply DivideAndConquerFacts.lookup_store_same|].
    split; [apply DivideAndConquerFacts.lookup_store_same|].
    split; [apply DivideAndConquerFacts.lookup_store_same|].
    discriminate.
Qed.

(** * What [fill] moves *)

Lemma filter_permutation {A : Type} (p : A -> bool) (l l' : list A) :
  Permutation l l' -> Permutation (filter p l) (filter p l').
Proof.
  induction 1 as [|x l l' _ IH|x y l|l l' l'' _ IH1 _ IH2]; simpl.
  - constructor.
  - destruct (p x); [constructor|]; assumption.
  - destruct (p x), (p y); try apply Permutation_refl. constructor.
  - eapply Permutation_trans; eassumption.
Qed.

Lemma filter_all {A : Type} (p : A -> bool) (l : list A) :
  Forall (fun x => p x = true) l -> filter p l = l.
Proof.
  induction 1 as [|x l Hx _ IH]; simpl; [reflexivity|]. rewrite Hx, IH. reflexivity.
Qed.

Lemma filter_none {A : Type} (p : A -> bool) (l : list A) :
  Forall (fun x => p x = false) l -> filter p l = [].
Proof.
  induction 1 as [|x l Hx _ IH]; simpl; [reflexivity|]. rewrite Hx, IH. reflexivity.
Qed.

Section FillMoves.

Variable F : Type.
Variable fmean : list F -> F.
Variable fzero : F.
Variable partition_method :
  list (list F) -> option (list Z) -> Z -> option Z -> option Z -> option Z -> Z -> list Z.
Variable bin_fill : list Z -> Z -> list Z.
Variable cfg : Config F.

Hypothesis partition_method_ok : partition_contract partition_method.
Hypothesis bin_fill_ok : bins_contract bin_fill.

(** The communities with too few nodes. *)
Definition too_few_communities (st : Improver) : list Community.t :=
  filter (fun c => negb (Community.too_few c =? 0)) (communities st).

Lemma fill_retires (fuel : nat) (st st' : Improver) (min_nodes : Z) :
  consistent cfg st ->
  min_comm_nodes cfg = Some min_nodes ->
  fill bin_fill fuel cfg st = Ok st' ->
  forall c, In c (communities st) -> Community.too_few c <> 0 ->
            too_few_communities st <> [] ->
            ~ In (Community.index c) (map Community.index (communities st')).
Proof.
  intros Hcons Hmin H c Hc Hfew _.
  pose proof Hcons as [[_ _ _ Hindex _ Hnd _ _ _ _] _].
  destruct (fill_spec F bin_fill cfg bin_fill_ok fuel st min_nodes Hcons Hmin)
    as [_ Hspec].
  destruct (Hspec st' H) as (_ & _ & kept & news & (Hc' & Hincl & Hnews & _) & Hskipped).
  rewrite Hc', map_app, in_app_iff. intros [Hin|Hin].
  - apply in_map_iff in Hin. destruct Hin as [k [E Hk]].
    assert (k = c).
    { apply (NoDup_map_injective Community.index (communities st)); auto. }
    subst k. rewrite Forall_forall in Hskipped. specialize (Hskipped c Hk).
    unfold skipped in Hskipped. simpl in Hskipped. apply Z.eqb_eq in Hskipped.
    contradiction.
  - apply in_map_iff in Hin. destruct Hin as [k [E Hk]].
    rewrite Forall_forall in Hnews, Hindex.
    destruct (Hnews k Hk) as [Hge _]. specialize (Hindex c Hc). lia.
Qed.

Lemma fill_keeps (fuel : nat) (st st' : Improver) (min_nodes : Z) :
  consistent cfg st ->
  min_comm_nodes cfg = Some min_nodes ->
  must_complete_cover cfg = false
  \/ min_nodes <= sum_of Community.nodes (too_few_communities st) ->
  fill bin_fill fuel cfg st = Ok st' ->
  forall c, In c (communities st) -> Community.too_few c = 0 ->
            In c (communities st')
            /\ forall node,
                nth_error (membership st) node = Some (Community.index c) ->
                nth_error (membership st') node = Some (Community.index c).
Proof.
  intros Hcons Hmin Hplain H c Hc Hok.
  pose proof Hcons as [[_ _ _ Hindex _ Hnd _ _ _ _] _].
  pose proof (invariant_accounts cfg _ st (proj1 Hcons)) as Hacc.
  unfold fill in H. rewrite Hmin in H.
  destruct (collect_small fuel true 0 [] [] st) as [[[amounts indices] st1]| |] eqn:E;
    simpl in H; try discriminate.
  destruct (collect_small_spec true fuel 0 [] [] st Hacc) as [_ Hspec].
  destruct (Hspec _ _ _ E)
    as (removed & Hacc1 & Hm1 & Hn1 & Ht1 & Hperm & Hamounts & Hindices & _ & Hskipped).
  simpl in Hamounts, Hindices, Hskipped.
  destruct (collect_small_removed true fuel _ _ _ _ _ _ _ E) as (extra & Hextra & Hbad).
  simpl in Hextra. subst extra.
  rewrite Forall_forall in Hskipped.
  assert (Hnd2 : NoDup (map Community.index (communities st1)
                          ++ map Community.index removed)).
  { rewrite <- map_app. eapply Permutation_NoDup; [|exact Hnd].
    apply Permutation_map. exact Hperm. }
  assert (Hremoved : forall c', In c' removed ->
                                In c' (communities st)
                                /\ negb (Community.too_few c' =? 0) = true).
  { intros c' Hc'.
    assert (Hin : In c' (communities st)).
    { apply (Permutation_in c' (Permutation_sym Hperm)). apply in_or_app. auto. }
    split; [assumption|].
    destruct (Hbad (Community.index c')) as (c2 & Hc2 & Hidx & Hs).
    { rewrite Hindices. apply in_map. assumption. }
    assert (c2 = c')
      by (apply (NoDup_map_injective Community.index (communities st)); auto).
    subst c2. unfold skipped in Hs. simpl in Hs. rewrite Hs. reflexivity. }
  assert (Hin1 : In c (communities st1)).
  { pose proof (Permutation_in c Hperm Hc) as Hin. apply in_app_or in Hin.
    destruct Hin as [Hin|Hin]; [assumption|].
    destruct (Hremoved c Hin) as [_ Hbadc]. rewrite Hok in Hbadc. discriminate. }
  assert (Hsum : sum_of Community.nodes (too_few_communities st) = np_sum amounts).
  { unfold too_few_communities.
    rewrite (sum_of_perm _ _ _ (filter_permutation _ _ _ Hperm)), filter_app.
    rewrite (filter_none _ (communities st1)), (filter_all _ removed).
    - rewrite Hamounts. reflexivity.
    - rewrite Forall_forall. intros c' Hc'. apply (Hremoved c' Hc').
    - rewrite Forall_forall. intros c' Hc'. specialize (Hskipped c' Hc').
      unfold skipped in Hskipped. simpl in Hskipped. rewrite Hskipped. reflexivity. }
  destruct (length indices =? 0)%nat eqn:Hempty.
  { injection H as <-. split; [assumption|]. rewrite Hm1. auto. }
  apply Nat.eqb_neq in Hempty.
  assert (Hplain' : must_complete_cover cfg && (np_sum amounts <? min_nodes) = false).
  { destruct Hplain as [->|Hle]; [reflexivity|].
    rewrite Hsum in Hle. apply andb_false_iff. right. apply Z.ltb_ge. assumption. }
  rewrite Hplain' in H. simpl in H.
  set (bins := bin_fill amounts min_nodes) in *.
  destruct (bin_fill_ok amounts min_nodes) as [Hlenb Hnonneg].
  fold bins in Hlenb, Hnonneg.
  assert (Hlen : length bins = length indices).
  { rewrite Hlenb, Hamounts, Hindices, !length_map. reflexivity. }
  destruct (add_bins_spec F cfg st st1 removed indices bins Hcons Hacc1 Hm1 Hn1 Hperm)
    as (st2 & top & E2 & Htop & _ & Hc2 & _); auto.
  { rewrite Hindices. apply Permutation_refl. }
  { intros ->. apply Hempty. reflexivity. }
  rewrite E2 in H. injection H as <-.
  assert (Hm2 : membership st2
                = map (bin_label (combine indices bins) (next_community_index st)
                         (fun x => x)) (membership st)).
  { unfold add_bins in E2. rewrite Htop in E2. simpl in E2.
    apply add_membership in E2. simpl in E2.
    rewrite E2, relabel_bins_id, Hn1, Hm1. reflexivity. }
  split.
  - rewrite Hc2. apply in_or_app. auto.
  - intros node Hnode. rewrite Hm2, nth_error_map, Hnode. simpl. f_equal.
    apply bin_label_other; [reflexivity|].
    rewrite map_fst_combine by lia. rewrite Hindices.
    intros Hin. apply (NoDup_app_disjoint _ _ (Community.index c) Hnd2); [|assumption].
    apply in_map. assumption.
Qed.

(** X14: from a state that [improve] goes through, [fill] retires every
    community that has too few nodes; when [must_complete_cover] is not set,
    or when the communities with too few nodes have the minimal number of
    nodes between them, it leaves every other community as it is, record and
    nodes. *)
Theorem fill_moves_the_communities_with_too_few_nodes (membership0 : list Z)
    (st0 st : Improver) (fuel : nat) (st' : Improver) (min_nodes : Z) :
  valid_input cfg membership0 ->
  init cfg membership0 = Ok st0 ->
  execution F fmean fzero partition_method cfg st0 st ->
  min_comm_nodes cfg = Some min_nodes ->
  fill bin_fill fuel cfg st = Ok st' ->
  (forall c, In c (communities st) -> Community.too_few c <> 0 ->
             ~ In (Community.index c) (map Community.index (communities st')))
  /\ (must_complete_cover cfg = false
      \/ min_nodes <= sum_of Community.nodes (too_few_communities st) ->
      forall c, In c (communities st) -> Community.too_few c = 0 ->
                In c (communities st')
                /\ forall node,
                    nth_error (membership st) node = Some (Community.index c) ->
                    nth_error (membership st') node = Some (Community.index c)).
Proof.
  intros Hvalid E0 Hexec Hmin H.
  destruct (init_good cfg membership0 Hvalid) as (st0' & E0' & Hgood0 & _).
  rewrite E0 in E0'. injection E0' as <-.
  pose proof (execution_good F fmean fzero partition_method cfg partition_method_ok
                st0 st Hexec Hgood0) as [Hcons _].
  split.
  - intros c Hc Hfew. apply (fill_retires fuel st st' min_nodes Hcons Hmin H c Hc Hfew).
    intros Hnil. unfold too_few_communities in Hnil.
    assert (Hin : In c (filter (fun c => negb (Community.too_few c =? 0)) (communities st))).
    { apply filter_In. split; [assumption|]. apply negb_true_iff. apply Z.eqb_neq.
      assumption. }
    rewrite Hnil in Hin. contradiction.
  - intros Hplain. apply (fill_keeps fuel st st' min_nodes Hcons Hmin Hplain H).
Qed.

End FillMoves.

Definition two_lone_nodes : Config Z :=
  {| edge_weights := [[0; 1; 1; 1]; [1; 0; 1; 1]; [1; 1; 0; 1]; [1; 1; 1; 0]];
     node_sizes := Some [1; 1; 1; 1];
     target_comm_size := 2;
     must_complete_cover := true;
     min_comm_size := None;
     max_comm_size := None;
     min_comm_nodes := Some 2;
     random_seed := 123456 |}.

Lemma valid_two_lone_nodes : valid_input two_lone_nodes [0; 0; 1; 2].
Proof.
  split; [discriminate|]. split; [|split; reflexivity].
  intros g [<-|[<-|[<-|[<-|[]]]]]; (split; [lia|]); intros h Hh; simpl.
  - lia.
  - lia.
  - left. lia.
  - assert (Hcases : h = 0 \/ h = 1) by lia. destruct Hcases as [->| ->]; auto.
Qed.

Lemma fill_moves_the_communities_with_too_few_nodes_witness :
  exists st0 st',
    valid_input two_lone_nodes [0; 0; 1; 2]
    /\ init two_lone_nodes [0; 0; 1; 2] = Ok st0
    /\ fill bin_fill 10 two_lone_nodes st0 = Ok st'
    /\ membership st' = [0; 0; 3; 3]
    /\ map Community.index (communities st') = [0; 3]
    /\ 2 <= sum_of Community.nodes (too_few_communities st0)
    /\ forall c, In c (communities st0) -> Community.too_few c = 0 ->
                 In c (communities st').
Proof.
  let v := eval vm_compute in (init two_lone_nodes [0; 0; 1; 2]) in
  match v with Ok ?s => pose (st0 := s) end.
  let v := eval vm_compute in (fill bin_fill 10 two_lone_nodes st0) in
  match v with Ok ?s => pose (st' := s) end.
  exists st0, st'.
  assert (E0 : init two_lone_nodes [0; 0; 1; 2] = Ok st0) by reflexivity.
  assert (E1 : fill bin_fill 10 two_lone_nodes st0 = Ok st') by (vm_compute; reflexivity).
  assert (Hsum : 2 <= sum_of Community.nodes (too_few_communities st0))
    by (vm_compute; discriminate).
  split; [exact valid_two_lone_nodes|].
  split; [exact E0|]. split; [exact E1|].
  split; [reflexivity|]. split; [reflexivity|]. split; [exact Hsum|].
  pose proof (fill_moves_the_communities_with_too_few_nodes Z zmean 0 first_apart bin_fill
                two_lone_nodes first_apart_contract bin_fill_contract [0; 0; 1; 2] st0 st0
                10 st' 2 valid_two_lone_nodes E0 (rt_refl _ _ st0) eq_refl E1) as [_ H].
  intros c Hc Hv. exact (proj1 (H (or_intror Hsum) c Hc Hv)).
Defined.

(** * Seeds of the downsampled vectors *)

(** X15: the seed given to a vector is zero exactly when the random seed is
    zero or the vector's index is the opposite of the random seed; with a
    random seed other than zero, two vectors that get the same seed are the
    same vector. *)
Theorem vector_seeds_are_distinct_unless_unseeded (random_seed : Z) :
  (forall index,
      index_seed random_seed index = 0 <-> random_seed = 0 \/ index = - random_seed)
  /\ (random_seed <> 0 ->
      forall index other,
        index_seed random_seed index = index_seed random_seed other -> index = other).
Proof.
  unfold index_seed. destruct (random_seed =? 0) eqn:E; simpl.
  - apply Z.eqb_eq in E. split; [intros index; split; auto|]. intros H. contradiction.
  - apply Z.eqb_neq in E. split; [intros index; split; [right|intros [H|H]]; lia|].
    intros _ index other H. lia.
Qed.

